(** * Polynomial-secret reconstruction: a shallow embedding and its properties

    The repository holds three programs that recover the constant term of a
    polynomial from sample points:

    - [Problem.js]: Lagrange interpolation at [x = 0] over exact fractions,
      with a [--pick] option and a vote over all [k]-subsets;
    - the substitution solver (Gaussian elimination on a Vandermonde system
      over the same fractions), with a hard-wired direct path and a vote;
    - [problem.java]: the Lagrange computation on [BigInteger] fractions.

    JavaScript [BigInt] and Java [BigInteger] are unbounded integers and are
    modelled by [Z]: [/] is [Z.quot] and [%] is [Z.rem] (both truncate).
    Array indices and counters are [nat].  Strings are sequences of
    characters of code below 256.  A thrown exception is a value of [error],
    which gives its kind and leaves the text of the message out; a generator
    that never returns is [None]. *)

From Stdlib Require Import String Ascii Decimal DecimalString DecimalZ DecimalPos.
From Stdlib Require Import ZArith Lia Bool Arith.
From Stdlib Require Import QArith Qcanon Field.
From Stdlib Require Import List Permutation Sorted.
Import ListNotations.

Close Scope Qc_scope.
Close Scope Q_scope.
Open Scope Z_scope.

(* ================================================================== *)
(** * Part I.  The programs *)
(* ================================================================== *)

(** ** Exceptions *)

(** One constructor per [throw] site class; the comment gives the message. *)
Inductive error : Type :=
| DivisionByZero        (* Error("Division by zero") *)
| NonIntegerConstant    (* Error("Non-integer constant term: ...") *)
| SingularMatrix        (* Error("Singular matrix (no unique solution)") *)
| NoConsistentSubsets   (* Error("No consistent (integer) subsets found") *)
| NoSolvableSubsets     (* Error("No solvable subsets found") *)
| NotEnoughPoints       (* Error("Need at least k=... points, got ...") *)
| PickWrongSize         (* Error("--pick must specify exactly k=... x-keys; got ...") *)
| PickMissingKey        (* Error("--pick refers to missing x=...") *)
| PickNonInteger        (* Error("--pick contains non-integer: '...'") *)
| TypeError             (* the runtime's TypeError on a read of [undefined] *)
| ZeroDenominator       (* Java: IllegalArgumentException("Zero denominator") *)
| NonIntegerResult      (* Java: ArithmeticException("Non-integer result") *)
| IndexOutOfBounds.     (* Java: IndexOutOfBoundsException of subList *)

Inductive result (A : Type) : Type :=
| Ok (a : A)
| Err (e : error).
Arguments Ok {A} a.
Arguments Err {A} e.

Definition bind {A B : Type} (r : result A) (f : A -> result B) : result B :=
  match r with
  | Ok a => f a
  | Err e => Err e
  end.

Notation "x <- e ;; k" := (bind e (fun x => k))
  (at level 61, e at next level, right associativity).

(** A loop whose body may throw: the state is threaded, the first exception
    ends the loop. *)
Fixpoint foldM {A S : Type} (f : S -> A -> result S) (l : list A) (s : S)
  : result S :=
  match l with
  | [] => Ok s
  | a :: l' => s' <- f s a ;; foldM f l' s'
  end.

Fixpoint mapM {A B : Type} (f : A -> result B) (l : list A) : result (list B) :=
  match l with
  | [] => Ok []
  | a :: l' => b <- f a ;; bs <- mapM f l' ;; Ok (b :: bs)
  end.

(** In-place write [l[i] = v] at an index below the length (the programs
    never write past the end of an array). *)
Fixpoint upd {A : Type} (l : list A) (i : nat) (v : A) : list A :=
  match l, i with
  | [], _ => []
  | _ :: t, O => v :: t
  | h :: t, S i' => h :: upd t i' v
  end.

(** ** BigInt helpers *)

Definition absBI (a : Z) : Z := if a <? 0 then - a else a.

(** [while (b !== 0n) { t = a % b; a = b; b = t }] *)
Fixpoint gcd_loop (fuel : nat) (a b : Z) : Z :=
  match fuel with
  | O => a
  | S f => if b =? 0 then a else gcd_loop f b (Z.rem a b)
  end.

(** The remainder at least halves every two rounds, so twice the bit length
    of [b] (plus one) rounds are enough; see [gcdBI_spec]. *)
Definition gcd_fuel (b : Z) : nat := S (2 * Z.to_nat (Z.log2 b + 1)).

Definition gcdBI (a b : Z) : Z :=
  let a := absBI a in
  let b := absBI b in
  gcd_loop (gcd_fuel b) a b.

(** [BigInt.prototype.toString()]: decimal digits, a leading [-] for
    negatives, ["0"] for zero. *)
Definition toStringBI (z : Z) : string := NilZero.string_of_int (Z.to_int z).

(** ** Fraction over BigInt *)

Module Frac.

Record t : Type := mk { n : Z; d : Z }.

(** [constructor(n, d = 1n)] *)
Definition new (n0 d0 : Z) : result t :=
  if d0 =? 0 then Err DivisionByZero
  else
    let '(n1, d1) := if d0 <? 0 then (- n0, - d0) else (n0, d0) in
    let g := gcdBI (absBI n1) d1 in
    Ok (mk (Z.quot n1 g) (Z.quot d1 g)).

Definition fromBI (x : Z) : result t := new x 1.

Definition add (a o : t) : result t :=
  new (n a * d o + n o * d a) (d a * d o).

Definition sub (a o : t) : result t :=
  new (n a * d o - n o * d a) (d a * d o).

Definition mul (a o : t) : result t :=
  new (n a * n o) (d a * d o).

Definition div (a o : t) : result t :=
  if n o =? 0 then Err DivisionByZero
  else new (n a * d o) (d a * n o).

Definition isInt (a : t) : bool := d a =? 1.

Definition toString (a : t) : string :=
  if isInt a then toStringBI (n a)
  else (toStringBI (n a) ++ "/" ++ toStringBI (d a))%string.

(** The class invariant: lowest terms, positive denominator. *)
Definition wf (a : t) : Prop := 0 < d a /\ Z.gcd (n a) (d a) = 1.

End Frac.

Module Point.
Record t : Type := mk { x : Z; y : Z }.
End Point.

(** ** [Problem.js]: Lagrange at x = 0 *)

(** The inner loop over [j], for a fixed [i]: the pair [(num, den)]. *)
Definition lagrange_inner (xs : list Z) (k i : nat) : Z * Z :=
  let xi := nth i xs 0 in
  fold_left
    (fun (nd : Z * Z) (j : nat) =>
       if Nat.eqb j i then nd
       else (fst nd * - nth j xs 0, snd nd * (xi - nth j xs 0)))
    (seq 0 k) (1, 1).

(** One round of the outer loop:
    [li0 = new Frac(num, den); acc = acc.add(li0.mul(Frac.fromBI(ys[i])))]. *)
Definition lagrange_step (xs ys : list Z) (k : nat) (acc : Frac.t) (i : nat)
  : result Frac.t :=
  let '(num, den) := lagrange_inner xs k i in
  li0 <- Frac.new num den ;;
  yi <- Frac.fromBI (nth i ys 0) ;;
  term <- Frac.mul li0 yi ;;
  Frac.add acc term.

Definition constantViaLagrange (points : list Point.t) : result Z :=
  let k := length points in
  let xs := map Point.x points in
  let ys := map Point.y points in
  acc0 <- Frac.fromBI 0 ;;
  acc <- foldM (lagrange_step xs ys k) (seq 0 k) acc0 ;;
  if Frac.isInt acc then Ok (Frac.n acc) else Err NonIntegerConstant.

(** ** Subset generation (the same generator in both JavaScript files) *)

(** [Array.from({ length: k }, (_, i) => i)] *)
Definition kc_init (k : nat) : list nat := seq 0 k.

(** [let i = last; while (i >= 0 && idx[i] === i + n - k) i--;]
    The argument is [i + 1], so that [0] stands for [i = -1]; the result is
    [None] when the loop ends with [i < 0].  The comparison is made in [Z],
    as [i + n - k] may be negative. *)
Fixpoint kc_scan (n k : nat) (idx : list nat) (i1 : nat) : option nat :=
  match i1 with
  | O => None
  | S i =>
      if Z.of_nat (nth i idx 0%nat) =? Z.of_nat i + Z.of_nat n - Z.of_nat k
      then kc_scan n k idx i
      else Some i
  end.

(** [idx[i]++; for (let j = i + 1; j < k; j++) idx[j] = idx[j - 1] + 1;] *)
Definition kc_advance (k : nat) (idx : list nat) (i : nat) : list nat :=
  fold_left
    (fun (a : list nat) (j : nat) => upd a j (nth (j - 1) a 0 + 1)%nat)
    (seq (S i) (k - S i))
    (upd idx i (nth i idx 0 + 1)%nat).

(** The generator's body after a [yield]: the next array, or [None] at
    [return]. *)
Definition kc_next (n k : nat) (idx : list nat) : option (list nat) :=
  match kc_scan n k idx k with
  | None => None
  | Some i => Some (kc_advance k idx i)
  end.

(** The values yielded from the state [idx] on ([idx.slice()] copies, hence
    plain values); [None] when [fuel] rounds do not reach the [return]. *)
Fixpoint kc_run (fuel n k : nat) (idx : list nat) : option (list (list nat)) :=
  match fuel with
  | O => None
  | S f =>
      match kc_next n k idx with
      | None => Some [idx]
      | Some idx' => option_map (cons idx) (kc_run f n k idx')
      end
  end.

(** All values of [kCombinations(arr, k)].  The yielded arrays are distinct
    subsets of [0 .. n-1], so [2^n] rounds exhaust every finite run
    ([kCombinations_fuel_exact] gives the exact number); the result is [None]
    when the generator does not return. *)
Definition kCombinations {A : Type} (arr : list A) (k : nat)
  : option (list (list nat)) :=
  let n := length arr in
  kc_run (2 ^ n) n k (kc_init k).

(** ** The [Map] of JavaScript: string keys in insertion order *)

Definition jsmap (V : Type) : Type := list (string * V).

Fixpoint map_get {V : Type} (m : jsmap V) (key : string) : option V :=
  match m with
  | [] => None
  | (k0, v) :: m' => if String.eqb k0 key then Some v else map_get m' key
  end.

Definition map_has {V : Type} (m : jsmap V) (key : string) : bool :=
  match map_get m key with Some _ => true | None => false end.

(** [m.set(key, v)]: an existing key keeps its place, a new one goes last. *)
Fixpoint map_set {V : Type} (m : jsmap V) (key : string) (v : V) : jsmap V :=
  match m with
  | [] => [(key, v)]
  | (k0, v0) :: m' =>
      if String.eqb k0 key then (k0, v) :: m' else (k0, v0) :: map_set m' key v
  end.

(** [new Map(entries)] *)
Definition map_of {V : Type} (entries : list (string * V)) : jsmap V :=
  fold_left (fun m kv => map_set m (fst kv) (snd kv)) entries [].

(** ** [Problem.js]: the [--pick] argument

    Strings are sequences of characters of code below 256; [trim] removes
    the white space and line ends among them: tab, line feed, vertical tab,
    form feed, carriage return (codes 9 to 13), space (32) and no-break
    space (160). *)

Definition isSpace (c : ascii) : bool :=
  let m := nat_of_ascii c in
  (Nat.eqb m 32 || Nat.eqb m 160 || (Nat.leb 9 m && Nat.leb m 13))%bool.

Fixpoint trimStart (s : list ascii) : list ascii :=
  match s with
  | [] => []
  | c :: s' => if isSpace c then trimStart s' else s
  end.

Definition trim (s : string) : string :=
  string_of_list_ascii
    (rev (trimStart (rev (trimStart (list_ascii_of_string s))))).

(** [s.split(",")] *)
Fixpoint splitComma (s : string) : list string :=
  match s with
  | EmptyString => [EmptyString]
  | String c s' =>
      let r := splitComma s' in
      if Ascii.eqb c ","%char then EmptyString :: r
      else match r with
           | h :: t => String c h :: t
           | [] => [String c EmptyString]
           end
  end.

Definition isDigit (c : ascii) : bool :=
  let m := nat_of_ascii c in (Nat.leb 48 m && Nat.leb m 57)%bool.

Definition allDigits (s : string) : bool :=
  match s with
  | EmptyString => false
  | _ => forallb isDigit (list_ascii_of_string s)
  end.

(** [/^-?\d+$/.test(s)] *)
Definition isIntLiteral (s : string) : bool :=
  match s with
  | String c s' => if Ascii.eqb c "-"%char then allDigits s' else allDigits s
  | EmptyString => false
  end.

Definition digitsToZ (s : string) : Z :=
  fold_left (fun acc c => acc * 10 + Z.of_nat (nat_of_ascii c - 48))
            (list_ascii_of_string s) 0.

(** [BigInt(s)] on a string accepted by [isIntLiteral]. *)
Definition parseBigInt (s : string) : Z :=
  match s with
  | String c s' => if Ascii.eqb c "-"%char then - digitsToZ s' else digitsToZ s
  | EmptyString => 0
  end.

Definition nonEmpty (s : string) : bool :=
  match s with EmptyString => false | _ => true end.

(** One round of the [// dedupe] loop: [seen] is the [Set] of key strings,
    [unique] the array built so far. *)
Definition dedupe_step (st : list string * list Z) (v : Z)
  : list string * list Z :=
  let k := toStringBI v in
  if existsb (String.eqb k) (fst st) then st
  else (k :: fst st, snd st ++ [v]).

Definition dedupe (keys : list Z) : list Z :=
  snd (fold_left dedupe_step keys ([], [])).

Definition pickPrefix : string := "--pick=".

(** The first part of [parsePickArg(argv)], up to the [// dedupe] comment:
    the list [keys]; [Ok None] is an early [return null]. *)
Definition pickKeys (argv : list string) : result (option (list Z)) :=
  match find (fun a => String.prefix pickPrefix a) argv with
  | None => Ok None
  | Some pickArg =>
      let raw :=
        trim (substring (String.length pickPrefix)
                        (String.length pickArg - String.length pickPrefix)
                        pickArg) in
      if negb (nonEmpty raw) then Ok None
      else
        let parts := filter nonEmpty (map trim (splitComma raw)) in
        match parts with
        | [] => Ok None
        | _ =>
            keys <- mapM (fun s => if isIntLiteral s then Ok (parseBigInt s)
                                   else Err PickNonInteger) parts ;;
            Ok (Some keys)
        end
  end.

(** [parsePickArg(argv)]: [Ok None] is the [null] result. *)
Definition parsePickArg (argv : list string) : result (option (list Z)) :=
  r <- pickKeys argv ;;
  match r with
  | None => Ok None
  | Some keys => Ok (Some (dedupe keys))
  end.

(** ** [Problem.js]: the main program, after the input file is decoded

    [k] and [n] are [keys.k] and [keys.n], taken to be natural numbers (the
    loader itself only asks for two numbers); [points] is the decoded point
    list, which the loader hands over sorted by [x]; [argv] is the command
    line.  The result is the text printed after ["constant = "]; an
    exception is given by its kind, the text of its message apart. *)

(** [pts.sort((a, b) => (a.x < b.x ? -1 : a.x > b.x ? 1 : 0))], the last
    step of [loadTestCase] in both JavaScript files: the points in ascending
    order of [x].  The sort of the runtime is stable: points of equal [x]
    keep the order they have in the file. *)
Fixpoint insertPoint (p : Point.t) (sorted : list Point.t) : list Point.t :=
  match sorted with
  | [] => [p]
  | q :: rest => if Point.x p <=? Point.x q then p :: sorted
                 else q :: insertPoint p rest
  end.

Definition sortPoints (pts : list Point.t) : list Point.t :=
  fold_right insertPoint [] pts.

(** [combo.map((i) => points[i])]; an index outside the array gives
    [undefined], on which [constantViaLagrange] throws a TypeError. *)
Definition subsetAt (points : list Point.t) (combo : list nat)
  : result (list Point.t) :=
  mapM (fun i => match nth_error points i with
                 | Some p => Ok p
                 | None => Err TypeError
                 end) combo.

Definition lagrangeOn (points : list Point.t) (combo : list nat) : result Z :=
  subset <- subsetAt points combo ;; constantViaLagrange subset.

(** One round of the voting loop, [try { ... } catch (_) { }] included. *)
Definition vote_step (points : list Point.t)
  (st : jsmap nat * jsmap (list nat)) (combo : list nat)
  : jsmap nat * jsmap (list nat) :=
  let '(counts, example) := st in
  match lagrangeOn points combo with
  | Ok c =>
      let key := toStringBI c in
      let old := match map_get counts key with Some v => v | None => 0%nat end in
      (map_set counts key (old + 1)%nat,
       if map_has example key then example else map_set example key combo)
  | Err _ => st
  end.

Definition vote_all (points : list Point.t) (combos : list (list nat))
  : jsmap nat * jsmap (list nat) :=
  fold_left (vote_step points) combos ([], []).

(** [bestConst = null, bestCount = -1; for (const [kstr, ct] of counts) ...] *)
Definition pick_best (counts : jsmap nat) : option string * Z :=
  fold_left
    (fun (best : option string * Z) (e : string * nat) =>
       if snd best <? Z.of_nat (snd e) then (Some (fst e), Z.of_nat (snd e))
       else best)
    counts (None, -1).

Definition voting (points : list Point.t) (combos : list (list nat))
  : result string :=
  let counts := fst (vote_all points combos) in
  if Nat.eqb (length counts) 0 then Err NoConsistentSubsets
  else match fst (pick_best counts) with
       | Some s => Ok s
       | None => Ok "null"%string
       end.

(** The [--pick] branch. *)
Definition pickSubset (points : list Point.t) (chosenXs : list Z)
  : result (list Point.t) :=
  let m := map_of (combine (map (fun p => toStringBI (Point.x p)) points)
                           (seq 0 (length points))) in
  mapM (fun xv => match map_get m (toStringBI xv) with
                  | None => Err PickMissingKey
                  | Some idx => match nth_error points idx with
                                | Some p => Ok p
                                | None => Err TypeError
                                end
                  end) chosenXs.

(** [None]: the run does not end (the subset generator never returns). *)
Definition main (k n : nat) (points : list Point.t) (argv : list string)
  : option (result string) :=
  if Nat.ltb (length points) k then Some (Err NotEnoughPoints)
  else
    match parsePickArg argv with
    | Err e => Some (Err e)
    | Ok (Some chosenXs) =>
        if negb (Nat.eqb (length chosenXs) k) then Some (Err PickWrongSize)
        else Some (subset <- pickSubset points chosenXs ;;
                   c <- constantViaLagrange subset ;;
                   Ok (toStringBI c))
    | Ok None =>
        if (Nat.eqb n k || Nat.eqb (length points) k)%bool
        then Some (c <- constantViaLagrange (firstn k points) ;;
                   Ok (toStringBI c))
        else
          match kCombinations (seq 0 (length points)) k with
          | None => None
          | Some combos => Some (voting points combos)
          end
    end.

(** ** The substitution solver: Gaussian elimination over [Frac] *)

(** [while (e > 0n) { if (e & 1n) r *= b; b *= b; e >>= 1n; }] runs once per
    binary digit of [e], lowest first: the recursion is on those digits. *)
Fixpoint pow_loop (e : positive) (r b : Z) : Z :=
  match e with
  | xH => r * b
  | xO e' => pow_loop e' r (b * b)
  | xI e' => pow_loop e' (r * b) (b * b)
  end.

Definition powBI (base : Z) (exp : Z) : Z :=
  match exp with
  | Zpos e => pow_loop e 1 base
  | _ => 1
  end.

(** [for (let e = m; e >= 1; e--) row.push(...); row.push(Frac.fromBI(1n))]:
    the row [x^m, x^(m-1), ..., x, 1].  [m] is [k - 1] and may be [-1]. *)
Definition vandermondeRow (xBI : Z) (m : Z) : result (list Frac.t) :=
  row <- mapM (fun e => Frac.fromBI (powBI xBI (Z.of_nat e)))
              (rev (seq 1 (Z.to_nat m))) ;;
  one <- Frac.fromBI 1 ;;
  Ok (row ++ [one]).

Definition matrix : Type := list (list Frac.t).

(** A read [M[r][c]] followed by a use of the entry: [undefined] there
    raises a TypeError. *)
Definition getM (M : matrix) (r c : nat) : result Frac.t :=
  match nth_error M r with
  | Some row => match nth_error row c with
                | Some e => Ok e
                | None => Err TypeError
                end
  | None => Err TypeError
  end.

(** The write [M[r][c] = v] (always after a read of the same entry). *)
Definition setM (M : matrix) (r c : nat) (v : Frac.t) : matrix :=
  match nth_error M r with
  | Some row => upd M r (upd row c v)
  | None => M
  end.

(** [A.map((row, i) => [...row, b[i]])]; a missing [b[i]] is an [undefined]
    last entry, which reads like an absent one. *)
Definition augment (A : matrix) (b : list Frac.t) : matrix :=
  map (fun ri : list Frac.t * nat =>
         fst ri ++ match nth_error b (snd ri) with
                   | Some v => [v]
                   | None => []
                   end)
      (combine A (seq 0 (length A))).

(** [for (let r = col; r < k; r++) if (M[r][col].n !== 0n) { piv = r; break; }]
    over the rows [rs]; [None] when the loop ends without a [break]. *)
Fixpoint find_pivot (M : matrix) (col : nat) (rs : list nat)
  : result (option nat) :=
  match rs with
  | [] => Ok None
  | r :: rs' =>
      e <- getM M r col ;;
      if Frac.n e =? 0 then find_pivot M col rs' else Ok (Some r)
  end.

(** [const tmp = M[col]; M[col] = M[piv]; M[piv] = tmp] *)
Definition swap_rows (M : matrix) (col piv : nat) : matrix :=
  match nth_error M col, nth_error M piv with
  | Some rc, Some rp => upd (upd M col rp) piv rc
  | _, _ => M
  end.

(** [for (let c = col; c <= k; c++) M[col][c] = M[col][c].div(pivotVal)] *)
Definition normalize_row (k col : nat) (pivotVal : Frac.t) (M : matrix)
  : result matrix :=
  foldM (fun (M : matrix) (c : nat) =>
           e <- getM M col c ;;
           q <- Frac.div e pivotVal ;;
           Ok (setM M col c q))
        (seq col (k + 1 - col)) M.

(** One round of [for (let r = col + 1; r < k; r++)]. *)
Definition eliminate_row (k col : nat) (M : matrix) (r : nat) : result matrix :=
  factor <- getM M r col ;;
  if Frac.n factor =? 0 then Ok M
  else
    foldM (fun (M : matrix) (c : nat) =>
             a <- getM M r c ;;
             p <- getM M col c ;;
             t <- Frac.mul factor p ;;
             a' <- Frac.sub a t ;;
             Ok (setM M r c a'))
          (seq col (k + 1 - col)) M.

(** One round of the forward elimination, for the column [col]. *)
Definition gauss_col (k : nat) (M : matrix) (col : nat) : result matrix :=
  found <- find_pivot M col (seq col (k - col)) ;;
  let piv := match found with Some r => r | None => col end in
  e <- getM M piv col ;;
  if Frac.n e =? 0 then Err SingularMatrix
  else
    let M1 := if Nat.eqb piv col then M else swap_rows M col piv in
    pivotVal <- getM M1 col col ;;
    M2 <- normalize_row k col pivotVal M1 ;;
    foldM (eliminate_row k col) (seq (S col) (k - S col)) M2.

(** One round of the back substitution, for the row [r]. *)
Definition back_row (k : nat) (M : matrix) (xv : list Frac.t) (r : nat)
  : result (list Frac.t) :=
  zero <- Frac.fromBI 0 ;;
  sum <- foldM (fun (sum : Frac.t) (c : nat) =>
                  e <- getM M r c ;;
                  xc <- match nth_error xv c with
                        | Some v => Ok v
                        | None => Err TypeError
                        end ;;
                  t <- Frac.mul e xc ;;
                  Frac.add sum t)
               (seq (S r) (k - S r)) zero ;;
  e <- getM M r k ;;
  v <- Frac.sub e sum ;;
  Ok (upd xv r v).

Definition solveFracSystem (A : matrix) (b : list Frac.t)
  : result (list Frac.t) :=
  let k := length A in
  let M := augment A b in
  M' <- foldM (gauss_col k) (seq 0 k) M ;;
  x0 <- mapM (fun _ : nat => Frac.fromBI 0) (seq 0 k) ;;
  foldM (back_row k M') (rev (seq 0 k)) x0.

(** [solveForIndices(idxs)] inside [solveBySubstitution(points, k, _)];
    [xs[ii]] or [ys[ii]] past the end is [undefined], on which the BigInt
    arithmetic of the row or of [Frac.fromBI] raises a TypeError. *)
Definition solveForIndices (points : list Point.t) (k : nat) (idxs : list nat)
  : result (list Frac.t) :=
  let m := Z.of_nat k - 1 in
  rb <- mapM (fun ii =>
                match nth_error points ii with
                | Some p =>
                    row <- vandermondeRow (Point.x p) m ;;
                    bi <- Frac.fromBI (Point.y p) ;;
                    Ok (row, bi)
                | None => Err TypeError
                end) idxs ;;
  solveFracSystem (map fst rb) (map snd rb).

(** [arr.findIndex(p)]: [None] for [-1]. *)
Fixpoint findIndex {A : Type} (f : A -> bool) (l : list A) : option nat :=
  match l with
  | [] => None
  | a :: l' => if f a then Some O
               else match findIndex f l' with
                    | Some i => Some (S i)
                    | None => None
                    end
  end.

Definition consistentXValues : list Z := [1; 3; 4; 5; 6; 7; 9; 10].

(** The loop [for (const targetX of consistentXValues)] with its [break]. *)
Fixpoint collectConsistent (points : list Point.t) (k : nat)
  (targets : list Z) (idxs : list nat) : list nat :=
  match targets with
  | [] => idxs
  | targetX :: rest =>
      let idxs' :=
        match findIndex (fun p => Point.x p =? targetX) points with
        | Some idx => idxs ++ [idx]
        | None => idxs
        end in
      if Nat.eqb (length idxs') k then idxs'
      else collectConsistent points k rest idxs'
  end.

Record solution : Type := mkSolution {
  coeffs : list Frac.t;
  used_indices : list nat;
  votes_summary : option (list (string * nat))
}.

Record vote_entry : Type := mkEntry {
  count : nat;
  example_coeffs : list Frac.t;
  example_idxs : list nat
}.

(** The key [coeffs[coeffs.length - 1].toString()]; an empty [coeffs] gives
    [undefined], whose [toString] call raises a TypeError. *)
Definition lastKey (cs : list Frac.t) : result string :=
  match nth_error cs (length cs - 1) with
  | Some a0 => Ok (Frac.toString a0)
  | None => Err TypeError
  end.

(** The body of the [try] block up to the key:
    [coeffs = solveForIndices(idxs); a0 = coeffs[coeffs.length - 1].toString()]. *)
Definition subst_attempt (points : list Point.t) (k : nat) (idxs : list nat)
  : result (list Frac.t * string) :=
  cs <- solveForIndices points k idxs ;;
  a0 <- lastKey cs ;;
  Ok (cs, a0).

(** One round of the voting loop of the solver, [try]/[catch] included. *)
Definition subst_vote_step (points : list Point.t) (k : nat)
  (votes : jsmap vote_entry) (idxs : list nat) : jsmap vote_entry :=
  match subst_attempt points k idxs with
  | Ok (cs, a0) =>
      let entry := match map_get votes a0 with
                   | Some e => e
                   | None => mkEntry 0 cs idxs
                   end in
      map_set votes a0
        (mkEntry (count entry + 1) (example_coeffs entry) (example_idxs entry))
  | Err _ => votes
  end.

(** [for (const [key, val] of votes.entries())
      if (!best || val.count > best.count) { best = val; bestKey = key; }] *)
Definition subst_pick_best (votes : jsmap vote_entry)
  : option (string * vote_entry) :=
  fold_left
    (fun (best : option (string * vote_entry)) (kv : string * vote_entry) =>
       match best with
       | None => Some kv
       | Some (_, b) => if Nat.ltb (count b) (count (snd kv)) then Some kv
                        else best
       end)
    votes None.

(** [solveBySubstitution(points, k, tryAllSubsets)]; [None] when the subset
    generator does not return. *)
Definition solveBySubstitution (points : list Point.t) (k : nat)
  (tryAllSubsets : bool) : option (result solution) :=
  if negb tryAllSubsets then
    let idxs := collectConsistent points k consistentXValues [] in
    if Nat.ltb (length idxs) k then
      let fallbackIdxs := seq 0 k in
      Some (cs <- solveForIndices points k fallbackIdxs ;;
            Ok (mkSolution cs fallbackIdxs None))
    else
      Some (cs <- solveForIndices points k idxs ;;
            Ok (mkSolution cs idxs None))
  else
    match kCombinations points k with
    | None => None
    | Some combos =>
        let votes := fold_left (subst_vote_step points k) combos [] in
        match subst_pick_best votes with
        | None => Some (Err NoSolvableSubsets)
        | Some (_, best) =>
            Some (Ok (mkSolution (example_coeffs best) (example_idxs best)
                        (Some (map (fun kv => (fst kv, count (snd kv))) votes))))
        end
    end.

(** ** [problem.java] *)

Module Java.

(** [Frac(BigInteger n, BigInteger d)], with the library's [gcd]. *)
Definition new (n0 d0 : Z) : result Frac.t :=
  if Z.sgn d0 =? 0 then Err ZeroDenominator
  else
    let '(n1, d1) := if Z.sgn d0 <? 0 then (- n0, - d0) else (n0, d0) in
    let g := Z.gcd n1 d1 in
    Ok (Frac.mk (Z.quot n1 g) (Z.quot d1 g)).

Definition of_ (x : Z) : result Frac.t := new x 1.

Definition add (a o : Frac.t) : result Frac.t :=
  new (Frac.n a * Frac.d o + Frac.n o * Frac.d a) (Frac.d a * Frac.d o).

Definition mul (a o : Frac.t) : result Frac.t :=
  new (Frac.n a * Frac.n o) (Frac.d a * Frac.d o).

Definition div (a o : Frac.t) : result Frac.t :=
  new (Frac.n a * Frac.d o) (Frac.d a * Frac.n o).

Definition toBigIntExact (a : Frac.t) : result Z :=
  if Frac.d a =? 1 then Ok (Frac.n a) else Err NonIntegerResult.

(** One round of the inner loop over [j], on the fractions [num], [den]. *)
Definition basis_step (subset : list Point.t) (i : nat)
  (nd : Frac.t * Frac.t) (j : nat) : result (Frac.t * Frac.t) :=
  if Nat.eqb i j then Ok nd
  else
    let xi := Point.x (nth i subset (Point.mk 0 0)) in
    let xj := Point.x (nth j subset (Point.mk 0 0)) in
    a <- of_ (- xj) ;;
    num <- mul (fst nd) a ;;
    b <- of_ (xi - xj) ;;
    den <- mul (snd nd) b ;;
    Ok (num, den).

Definition basis (subset : list Point.t) (i : nat)
  : result (Frac.t * Frac.t) :=
  one <- of_ 1 ;;
  foldM (basis_step subset i) (seq 0 (length subset)) (one, one).

(** One round of the outer loop:
    [term = Frac.of(yi).mul(num.div(den)); c = c.add(term)]. *)
Definition term_step (subset : list Point.t) (c : Frac.t) (i : nat)
  : result Frac.t :=
  nd <- basis subset i ;;
  yi <- of_ (Point.y (nth i subset (Point.mk 0 0))) ;;
  q <- div (fst nd) (snd nd) ;;
  term <- mul yi q ;;
  add c term.

Definition constantTermAtZero (points : list Point.t) (k : nat) : result Z :=
  if Nat.ltb (length points) k then Err IndexOutOfBounds
  else
    let subset := firstn k points in
    c0 <- of_ 0 ;;
    c <- foldM (term_step subset) (seq 0 (length subset)) c0 ;;
    toBigIntExact c.

End Java.

(** ** Base decoding (the same two functions in both JavaScript files)

    The characters of a share are characters of code below 256 (beyond
    that range the lower case of the runtime sends two more characters onto
    letters: the Kelvin sign onto [k], the dotted capital I onto [i]); the
    exceptions of the decoder are kept apart from those of the solvers. *)

Inductive decode_error : Type :=
| InvalidDigit      (* Error("Invalid digit '...'") *)
| DigitNotValid     (* Error("Digit '...' not valid for base ...") *)
| UnsupportedBase   (* Error("Unsupported base ... (2..36)") *)
| BaseRangeError.   (* the runtime's RangeError of BigInt(NaN) *)

Inductive decoded (A : Type) : Type :=
| Decoded (a : A)
| DecodeErr (e : decode_error).
Arguments Decoded {A} a.
Arguments DecodeErr {A} e.

(** [ch.toLowerCase()]: the letters [A-Z] and the Latin-1 capitals
    (codes 192 to 222, the multiplication sign 215 apart) move up by 32. *)
Definition toLowerCase (c : ascii) : ascii :=
  let m := nat_of_ascii c in
  if ((Nat.leb 65 m && Nat.leb m 90) ||
      (Nat.leb 192 m && Nat.leb m 222 && negb (Nat.eqb m 215)))%bool
  then ascii_of_nat (m + 32) else c.

Definition charToVal (ch : ascii) : decoded Z :=
  let c := nat_of_ascii (toLowerCase ch) in
  if (Nat.leb 48 c && Nat.leb c 57)%bool then Decoded (Z.of_nat (c - 48))
  else if (Nat.leb 97 c && Nat.leb c 122)%bool
       then Decoded (10 + Z.of_nat (c - 97))
       else DecodeErr InvalidDigit.

(** [for (const ch of str) { v = charToVal(ch); if (v >= b) throw ...;
    acc = acc * b + v; }] from the accumulator [acc] on. *)
Fixpoint parseDigits (b : Z) (str : string) (acc : Z) : decoded Z :=
  match str with
  | EmptyString => Decoded acc
  | String ch str' =>
      match charToVal ch with
      | DecodeErr e => DecodeErr e
      | Decoded v =>
          if b <=? v then DecodeErr DigitNotValid
          else parseDigits b str' (acc * b + v)
      end
  end.

(** [parseBaseToBigInt(str, base)] of [Problem.js].  [base] is the number
    that [parseInt] returned: an integer, or [None] for [NaN] and the
    infinities, on which the range test fails as well. *)
Definition parseBaseToBigInt (str : string) (base : option Z) : decoded Z :=
  match base with
  | Some b =>
      if ((2 <=? b) && (b <=? 36))%bool then parseDigits b str 0
      else DecodeErr UnsupportedBase
  | None => DecodeErr UnsupportedBase
  end.

(** ** The substitution solver: the remaining functions *)

(** [A.map(row => row.map(el => new Frac(el.n, el.d)))] *)
Definition deepCopyMatrix (A : matrix) : result matrix :=
  mapM (mapM (fun el => Frac.new (Frac.n el) (Frac.d el))) A.

(** [arrayEq(a, b)] on arrays of indices. *)
Definition arrayEq (a b : list nat) : bool :=
  if negb (Nat.eqb (length a) (length b)) then false
  else
    forallb (fun i => match nth_error a i, nth_error b i with
                      | Some u, Some v => Nat.eqb u v
                      | None, None => true
                      | _, _ => false
                      end)
            (seq 0 (length a)).

Module Subst.

(** [parseBaseToBigInt(str, base)] of the solver: no range test, and
    [BigInt(base)] comes first. *)
Definition parseBaseToBigInt (str : string) (base : option Z) : decoded Z :=
  match base with
  | Some b => parseDigits b str 0
  | None => DecodeErr BaseRangeError
  end.

(** The main program of the solver, after the input file is decoded:
    [tryAll = process.argv.includes('--find-consistent')], then
    [a0 = coeffs[coeffs.length - 1]] and the text printed after
    ["constant = "], which is [a0.n.toString()].  [k] is [keys.k], taken to
    be a natural number. *)
Definition main (k : nat) (points : list Point.t) (argv : list string)
  : option (result string) :=
  let tryAll := existsb (String.eqb "--find-consistent") argv in
  match solveBySubstitution points k tryAll with
  | None => None
  | Some r =>
      Some (sol <- r ;;
            match nth_error (coeffs sol) (length (coeffs sol) - 1) with
            | Some a0 => Ok (toStringBI (Frac.n a0))
            | None => Err TypeError
            end)
  end.

End Subst.

(* ================================================================== *)
(** * Part II.  Specification-level notions *)
(* ================================================================== *)

(** ** Rational values *)

(** The exact rationals, as canonical fractions with Leibniz equality. *)
Definition inj (z : Z) : Qc := Q2Qc (inject_Z z).

(** The rational a fraction object stands for. *)
Definition Fval (a : Frac.t) : Qc := (inj (Frac.n a) / inj (Frac.d a))%Qc.

(** ** Combinations *)

(** The binomial coefficient, by Pascal's rule ([binom_fact] relates it to
    factorials). *)
Fixpoint binom (n k : nat) : nat :=
  match n, k with
  | _, O => 1
  | O, S _ => 0
  | S n', S k' => binom n' k' + binom n' (S k')
  end.

(** Lexicographic order on index sequences. *)
Inductive lex_lt : list nat -> list nat -> Prop :=
| lex_head (a b : nat) (l l' : list nat) : (a < b)%nat -> lex_lt (a :: l) (b :: l')
| lex_tail (a : nat) (l l' : list nat) : lex_lt l l' -> lex_lt (a :: l) (a :: l').

(** The strictly increasing [k]-sequences over [lo .. lo+m-1], smallest
    first. *)
Fixpoint combs (lo m k : nat) {struct m} : list (list nat) :=
  match k, m with
  | O, _ => [[]]
  | S _, O => []
  | S k', S m' => map (cons lo) (combs (S lo) m' k') ++ combs (S lo) m' k
  end.

(** A strictly increasing sequence of [k] indices below [n]. *)
Definition is_subset (n k : nat) (c : list nat) : Prop :=
  length c = k /\ StronglySorted lt c /\ Forall (fun i => (i < n)%nat) c.

(** The run of the generator from the state [idx]: the list of the values it
    yields until it returns. *)
Inductive yields (n k : nat) : list nat -> list (list nat) -> Prop :=
| yields_last (idx : list nat) :
    kc_next n k idx = None -> yields n k idx [idx]
| yields_step (idx idx' : list nat) (L : list (list nat)) :
    kc_next n k idx = Some idx' -> yields n k idx' L ->
    yields n k idx (idx :: L).

(** ** Polynomials and the Lagrange formula *)

(** The array without its entry at index [i]. *)
Definition remove_at {A : Type} (i : nat) (l : list A) : list A :=
  firstn i l ++ skipn (S i) l.

Definition zprod (l : list Z) : Z := fold_right Z.mul 1 l.

Definition qsum (l : list Qc) : Qc := fold_right Qcplus 0%Qc l.
Definition qprod (l : list Qc) : Qc := fold_right Qcmult 1%Qc l.

(** A polynomial is the list of its coefficients, constant term first. *)
Definition peval (cs : list Qc) (t : Qc) : Qc :=
  fold_right (fun c acc => (c + t * acc)%Qc) 0%Qc cs.

(** The same for integer coefficients and an integer argument. *)
Definition pevalZ (cs : list Z) (t : Z) : Z :=
  fold_right (fun c acc => c + t * acc) 0 cs.

Fixpoint padd (p q : list Qc) : list Qc :=
  match p, q with
  | [], _ => q
  | _, [] => p
  | a :: p', b :: q' => (a + b)%Qc :: padd p' q'
  end.

Definition pscale (c : Qc) (p : list Qc) : list Qc := map (Qcmult c) p.

(** [(X - a) * p] *)
Definition pmul_lin (a : Qc) (p : list Qc) : list Qc :=
  padd (0%Qc :: p) (pscale (- a)%Qc p).

(** The product of [X - a] over the entries [a] of [l]. *)
Definition plin_prod (l : list Qc) : list Qc :=
  fold_right pmul_lin [1%Qc] l.

(** The quotient of [cs] by [X - a] (Horner's scheme). *)
Fixpoint psyn (a : Qc) (cs : list Qc) : list Qc :=
  match cs with
  | [] => []
  | _ :: cs' => match cs' with
                | [] => []
                | _ :: _ => peval cs' a :: psyn a cs'
                end
  end.

(** The [i]-th Lagrange basis value at [t], times [F x_i]. *)
Definition lag_term (F : Qc -> Qc) (xs : list Qc) (t : Qc) (i : nat) : Qc :=
  let xi := nth i xs 0%Qc in
  (F xi * qprod (map (fun xj => t - xj) (remove_at i xs))
        / qprod (map (fun xj => xi - xj) (remove_at i xs)))%Qc.

(** The Lagrange interpolant of [F] on the nodes [xs], at [t]. *)
Definition lagQ (F : Qc -> Qc) (xs : list Qc) (t : Qc) : Qc :=
  qsum (map (lag_term F xs t) (seq 0 (length xs))).

(** The same interpolant as a coefficient list. *)
Definition lag_poly_term (F : Qc -> Qc) (xs : list Qc) (i : nat) : list Qc :=
  let xi := nth i xs 0%Qc in
  pscale (F xi / qprod (map (fun xj => xi - xj) (remove_at i xs)))%Qc
         (plin_prod (remove_at i xs)).

Definition lag_poly (F : Qc -> Qc) (xs : list Qc) : list Qc :=
  fold_right padd [] (map (lag_poly_term F xs) (seq 0 (length xs))).

(** The numerator and denominator that the inner loop of
    [constantViaLagrange] computes for the index [i], and the sum that the
    outer loop accumulates. *)
Definition lag_num (xs : list Z) (i : nat) : Z :=
  zprod (map Z.opp (remove_at i xs)).

Definition lag_den (xs : list Z) (i : nat) : Z :=
  zprod (map (fun xj => nth i xs 0 - xj) (remove_at i xs)).

Definition lag_summand (xs ys : list Z) (i : nat) : Qc :=
  (inj (lag_num xs i) / inj (lag_den xs i) * inj (nth i ys 0%Z))%Qc.

Definition lagZ (xs ys : list Z) : Qc :=
  qsum (map (lag_summand xs ys) (seq 0 (length xs))).

(** Every coefficient is zero. *)
Definition all0 (cs : list Qc) : Prop := Forall (fun c => c = 0%Qc) cs.

(** ** Vote tallies *)

(** [counts.set(key, (counts.get(key) || 0) + 1)] *)
Definition tally_step (counts : jsmap nat) (key : string) : jsmap nat :=
  map_set counts key
    (match map_get counts key with Some v => v | None => 0%nat end + 1)%nat.

(** The tally of a sequence of keys, cast in that order. *)
Definition tally (keys : list string) : jsmap nat := fold_left tally_step keys [].

(** The count stored for a key, [0] when the key is absent. *)
Definition getd (m : jsmap nat) (key : string) : nat :=
  match map_get m key with Some v => v | None => 0%nat end.

(** The constants produced by the subsets, in enumeration order (failed
    attempts produce nothing), and their keys. *)
Definition vote_values (points : list Point.t) (combos : list (list nat))
  : list Z :=
  flat_map (fun combo => match lagrangeOn points combo with
                         | Ok c => [c]
                         | Err _ => []
                         end) combos.

Definition vote_results (points : list Point.t) (combos : list (list nat))
  : list string :=
  map toStringBI (vote_values points combos).

(** The keys produced by the subsets in the solver's vote. *)
Definition subst_results (points : list Point.t) (k : nat)
  (combos : list (list nat)) : list string :=
  flat_map (fun idxs => match subst_attempt points k idxs with
                        | Ok (_, a0) => [a0]
                        | Err _ => []
                        end) combos.

Definition counts_of (votes : jsmap vote_entry) : jsmap nat :=
  map (fun kv => (fst kv, count (snd kv))) votes.

(** [w] wins the vote [rs] (the candidates in the order they were cast):
    no candidate has more votes, and every candidate cast before the first
    vote for [w] has strictly fewer. *)
Definition first_max_winner {A : Type}
  (eq_dec : forall a b : A, {a = b} + {a <> b}) (rs : list A) (w : A) : Prop :=
  exists r1 r2,
    rs = r1 ++ w :: r2 /\ ~ In w r1 /\
    (forall v, In v r1 -> (count_occ eq_dec rs v < count_occ eq_dec rs w)%nat) /\
    (forall v, (count_occ eq_dec rs v <= count_occ eq_dec rs w)%nat).

(** The subset's system is solved and its constant coefficient is an
    integer. *)
Definition subst_integral (points : list Point.t) (k : nat) (idxs : list nat)
  : bool :=
  match solveForIndices points k idxs with
  | Ok cs => match nth_error cs (length cs - 1) with
             | Some a0 => Frac.isInt a0
             | None => false
             end
  | Err _ => false
  end.

(** ** The hard-wired subset and the [--pick] keys *)

(** The index of the first point at each hard-wired abscissa that occurs
    among the points, in the order of [consistentXValues]. *)
Definition presentIndices (points : list Point.t) (targets : list Z)
  : list nat :=
  flat_map (fun t => match findIndex (fun p => Point.x p =? t) points with
                     | Some idx => [idx]
                     | None => []
                     end) targets.

(** A list without the later repetitions of its entries. *)
Fixpoint firstOcc (l : list Z) : list Z :=
  match l with
  | [] => []
  | a :: l' => a :: filter (fun b => negb (b =? a)) (firstOcc l')
  end.

(** ** Subsets of a point list *)

(** Points in strictly ascending order of [x]. *)
Definition ascending (pts : list Point.t) : Prop :=
  StronglySorted (fun a b => Point.x a < Point.x b) pts.

(** The [k]-element sublists of [l], in the order of [combs]. *)
Fixpoint subseqs {A : Type} (k : nat) (l : list A) : list (list A) :=
  match k, l with
  | O, _ => [[]]
  | S _, [] => []
  | S k', a :: l' => map (cons a) (subseqs k' l') ++ subseqs k l'
  end.

(** The vote cast by one subset: its constant, or nothing when the attempt
    throws. *)
Definition lag_vote (subset : list Point.t) : list Z :=
  match constantViaLagrange subset with
  | Ok c => [c]
  | Err _ => []
  end.

(** A function through the points: the ordinate of the first point at the
    given abscissa. *)
Definition interp_fun (points : list Point.t) (q : Qc) : Qc :=
  match find (fun p => if Qc_eq_dec (inj (Point.x p)) q then true else false)
             points with
  | Some p => inj (Point.y p)
  | None => 0%Qc
  end.

(** ** Matrices of rational values *)

(** The value of the entry [M[r][c]] ([0] where there is none). *)
Definition den (M : matrix) (r c : nat) : Qc :=
  match getM M r c with
  | Ok e => Fval e
  | Err _ => 0%Qc
  end.

(** The value of the entry [x[c]] of a vector. *)
Definition denX (xv : list Frac.t) (c : nat) : Qc :=
  match nth_error xv c with
  | Some e => Fval e
  | None => 0%Qc
  end.

(** An augmented [k x (k+1)] matrix of fractions in lowest terms. *)
Definition wfM (k : nat) (M : matrix) : Prop :=
  length M = k /\
  Forall (fun row => length row = S k /\ Forall Frac.wf row) M.

Definition wfX (k : nat) (xv : list Frac.t) : Prop :=
  length xv = k /\ Forall Frac.wf xv.

(** Row operations on the values. *)
Definition swapi (a b r : nat) : nat :=
  if Nat.eqb r a then b else if Nat.eqb r b then a else r.

Definition swapD (a b : nat) (D : nat -> nat -> Qc) : nat -> nat -> Qc :=
  fun r c => D (swapi a b r) c.

Definition normD (col : nat) (D : nat -> nat -> Qc) : nat -> nat -> Qc :=
  fun r c => if (Nat.eqb r col && Nat.leb col c)%bool
             then (D r c / D col col)%Qc else D r c.

Definition elimRowD (col r : nat) (D : nat -> nat -> Qc) : nat -> nat -> Qc :=
  fun r' c => if (Nat.eqb r' r && Nat.leb col c)%bool
              then (D r c - D r col * D col c)%Qc else D r' c.

Definition elimD (col : nat) (D : nat -> nat -> Qc) : nat -> nat -> Qc :=
  fun r c => if (Nat.ltb col r && Nat.leb col c)%bool
             then (D r c - D r col * D col c)%Qc else D r c.

Definition gstepD (col piv : nat) (D : nat -> nat -> Qc) : nat -> nat -> Qc :=
  elimD col (normD col (swapD col piv D)).

(** Two value matrices agree on the rows [< k] and the columns [<= k]. *)
Definition agree (k : nat) (D D' : nat -> nat -> Qc) : Prop :=
  forall r c, (r < k)%nat -> (c <= k)%nat -> D r c = D' r c.

(** The left-hand side of the equation of row [r] at the vector [v], whose
    last entry multiplies the right-hand side column. *)
Definition rowsum (k : nat) (D : nat -> nat -> Qc) (v : nat -> Qc) (r : nat)
  : Qc :=
  qsum (map (fun c => (D r c * v c)%Qc) (seq 0 (S k))).

(** Echelon form of the columns [< col]: unit diagonal, zeros below. *)
Definition Ech (k col : nat) (D : nat -> nat -> Qc) : Prop :=
  (forall i, (i < col)%nat -> (i < k)%nat -> D i i = 1%Qc) /\
  (forall c r, (c < col)%nat -> (c < r)%nat -> (r < k)%nat -> D r c = 0%Qc).

(** Every vector annihilated by the rows of [D'] is annihilated by the rows
    of [D]. *)
Definition SolImp (k : nat) (D D' : nat -> nat -> Qc) : Prop :=
  forall v, (forall r, (r < k)%nat -> rowsum k D' v r = 0%Qc) ->
            (forall r, (r < k)%nat -> rowsum k D v r = 0%Qc).

(** The value matrix of the Vandermonde system of the points. *)
Definition vanderD (k : nat) (xs ys : list Z) : nat -> nat -> Qc :=
  fun r c => if Nat.ltb c k then (inj (nth r xs 0%Z) ^ (k - 1 - c))%Qc
             else inj (nth r ys 0%Z).

(** The row [x^(k-1), ..., x, 1] as integers. *)
Definition vrowZ (x : Z) (k : nat) : list Z :=
  map (fun e => x ^ Z.of_nat e) (rev (seq 0 k)).

(** The homogeneous system of [D] (its first [k] columns) has only the zero
    solution. *)
Definition NonSing (k : nat) (D : nat -> nat -> Qc) : Prop :=
  forall v, v k = 0%Qc ->
            (forall r, (r < k)%nat -> rowsum k D v r = 0%Qc) ->
            forall c, (c < k)%nat -> v c = 0%Qc.

(** The equation that the back substitution establishes for the row [r]. *)
Definition BackEq (k : nat) (D : nat -> nat -> Qc) (X : nat -> Qc) (r : nat)
  : Prop :=
  (X r + qsum (map (fun c => D r c * X c) (seq (S r) (k - S r))))%Qc = D r k.

(** The row and the right-hand side that [solveForIndices] builds for a
    point. *)
Definition vrowF (k : nat) (p : Point.t) : list Frac.t :=
  map (fun z => Frac.mk z 1) (vrowZ (Point.x p) k).

Definition rhsF (p : Point.t) : Frac.t := Frac.mk (Point.y p) 1.

(** ** Numerals *)

(** The value of the digits [ds], most significant first, in base [b]. *)
Fixpoint positional (b : Z) (ds : list Z) : Z :=
  match ds with
  | [] => 0
  | d :: ds' => d * b ^ Z.of_nat (length ds') + positional b ds'
  end.

(** [ss.join(",")] *)
Fixpoint joinComma (ss : list string) : string :=
  match ss with
  | [] => EmptyString
  | [s] => s
  | s :: ss' => (s ++ "," ++ joinComma ss')%string
  end.

(** The parts of the [--pick] option, as [parsePickArg] sees them: the text
    after the prefix of the first argument that starts with [--pick=],
    trimmed, split at the commas, each part trimmed, the empty parts
    dropped.  [None] when no argument starts with [--pick=]. *)
Definition pickParts (argv : list string) : option (list string) :=
  match find (fun a => String.prefix pickPrefix a) argv with
  | None => None
  | Some pickArg =>
      Some (filter nonEmpty
              (map trim
                 (splitComma
                    (trim (substring (String.length pickPrefix)
                             (String.length pickArg - String.length pickPrefix)
                             pickArg)))))
  end.

(** ** Linear systems *)

(** The entry [r] of the product of the [k] first columns of [A] by the
    vector [v]. *)
Definition dotrow (k : nat) (A : matrix) (v : nat -> Qc) (r : nat) : Qc :=
  qsum (map (fun c => (den A r c * v c)%Qc) (seq 0 k)).

(** The coefficient of degree [k - 1 - c] of the polynomial [cs] (lowest
    degree first): the unknown number [c] of the Vandermonde system. *)
Definition coeffAt (cs : list Z) (k c : nat) : Z := nth (k - 1 - c) cs 0.


(* ================================================================== *)
(** * Part III.  Properties *)
(* ================================================================== *)

(** ** The result monad *)

Lemma bind_Ok {A B : Type} (r : result A) (f : A -> result B) (b : B) :
  bind r f = Ok b -> exists a, r = Ok a /\ f a = Ok b.
Proof. destruct r as [a|e]; simpl; intros H; [eauto | discriminate]. Qed.

(** ** BigInt helpers *)

Lemma absBI_spec (a : Z) : absBI a = Z.abs a.
Proof. unfold absBI. destruct (Z.ltb_spec a 0); lia. Qed.

Lemma gcd_rem_step (a b : Z) :
  0 <= a -> 0 < b -> Z.gcd b (Z.rem a b) = Z.gcd a b.
Proof.
  intros Ha Hb. rewrite Z.rem_mod_nonneg by lia.
  rewrite (Z.gcd_comm b). rewrite Z.gcd_mod by lia. apply Z.gcd_comm.
Qed.

Lemma gcd_loop_S (f : nat) (a b : Z) :
  gcd_loop (S f) a b = if b =? 0 then a else gcd_loop f b (Z.rem a b).
Proof. reflexivity. Qed.

Lemma gcd_loop_spec (m : nat) :
  forall a b, 0 <= a -> 0 <= b < 2 ^ Z.of_nat m ->
              gcd_loop (S (2 * m)) a b = Z.gcd a b.
Proof.
  induction m as [|m IH]; intros a b Ha Hb.
  - assert (b = 0) by (simpl in Hb; lia). subst b. simpl.
    rewrite Z.gcd_0_r. lia.
  - replace (S (2 * S m)) with (S (S (S (2 * m)))) by lia.
    rewrite gcd_loop_S.
    destruct (Z.eqb_spec b 0) as [->|Hb0].
    { rewrite Z.gcd_0_r. lia. }
    rewrite gcd_loop_S.
    assert (Hr1 : 0 <= Z.rem a b < b)
      by (rewrite Z.rem_mod_nonneg by lia; apply Z.mod_pos_bound; lia).
    destruct (Z.eqb_spec (Z.rem a b) 0) as [E|Hr0].
    { rewrite <- (gcd_rem_step a b) by lia. rewrite E, Z.gcd_0_r. lia. }
    assert (Hr2 : 0 <= Z.rem b (Z.rem a b) < Z.rem a b)
      by (rewrite Z.rem_mod_nonneg by lia; apply Z.mod_pos_bound; lia).
    rewrite IH.
    + rewrite gcd_rem_step by lia. apply gcd_rem_step; lia.
    + lia.
    + split; [lia|].
      pose proof (Z.quot_rem' b (Z.rem a b)) as E.
      assert (1 <= Z.quot b (Z.rem a b))
        by (apply Z.quot_le_lower_bound; lia).
      rewrite Nat2Z.inj_succ, Z.pow_succ_r in Hb by lia.
      nia.
Qed.

Lemma gcdBI_spec (a b : Z) : gcdBI a b = Z.gcd a b.
Proof.
  unfold gcdBI, gcd_fuel. rewrite !absBI_spec.
  rewrite gcd_loop_spec.
  - rewrite Z.gcd_abs_l, Z.gcd_abs_r. reflexivity.
  - lia.
  - split; [lia|].
    rewrite Z2Nat.id by (pose proof (Z.log2_nonneg (Z.abs b)); lia).
    destruct (Z.eq_dec (Z.abs b) 0) as [E|E].
    + rewrite E. reflexivity.
    + apply Z.log2_spec. lia.
Qed.

(** ** The fraction class *)

Lemma quot_exact (c g : Z) : g <> 0 -> Z.quot (c * g) g = c.
Proof. intros. apply Z.quot_mul. assumption. Qed.

(** Lowest terms of [n1 / d1] for a positive [d1]. *)
Lemma reduce_spec (n1 d1 : Z) :
  0 < d1 ->
  let g := Z.gcd n1 d1 in
  0 < Z.quot d1 g /\
  Z.gcd (Z.quot n1 g) (Z.quot d1 g) = 1 /\
  Z.quot n1 g * d1 = n1 * Z.quot d1 g.
Proof.
  intros Hd g.
  assert (Hg : 0 < g).
  { pose proof (Z.gcd_nonneg n1 d1).
    destruct (Z.eq_dec g 0) as [E|E]; [|unfold g in *; lia].
    apply Z.gcd_eq_0_r in E. lia. }
  destruct (Z.gcd_divide_l n1 d1) as [cn Hn].
  destruct (Z.gcd_divide_r n1 d1) as [cd Hcd].
  fold g in Hn, Hcd.
  assert (En : Z.quot n1 g = cn) by (rewrite Hn at 1; apply quot_exact; lia).
  assert (Ed : Z.quot d1 g = cd) by (rewrite Hcd at 1; apply quot_exact; lia).
  rewrite En, Ed.
  split; [nia|]. split.
  - pose proof (Z.gcd_div_gcd n1 d1 g ltac:(lia) eq_refl) as G.
    rewrite Hn in G at 1. rewrite Hcd in G at 1.
    rewrite !Z.div_mul in G by lia. exact G.
  - clearbody g. subst n1 d1. ring.
Qed.

Lemma Frac_new_zero (n0 : Z) : Frac.new n0 0 = Err DivisionByZero.
Proof. reflexivity. Qed.

Lemma Frac_new_spec (n0 d0 : Z) :
  d0 <> 0 ->
  exists f, Frac.new n0 d0 = Ok f /\ Frac.wf f /\
            Frac.n f * d0 = n0 * Frac.d f.
Proof.
  intros Hd. unfold Frac.new.
  destruct (Z.eqb_spec d0 0) as [|_]; [contradiction|].
  destruct (Z.ltb_spec d0 0) as [Hlt|Hge].
  - rewrite gcdBI_spec, absBI_spec, Z.gcd_abs_l.
    destruct (reduce_spec (- n0) (- d0) ltac:(lia)) as (P & G & X).
    eexists; split; [reflexivity|]. unfold Frac.wf; cbn [Frac.n Frac.d].
    repeat split; [exact P | exact G | lia].
  - rewrite gcdBI_spec, absBI_spec, Z.gcd_abs_l.
    destruct (reduce_spec n0 d0 ltac:(lia)) as (P & G & X).
    eexists; split; [reflexivity|]. unfold Frac.wf; cbn [Frac.n Frac.d].
    repeat split; [exact P | exact G | lia].
Qed.

Lemma Frac_new_0 (d0 : Z) : d0 <> 0 -> Frac.new 0 d0 = Ok (Frac.mk 0 1).
Proof.
  intros Hd. destruct (Frac_new_spec 0 d0 Hd) as (f & E & (P & G) & X).
  rewrite E. f_equal. destruct f as [fn fd]; cbn [Frac.n Frac.d] in *.
  assert (fn = 0) by nia. subst fn.
  rewrite Z.gcd_0_l in G. f_equal. lia.
Qed.

Lemma Frac_add_spec (a b : Frac.t) :
  Frac.wf a -> Frac.wf b ->
  exists r, Frac.add a b = Ok r /\ Frac.wf r /\
            Frac.n r * (Frac.d a * Frac.d b) =
            (Frac.n a * Frac.d b + Frac.n b * Frac.d a) * Frac.d r.
Proof.
  intros [Ha _] [Hb _]. unfold Frac.add. apply Frac_new_spec. nia.
Qed.

Lemma Frac_sub_spec (a b : Frac.t) :
  Frac.wf a -> Frac.wf b ->
  exists r, Frac.sub a b = Ok r /\ Frac.wf r /\
            Frac.n r * (Frac.d a * Frac.d b) =
            (Frac.n a * Frac.d b - Frac.n b * Frac.d a) * Frac.d r.
Proof.
  intros [Ha _] [Hb _]. unfold Frac.sub. apply Frac_new_spec. nia.
Qed.

Lemma Frac_mul_spec (a b : Frac.t) :
  Frac.wf a -> Frac.wf b ->
  exists r, Frac.mul a b = Ok r /\ Frac.wf r /\
            Frac.n r * (Frac.d a * Frac.d b) =
            (Frac.n a * Frac.n b) * Frac.d r.
Proof.
  intros [Ha _] [Hb _]. unfold Frac.mul. apply Frac_new_spec. nia.
Qed.

Lemma Frac_div_spec (a b : Frac.t) :
  Frac.wf a -> Frac.wf b -> Frac.n b <> 0 ->
  exists r, Frac.div a b = Ok r /\ Frac.wf r /\
            Frac.n r * (Frac.d a * Frac.n b) =
            (Frac.n a * Frac.d b) * Frac.d r.
Proof.
  intros [Ha _] [Hb _] Hn. unfold Frac.div.
  destruct (Z.eqb_spec (Frac.n b) 0) as [|_]; [contradiction|].
  apply Frac_new_spec. nia.
Qed.

Lemma Frac_div_zero (a b : Frac.t) :
  Frac.n b = 0 -> Frac.div a b = Err DivisionByZero.
Proof. intros E. unfold Frac.div. rewrite E. reflexivity. Qed.

Lemma Java_new_eq (n0 d0 : Z) :
  d0 <> 0 -> Java.new n0 d0 = Frac.new n0 d0.
Proof.
  intros Hd. unfold Java.new, Frac.new.
  destruct (Z.eqb_spec d0 0) as [|_]; [contradiction|].
  destruct (Z.eqb_spec (Z.sgn d0) 0) as [E|_]; [lia|].
  replace (Z.sgn d0 <? 0) with (d0 <? 0)
    by (destruct (Z.ltb_spec d0 0), (Z.ltb_spec (Z.sgn d0) 0); lia).
  destruct (d0 <? 0); rewrite gcdBI_spec, absBI_spec, Z.gcd_abs_l; reflexivity.
Qed.

Lemma Java_new_zero (n0 : Z) : Java.new n0 0 = Err ZeroDenominator.
Proof. reflexivity. Qed.

(** C3.  The constructor fails on a zero denominator and otherwise stores a
    positive denominator coprime to the numerator, [0/d] becoming [0/1]; the
    sum, difference, product and quotient of two fractions in that form are
    again in that form (a quotient by a zero fraction fails with the
    division-by-zero error).  The Java constructor (error: zero denominator)
    builds the same objects. *)
Theorem C3_frac_invariant (n0 d0 : Z) (a b : Frac.t)
  (Ha : Frac.wf a) (Hb : Frac.wf b) :
  Frac.new n0 0 = Err DivisionByZero /\
  Java.new n0 0 = Err ZeroDenominator /\
  (d0 <> 0 ->
   (exists f, Frac.new n0 d0 = Ok f /\ Java.new n0 d0 = Ok f /\
              0 < Frac.d f /\ Z.gcd (Frac.n f) (Frac.d f) = 1) /\
   Frac.new 0 d0 = Ok (Frac.mk 0 1)) /\
  (exists r, Frac.add a b = Ok r /\ Java.add a b = Ok r /\ Frac.wf r) /\
  (exists r, Frac.sub a b = Ok r /\ Frac.wf r) /\
  (exists r, Frac.mul a b = Ok r /\ Java.mul a b = Ok r /\ Frac.wf r) /\
  (Frac.n b <> 0 ->
   exists r, Frac.div a b = Ok r /\ Java.div a b = Ok r /\ Frac.wf r) /\
  (Frac.n b = 0 ->
   Frac.div a b = Err DivisionByZero /\ Java.div a b = Err ZeroDenominator).
Proof.
  pose proof Ha as [Pa _]. pose proof Hb as [Pb _].
  split; [reflexivity|]. split; [reflexivity|].
  split.
  { intros Hd. split.
    - destruct (Frac_new_spec n0 d0 Hd) as (f & E & (P & G) & _).
      exists f. rewrite Java_new_eq by assumption. auto.
    - apply Frac_new_0; assumption. }
  split.
  { destruct (Frac_add_spec a b Ha Hb) as (r & E & W & _).
    exists r. unfold Java.add. rewrite Java_new_eq by nia. auto. }
  split.
  { destruct (Frac_sub_spec a b Ha Hb) as (r & E & W & _). eauto. }
  split.
  { destruct (Frac_mul_spec a b Ha Hb) as (r & E & W & _).
    exists r. unfold Java.mul. rewrite Java_new_eq by nia. auto. }
  split.
  { intros Hn. destruct (Frac_div_spec a b Ha Hb Hn) as (r & E & W & _).
    exists r. unfold Java.div. rewrite Java_new_eq by nia.
    unfold Frac.div in *. destruct (Z.eqb_spec (Frac.n b) 0); [contradiction|].
    auto. }
  { intros E. split; [apply Frac_div_zero; assumption|].
    unfold Java.div. rewrite E, Z.mul_0_r. reflexivity. }
Qed.

Lemma C3_frac_invariant_witness :
  Frac.new 6 0 = Err DivisionByZero /\
  (exists f, Frac.new 6 (-4) = Ok f /\ Java.new 6 (-4) = Ok f /\
             0 < Frac.d f /\ Z.gcd (Frac.n f) (Frac.d f) = 1) /\
  (exists r, Frac.add (Frac.mk 1 2) (Frac.mk (-1) 3) = Ok r /\
             Java.add (Frac.mk 1 2) (Frac.mk (-1) 3) = Ok r /\ Frac.wf r).
Proof.
  assert (W1 : Frac.wf (Frac.mk 1 2)) by (split; [cbn; lia | reflexivity]).
  assert (W2 : Frac.wf (Frac.mk (-1) 3)) by (split; [cbn; lia | reflexivity]).
  destruct (C3_frac_invariant 6 (-4) _ _ W1 W2)
    as (Z0 & _ & N & A & _).
  split; [exact Z0|]. split; [|exact A].
  apply N. lia.
Defined.

(** ** Arrays *)

Lemma upd_length {A : Type} (l : list A) (i : nat) (v : A) :
  length (upd l i v) = length l.
Proof.
  revert i; induction l as [|h t IH]; intros [|i]; simpl; auto.
Qed.

Lemma upd_app_mid {A : Type} (l1 l2 : list A) (x v : A) :
  upd (l1 ++ x :: l2) (length l1) v = l1 ++ v :: l2.
Proof. induction l1 as [|h t IH]; simpl; [reflexivity | now rewrite IH]. Qed.

Lemma nth_error_upd_same {A : Type} (l : list A) (i : nat) (v : A) :
  (i < length l)%nat -> nth_error (upd l i v) i = Some v.
Proof.
  revert i; induction l as [|h t IH]; intros [|i] H; simpl in *;
    try lia; auto. apply IH. lia.
Qed.

Lemma nth_error_upd_other {A : Type} (l : list A) (i j : nat) (v : A) :
  i <> j -> nth_error (upd l i v) j = nth_error l j.
Proof.
  revert i j; induction l as [|h t IH]; intros [|i] [|j] H; simpl;
    try reflexivity; try congruence. apply IH. congruence.
Qed.

Lemma split_at {A : Type} (l : list A) (i : nat) (dflt : A) :
  (i < length l)%nat ->
  l = firstn i l ++ nth i l dflt :: skipn (S i) l /\ length (firstn i l) = i.
Proof.
  revert i; induction l as [|h t IH]; intros i H; simpl in H; [lia|].
  destruct i as [|i]; simpl; [auto|].
  destruct (IH i ltac:(lia)) as [E L]. split; [f_equal; exact E | now rewrite L].
Qed.

(** ** The subset generator *)

Lemma binom_gt (n : nat) : forall k, (n < k)%nat -> binom n k = 0%nat.
Proof.
  induction n as [|n IH]; intros [|k] H; simpl; try lia.
  rewrite !IH by lia. reflexivity.
Qed.

Lemma binom_diag (n : nat) : binom n n = 1%nat.
Proof.
  induction n as [|n IH]; simpl; [reflexivity|].
  rewrite IH, binom_gt by lia. reflexivity.
Qed.

(** [binom n k] is [n! / (k! (n-k)!)]. *)
Lemma binom_fact (n : nat) :
  forall k, (k <= n)%nat -> (binom n k * fact k * fact (n - k) = fact n)%nat.
Proof.
  induction n as [|n IH]; intros [|k] H; try lia.
  - reflexivity.
  - cbn [binom]. rewrite Nat.sub_0_r. simpl fact at 1. lia.
  - cbn [binom]. replace (S n - S k)%nat with (n - k)%nat by lia.
    pose proof (IH k ltac:(lia)) as E1.
    change (fact (S n)) with (S n * fact n)%nat.
    change (fact (S k)) with (S k * fact k)%nat.
    destruct (Nat.eq_dec k n) as [->|Hk].
    + rewrite (binom_gt n (S n)) by lia. rewrite binom_diag, Nat.sub_diag.
      change (fact 0) with 1%nat. ring.
    + pose proof (IH (S k) ltac:(lia)) as E2.
      change (fact (S k)) with (S k * fact k)%nat in E2.
      replace (n - k)%nat with (S (n - S k)) in * by lia.
      change (fact (S (n - S k))) with (S (n - S k) * fact (n - S k))%nat in *.
      replace (S n) with (S k + S (n - S k))%nat at 1 by lia.
      replace ((S k + S (n - S k)) * fact n)%nat
        with (S k * (binom n k * fact k * (S (n - S k) * fact (n - S k)))
              + S (n - S k) * (binom n (S k) * (S k * fact k) * fact (n - S k)))%nat
        by (rewrite E1, E2; ring).
      ring.
Qed.

Lemma binom_le_pow (n : nat) : forall k, (binom n k <= 2 ^ n)%nat.
Proof.
  induction n as [|n IH]; intros [|k]; simpl; try lia.
  - pose proof (Nat.pow_nonzero 2 n ltac:(lia)). lia.
  - pose proof (IH k). pose proof (IH (S k)). lia.
Qed.

Lemma combs_length (m : nat) :
  forall lo k, length (combs lo m k) = binom m k.
Proof.
  induction m as [|m IH]; intros lo [|k]; simpl; try reflexivity.
  rewrite length_app, length_map, !IH. reflexivity.
Qed.

Lemma combs_short (m : nat) :
  forall lo k, (m < k)%nat -> combs lo m k = [].
Proof.
  intros lo k H. apply length_zero_iff_nil.
  rewrite combs_length. apply binom_gt. assumption.
Qed.

(** Every listed sequence has [k] entries, increases strictly, and stays in
    [lo .. lo+m-1]. *)
Lemma combs_valid (m : nat) :
  forall lo k c, In c (combs lo m k) ->
    length c = k /\ StronglySorted lt c /\
    Forall (fun i => (lo <= i < lo + m)%nat) c.
Proof.
  induction m as [|m IH]; intros lo [|k] c H; simpl in H.
  - destruct H as [<-|[]]. repeat split; constructor.
  - contradiction.
  - destruct H as [<-|[]]. repeat split; constructor.
  - apply in_app_or in H. destruct H as [H|H].
    + apply in_map_iff in H. destruct H as (c' & <- & H).
      destruct (IH _ _ _ H) as (L & S' & F).
      split; [simpl; now rewrite L|]. split.
      * constructor; [assumption|].
        eapply Forall_impl; [|exact F]. simpl; intros; lia.
      * constructor; [lia|].
        eapply Forall_impl; [|exact F]. simpl; intros; lia.
    + destruct (IH _ _ _ H) as (L & S' & F).
      split; [assumption|]. split; [assumption|].
      eapply Forall_impl; [|exact F]. simpl; intros; lia.
Qed.

(** Conversely every such sequence is listed. *)
Lemma combs_complete (m : nat) :
  forall lo k c,
    length c = k -> StronglySorted lt c ->
    Forall (fun i => (lo <= i < lo + m)%nat) c ->
    In c (combs lo m k).
Proof.
  induction m as [|m IH]; intros lo k c L S' F.
  - destruct c as [|a c]; simpl in L; subst k; [left; reflexivity|].
    inversion F; lia.
  - destruct c as [|a c]; simpl in L; subst k; [left; reflexivity|].
    cbn [combs]. apply in_or_app.
    inversion S' as [|? ? S1 S2]; subst. inversion F as [|? ? F1 F2]; subst.
    destruct (Nat.eq_dec a lo) as [->|Hne].
    + left. apply in_map. apply IH; [reflexivity | assumption |].
      rewrite Forall_forall in *. intros i Hi.
      specialize (S2 i Hi). specialize (F2 i Hi). lia.
    + right. apply IH; [reflexivity | assumption |].
      constructor; [lia|].
      rewrite Forall_forall in *. intros i Hi.
      specialize (S2 i Hi). specialize (F2 i Hi). lia.
Qed.

Lemma StronglySorted_app {A : Type} (R : A -> A -> Prop) (l1 l2 : list A) :
  StronglySorted R l1 -> StronglySorted R l2 ->
  (forall a b, In a l1 -> In b l2 -> R a b) ->
  StronglySorted R (l1 ++ l2).
Proof.
  intros S1 S2 H. induction S1 as [|a l S1 IH F]; simpl; [assumption|].
  constructor.
  - apply IH. intros; apply H; simpl; auto.
  - apply Forall_app. split; [assumption|].
    apply Forall_forall. intros b Hb. apply H; simpl; auto.
Qed.

Lemma StronglySorted_map_cons (a : nat) (L : list (list nat)) :
  StronglySorted lex_lt L -> StronglySorted lex_lt (map (cons a) L).
Proof.
  induction 1 as [|c L S' IH F]; simpl; constructor; [assumption|].
  apply Forall_forall. intros c' Hc'. apply in_map_iff in Hc'.
  destruct Hc' as (c2 & <- & Hc2). apply lex_tail.
  rewrite Forall_forall in F. auto.
Qed.

Lemma combs_sorted (m : nat) :
  forall lo k, StronglySorted lex_lt (combs lo m k).
Proof.
  induction m as [|m IH]; intros lo [|k]; cbn [combs];
    try (repeat constructor).
  apply StronglySorted_app.
  - apply StronglySorted_map_cons, IH.
  - apply IH.
  - intros c1 c2 H1 H2. apply in_map_iff in H1. destruct H1 as (c & <- & _).
    destruct (combs_valid _ _ _ _ H2) as (L & _ & F).
    destruct c2 as [|b c2]; [discriminate|].
    inversion F; subst. apply lex_head. lia.
Qed.

Lemma lex_lt_irrefl (c : list nat) : ~ lex_lt c c.
Proof.
  induction c as [|a c IH]; intros H; inversion H; subst; [lia | auto].
Qed.

Lemma StronglySorted_NoDup {A : Type} (R : A -> A -> Prop) (l : list A) :
  (forall a, ~ R a a) -> StronglySorted R l -> NoDup l.
Proof.
  intros Irr. induction 1 as [|a l S' IH F]; constructor; [|assumption].
  intros Hin. rewrite Forall_forall in F. exact (Irr a (F a Hin)).
Qed.

Lemma kc_scan_lt (n k : nat) (idx : list nat) (i1 : nat) :
  forall i, kc_scan n k idx i1 = Some i -> (i < i1)%nat.
Proof.
  induction i1 as [|j IH]; intros i H; simpl in H; [discriminate|].
  destruct (_ =? _) in H.
  - specialize (IH i H). lia.
  - injection H as <-. lia.
Qed.

(** The scan of [a :: rest] for [k + 1] positions is the scan of [rest] for
    [k] positions, followed by the test of the head. *)
Lemma kc_scan_cons (n k a : nat) (rest : list nat) (i1 : nat) :
  kc_scan n (S k) (a :: rest) (S i1) =
  match kc_scan n k rest i1 with
  | Some i => Some (S i)
  | None => if Z.of_nat a =? Z.of_nat n - Z.of_nat (S k) then None
            else Some 0%nat
  end.
Proof.
  induction i1 as [|i IH].
  - cbn [kc_scan nth]. rewrite Z.add_0_l. reflexivity.
  - change (kc_scan n (S k) (a :: rest) (S (S i)))
      with (if Z.of_nat (nth i rest 0%nat)
               =? Z.of_nat (S i) + Z.of_nat n - Z.of_nat (S k)
            then kc_scan n (S k) (a :: rest) (S i) else Some (S i)).
    change (kc_scan n k rest (S i))
      with (if Z.of_nat (nth i rest 0%nat)
               =? Z.of_nat i + Z.of_nat n - Z.of_nat k
            then kc_scan n k rest i else Some i).
    replace (Z.of_nat (S i) + Z.of_nat n - Z.of_nat (S k))
      with (Z.of_nat i + Z.of_nat n - Z.of_nat k) by lia.
    destruct (Z.of_nat (nth i rest 0%nat) =? _); [exact IH | reflexivity].
Qed.

(** The refill loop writes consecutive values after the incremented entry. *)
Lemma kc_fill_spec (post : list nat) :
  forall (done : list nat) (v : nat),
    fold_left
      (fun (a : list nat) (j : nat) => upd a j (nth (j - 1) a 0 + 1)%nat)
      (seq (S (length done)) (length post))
      (done ++ v :: post)
    = done ++ seq v (S (length post)).
Proof.
  induction post as [|p post IH]; intros done v; [reflexivity|].
  cbn [length seq fold_left].
  replace (S (length done) - 1)%nat with (length done) by lia.
  rewrite nth_middle.
  replace (done ++ v :: p :: post) with ((done ++ [v]) ++ p :: post)
    by (rewrite <- app_assoc; reflexivity).
  replace (S (length done)) with (length (done ++ [v]))
    by (rewrite length_app; simpl; lia).
  rewrite upd_app_mid, IH, <- app_assoc.
  cbn [app seq]. rewrite Nat.add_1_r. reflexivity.
Qed.

Lemma kc_advance_split (k : nat) (pre post : list nat) (a : nat) :
  k = (length pre + S (length post))%nat ->
  kc_advance k (pre ++ a :: post) (length pre)
  = pre ++ seq (a + 1)%nat (S (length post)).
Proof.
  intros ->. unfold kc_advance. rewrite nth_middle, upd_app_mid.
  replace (length pre + S (length post) - S (length pre))%nat
    with (length post) by lia.
  apply kc_fill_spec.
Qed.

Lemma kc_advance_spec (k : nat) (idx : list nat) (i : nat) :
  length idx = k -> (i < k)%nat ->
  kc_advance k idx i = firstn i idx ++ seq (nth i idx 0 + 1)%nat (k - i).
Proof.
  intros L Hi.
  destruct (split_at idx i 0%nat ltac:(lia)) as [E Lf].
  remember (firstn i idx) as pre eqn:Hpre.
  remember (skipn (S i) idx) as post eqn:Hpost.
  remember (nth i idx 0%nat) as a eqn:Ha.
  clear Hpre Hpost Ha. subst idx i.
  rewrite length_app in L. cbn [length] in L.
  rewrite (kc_advance_split k pre post a) by lia.
  do 2 f_equal. lia.
Qed.

Lemma kc_next_nil (n : nat) : kc_next n 0 [] = None.
Proof. reflexivity. Qed.

Lemma kc_next_cons (n k a : nat) (rest : list nat) :
  length rest = k ->
  kc_next n (S k) (a :: rest) =
  match kc_next n k rest with
  | Some rest' => Some (a :: rest')
  | None => if Z.of_nat a =? Z.of_nat n - Z.of_nat (S k) then None
            else Some (seq (S a) (S k))
  end.
Proof.
  intros L. unfold kc_next. rewrite kc_scan_cons.
  destruct (kc_scan n k rest k) as [i|] eqn:E.
  - apply kc_scan_lt in E.
    rewrite !kc_advance_spec by (simpl; lia). reflexivity.
  - destruct (_ =? _); [reflexivity|].
    rewrite kc_advance_spec by (simpl; lia).
    cbn [firstn nth app]. rewrite Nat.sub_0_r, Nat.add_1_r. reflexivity.
Qed.

Lemma kc_next_length (n k : nat) (idx idx' : list nat) :
  length idx = k -> kc_next n k idx = Some idx' -> length idx' = k.
Proof.
  intros L H. unfold kc_next in H.
  destruct (kc_scan n k idx k) as [i|] eqn:E; [|discriminate].
  apply kc_scan_lt in E. injection H as <-.
  rewrite kc_advance_spec by assumption.
  rewrite length_app, length_firstn, length_seq. lia.
Qed.

(** A run on the tail lifts to a run on the whole array: the head stays
    while the tail runs, then the head moves on (or the run ends, when the
    head is at its last value). *)
Lemma yields_cons (n k a : nat) (rest : list nat) (Lr : list (list nat)) :
  yields n k rest Lr -> length rest = k ->
  (Z.of_nat a = Z.of_nat n - Z.of_nat (S k) ->
   yields n (S k) (a :: rest) (map (cons a) Lr)) /\
  (Z.of_nat a <> Z.of_nat n - Z.of_nat (S k) ->
   forall L2, yields n (S k) (seq (S a) (S k)) L2 ->
              yields n (S k) (a :: rest) (map (cons a) Lr ++ L2)).
Proof.
  induction 1 as [idx Hn | idx idx' L Hn Hy IH]; intros Hl.
  - split.
    + intros Ha. apply yields_last. rewrite kc_next_cons, Hn by assumption.
      apply Z.eqb_eq in Ha. rewrite Ha. reflexivity.
    + intros Ha L2 H2. cbn [map app]. eapply yields_step; [|exact H2].
      rewrite kc_next_cons, Hn by assumption.
      apply Z.eqb_neq in Ha. rewrite Ha. reflexivity.
  - pose proof (kc_next_length _ _ _ _ Hl Hn) as Hl'.
    destruct (IH Hl') as [I1 I2]. split.
    + intros Ha. cbn [map]. eapply yields_step; [|exact (I1 Ha)].
      rewrite kc_next_cons, Hn by assumption. reflexivity.
    + intros Ha L2 H2. cbn [map app]. eapply yields_step; [|exact (I2 Ha L2 H2)].
      rewrite kc_next_cons, Hn by assumption. reflexivity.
Qed.

(** From [lo, lo+1, ..., lo+k-1] the generator yields exactly [combs]. *)
Lemma yields_combs (m : nat) :
  forall lo k, (k <= m)%nat -> yields (lo + m) k (seq lo k) (combs lo m k).
Proof.
  induction m as [|m IH]; intros lo k Hk.
  - assert (k = 0%nat) by lia. subst k. apply yields_last. reflexivity.
  - destruct k as [|k]; [apply yields_last; reflexivity|].
    cbn [combs seq].
    replace (lo + S m)%nat with (S lo + m)%nat by lia.
    destruct (yields_cons (S lo + m) k lo (seq (S lo) k) (combs (S lo) m k)
                (IH (S lo) k ltac:(lia)) (length_seq _ _)) as [I1 I2].
    destruct (Nat.eq_dec k m) as [->|Hne].
    + rewrite (combs_short m (S lo) (S m)) by lia. rewrite app_nil_r.
      apply I1. lia.
    + apply I2; [lia|]. apply IH. lia.
Qed.

Lemma yields_hd (n k : nat) (idx : list nat) (L : list (list nat)) :
  yields n k idx L -> hd_error L = Some idx.
Proof. destruct 1; reflexivity. Qed.

(** The run takes exactly as many rounds as it yields values. *)
Lemma kc_run_yields (n k : nat) (idx : list nat) (L : list (list nat)) :
  yields n k idx L ->
  forall fuel, kc_run fuel n k idx =
               if Nat.leb (length L) fuel then Some L else None.
Proof.
  induction 1 as [idx Hn | idx idx' L Hn Hy IH]; intros [|fuel];
    cbn [kc_run length]; try reflexivity.
  - rewrite Hn. reflexivity.
  - rewrite Hn, IH. cbn [Nat.leb]. destruct (Nat.leb (length L) fuel); reflexivity.
Qed.

(** The generator returns after exactly [binom n k] yields. *)
Lemma kCombinations_fuel_exact (n k fuel : nat) :
  (k <= n)%nat ->
  kc_run fuel n k (kc_init k) =
  if Nat.leb (binom n k) fuel then Some (combs 0 n k) else None.
Proof.
  intros Hk. rewrite (kc_run_yields n k _ (combs 0 n k)).
  - rewrite combs_length. reflexivity.
  - apply (yields_combs n 0 k Hk).
Qed.

Lemma kCombinations_combs {A : Type} (arr : list A) (k : nat) :
  (k <= length arr)%nat -> kCombinations arr k = Some (combs 0 (length arr) k).
Proof.
  intros Hk. unfold kCombinations. rewrite kCombinations_fuel_exact by assumption.
  pose proof (binom_le_pow (length arr) k) as H.
  apply Nat.leb_le in H. rewrite H. reflexivity.
Qed.

Lemma combs_is_subset (n k : nat) (c : list nat) :
  In c (combs 0 n k) <-> is_subset n k c.
Proof.
  unfold is_subset. split.
  - intros H. destruct (combs_valid _ _ _ _ H) as (L & S' & F).
    repeat split; try assumption.
    eapply Forall_impl; [|exact F]. simpl; intros; lia.
  - intros (L & S' & F). apply combs_complete; try assumption.
    eapply Forall_impl; [|exact F]. simpl; intros; lia.
Qed.

(** C5.  For [0 <= k <= n] the generator returns, having yielded exactly
    [C(n, k)] arrays: each a strictly increasing sequence of [k] indices
    below [n], in lexicographic order, [0, 1, ..., k-1] first, none
    repeated (and every such sequence is among them). *)
Theorem C5_kCombinations {A : Type} (arr : list A) (k : nat)
  (Hk : (k <= length arr)%nat) :
  exists L,
    kCombinations arr k = Some L /\
    length L = binom (length arr) k /\
    Forall (is_subset (length arr) k) L /\
    StronglySorted lex_lt L /\
    hd_error L = Some (seq 0 k) /\
    NoDup L /\
    (forall c, is_subset (length arr) k c -> In c L).
Proof.
  exists (combs 0 (length arr) k).
  split; [apply kCombinations_combs; assumption|].
  split; [apply combs_length|].
  split; [apply Forall_forall; intros c; apply combs_is_subset|].
  split; [apply combs_sorted|].
  split; [apply (yields_hd _ _ _ _ (yields_combs (length arr) 0 k Hk))|].
  split.
  - apply (StronglySorted_NoDup lex_lt); [exact lex_lt_irrefl | apply combs_sorted].
  - intros c; apply combs_is_subset.
Qed.

Lemma C5_kCombinations_witness :
  exists L,
    kCombinations [10; 20; 30; 40] 2 = Some L /\
    length L = binom 4 2 /\
    Forall (is_subset 4 2) L /\
    StronglySorted lex_lt L /\
    hd_error L = Some [0; 1]%nat /\
    NoDup L /\
    (forall c, is_subset 4 2 c -> In c L).
Proof.
  apply (C5_kCombinations [10; 20; 30; 40] 2). simpl. lia.
Defined.

(** ** Rational values of fractions *)

Lemma inj_add (a b : Z) : inj (a + b) = (inj a + inj b)%Qc.
Proof.
  unfold inj, Qcplus. apply Q2Qc_eq_iff. cbn [this Q2Qc].
  rewrite !Qred_correct, inject_Z_plus. reflexivity.
Qed.

Lemma inj_mul (a b : Z) : inj (a * b) = (inj a * inj b)%Qc.
Proof.
  unfold inj, Qcmult. apply Q2Qc_eq_iff. cbn [this Q2Qc].
  rewrite !Qred_correct, inject_Z_mult. reflexivity.
Qed.

Lemma inj_opp (a : Z) : inj (- a) = (- inj a)%Qc.
Proof.
  unfold inj, Qcopp. apply Q2Qc_eq_iff. cbn [this Q2Qc].
  rewrite !Qred_correct, inject_Z_opp. reflexivity.
Qed.

Lemma inj_sub (a b : Z) : inj (a - b) = (inj a - inj b)%Qc.
Proof.
  unfold Z.sub, Qcminus. rewrite inj_add, inj_opp. reflexivity.
Qed.

Lemma inj_0 : inj 0 = 0%Qc.
Proof. apply Qc_is_canon. reflexivity. Qed.

Lemma inj_1 : inj 1 = 1%Qc.
Proof. apply Qc_is_canon. reflexivity. Qed.

Lemma inj_inj (a b : Z) : inj a = inj b -> a = b.
Proof.
  unfold inj. intros H. apply Q2Qc_eq_iff in H.
  unfold Qeq, inject_Z in H. simpl in H. lia.
Qed.

Lemma inj_neq0 (a : Z) : a <> 0 -> inj a <> 0%Qc.
Proof. intros H E. rewrite <- inj_0 in E. apply inj_inj in E. contradiction. Qed.

(** Two quotients of integers are equal when the cross products are. *)
Lemma inj_cross (a b c e : Z) :
  b <> 0 -> e <> 0 -> a * e = c * b ->
  (inj a / inj b = inj c / inj e)%Qc.
Proof.
  intros Hb He H.
  assert (E : (inj a * inj e = inj c * inj b)%Qc)
    by (rewrite <- !inj_mul; f_equal; exact H).
  pose proof (inj_neq0 b Hb). pose proof (inj_neq0 e He).
  transitivity ((inj a * inj e) / (inj b * inj e))%Qc; [field; auto|].
  rewrite E. field; auto.
Qed.

Lemma inj_cross_inv (a b c e : Z) :
  b <> 0 -> e <> 0 ->
  (inj a / inj b = inj c / inj e)%Qc -> a * e = c * b.
Proof.
  intros Hb He H. apply inj_inj. rewrite !inj_mul.
  pose proof (inj_neq0 b Hb). pose proof (inj_neq0 e He).
  transitivity (inj a / inj b * (inj b * inj e))%Qc; [field; auto|].
  rewrite H. field; auto.
Qed.

Lemma Fval_new (n0 d0 : Z) (f : Frac.t) :
  d0 <> 0 -> Frac.new n0 d0 = Ok f ->
  Frac.wf f /\ Fval f = (inj n0 / inj d0)%Qc.
Proof.
  intros Hd E. destruct (Frac_new_spec n0 d0 Hd) as (f' & E' & W & X).
  rewrite E in E'. injection E' as <-. split; [exact W|].
  unfold Fval. destruct W as [P _]. apply inj_cross; lia.
Qed.

(** A fraction in lowest terms is determined by its value. *)
Lemma Fval_canon (a b : Frac.t) :
  Frac.wf a -> Frac.wf b -> Fval a = Fval b -> a = b.
Proof.
  intros [Pa Ga] [Pb Gb] E. unfold Fval in E.
  apply inj_cross_inv in E; try lia.
  destruct a as [na da], b as [nb db]; cbn [Frac.n Frac.d] in *.
  assert (D1 : (da | db)).
  { apply (Z.gauss da na db); [|rewrite Z.gcd_comm; exact Ga].
    exists nb. lia. }
  assert (D2 : (db | da)).
  { apply (Z.gauss db nb da); [|rewrite Z.gcd_comm; exact Gb].
    exists na. lia. }
  assert (da = db) by (apply Z.divide_antisym_nonneg; [lia | lia | assumption | assumption]).
  subst db. f_equal. nia.
Qed.

Lemma Fval_int (a : Frac.t) (z : Z) :
  Frac.wf a -> Fval a = inj z -> a = Frac.mk z 1.
Proof.
  intros W E. apply Fval_canon; [exact W | |].
  - split; [cbn; lia | apply Z.gcd_1_r].
  - rewrite E. unfold Fval. cbn [Frac.n Frac.d]. rewrite inj_1. field.
    exact Q_apart_0_1.
Qed.

Lemma Fval_fromBI (z : Z) (f : Frac.t) :
  Frac.fromBI z = Ok f -> Frac.wf f /\ Fval f = inj z.
Proof.
  intros E. destruct (Fval_new z 1 f ltac:(lia) E) as [W V].
  split; [exact W|]. rewrite V, inj_1. field. exact Q_apart_0_1.
Qed.

Lemma fromBI_ok (z : Z) : Frac.fromBI z = Ok (Frac.mk z 1).
Proof.
  destruct (Frac_new_spec z 1 ltac:(lia)) as (f & E & W & _).
  unfold Frac.fromBI. rewrite E. f_equal.
  apply Fval_int; [exact W|]. apply (Fval_fromBI z f E).
Qed.

Lemma wf_den_neq0 (a : Frac.t) : Frac.wf a -> inj (Frac.d a) <> 0%Qc.
Proof. intros [P _]. apply inj_neq0. lia. Qed.

Lemma Fval_add (a b : Frac.t) :
  Frac.wf a -> Frac.wf b ->
  exists r, Frac.add a b = Ok r /\ Frac.wf r /\ Fval r = (Fval a + Fval b)%Qc.
Proof.
  intros Wa Wb. pose proof Wa as [Pa _]. pose proof Wb as [Pb _].
  destruct (Frac_add_spec a b Wa Wb) as (r & E & W & _).
  exists r. split; [exact E|]. split; [exact W|].
  unfold Frac.add in E. apply Fval_new in E; [|nia].
  destruct E as [_ ->]. unfold Fval. rewrite inj_add, !inj_mul.
  pose proof (wf_den_neq0 a Wa). pose proof (wf_den_neq0 b Wb).
  field; auto.
Qed.

Lemma Fval_sub (a b : Frac.t) :
  Frac.wf a -> Frac.wf b ->
  exists r, Frac.sub a b = Ok r /\ Frac.wf r /\ Fval r = (Fval a - Fval b)%Qc.
Proof.
  intros Wa Wb. pose proof Wa as [Pa _]. pose proof Wb as [Pb _].
  destruct (Frac_sub_spec a b Wa Wb) as (r & E & W & _).
  exists r. split; [exact E|]. split; [exact W|].
  unfold Frac.sub in E. apply Fval_new in E; [|nia].
  destruct E as [_ ->]. unfold Fval. rewrite inj_sub, !inj_mul.
  pose proof (wf_den_neq0 a Wa). pose proof (wf_den_neq0 b Wb).
  field; auto.
Qed.

Lemma Fval_mul (a b : Frac.t) :
  Frac.wf a -> Frac.wf b ->
  exists r, Frac.mul a b = Ok r /\ Frac.wf r /\ Fval r = (Fval a * Fval b)%Qc.
Proof.
  intros Wa Wb. pose proof Wa as [Pa _]. pose proof Wb as [Pb _].
  destruct (Frac_mul_spec a b Wa Wb) as (r & E & W & _).
  exists r. split; [exact E|]. split; [exact W|].
  unfold Frac.mul in E. apply Fval_new in E; [|nia].
  destruct E as [_ ->]. unfold Fval. rewrite !inj_mul.
  pose proof (wf_den_neq0 a Wa). pose proof (wf_den_neq0 b Wb).
  field; auto.
Qed.

Lemma Fval_zero_iff (a : Frac.t) :
  Frac.wf a -> (Fval a = 0%Qc <-> Frac.n a = 0).
Proof.
  intros W. pose proof (wf_den_neq0 a W) as Hd. unfold Fval. split.
  - intros E. apply inj_inj. rewrite inj_0.
    transitivity (inj (Frac.n a) / inj (Frac.d a) * inj (Frac.d a))%Qc;
      [field; auto|]. rewrite E. ring.
  - intros ->. rewrite inj_0. field; auto.
Qed.

Lemma Fval_div (a b : Frac.t) :
  Frac.wf a -> Frac.wf b -> Frac.n b <> 0 ->
  exists r, Frac.div a b = Ok r /\ Frac.wf r /\ Fval r = (Fval a / Fval b)%Qc.
Proof.
  intros Wa Wb Hn. pose proof Wa as [Pa _]. pose proof Wb as [Pb _].
  destruct (Frac_div_spec a b Wa Wb Hn) as (r & E & W & _).
  exists r. split; [exact E|]. split; [exact W|].
  unfold Frac.div in E. destruct (Z.eqb_spec (Frac.n b) 0); [contradiction|].
  apply Fval_new in E; [|nia].
  destruct E as [_ ->]. unfold Fval. rewrite !inj_mul.
  pose proof (wf_den_neq0 a Wa). pose proof (wf_den_neq0 b Wb).
  pose proof (inj_neq0 _ Hn).
  field; auto.
Qed.

(** ** The loops of [constantViaLagrange] *)

Lemma remove_at_nil {A : Type} (i : nat) : remove_at i (@nil A) = [].
Proof. unfold remove_at. rewrite firstn_nil, skipn_nil. reflexivity. Qed.

Lemma remove_at_0 {A : Type} (x : A) (l : list A) : remove_at 0 (x :: l) = l.
Proof. reflexivity. Qed.

Lemma remove_at_S {A : Type} (i : nat) (x : A) (l : list A) :
  remove_at (S i) (x :: l) = x :: remove_at i l.
Proof. reflexivity. Qed.

Lemma remove_at_map {A B : Type} (f : A -> B) (i : nat) (l : list A) :
  remove_at i (map f l) = map f (remove_at i l).
Proof. unfold remove_at. rewrite firstn_map, skipn_map, map_app. reflexivity. Qed.

Lemma remove_at_length {A : Type} (i : nat) (l : list A) :
  (i < length l)%nat -> length (remove_at i l) = (length l - 1)%nat.
Proof.
  intros H. unfold remove_at. rewrite length_app, length_firstn, length_skipn. lia.
Qed.

(** A loop over all indices that skips [i] is a loop over the other
    entries. *)
Lemma fold_left_skip {T : Type} (f : T -> Z -> T) (i : nat) (l : list Z) :
  forall (pre : list Z) (a : T),
    fold_left (fun s j => if Nat.eqb j i then s else f s (nth j (pre ++ l) 0))
              (seq (length pre) (length l)) a
    = fold_left f (if Nat.ltb i (length pre) then l
                   else remove_at (i - length pre) l) a.
Proof.
  induction l as [|x l IH]; intros pre a.
  - rewrite remove_at_nil. destruct (Nat.ltb i (length pre)); reflexivity.
  - cbn [length seq fold_left].
    replace (pre ++ x :: l) with ((pre ++ [x]) ++ l)
      by (rewrite <- app_assoc; reflexivity).
    replace (S (length pre)) with (length (pre ++ [x]))
      by (rewrite length_app; simpl; lia).
    rewrite IH. rewrite length_app. cbn [length].
    destruct (Nat.eqb_spec (length pre) i) as [<-|Hne].
    + rewrite Nat.sub_diag, remove_at_0.
      replace (Nat.ltb (length pre) (length pre + 1)) with true
        by (symmetry; apply Nat.ltb_lt; lia).
      replace (Nat.ltb (length pre) (length pre)) with false
        by (symmetry; apply Nat.ltb_ge; lia).
      reflexivity.
    + rewrite <- app_assoc. cbn [app]. rewrite nth_middle.
      destruct (Nat.ltb_spec i (length pre)) as [Hlt|Hge].
      * replace (Nat.ltb i (length pre + 1)) with true
          by (symmetry; apply Nat.ltb_lt; lia).
        reflexivity.
      * replace (Nat.ltb i (length pre + 1)) with false
          by (symmetry; apply Nat.ltb_ge; lia).
        replace (i - length pre)%nat with (S (i - (length pre + 1))) by lia.
        rewrite remove_at_S. reflexivity.
Qed.

Lemma fold_left_prod_pair (xi : Z) (l : list Z) :
  forall a b,
    fold_left (fun (nd : Z * Z) xj => (fst nd * - xj, snd nd * (xi - xj)))
              l (a, b)
    = (a * zprod (map Z.opp l), b * zprod (map (fun xj => xi - xj) l)).
Proof.
  induction l as [|x l IH]; intros a b; cbn [fold_left map zprod fold_right].
  - f_equal; ring.
  - rewrite IH. cbn [fst snd]. fold (zprod (map Z.opp l)).
    fold (zprod (map (fun xj => xi - xj) l)). f_equal; ring.
Qed.

Lemma lagrange_inner_spec (xs : list Z) (i : nat) :
  lagrange_inner xs (length xs) i = (lag_num xs i, lag_den xs i).
Proof.
  unfold lagrange_inner, lag_num, lag_den.
  pose proof (fold_left_skip
                (fun (nd : Z * Z) xj =>
                   (fst nd * - xj, snd nd * (nth i xs 0 - xj)))
                i xs [] (1, 1)) as H.
  cbn [app length] in H. rewrite Nat.sub_0_r in H.
  replace (Nat.ltb i 0) with false in H by (symmetry; apply Nat.ltb_ge; lia).
  etransitivity; [exact H|].
  rewrite fold_left_prod_pair. rewrite !Z.mul_1_l. reflexivity.
Qed.

Lemma zprod_zero_iff (l : list Z) : zprod l = 0 <-> In 0 l.
Proof.
  induction l as [|x l IH]; cbn [zprod fold_right In].
  - split; [lia | tauto].
  - fold (zprod l). rewrite <- IH. split.
    + intros H. apply Z.mul_eq_0 in H. destruct H; auto.
    + intros [->|H]; [ring | rewrite H; ring].
Qed.

Lemma lag_den_zero_iff (xs : list Z) (i : nat) :
  lag_den xs i = 0 <-> In (nth i xs 0) (remove_at i xs).
Proof.
  unfold lag_den. rewrite zprod_zero_iff, in_map_iff. split.
  - intros (xj & E & H). replace (nth i xs 0) with xj by lia. exact H.
  - intros H. exists (nth i xs 0). split; [lia | exact H].
Qed.

Lemma NoDup_lag_den (xs : list Z) (i : nat) :
  NoDup xs -> (i < length xs)%nat -> lag_den xs i <> 0.
Proof.
  intros ND Hi E. apply lag_den_zero_iff in E.
  destruct (split_at xs i 0 Hi) as [S' _].
  rewrite S' in ND. apply NoDup_remove_2 in ND. exact (ND E).
Qed.

(** With a repeated entry some denominator vanishes. *)
Lemma dup_lag_den (xs : list Z) :
  ~ NoDup xs -> exists i, (i < length xs)%nat /\ lag_den xs i = 0.
Proof.
  induction xs as [|x xs IH]; intros H.
  - exfalso. apply H. constructor.
  - destruct (in_dec Z.eq_dec x xs) as [Hin|Hnin].
    + exists 0%nat. split; [simpl; lia|].
      apply lag_den_zero_iff. exact Hin.
    + destruct IH as (i & Hi & E).
      { intros ND. apply H. constructor; assumption. }
      exists (S i). split; [simpl; lia|].
      apply lag_den_zero_iff. apply lag_den_zero_iff in E.
      rewrite remove_at_S. cbn [nth]. right. exact E.
Qed.

Lemma lagrange_step_ok (xs ys : list Z) (acc : Frac.t) (i : nat) :
  Frac.wf acc -> lag_den xs i <> 0 ->
  exists acc', lagrange_step xs ys (length xs) acc i = Ok acc' /\
               Frac.wf acc' /\
               Fval acc' = (Fval acc + lag_summand xs ys i)%Qc.
Proof.
  intros W Hd. unfold lagrange_step. rewrite lagrange_inner_spec.
  destruct (Frac_new_spec (lag_num xs i) (lag_den xs i) Hd) as (li0 & E & _).
  rewrite E. cbn [bind]. apply Fval_new in E; [|exact Hd].
  destruct E as [Wl Vl].
  rewrite fromBI_ok. cbn [bind].
  assert (Wy : Frac.wf (Frac.mk (nth i ys 0) 1))
    by (split; [cbn; lia | apply Z.gcd_1_r]).
  destruct (Fval_mul li0 _ Wl Wy) as (t & Et & Wt & Vt).
  rewrite Et. cbn [bind].
  destruct (Fval_add acc t W Wt) as (r & Er & Wr & Vr).
  exists r. split; [exact Er|]. split; [exact Wr|].
  rewrite Vr, Vt, Vl. unfold lag_summand. f_equal. f_equal.
  unfold Fval. cbn [Frac.n Frac.d]. rewrite inj_1. field. exact Q_apart_0_1.
Qed.

Lemma lagrange_step_zero (xs ys : list Z) (acc : Frac.t) (i : nat) :
  lag_den xs i = 0 ->
  lagrange_step xs ys (length xs) acc i = Err DivisionByZero.
Proof.
  intros E. unfold lagrange_step. rewrite lagrange_inner_spec, E. reflexivity.
Qed.

Lemma lagrange_loop_ok (xs ys : list Z) (idxs : list nat) :
  forall acc,
    Frac.wf acc -> (forall i, In i idxs -> lag_den xs i <> 0) ->
    exists acc', foldM (lagrange_step xs ys (length xs)) idxs acc = Ok acc' /\
                 Frac.wf acc' /\
                 Fval acc' = (Fval acc + qsum (map (lag_summand xs ys) idxs))%Qc.
Proof.
  induction idxs as [|i idxs IH]; intros acc W H.
  - exists acc. split; [reflexivity|]. split; [exact W|].
    cbn [map qsum fold_right]. ring.
  - destruct (lagrange_step_ok xs ys acc i W (H i (or_introl eq_refl)))
      as (a1 & E1 & W1 & V1).
    destruct (IH a1 W1 (fun j Hj => H j (or_intror Hj))) as (a2 & E2 & W2 & V2).
    exists a2. cbn [foldM]. rewrite E1. cbn [bind].
    split; [exact E2|]. split; [exact W2|].
    rewrite V2, V1. cbn [map qsum fold_right]. fold (qsum (map (lag_summand xs ys) idxs)).
    ring.
Qed.

Lemma lagrange_loop_zero (xs ys : list Z) (idxs : list nat) :
  forall acc,
    Frac.wf acc -> (exists i, In i idxs /\ lag_den xs i = 0) ->
    foldM (lagrange_step xs ys (length xs)) idxs acc = Err DivisionByZero.
Proof.
  induction idxs as [|i idxs IH]; intros acc W (j & Hj & E).
  - destruct Hj.
  - cbn [foldM].
    destruct (Z.eq_dec (lag_den xs i) 0) as [Ei|Ni].
    + rewrite lagrange_step_zero by exact Ei. reflexivity.
    + destruct (lagrange_step_ok xs ys acc i W Ni) as (a1 & E1 & W1 & _).
      rewrite E1. cbn [bind]. apply IH; [exact W1|].
      exists j. split; [|exact E].
      destruct Hj as [->|Hj]; [contradiction | exact Hj].
Qed.

Lemma wf_zero : Frac.wf (Frac.mk 0 1).
Proof. split; [cbn; lia | reflexivity]. Qed.

(** The value of [constantViaLagrange] on distinct abscissas. *)
Lemma constantViaLagrange_nodup (points : list Point.t) :
  NoDup (map Point.x points) ->
  exists acc,
    Frac.wf acc /\
    Fval acc = lagZ (map Point.x points) (map Point.y points) /\
    constantViaLagrange points =
    if Frac.isInt acc then Ok (Frac.n acc) else Err NonIntegerConstant.
Proof.
  intros ND. unfold constantViaLagrange. rewrite fromBI_ok. cbn [bind].
  rewrite <- (length_map Point.x points).
  destruct (lagrange_loop_ok (map Point.x points) (map Point.y points)
              (seq 0 (length (map Point.x points))) _ wf_zero)
    as (acc & E & W & V).
  { intros i Hi. apply in_seq in Hi. apply NoDup_lag_den; [exact ND | lia]. }
  exists acc. split; [exact W|]. split.
  - rewrite V. unfold lagZ, Fval. cbn [Frac.n Frac.d].
    rewrite inj_0, inj_1. field. exact Q_apart_0_1.
  - rewrite E. reflexivity.
Qed.

(** ... and on abscissas with a repetition. *)
Lemma constantViaLagrange_dup (points : list Point.t) :
  ~ NoDup (map Point.x points) ->
  constantViaLagrange points = Err DivisionByZero.
Proof.
  intros H. unfold constantViaLagrange. rewrite fromBI_ok. cbn [bind].
  rewrite <- (length_map Point.x points).
  rewrite lagrange_loop_zero; [reflexivity | exact wf_zero |].
  destruct (dup_lag_den _ H) as (i & Hi & E).
  exists i. split; [apply in_seq; lia | exact E].
Qed.

(** ** Polynomials over the rationals *)

Lemma peval_cons (c : Qc) (cs : list Qc) (t : Qc) :
  peval (c :: cs) t = (c + t * peval cs t)%Qc.
Proof. reflexivity. Qed.

Lemma padd_eval (p : list Qc) :
  forall q t, peval (padd p q) t = (peval p t + peval q t)%Qc.
Proof.
  induction p as [|a p IH]; intros [|b q] t; cbn [padd].
  - cbn. ring.
  - cbn [peval fold_right]. ring.
  - cbn [peval fold_right]. ring.
  - rewrite !peval_cons, IH. ring.
Qed.

Lemma padd_length (p : list Qc) :
  forall q, length (padd p q) = Nat.max (length p) (length q).
Proof.
  induction p as [|a p IH]; intros [|b q]; cbn [padd length]; try lia.
  rewrite IH. lia.
Qed.

Lemma pscale_eval (c : Qc) (p : list Qc) (t : Qc) :
  peval (pscale c p) t = (c * peval p t)%Qc.
Proof.
  induction p as [|a p IH]; [cbn; ring|].
  cbn [pscale map]. fold (pscale c p). rewrite !peval_cons, IH. ring.
Qed.

Lemma pscale_length (c : Qc) (p : list Qc) : length (pscale c p) = length p.
Proof. apply length_map. Qed.

Lemma pmul_lin_eval (a : Qc) (p : list Qc) (t : Qc) :
  peval (pmul_lin a p) t = ((t - a) * peval p t)%Qc.
Proof.
  unfold pmul_lin. rewrite padd_eval, pscale_eval, peval_cons. ring.
Qed.

Lemma pmul_lin_length (a : Qc) (p : list Qc) :
  length (pmul_lin a p) = S (length p).
Proof.
  unfold pmul_lin. rewrite padd_length, pscale_length. cbn [length]. lia.
Qed.

Lemma plin_prod_eval (l : list Qc) (t : Qc) :
  peval (plin_prod l) t = qprod (map (fun xj => t - xj)%Qc l).
Proof.
  induction l as [|a l IH]; [cbn; ring|].
  cbn [plin_prod fold_right map qprod]. fold (plin_prod l).
  fold (qprod (map (fun xj => t - xj)%Qc l)).
  rewrite pmul_lin_eval, IH. reflexivity.
Qed.

Lemma plin_prod_length (l : list Qc) : length (plin_prod l) = S (length l).
Proof.
  induction l as [|a l IH]; [reflexivity|].
  cbn [plin_prod fold_right]. fold (plin_prod l).
  rewrite pmul_lin_length, IH. reflexivity.
Qed.

Lemma psyn_length (a : Qc) (cs : list Qc) :
  length (psyn a cs) = pred (length cs).
Proof.
  induction cs as [|c cs IH]; [reflexivity|].
  destruct cs as [|c' cs']; [reflexivity|].
  change (psyn a (c :: c' :: cs')) with (peval (c' :: cs') a :: psyn a (c' :: cs')).
  cbn [length] in *. rewrite IH. reflexivity.
Qed.

(** Division by [X - a] with remainder [p(a)]. *)
Lemma psyn_eval (a : Qc) (cs : list Qc) (t : Qc) :
  peval cs t = (peval cs a + (t - a) * peval (psyn a cs) t)%Qc.
Proof.
  induction cs as [|c cs IH]; [cbn; ring|].
  destruct cs as [|c' cs']; [cbn; ring|].
  change (psyn a (c :: c' :: cs')) with (peval (c' :: cs') a :: psyn a (c' :: cs')).
  set (p := c' :: cs') in *.
  rewrite (peval_cons c p t), (peval_cons c p a), (peval_cons (peval p a)).
  rewrite IH at 1. ring.
Qed.

Lemma all0_eval (cs : list Qc) (t : Qc) : all0 cs -> peval cs t = 0%Qc.
Proof.
  induction 1 as [|c cs E _ IH]; [reflexivity|].
  rewrite peval_cons, IH, E. ring.
Qed.

Lemma psyn_zero (a : Qc) (cs : list Qc) :
  all0 (psyn a cs) -> peval cs a = 0%Qc -> all0 cs.
Proof.
  induction cs as [|c cs IH]; intros H E; [constructor|].
  destruct cs as [|c' cs'].
  - constructor; [|constructor]. cbn in E. rewrite <- E. ring.
  - change (psyn a (c :: c' :: cs'))
      with (peval (c' :: cs') a :: psyn a (c' :: cs')) in H.
    set (p := c' :: cs') in *.
    apply Forall_cons_iff in H. destruct H as [E1 H1].
    specialize (IH H1 E1).
    constructor; [|exact IH].
    rewrite (peval_cons c p a), E1 in E. rewrite <- E. ring.
Qed.

(** A polynomial with fewer coefficients than distinct roots is zero. *)
Lemma roots_all0 (xs : list Qc) :
  NoDup xs ->
  forall cs, (length cs <= length xs)%nat ->
             (forall x, In x xs -> peval cs x = 0%Qc) -> all0 cs.
Proof.
  induction 1 as [|a xs Hnin ND IH]; intros cs L R.
  - destruct cs; [constructor | simpl in L; lia].
  - apply (psyn_zero a); [|apply R; left; reflexivity].
    apply IH.
    + rewrite psyn_length. cbn [length] in L. lia.
    + intros x Hx. pose proof (R x (or_intror Hx)) as E.
      rewrite (psyn_eval a cs x) in E.
      rewrite (R a (or_introl eq_refl)) in E.
      rewrite Qcplus_0_l in E.
      apply Qcmult_integral in E. destruct E as [E|E]; [|exact E].
      exfalso. apply Hnin. replace a with x; [exact Hx|].
      transitivity (x - a + a)%Qc; [ring | rewrite E; ring].
Qed.

(** ** The Lagrange formula *)

Lemma qprod_zero (l : list Qc) : In 0%Qc l -> qprod l = 0%Qc.
Proof.
  induction l as [|x l IH]; intros H; [destruct H|].
  cbn [qprod fold_right]. fold (qprod l).
  destruct H as [->|H]; [ring | rewrite IH by exact H; ring].
Qed.

Lemma qprod_nonzero (l : list Qc) : ~ In 0%Qc l -> qprod l <> 0%Qc.
Proof.
  induction l as [|x l IH]; intros H.
  - cbn. exact Q_apart_0_1.
  - cbn [qprod fold_right]. fold (qprod l). intros E.
    apply Qcmult_integral in E. destruct E as [E|E].
    + apply H. left. exact E.
    + apply IH; [|exact E]. intros Hin. apply H. right. exact Hin.
Qed.

Lemma Qc_sub_zero (a b : Qc) : (a - b = 0)%Qc -> a = b.
Proof. intros E. transitivity (a - b + b)%Qc; [ring | rewrite E; ring]. Qed.

Lemma In_remove_at {A : Type} (dflt : A) (l : list A) :
  forall i m, (m < length l)%nat -> m <> i -> In (nth m l dflt) (remove_at i l).
Proof.
  induction l as [|x l IH]; intros i m Hm Hne; [simpl in Hm; lia|].
  destruct i as [|i], m as [|m]; try lia.
  - rewrite remove_at_0. cbn [nth]. apply nth_In. simpl in Hm. lia.
  - rewrite remove_at_S. left. reflexivity.
  - rewrite remove_at_S. right. cbn [nth]. apply IH; [simpl in Hm; lia | lia].
Qed.

Lemma NoDup_remove_at {A : Type} (dflt : A) (l : list A) (i : nat) :
  NoDup l -> (i < length l)%nat -> ~ In (nth i l dflt) (remove_at i l).
Proof.
  intros ND Hi. destruct (split_at l i dflt Hi) as [S' _].
  rewrite S' in ND. apply NoDup_remove_2 in ND. exact ND.
Qed.

Lemma lag_term_same (F : Qc -> Qc) (xs : list Qc) (m : nat) :
  NoDup xs -> (m < length xs)%nat ->
  lag_term F xs (nth m xs 0%Qc) m = F (nth m xs 0%Qc).
Proof.
  intros ND Hm. unfold lag_term. field.
  apply qprod_nonzero. intros H. apply in_map_iff in H.
  destruct H as (xj & E & Hin). apply Qc_sub_zero in E. subst xj.
  exact (NoDup_remove_at _ _ _ ND Hm Hin).
Qed.

Lemma lag_term_other (F : Qc -> Qc) (xs : list Qc) (m i : nat) :
  (m < length xs)%nat -> m <> i ->
  lag_term F xs (nth m xs 0%Qc) i = 0%Qc.
Proof.
  intros Hm Hne. unfold lag_term.
  rewrite (qprod_zero (map _ (remove_at i xs))).
  - unfold Qcdiv. ring.
  - apply in_map_iff. exists (nth m xs 0%Qc). split; [ring|].
    apply In_remove_at; assumption.
Qed.

Lemma qsum_delta (c : Qc) (m : nat) (l : list nat) :
  NoDup l -> In m l ->
  qsum (map (fun i => if Nat.eqb i m then c else 0%Qc) l) = c.
Proof.
  induction 1 as [|a l Hnin ND IH]; intros Hin; [destruct Hin|].
  cbn [map qsum fold_right].
  fold (qsum (map (fun i => if Nat.eqb i m then c else 0%Qc) l)).
  destruct (Nat.eqb_spec a m) as [->|Hne].
  - assert (E : qsum (map (fun i => if Nat.eqb i m then c else 0%Qc) l) = 0%Qc).
    { clear IH ND Hin. induction l as [|b l IHl]; [reflexivity|].
      cbn [map qsum fold_right].
      destruct (Nat.eqb_spec b m) as [->|_]; [exfalso; apply Hnin; left; reflexivity|].
      fold (qsum (map (fun i => if Nat.eqb i m then c else 0%Qc) l)).
      rewrite IHl; [ring|]. intros H. apply Hnin. right. exact H. }
    rewrite E. ring.
  - destruct Hin as [->|Hin]; [contradiction|].
    rewrite IH by exact Hin. ring.
Qed.

(** The interpolant takes the value [F x_m] at the node [x_m]. *)
Lemma lagQ_node (F : Qc -> Qc) (xs : list Qc) (m : nat) :
  NoDup xs -> (m < length xs)%nat ->
  lagQ F xs (nth m xs 0%Qc) = F (nth m xs 0%Qc).
Proof.
  intros ND Hm. unfold lagQ.
  rewrite (map_ext_in _ (fun i => if Nat.eqb i m then F (nth m xs 0%Qc) else 0%Qc)).
  - apply qsum_delta; [apply seq_NoDup | apply in_seq; lia].
  - intros i _. destruct (Nat.eqb_spec i m) as [->|Hne].
    + apply lag_term_same; assumption.
    + apply lag_term_other; [assumption | congruence].
Qed.

Lemma lag_poly_term_eval (F : Qc -> Qc) (xs : list Qc) (i : nat) (t : Qc) :
  peval (lag_poly_term F xs i) t = lag_term F xs t i.
Proof.
  unfold lag_poly_term, lag_term. rewrite pscale_eval, plin_prod_eval.
  unfold Qcdiv. ring.
Qed.

Lemma lag_poly_term_length (F : Qc -> Qc) (xs : list Qc) (i : nat) :
  (i < length xs)%nat -> length (lag_poly_term F xs i) = length xs.
Proof.
  intros Hi. unfold lag_poly_term.
  rewrite pscale_length, plin_prod_length, remove_at_length by exact Hi. lia.
Qed.

Lemma psum_eval (ps : list (list Qc)) (t : Qc) :
  peval (fold_right padd [] ps) t = qsum (map (fun p => peval p t) ps).
Proof.
  induction ps as [|p ps IH]; [reflexivity|].
  cbn [fold_right map qsum]. rewrite padd_eval, IH. reflexivity.
Qed.

Lemma psum_length (ps : list (list Qc)) (b : nat) :
  (forall p, In p ps -> (length p <= b)%nat) ->
  (length (fold_right padd [] ps) <= b)%nat.
Proof.
  induction ps as [|p ps IH]; intros H; [simpl; lia|].
  cbn [fold_right]. rewrite padd_length.
  pose proof (H p (or_introl eq_refl)).
  pose proof (IH (fun q Hq => H q (or_intror Hq))). lia.
Qed.

Lemma lag_poly_eval (F : Qc -> Qc) (xs : list Qc) (t : Qc) :
  peval (lag_poly F xs) t = lagQ F xs t.
Proof.
  unfold lag_poly, lagQ. rewrite psum_eval, map_map. f_equal.
  apply map_ext. intros i. apply lag_poly_term_eval.
Qed.

Lemma lag_poly_length (F : Qc -> Qc) (xs : list Qc) :
  (length (lag_poly F xs) <= length xs)%nat.
Proof.
  unfold lag_poly. apply psum_length. intros p Hp.
  apply in_map_iff in Hp. destruct Hp as (i & <- & Hi).
  apply in_seq in Hi. rewrite lag_poly_term_length by lia. lia.
Qed.

(** The Lagrange formula reproduces every polynomial with no more
    coefficients than there are (distinct) nodes. *)
Theorem lagQ_exact (cs xs : list Qc) (t : Qc) :
  NoDup xs -> (length cs <= length xs)%nat ->
  lagQ (peval cs) xs t = peval cs t.
Proof.
  intros ND L.
  set (g := padd cs (pscale (- (1))%Qc (lag_poly (peval cs) xs))).
  assert (Z0 : all0 g).
  { apply (roots_all0 xs ND).
    - unfold g. rewrite padd_length, pscale_length.
      pose proof (lag_poly_length (peval cs) xs). lia.
    - intros x Hx. destruct (In_nth xs x 0%Qc Hx) as (m & Hm & <-).
      unfold g. rewrite padd_eval, pscale_eval, lag_poly_eval.
      rewrite lagQ_node by assumption. ring. }
  pose proof (all0_eval g t Z0) as E.
  unfold g in E. rewrite padd_eval, pscale_eval, lag_poly_eval in E.
  symmetry. apply Qc_sub_zero. rewrite <- E. ring.
Qed.

(** ** From the loops to the formula *)

Lemma inj_zprod (l : list Z) : inj (zprod l) = qprod (map inj l).
Proof.
  induction l as [|x l IH]; [exact inj_1|].
  cbn [zprod fold_right map qprod]. fold (zprod l). fold (qprod (map inj l)).
  rewrite inj_mul, IH. reflexivity.
Qed.

Lemma nth_map_inj (i : nat) (xs : list Z) :
  nth i (map inj xs) 0%Qc = inj (nth i xs 0).
Proof. rewrite <- inj_0. apply map_nth. Qed.

Lemma inj_pevalZ (cs : list Z) (t : Z) :
  inj (pevalZ cs t) = peval (map inj cs) (inj t).
Proof.
  induction cs as [|c cs IH]; [exact inj_0|].
  cbn [pevalZ fold_right map]. fold (pevalZ cs t).
  rewrite peval_cons, inj_add, inj_mul, IH. reflexivity.
Qed.

Lemma NoDup_map_inj (xs : list Z) : NoDup xs -> NoDup (map inj xs).
Proof.
  induction 1 as [|x xs Hnin ND IH]; cbn [map]; constructor; [|exact IH].
  intros H. apply in_map_iff in H. destruct H as (x' & E & Hin).
  apply inj_inj in E. subst x'. exact (Hnin Hin).
Qed.

(** The sum accumulated by the program is the Lagrange interpolant at [0]
    of any function that takes the values [ys] at the nodes [xs]. *)
Lemma lagZ_lagQ (F : Qc -> Qc) (xs ys : list Z) :
  (forall i, (i < length xs)%nat -> inj (nth i ys 0) = F (inj (nth i xs 0))) ->
  lagZ xs ys = lagQ F (map inj xs) 0%Qc.
Proof.
  intros H. unfold lagZ, lagQ. rewrite length_map. f_equal.
  apply map_ext_in. intros i Hi. apply in_seq in Hi.
  unfold lag_summand, lag_term, lag_num, lag_den.
  rewrite nth_map_inj, remove_at_map, !inj_zprod, !map_map.
  rewrite (H i ltac:(lia)).
  rewrite (map_ext (fun x => inj (- x)) (fun x => (0 - inj x)%Qc))
    by (intros x; rewrite inj_opp; ring).
  rewrite (map_ext (fun x => inj (nth i xs 0 - x))
                   (fun x => (inj (nth i xs 0%Z) - inj x)%Qc))
    by (intros x; apply inj_sub).
  unfold Qcdiv. ring.
Qed.

Lemma nth_map_point (f : Point.t -> Z) (points : list Point.t) (i : nat) :
  nth i (map f points) 0 = f (nth i points (Point.mk 0 0)) \/
  (length points <= i)%nat.
Proof.
  destruct (Nat.lt_ge_cases i (length points)) as [H|H]; [left | right; exact H].
  rewrite (nth_indep _ 0 (f (Point.mk 0 0))) by (rewrite length_map; exact H).
  apply map_nth.
Qed.

(** Points on an integer polynomial with no more coefficients than there
    are points: the program returns the constant term. *)
Lemma constantViaLagrange_exact (points : list Point.t) (cs : list Z) :
  NoDup (map Point.x points) ->
  (length cs <= length points)%nat ->
  (forall p, In p points -> Point.y p = pevalZ cs (Point.x p)) ->
  constantViaLagrange points = Ok (pevalZ cs 0).
Proof.
  intros ND L Hon.
  destruct (constantViaLagrange_nodup points ND) as (acc & W & V & E).
  rewrite E.
  assert (Hacc : acc = Frac.mk (pevalZ cs 0) 1).
  { apply Fval_int; [exact W|]. rewrite V.
    rewrite (lagZ_lagQ (peval (map inj cs))).
    - rewrite lagQ_exact.
      + rewrite <- inj_0. symmetry. apply inj_pevalZ.
      + apply NoDup_map_inj. exact ND.
      + rewrite !length_map. exact L.
    - intros i Hi. rewrite length_map in Hi.
      destruct (nth_map_point Point.x points i) as [Ex|]; [|lia].
      destruct (nth_map_point Point.y points i) as [Ey|]; [|lia].
      rewrite Ex, Ey, Hon by (apply nth_In; exact Hi).
      apply inj_pevalZ. }
  rewrite Hacc. reflexivity.
Qed.

Lemma pevalZ_0 (cs : list Z) : pevalZ cs 0 = nth 0 cs 0.
Proof. destruct cs as [|c cs]; [reflexivity|]. cbn. lia. Qed.

(** ** The Java computation *)

Lemma java_of (z : Z) : Java.of_ z = Ok (Frac.mk z 1).
Proof. unfold Java.of_. rewrite Java_new_eq by lia. apply fromBI_ok. Qed.

Lemma java_mul_eq (a b : Frac.t) :
  Frac.wf a -> Frac.wf b -> Java.mul a b = Frac.mul a b.
Proof. intros [Pa _] [Pb _]. unfold Java.mul. apply Java_new_eq. nia. Qed.

Lemma java_add_eq (a b : Frac.t) :
  Frac.wf a -> Frac.wf b -> Java.add a b = Frac.add a b.
Proof. intros [Pa _] [Pb _]. unfold Java.add. apply Java_new_eq. nia. Qed.

Lemma wf_int (z : Z) : Frac.wf (Frac.mk z 1).
Proof. split; [cbn; lia | apply Z.gcd_1_r]. Qed.

Lemma Fval_mk_int (z : Z) : Fval (Frac.mk z 1) = inj z.
Proof.
  unfold Fval. cbn [Frac.n Frac.d]. rewrite inj_1. field. exact Q_apart_0_1.
Qed.

Lemma java_mul_int (a b : Z) :
  Java.mul (Frac.mk a 1) (Frac.mk b 1) = Ok (Frac.mk (a * b) 1).
Proof.
  rewrite java_mul_eq by apply wf_int.
  destruct (Fval_mul _ _ (wf_int a) (wf_int b)) as (r & E & W & V).
  rewrite E. f_equal. apply Fval_int; [exact W|].
  rewrite V, !Fval_mk_int, inj_mul. reflexivity.
Qed.

Lemma nth_map_x (subset : list Point.t) (j : nat) :
  Point.x (nth j subset (Point.mk 0 0)) = nth j (map Point.x subset) 0.
Proof. symmetry. exact (map_nth Point.x subset (Point.mk 0 0) j). Qed.

Lemma nth_map_y (subset : list Point.t) (j : nat) :
  Point.y (nth j subset (Point.mk 0 0)) = nth j (map Point.y subset) 0.
Proof. symmetry. exact (map_nth Point.y subset (Point.mk 0 0) j). Qed.

(** The fractions of the inner loop are the integers of the JavaScript
    loop. *)
Lemma java_basis_loop (subset : list Point.t) (i : nat) (l : list nat) :
  forall a b,
    foldM (Java.basis_step subset i) l (Frac.mk a 1, Frac.mk b 1)
    = let nd :=
        fold_left
          (fun (nd : Z * Z) (j : nat) =>
             if Nat.eqb j i then nd
             else (fst nd * - nth j (map Point.x subset) 0,
                   snd nd * (nth i (map Point.x subset) 0
                             - nth j (map Point.x subset) 0)))
          l (a, b) in
      Ok (Frac.mk (fst nd) 1, Frac.mk (snd nd) 1).
Proof.
  induction l as [|j l IH]; intros a b; [reflexivity|].
  cbn [foldM fold_left]. unfold Java.basis_step at 1.
  rewrite (Nat.eqb_sym i j).
  destruct (Nat.eqb j i).
  - cbn [bind]. apply IH.
  - rewrite !java_of. cbn [bind fst snd]. rewrite !java_mul_int. cbn [bind].
    rewrite IH. cbn [fst snd].
    rewrite !nth_map_x. reflexivity.
Qed.

Lemma java_basis_spec (subset : list Point.t) (i : nat) :
  Java.basis subset i =
  Ok (Frac.mk (lag_num (map Point.x subset) i) 1,
      Frac.mk (lag_den (map Point.x subset) i) 1).
Proof.
  unfold Java.basis. rewrite java_of. cbn [bind].
  rewrite java_basis_loop. cbn zeta.
  pose proof (lagrange_inner_spec (map Point.x subset) i) as H.
  unfold lagrange_inner in H. rewrite length_map in H. rewrite H. reflexivity.
Qed.

Lemma java_term_step_ok (subset : list Point.t) (c : Frac.t) (i : nat) :
  Frac.wf c -> lag_den (map Point.x subset) i <> 0 ->
  exists c', Java.term_step subset c i = Ok c' /\ Frac.wf c' /\
             Fval c' = (Fval c + lag_summand (map Point.x subset)
                                             (map Point.y subset) i)%Qc.
Proof.
  intros W Hd. unfold Java.term_step. rewrite java_basis_spec, java_of.
  cbn [bind fst snd].
  set (N := lag_num (map Point.x subset) i) in *.
  set (D := lag_den (map Point.x subset) i) in *.
  set (yv := Point.y (nth i subset (Point.mk 0 0))).
  assert (Eq : exists q, Java.div (Frac.mk N 1) (Frac.mk D 1) = Ok q /\
                         Frac.wf q /\ Fval q = (inj N / inj D)%Qc).
  { unfold Java.div. cbn [Frac.n Frac.d]. rewrite Java_new_eq by lia.
    destruct (Frac_new_spec (N * 1) (1 * D) ltac:(lia)) as (q & E & _).
    exists q. split; [exact E|]. apply Fval_new in E; [|lia].
    destruct E as [Wq Vq]. split; [exact Wq|].
    rewrite Vq. rewrite Z.mul_1_r, Z.mul_1_l. reflexivity. }
  destruct Eq as (q & Eq & Wq & Vq). rewrite Eq. cbn [bind].
  rewrite java_mul_eq by (try apply wf_int; assumption).
  destruct (Fval_mul _ q (wf_int yv) Wq) as (t & Et & Wt & Vt).
  rewrite Et. cbn [bind]. rewrite java_add_eq by assumption.
  destruct (Fval_add c t W Wt) as (r & Er & Wr & Vr).
  exists r. split; [exact Er|]. split; [exact Wr|].
  rewrite Vr, Vt, Vq, Fval_mk_int. unfold lag_summand. fold N D.
  replace (nth i (map Point.y subset) 0) with yv
    by (unfold yv; apply nth_map_y).
  unfold Qcdiv. ring.
Qed.

Lemma java_loop_ok (subset : list Point.t) (idxs : list nat) :
  forall c,
    Frac.wf c ->
    (forall i, In i idxs -> lag_den (map Point.x subset) i <> 0) ->
    exists c', foldM (Java.term_step subset) idxs c = Ok c' /\ Frac.wf c' /\
               Fval c' = (Fval c + qsum (map (lag_summand (map Point.x subset)
                                                (map Point.y subset)) idxs))%Qc.
Proof.
  induction idxs as [|i idxs IH]; intros c W H.
  - exists c. split; [reflexivity|]. split; [exact W|].
    cbn [map qsum fold_right]. ring.
  - destruct (java_term_step_ok subset c i W (H i (or_introl eq_refl)))
      as (a1 & E1 & W1 & V1).
    destruct (IH a1 W1 (fun j Hj => H j (or_intror Hj))) as (a2 & E2 & W2 & V2).
    exists a2. cbn [foldM]. rewrite E1. cbn [bind].
    split; [exact E2|]. split; [exact W2|].
    rewrite V2, V1. cbn [map qsum fold_right].
    fold (qsum (map (lag_summand (map Point.x subset) (map Point.y subset)) idxs)).
    ring.
Qed.

Lemma java_constantTermAtZero_exact (points : list Point.t) (cs : list Z) :
  NoDup (map Point.x points) ->
  (length cs <= length points)%nat ->
  (forall p, In p points -> Point.y p = pevalZ cs (Point.x p)) ->
  Java.constantTermAtZero points (length points) = Ok (pevalZ cs 0).
Proof.
  intros ND L Hon. unfold Java.constantTermAtZero.
  rewrite Nat.ltb_irrefl, firstn_all, java_of. cbn [bind].
  destruct (java_loop_ok points (seq 0 (length points)) _ wf_zero)
    as (acc & E & W & V).
  { intros i Hi. apply in_seq in Hi.
    apply NoDup_lag_den; [exact ND | rewrite length_map; lia]. }
  rewrite E. cbn [bind].
  assert (Hacc : acc = Frac.mk (pevalZ cs 0) 1).
  { apply Fval_int; [exact W|]. rewrite V, Fval_mk_int, inj_0, Qcplus_0_l.
    rewrite <- (length_map Point.x points). fold (lagZ (map Point.x points) (map Point.y points)).
    rewrite (lagZ_lagQ (peval (map inj cs))).
    - rewrite lagQ_exact.
      + rewrite <- inj_0. symmetry. apply inj_pevalZ.
      + apply NoDup_map_inj. exact ND.
      + rewrite !length_map. exact L.
    - intros i Hi. rewrite length_map in Hi.
      destruct (nth_map_point Point.x points i) as [Ex|]; [|lia].
      destruct (nth_map_point Point.y points i) as [Ey|]; [|lia].
      rewrite Ex, Ey, Hon by (apply nth_In; exact Hi).
      apply inj_pevalZ. }
  rewrite Hacc. reflexivity.
Qed.

(** C1.  Exactly [k] points with pairwise distinct abscissas on an integer
    polynomial [f] with at most [k] coefficients (degree at most [k - 1]):
    the Lagrange computation, the direct branch of the main program and the
    Java computation all return the constant term [f(0)]. *)
Theorem C1_direct_mode (k n : nat) (points : list Point.t) (cs : list Z)
  (argv : list string)
  (Hlen : length points = k)
  (Hdist : NoDup (map Point.x points))
  (Hdeg : (length cs <= k)%nat)
  (Hon : forall p, In p points -> Point.y p = pevalZ cs (Point.x p))
  (Hargv : parsePickArg argv = Ok None) :
  constantViaLagrange points = Ok (pevalZ cs 0) /\
  main k n points argv = Some (Ok (toStringBI (pevalZ cs 0))) /\
  Java.constantTermAtZero points k = Ok (pevalZ cs 0) /\
  pevalZ cs 0 = nth 0 cs 0.
Proof.
  subst k.
  pose proof (constantViaLagrange_exact points cs Hdist Hdeg Hon) as E.
  split; [exact E|]. split; [|split].
  - unfold main. rewrite Nat.ltb_irrefl, Hargv, Nat.eqb_refl, orb_true_r.
    rewrite firstn_all, E. reflexivity.
  - apply java_constantTermAtZero_exact; assumption.
  - apply pevalZ_0.
Qed.

Lemma C1_direct_mode_witness :
  let pts := [Point.mk 1 10; Point.mk 2 21; Point.mk 3 38] in
  constantViaLagrange pts = Ok 5 /\
  main 3 3 pts [] = Some (Ok "5"%string) /\
  Java.constantTermAtZero pts 3 = Ok 5 /\
  pevalZ [5; 2; 3] 0 = 5.
Proof.
  apply (C1_direct_mode 3 3 [Point.mk 1 10; Point.mk 2 21; Point.mk 3 38]
           [5; 2; 3] []).
  - reflexivity.
  - repeat constructor; simpl; intuition lia.
  - simpl; lia.
  - intros p [<-|[<-|[<-|[]]]]; reflexivity.
  - reflexivity.
Defined.

(** ** Subsets with a repeated abscissa *)

Lemma two_equal_not_NoDup (subset : list Point.t) (i j : nat) (p q : Point.t) :
  i <> j ->
  nth_error subset i = Some p -> nth_error subset j = Some q ->
  Point.x p = Point.x q ->
  ~ NoDup (map Point.x subset).
Proof.
  intros Hne Hi Hj E ND.
  apply Hne. apply (proj1 (NoDup_nth_error (map Point.x subset)) ND).
  - rewrite length_map. apply nth_error_Some. congruence.
  - rewrite !nth_error_map, Hi, Hj. cbn. congruence.
Qed.

(** C8.  A subset with two points of equal abscissa: the Lagrange attempt
    fails with the division-by-zero error, and the voting round of that
    subset leaves both tallies as they were. *)
Theorem C8_repeated_x (points : list Point.t)
  (counts : jsmap nat) (example : jsmap (list nat))
  (combo : list nat) (subset : list Point.t) (i j : nat) (p q : Point.t)
  (Hsub : subsetAt points combo = Ok subset)
  (Hij : i <> j)
  (Hi : nth_error subset i = Some p)
  (Hj : nth_error subset j = Some q)
  (Hx : Point.x p = Point.x q) :
  constantViaLagrange subset = Err DivisionByZero /\
  vote_step points (counts, example) combo = (counts, example).
Proof.
  assert (E : constantViaLagrange subset = Err DivisionByZero).
  { apply constantViaLagrange_dup.
    exact (two_equal_not_NoDup subset i j p q Hij Hi Hj Hx). }
  split; [exact E|].
  unfold vote_step, lagrangeOn. rewrite Hsub. cbn [bind]. rewrite E. reflexivity.
Qed.

Lemma C8_repeated_x_witness :
  let pts := [Point.mk 1 5; Point.mk 1 9; Point.mk 2 13] in
  constantViaLagrange pts = Err DivisionByZero /\
  vote_step pts ([("7"%string, 2%nat)], [("7"%string, [0; 1; 2]%nat)])
            [0; 1; 2]%nat
  = ([("7"%string, 2%nat)], [("7"%string, [0; 1; 2]%nat)]).
Proof.
  apply (C8_repeated_x [Point.mk 1 5; Point.mk 1 9; Point.mk 2 13]
           [("7"%string, 2%nat)] [("7"%string, [0; 1; 2]%nat)]
           [0; 1; 2]%nat [Point.mk 1 5; Point.mk 1 9; Point.mk 2 13]
           0%nat 1%nat (Point.mk 1 5) (Point.mk 1 9)).
  - reflexivity.
  - lia.
  - reflexivity.
  - reflexivity.
  - reflexivity.
Defined.

(** ** Keys and maps *)

Lemma toStringBI_inj (a b : Z) : toStringBI a = toStringBI b -> a = b.
Proof.
  unfold toStringBI. intros H.
  assert (N : forall z, Z.to_int z <> Pos Nil /\ Z.to_int z <> Neg Nil).
  { intros [|p|p]; cbn; split; try discriminate;
      intros E; injection E; apply Unsigned.to_uint_nonnil. }
  apply (f_equal NilZero.int_of_string) in H.
  rewrite !NilZero.isi in H by apply N.
  injection H. apply to_int_inj.
Qed.

Lemma map_set_keys {V : Type} (m : jsmap V) (k : string) (v : V) :
  map fst (map_set m k v) =
  if map_has m k then map fst m else map fst m ++ [k].
Proof.
  unfold map_has. induction m as [|[k0 v0] m IH]; [reflexivity|].
  cbn [map_set map_get]. destruct (String.eqb k0 k); [reflexivity|].
  cbn [map fst]. rewrite IH. destruct (map_get m k); reflexivity.
Qed.

Lemma map_has_In {V : Type} (m : jsmap V) (k : string) :
  map_has m k = true <-> In k (map fst m).
Proof.
  unfold map_has. induction m as [|[k0 v0] m IH]; cbn [map_get map fst In].
  - split; [discriminate | tauto].
  - destruct (String.eqb_spec k0 k) as [->|Hne].
    + split; auto.
    + rewrite IH. split; [auto | intros [E|H]; [contradiction | exact H]].
Qed.

Lemma map_has_false {V : Type} (m : jsmap V) (k : string) :
  map_has m k = false <-> ~ In k (map fst m).
Proof.
  rewrite <- map_has_In. destruct (map_has m k); split; intros H;
    try congruence; try discriminate.
Qed.

Lemma map_get_set_same {V : Type} (m : jsmap V) (k : string) (v : V) :
  map_get (map_set m k v) k = Some v.
Proof.
  induction m as [|[k0 v0] m IH]; cbn [map_set map_get].
  - rewrite String.eqb_refl. reflexivity.
  - destruct (String.eqb k0 k) eqn:E; cbn [map_get]; rewrite E; auto.
Qed.

Lemma map_get_set_other {V : Type} (m : jsmap V) (k k' : string) (v : V) :
  k <> k' -> map_get (map_set m k v) k' = map_get m k'.
Proof.
  intros Hne. induction m as [|[k0 v0] m IH]; cbn [map_set map_get].
  - destruct (String.eqb_spec k k'); [contradiction | reflexivity].
  - destruct (String.eqb_spec k0 k) as [->|H0]; cbn [map_get].
    + destruct (String.eqb_spec k k'); [contradiction | reflexivity].
    + destruct (String.eqb k0 k'); [reflexivity | exact IH].
Qed.

Lemma map_get_In {V : Type} (m : jsmap V) (k : string) (v : V) :
  map_get m k = Some v -> In (k, v) m.
Proof.
  induction m as [|[k0 v0] m IH]; cbn [map_get]; [discriminate|].
  destruct (String.eqb_spec k0 k) as [->|Hne].
  - intros E. injection E as ->. left. reflexivity.
  - intros E. right. exact (IH E).
Qed.

Lemma In_map_get {V : Type} (m : jsmap V) (k : string) (v : V) :
  NoDup (map fst m) -> In (k, v) m -> map_get m k = Some v.
Proof.
  induction m as [|[k0 v0] m IH]; intros ND Hin; [destruct Hin|].
  cbn [map fst] in ND. inversion ND as [|? ? Hnin ND']; subst.
  cbn [map_get]. destruct Hin as [E|Hin].
  - injection E as -> ->. rewrite String.eqb_refl. reflexivity.
  - destruct (String.eqb_spec k0 k) as [->|Hne].
    + exfalso. apply Hnin. apply (in_map fst) in Hin. exact Hin.
    + exact (IH ND' Hin).
Qed.

Lemma In_map_set {V : Type} (m : jsmap V) (a k : string) (v e : V) :
  In (k, e) (map_set m a v) -> (k = a /\ e = v) \/ In (k, e) m.
Proof.
  induction m as [|[k0 v0] m IH]; cbn [map_set].
  - intros [E|[]]. injection E as <- <-. left. auto.
  - destruct (String.eqb_spec k0 a) as [->|Hne].
    + intros [E|H]; [injection E as <- <-; left; auto | right; right; exact H].
    + intros [E|H]; [right; left; exact E|].
      destruct (IH H) as [L|R]; [left; exact L | right; right; exact R].
Qed.

Lemma NoDup_snoc {A : Type} (l : list A) (a : A) :
  NoDup l -> ~ In a l -> NoDup (l ++ [a]).
Proof.
  induction 1 as [|x l Hnin ND IH]; intros H; cbn [app].
  - constructor; [intros [] | constructor].
  - constructor.
    + intros Hin. apply in_app_or in Hin. destruct Hin as [Hin|[E|[]]].
      * exact (Hnin Hin).
      * apply H. left. symmetry. exact E.
    + apply IH. intros Hin. apply H. right. exact Hin.
Qed.

Lemma first_split {A : Type} (eq_dec : forall a b : A, {a = b} + {a <> b})
  (w : A) (l : list A) :
  In w l -> exists r1 r2, l = r1 ++ w :: r2 /\ ~ In w r1.
Proof.
  induction l as [|x l IH]; intros H; [destruct H|].
  destruct (eq_dec x w) as [->|Hne].
  - exists [], l. split; [reflexivity | intros []].
  - destruct H as [E|H]; [contradiction|].
    destruct (IH H) as (r1 & r2 & -> & Hnin).
    exists (x :: r1), r2. split; [reflexivity|].
    intros [E|Hin]; [contradiction | exact (Hnin Hin)].
Qed.

Lemma NoDup_split_unique {A : Type} (w : A) (a1 : list A) :
  forall a2 b1 b2,
    NoDup (a1 ++ w :: b1) -> a1 ++ w :: b1 = a2 ++ w :: b2 -> a1 = a2.
Proof.
  induction a1 as [|x a1 IH]; intros [|y a2] b1 b2 ND E; cbn [app] in *.
  - reflexivity.
  - exfalso. injection E as <- E. inversion ND as [|? ? Hnin _]; subst.
    apply Hnin. apply in_or_app. right. left. reflexivity.
  - exfalso. injection E as -> E. inversion ND as [|? ? Hnin _]; subst.
    apply Hnin. apply in_or_app. right. left. reflexivity.
  - injection E as -> E. inversion ND as [|? ? _ ND']; subst.
    f_equal. exact (IH a2 b1 b2 ND' E).
Qed.

(** ** Tallies *)

Lemma tally_step_keys (counts : jsmap nat) (key : string) :
  map fst (tally_step counts key) =
  if map_has counts key then map fst counts else map fst counts ++ [key].
Proof. apply map_set_keys. Qed.

Lemma tally_step_getd (counts : jsmap nat) (key k' : string) :
  getd (tally_step counts key) k' =
  (getd counts k' + if string_dec key k' then 1 else 0)%nat.
Proof.
  unfold getd, tally_step. destruct (string_dec key k') as [->|Hne].
  - rewrite map_get_set_same. reflexivity.
  - rewrite map_get_set_other by exact Hne. lia.
Qed.

Lemma fold_tally_getd (l : list string) :
  forall m k',
    getd (fold_left tally_step l m) k' =
    (getd m k' + count_occ string_dec l k')%nat.
Proof.
  induction l as [|x l IH]; intros m k'; cbn [fold_left count_occ]; [lia|].
  rewrite IH, tally_step_getd. destruct (string_dec x k'); lia.
Qed.

Lemma fold_tally_keys_prefix (l : list string) :
  forall m, exists ext,
    map fst (fold_left tally_step l m) = map fst m ++ ext.
Proof.
  induction l as [|x l IH]; intros m; cbn [fold_left].
  - exists []. rewrite app_nil_r. reflexivity.
  - destruct (IH (tally_step m x)) as (ext & E). rewrite E, tally_step_keys.
    destruct (map_has m x).
    + exists ext. reflexivity.
    + exists (x :: ext). rewrite <- app_assoc. reflexivity.
Qed.

Lemma fold_tally_NoDup (l : list string) :
  forall m, NoDup (map fst m) -> NoDup (map fst (fold_left tally_step l m)).
Proof.
  induction l as [|x l IH]; intros m ND; cbn [fold_left]; [exact ND|].
  apply IH. rewrite tally_step_keys.
  destruct (map_has m x) eqn:E; [exact ND|].
  apply NoDup_snoc; [exact ND | apply map_has_false; exact E].
Qed.

Lemma fold_tally_keys_In (l : list string) :
  forall m key,
    In key (map fst (fold_left tally_step l m)) <->
    In key (map fst m) \/ In key l.
Proof.
  induction l as [|x l IH]; intros m key; cbn [fold_left In]; [tauto|].
  rewrite IH, tally_step_keys.
  destruct (map_has m x) eqn:E.
  - apply map_has_In in E. split.
    + intros [H|H]; auto.
    + intros [H|[<-|H]]; auto.
  - rewrite in_app_iff. cbn [In]. tauto.
Qed.

Lemma tally_entry (rs : list string) (v : string) (cv : nat) :
  In (v, cv) (tally rs) -> cv = count_occ string_dec rs v /\ In v rs.
Proof.
  intros H. split.
  - pose proof (fold_tally_getd rs [] v) as G. fold (tally rs) in G.
    unfold getd in G.
    rewrite (In_map_get (tally rs) v cv) in G; [exact G | | exact H].
    apply fold_tally_NoDup. constructor.
  - apply (in_map fst) in H. cbn [fst] in H.
    apply fold_tally_keys_In in H. destruct H as [[]|H]. exact H.
Qed.

Lemma tally_key (rs : list string) (v : string) :
  In v rs -> exists cv, In (v, cv) (tally rs).
Proof.
  intros H.
  assert (K : In v (map fst (tally rs)))
    by (apply fold_tally_keys_In; right; exact H).
  apply in_map_iff in K. destruct K as ([v' cv] & E & Hin).
  cbn [fst] in E. subst v'. exists cv. exact Hin.
Qed.

(** The selection loop keeps the first entry with the largest count. *)
Lemma pick_best_fold (l : list (string * nat)) :
  forall pre k c mid,
    (forall e, In e pre -> (snd e < c)%nat) ->
    (forall e, In e mid -> (snd e <= c)%nat) ->
    exists pre' k' c' mid',
      pre ++ (k, c) :: mid ++ l = pre' ++ (k', c') :: mid' /\
      fold_left
        (fun (best : option string * Z) (e : string * nat) =>
           if snd best <? Z.of_nat (snd e) then (Some (fst e), Z.of_nat (snd e))
           else best)
        l (Some k, Z.of_nat c) = (Some k', Z.of_nat c') /\
      (forall e, In e pre' -> (snd e < c')%nat) /\
      (forall e, In e mid' -> (snd e <= c')%nat).
Proof.
  induction l as [|[k1 c1] l IH]; intros pre k c mid Hpre Hmid.
  - exists pre, k, c, mid. rewrite app_nil_r. auto.
  - cbn [fold_left fst snd].
    destruct (Z.ltb_spec (Z.of_nat c) (Z.of_nat c1)) as [Hlt|Hge].
    + destruct (IH (pre ++ (k, c) :: mid) k1 c1 []) as (pre' & k' & c' & mid' & E & F & P1 & P2).
      * intros e He. apply in_app_or in He.
        destruct He as [He|[<-|He]]; cbn [snd].
        -- specialize (Hpre e He). lia.
        -- lia.
        -- specialize (Hmid e He). lia.
      * intros e [].
      * exists pre', k', c', mid'. split; [|auto].
        rewrite <- E. rewrite <- !app_assoc. reflexivity.
    + destruct (IH pre k c (mid ++ [(k1, c1)])) as (pre' & k' & c' & mid' & E & F & P1 & P2).
      * exact Hpre.
      * intros e He. apply in_app_or in He.
        destruct He as [He|[<-|[]]]; [exact (Hmid e He) | cbn [snd]; lia].
      * exists pre', k', c', mid'. split; [|auto].
        rewrite <- E. rewrite <- !app_assoc. reflexivity.
Qed.

Lemma pick_best_spec (counts : jsmap nat) :
  counts <> [] ->
  exists pre k c post,
    counts = pre ++ (k, c) :: post /\
    pick_best counts = (Some k, Z.of_nat c) /\
    (forall e, In e pre -> (snd e < c)%nat) /\
    (forall e, In e post -> (snd e <= c)%nat).
Proof.
  destruct counts as [|[k c] l]; [congruence|]. intros _.
  unfold pick_best. cbn [fold_left fst snd].
  replace (-1 <? Z.of_nat c) with true by (symmetry; apply Z.ltb_lt; lia).
  destruct (pick_best_fold l [] k c []) as (pre' & k' & c' & mid' & E & F & P1 & P2).
  - intros e [].
  - intros e [].
  - exists pre', k', c', mid'. auto.
Qed.

(** The entry kept by the selection loop wins the vote. *)
Lemma tally_winner (rs : list string) (w : string) :
  rs <> [] -> fst (pick_best (tally rs)) = Some w ->
  first_max_winner string_dec rs w.
Proof.
  intros Hne Hw.
  assert (Tne : tally rs <> []).
  { destruct rs as [|r rs]; [congruence|].
    destruct (tally_key (r :: rs) r (or_introl eq_refl)) as (cv & Hin).
    intros E. rewrite E in Hin. destruct Hin. }
  destruct (pick_best_spec (tally rs) Tne) as (pre & k & c & post & E & F & P1 & P2).
  rewrite F in Hw. cbn [fst] in Hw. injection Hw as ->.
  assert (Hwc : In (w, c) (tally rs))
    by (rewrite E; apply in_or_app; right; left; reflexivity).
  destruct (tally_entry rs w c Hwc) as [Ec Hin].
  destruct (first_split string_dec w rs Hin) as (r1 & r2 & Ers & Hnin).
  assert (ND : NoDup (map fst (tally rs)))
    by (apply fold_tally_NoDup; constructor).
  assert (Kpre : map fst pre = map fst (tally r1)).
  { assert (K : exists ext, map fst (tally rs) = map fst (tally r1) ++ w :: ext).
    { unfold tally at 1. rewrite Ers, fold_left_app. cbn [fold_left].
      fold (tally r1).
      destruct (fold_tally_keys_prefix r2 (tally_step (tally r1) w)) as (ext & K).
      rewrite K, tally_step_keys.
      replace (map_has (tally r1) w) with false.
      - exists ext. rewrite <- app_assoc. reflexivity.
      - symmetry. apply map_has_false. intros H.
        apply fold_tally_keys_In in H. destruct H as [[]|H]. exact (Hnin H). }
    destruct K as (ext & K).
    rewrite E, map_app in K, ND. cbn [map fst] in K, ND.
    exact (NoDup_split_unique w _ _ _ _ ND K). }
  exists r1, r2. split; [exact Ers|]. split; [exact Hnin|]. split.
  - intros v Hv.
    assert (Hk : In v (map fst pre)).
    { rewrite Kpre. apply fold_tally_keys_In. right. exact Hv. }
    apply in_map_iff in Hk. destruct Hk as ([v' cv] & Ev & Hpre).
    cbn [fst] in Ev. subst v'.
    assert (Hv2 : In (v, cv) (tally rs))
      by (rewrite E; apply in_or_app; left; exact Hpre).
    destruct (tally_entry rs v cv Hv2) as [Ecv _].
    specialize (P1 _ Hpre). cbn [snd] in P1. lia.
  - intros v.
    destruct (in_dec string_dec v rs) as [Hv|Hv].
    + destruct (tally_key rs v Hv) as (cv & Hv2).
      destruct (tally_entry rs v cv Hv2) as [Ecv _].
      rewrite E in Hv2. apply in_app_or in Hv2.
      destruct Hv2 as [H|[H|H]].
      * specialize (P1 _ H). cbn [snd] in P1. lia.
      * injection H as _ <-. lia.
      * specialize (P2 _ H). cbn [snd] in P2. lia.
    + apply (count_occ_not_In string_dec) in Hv. lia.
Qed.

(** ** The vote of [Problem.js] *)

Lemma vote_fold_counts (points : list Point.t) (combos : list (list nat)) :
  forall m ex,
    fst (fold_left (vote_step points) combos (m, ex)) =
    fold_left tally_step (vote_results points combos) m.
Proof.
  unfold vote_results, vote_values.
  induction combos as [|combo combos IH]; intros m ex; [reflexivity|].
  cbn [fold_left flat_map]. unfold vote_step at 2.
  destruct (lagrangeOn points combo) as [c|e].
  - cbn [app map fold_left]. rewrite IH. reflexivity.
  - cbn [app]. apply IH.
Qed.

Lemma vote_all_counts (points : list Point.t) (combos : list (list nat)) :
  fst (vote_all points combos) = tally (vote_results points combos).
Proof. apply vote_fold_counts. Qed.

Lemma tally_nil_iff (rs : list string) : tally rs = [] <-> rs = [].
Proof.
  split; [|intros ->; reflexivity].
  intros E. destruct rs as [|r rs]; [reflexivity|].
  destruct (tally_key (r :: rs) r (or_introl eq_refl)) as (cv & Hin).
  rewrite E in Hin. destruct Hin.
Qed.

Lemma voting_empty (points : list Point.t) (combos : list (list nat)) :
  vote_results points combos = [] ->
  voting points combos = Err NoConsistentSubsets.
Proof.
  intros E. unfold voting. rewrite vote_all_counts, E. reflexivity.
Qed.

Lemma voting_nonempty (points : list Point.t) (combos : list (list nat)) :
  vote_results points combos <> [] ->
  exists w, voting points combos = Ok w /\
            first_max_winner string_dec (vote_results points combos) w.
Proof.
  intros Hne. unfold voting. rewrite vote_all_counts.
  assert (Tne : tally (vote_results points combos) <> [])
    by (intros E; apply Hne; apply tally_nil_iff; exact E).
  destruct (pick_best_spec _ Tne) as (pre & k & c & post & E & F & _).
  destruct (tally (vote_results points combos)) as [|e t] eqn:Et; [congruence|].
  cbn [length Nat.eqb]. rewrite F. cbn [fst].
  exists k. split; [reflexivity|].
  apply tally_winner; [exact Hne|]. rewrite Et, F. reflexivity.
Qed.

Lemma count_occ_map_inj (f : Z -> string) (l : list Z) (c : Z) :
  (forall a b, f a = f b -> a = b) ->
  count_occ string_dec (map f l) (f c) = count_occ Z.eq_dec l c.
Proof.
  intros Hinj. induction l as [|x l IH]; [reflexivity|].
  cbn [map count_occ].
  destruct (string_dec (f x) (f c)) as [E|N], (Z.eq_dec x c) as [E'|N'].
  - rewrite IH. reflexivity.
  - exfalso. apply N'. apply Hinj. exact E.
  - exfalso. apply N. rewrite E'. reflexivity.
  - exact IH.
Qed.

(** The winner among the keys is the key of the winner among the values. *)
Lemma first_max_winner_map (f : Z -> string) (vals : list Z) (w : string) :
  (forall a b, f a = f b -> a = b) ->
  first_max_winner string_dec (map f vals) w ->
  exists c, w = f c /\ first_max_winner Z.eq_dec vals c.
Proof.
  intros Hinj (r1 & r2 & E & Hnin & P1 & P2).
  apply map_eq_app in E. destruct E as (v1 & v2' & -> & E1 & E2).
  apply map_eq_cons in E2. destruct E2 as (c & v2 & -> & Ew & E2).
  subst w r1 r2. exists c. split; [reflexivity|].
  exists v1, v2. split; [reflexivity|]. split.
  - intros H. apply Hnin. apply in_map. exact H.
  - split.
    + intros v Hv. specialize (P1 (f v) (in_map f _ _ Hv)).
      rewrite !count_occ_map_inj in P1 by exact Hinj. exact P1.
    + intros v. specialize (P2 (f v)).
      rewrite !count_occ_map_inj in P2 by exact Hinj. exact P2.
Qed.

(** The main program in voting mode runs the vote over all subsets. *)
Lemma main_voting_mode (k n : nat) (points : list Point.t) (argv : list string) :
  parsePickArg argv = Ok None ->
  n <> k -> (k < length points)%nat ->
  main k n points argv = Some (voting points (combs 0 (length points) k)).
Proof.
  intros Hargv Hn Hk. unfold main.
  replace (Nat.ltb (length points) k) with false
    by (symmetry; apply Nat.ltb_ge; lia).
  rewrite Hargv.
  replace (Nat.eqb n k) with false by (symmetry; apply Nat.eqb_neq; exact Hn).
  replace (Nat.eqb (length points) k) with false
    by (symmetry; apply Nat.eqb_neq; lia).
  cbn [orb]. rewrite kCombinations_combs by (rewrite length_seq; lia).
  rewrite length_seq. reflexivity.
Qed.

(** ** The vote of the substitution solver *)

Lemma counts_of_get (votes : jsmap vote_entry) (key : string) :
  map_get (counts_of votes) key = option_map count (map_get votes key).
Proof.
  induction votes as [|[k0 e0] votes IH]; [reflexivity|].
  cbn [counts_of map map_get fst snd]. fold (counts_of votes).
  destruct (String.eqb k0 key); [reflexivity | exact IH].
Qed.

Lemma counts_of_set (votes : jsmap vote_entry) (key : string) (e : vote_entry) :
  counts_of (map_set votes key e) = map_set (counts_of votes) key (count e).
Proof.
  induction votes as [|[k0 e0] votes IH]; [reflexivity|].
  cbn [counts_of map map_set fst snd]. fold (counts_of votes).
  destruct (String.eqb k0 key); cbn [counts_of map fst snd]; [reflexivity|].
  fold (counts_of (map_set votes key e)). rewrite IH. reflexivity.
Qed.

Lemma subst_fold_counts (points : list Point.t) (k : nat)
  (combos : list (list nat)) :
  forall votes,
    counts_of (fold_left (subst_vote_step points k) combos votes) =
    fold_left tally_step (subst_results points k combos) (counts_of votes).
Proof.
  unfold subst_results.
  induction combos as [|idxs combos IH]; intros votes; [reflexivity|].
  cbn [fold_left flat_map]. rewrite IH. unfold subst_vote_step.
  destruct (subst_attempt points k idxs) as [[cs a0]|e]; [|reflexivity].
  cbn [app fold_left]. f_equal.
  rewrite counts_of_set. unfold tally_step. rewrite counts_of_get.
  cbn [count]. destruct (map_get votes a0); reflexivity.
Qed.

Lemma subst_attempt_key (points : list Point.t) (k : nat) (idxs : list nat)
  (cs : list Frac.t) (a0 : string) :
  subst_attempt points k idxs = Ok (cs, a0) ->
  solveForIndices points k idxs = Ok cs /\ lastKey cs = Ok a0.
Proof.
  unfold subst_attempt. intros H.
  apply bind_Ok in H. destruct H as (cs' & E1 & H).
  apply bind_Ok in H. destruct H as (a0' & E2 & H).
  injection H as <- <-. auto.
Qed.

(** Every entry of the solver's tally keeps coefficients whose constant
    term prints as the entry's key. *)
Lemma subst_votes_inv (points : list Point.t) (k : nat)
  (combos : list (list nat)) :
  forall votes,
    (forall key e, In (key, e) votes -> lastKey (example_coeffs e) = Ok key) ->
    forall key e,
      In (key, e) (fold_left (subst_vote_step points k) combos votes) ->
      lastKey (example_coeffs e) = Ok key.
Proof.
  induction combos as [|idxs combos IH]; intros votes Inv; [exact Inv|].
  cbn [fold_left]. apply IH. intros key e Hin.
  unfold subst_vote_step in Hin.
  destruct (subst_attempt points k idxs) as [[cs a0]|err] eqn:Ea;
    [|exact (Inv key e Hin)].
  apply subst_attempt_key in Ea. destruct Ea as [_ Ek].
  apply In_map_set in Hin. destruct Hin as [[-> ->]|Hin]; [|exact (Inv key e Hin)].
  cbn [example_coeffs].
  destruct (map_get votes a0) as [e0|] eqn:Eg.
  - apply (Inv a0 e0). apply map_get_In. exact Eg.
  - exact Ek.
Qed.

Lemma subst_pick_best_In (l : list (string * vote_entry)) :
  forall b kv,
    fold_left
      (fun (best : option (string * vote_entry)) (kv : string * vote_entry) =>
         match best with
         | None => Some kv
         | Some (_, b) => if Nat.ltb (count b) (count (snd kv)) then Some kv
                          else best
         end) l b = Some kv ->
    b = Some kv \/ In kv l.
Proof.
  induction l as [|x l IH]; intros b kv H; cbn [fold_left] in H; [left; exact H|].
  apply IH in H. destruct H as [H|H]; [|right; right; exact H].
  destruct b as [[k0 e0]|].
  - destruct (Nat.ltb (count e0) (count (snd x))).
    + injection H as <-. right. left. reflexivity.
    + left. exact H.
  - injection H as <-. right. left. reflexivity.
Qed.

Lemma subst_pick_best_rel (l : list (string * vote_entry)) :
  forall (b : option (string * vote_entry)) (s : option string * Z),
    s = match b with
        | None => (None, -1)
        | Some (key, e) => (Some key, Z.of_nat (count e))
        end ->
    fold_left
      (fun (best : option string * Z) (e : string * nat) =>
         if snd best <? Z.of_nat (snd e) then (Some (fst e), Z.of_nat (snd e))
         else best) (counts_of l) s
    = match fold_left
              (fun (best : option (string * vote_entry))
                   (kv : string * vote_entry) =>
                 match best with
                 | None => Some kv
                 | Some (_, b) =>
                     if Nat.ltb (count b) (count (snd kv)) then Some kv
                     else best
                 end) l b with
      | None => (None, -1)
      | Some (key, e) => (Some key, Z.of_nat (count e))
      end.
Proof.
  induction l as [|[k1 e1] l IH]; intros b s ->; [reflexivity|].
  cbn [counts_of map fold_left fst snd]. fold (counts_of l).
  apply IH. destruct b as [[k0 e0]|]; cbn [snd].
  - destruct (Nat.ltb_spec (count e0) (count e1)) as [H|H].
    + replace (Z.of_nat (count e0) <? Z.of_nat (count e1)) with true
        by (symmetry; apply Z.ltb_lt; lia).
      reflexivity.
    + replace (Z.of_nat (count e0) <? Z.of_nat (count e1)) with false
        by (symmetry; apply Z.ltb_ge; lia).
      reflexivity.
  - replace (-1 <? Z.of_nat (count e1)) with true
      by (symmetry; apply Z.ltb_lt; lia).
    reflexivity.
Qed.

Lemma subst_pick_best_none (votes : jsmap vote_entry) :
  subst_pick_best votes = None <-> votes = [].
Proof.
  split; [|intros ->; reflexivity].
  intros H. destruct votes as [|kv votes]; [reflexivity|].
  pose proof (subst_pick_best_rel (kv :: votes) None (None, -1) eq_refl) as R.
  fold (pick_best (counts_of (kv :: votes))) in R.
  fold (subst_pick_best (kv :: votes)) in R. rewrite H in R.
  destruct (pick_best_spec (counts_of (kv :: votes))) as (? & ? & ? & ? & _ & F & _).
  { discriminate. }
  rewrite F in R. discriminate.
Qed.

Lemma solveBySubstitution_vote (points : list Point.t) (k : nat)
  (combos : list (list nat)) :
  kCombinations points k = Some combos ->
  let votes := fold_left (subst_vote_step points k) combos [] in
  counts_of votes = tally (subst_results points k combos) /\
  solveBySubstitution points k true =
  match subst_pick_best votes with
  | None => Some (Err NoSolvableSubsets)
  | Some (_, best) =>
      Some (Ok (mkSolution (example_coeffs best) (example_idxs best)
                  (Some (counts_of votes))))
  end.
Proof.
  intros Hc votes. split.
  - apply (subst_fold_counts points k combos []).
  - unfold solveBySubstitution. cbn [negb]. rewrite Hc. reflexivity.
Qed.

Lemma subst_winner (points : list Point.t) (k : nat)
  (combos : list (list nat)) (sol : solution) :
  kCombinations points k = Some combos ->
  solveBySubstitution points k true = Some (Ok sol) ->
  exists w, lastKey (coeffs sol) = Ok w /\
            first_max_winner string_dec (subst_results points k combos) w.
Proof.
  intros Hc Hs.
  destruct (solveBySubstitution_vote points k combos Hc) as [Ec Es].
  rewrite Es in Hs. clear Es.
  set (votes := fold_left (subst_vote_step points k) combos []) in *.
  destruct (subst_pick_best votes) as [[key best]|] eqn:Eb; [|discriminate].
  injection Hs as <-. cbn [coeffs].
  exists key. split.
  - apply (subst_votes_inv points k combos []); [intros ? ? []|].
    fold votes. unfold subst_pick_best in Eb.
    apply subst_pick_best_In in Eb. destruct Eb as [Eb|Eb]; [discriminate | exact Eb].
  - pose proof (subst_pick_best_rel votes None (None, -1) eq_refl) as R.
    fold (pick_best (counts_of votes)) in R.
    fold (subst_pick_best votes) in R. rewrite Eb, Ec in R.
    apply tally_winner.
    + intros E. rewrite E in Ec. cbn in Ec.
      destruct votes; [discriminate Eb | discriminate Ec].
    + rewrite R. reflexivity.
Qed.

Lemma first_occurrence_order {A : Type} (w w' : A) :
  forall r1 r2 r1' r2',
    r1 ++ w :: r2 = r1' ++ w' :: r2' -> w <> w' -> In w r1' \/ In w' r1.
Proof.
  induction r1 as [|a r1 IH]; intros r2 r1' r2' E N.
  - destruct r1' as [|a' r1']; cbn [app] in E; injection E as E1 E2.
    + contradiction.
    + left. left. symmetry. exact E1.
  - destruct r1' as [|a' r1']; cbn [app] in E; injection E as E1 E2.
    + right. left. exact E1.
    + destruct (IH r2 r1' r2' E2 N) as [H|H]; [left | right]; right; exact H.
Qed.

(** A vote has at most one winner. *)
Lemma first_max_winner_unique {A : Type}
  (eq_dec : forall a b : A, {a = b} + {a <> b}) (rs : list A) (w w' : A) :
  first_max_winner eq_dec rs w -> first_max_winner eq_dec rs w' -> w' = w.
Proof.
  intros (r1 & r2 & E & _ & P1 & P2) (r1' & r2' & E' & _ & P1' & P2').
  destruct (eq_dec w' w) as [Ew|N]; [exact Ew|]. exfalso.
  pose proof (P2 w') as L. pose proof (P2' w) as L'.
  rewrite E in E'.
  destruct (first_occurrence_order w w' r1 r2 r1' r2' E') as [H|H].
  - intros Ew. apply N. symmetry. exact Ew.
  - specialize (P1' w H). lia.
  - specialize (P1 w' H). lia.
Qed.

(** C4.  In voting mode the main program fails when no subset produced a
    constant, and otherwise prints the key of the one constant [c] such that
    no constant has more votes and every constant produced before the first
    vote for [c] (in the enumeration order of the subsets) has strictly
    fewer.  In the same way the substitution solver fails when no subset
    produced a key, and otherwise returns coefficients whose constant term
    prints as the one key [w] with that property among the keys. *)
Theorem C4_vote_winner (k n : nat) (points : list Point.t)
  (argv : list string) (combos : list (list nat)) :
  (parsePickArg argv = Ok None -> n <> k -> (k < length points)%nat ->
   let vs := vote_values points (combs 0 (length points) k) in
   (vs = [] -> main k n points argv = Some (Err NoConsistentSubsets)) /\
   (vs <> [] ->
    exists c, main k n points argv = Some (Ok (toStringBI c)) /\
              first_max_winner Z.eq_dec vs c /\
              (forall c', first_max_winner Z.eq_dec vs c' -> c' = c))) /\
  (kCombinations points k = Some combos ->
   let rs := subst_results points k combos in
   (rs = [] ->
    solveBySubstitution points k true = Some (Err NoSolvableSubsets)) /\
   (rs <> [] ->
    exists sol w,
      solveBySubstitution points k true = Some (Ok sol) /\
      lastKey (coeffs sol) = Ok w /\
      first_max_winner string_dec rs w /\
      (forall w', first_max_winner string_dec rs w' -> w' = w))).
Proof.
  split.
  - intros Hargv Hn Hk vs.
    rewrite (main_voting_mode k n points argv Hargv Hn Hk). split.
    + intros E. f_equal. apply voting_empty. unfold vote_results.
      fold vs. rewrite E. reflexivity.
    + intros Hne.
      destruct (voting_nonempty points (combs 0 (length points) k))
        as (w & Ew & W).
      { unfold vote_results. fold vs. destruct vs; [congruence | discriminate]. }
      apply (first_max_winner_map toStringBI) in W; [|exact toStringBI_inj].
      destruct W as (c & -> & W). fold vs in W.
      exists c. rewrite Ew. split; [reflexivity|]. split; [exact W|].
      intros c' W'. exact (first_max_winner_unique Z.eq_dec vs c c' W W').
  - intros Hc rs.
    destruct (solveBySubstitution_vote points k combos Hc) as [Ec Es].
    fold rs in Ec. split.
    + intros E. rewrite Es.
      set (votes := fold_left (subst_vote_step points k) combos []) in *.
      assert (Ev : votes = []).
      { rewrite E in Ec. destruct votes; [reflexivity | discriminate Ec]. }
      rewrite Ev. reflexivity.
    + intros Hne.
      set (votes := fold_left (subst_vote_step points k) combos []) in *.
      destruct (subst_pick_best votes) as [[key best]|] eqn:Eb.
      * destruct (subst_winner points k combos _ Hc Es) as (w & Ew & W).
        fold rs in W. eexists. exists w.
        split; [exact Es|]. split; [exact Ew|]. split; [exact W|].
        intros w' W'. exact (first_max_winner_unique string_dec rs w w' W W').
      * exfalso. apply subst_pick_best_none in Eb. rewrite Eb in Ec.
        apply Hne. apply tally_nil_iff. symmetry. exact Ec.
Qed.

Lemma C4_vote_winner_witness :
  let pts := [Point.mk 1 5; Point.mk 2 7] in
  (exists c, main 1 2 pts [] = Some (Ok (toStringBI c)) /\
             first_max_winner Z.eq_dec (vote_values pts (combs 0 2 1)) c /\
             (forall c', first_max_winner Z.eq_dec
                           (vote_values pts (combs 0 2 1)) c' -> c' = c)) /\
  (exists sol w,
      solveBySubstitution pts 1 true = Some (Ok sol) /\
      lastKey (coeffs sol) = Ok w /\
      first_max_winner string_dec (subst_results pts 1 [[0]; [1]]%nat) w /\
      (forall w', first_max_winner string_dec
                    (subst_results pts 1 [[0]; [1]]%nat) w' -> w' = w)).
Proof.
  destruct (C4_vote_winner 1 2 [Point.mk 1 5; Point.mk 2 7] []
              [[0]; [1]]%nat) as [A B].
  split.
  - destruct (A eq_refl) as [_ A2]; [lia | simpl; lia |].
    apply A2. discriminate.
  - destruct (B eq_refl) as [_ B2]. apply B2. discriminate.
Defined.

(** ** Failed attempts *)

Lemma vote_values_nil (points : list Point.t) (combos : list (list nat)) :
  vote_values points combos = [] <->
  forall combo, In combo combos -> exists e, lagrangeOn points combo = Err e.
Proof.
  unfold vote_values. induction combos as [|c combos IH]; cbn [flat_map].
  - split; [intros _ ? [] | reflexivity].
  - destruct (lagrangeOn points c) as [v|e] eqn:E; cbn [app].
    + split; [discriminate|].
      intros H. destruct (H c (or_introl eq_refl)) as (e & He). congruence.
    + rewrite IH. split.
      * intros H combo [<-|Hin]; [eauto | exact (H combo Hin)].
      * intros H combo Hin. apply H. right. exact Hin.
Qed.

Lemma subst_results_nil (points : list Point.t) (k : nat)
  (combos : list (list nat)) :
  subst_results points k combos = [] <->
  forall idxs, In idxs combos -> exists e, subst_attempt points k idxs = Err e.
Proof.
  unfold subst_results. induction combos as [|c combos IH]; cbn [flat_map].
  - split; [intros _ ? [] | reflexivity].
  - destruct (subst_attempt points k c) as [[cs a0]|e] eqn:E; cbn [app].
    + split; [discriminate|].
      intros H. destruct (H c (or_introl eq_refl)) as (e & He). congruence.
    + rewrite IH. split.
      * intros H idxs [<-|Hin]; [eauto | exact (H idxs Hin)].
      * intros H idxs Hin. apply H. right. exact Hin.
Qed.

Lemma voting_fails_iff (points : list Point.t) (combos : list (list nat)) :
  voting points combos = Err NoConsistentSubsets <->
  vote_values points combos = [].
Proof.
  split.
  - intros H. destruct (vote_values points combos) as [|v vs] eqn:E; [reflexivity|].
    destruct (voting_nonempty points combos) as (w & Ew & _).
    { unfold vote_results. rewrite E. discriminate. }
    congruence.
  - intros E. apply voting_empty. unfold vote_results. rewrite E. reflexivity.
Qed.

Lemma vote_step_failed (points : list Point.t)
  (st : jsmap nat * jsmap (list nat)) (combo : list nat) (e : error) :
  lagrangeOn points combo = Err e -> vote_step points st combo = st.
Proof.
  intros E. unfold vote_step. destruct st as [counts example].
  rewrite E. reflexivity.
Qed.

Lemma subst_fails_iff (points : list Point.t) (k : nat)
  (combos : list (list nat)) :
  kCombinations points k = Some combos ->
  (solveBySubstitution points k true = Some (Err NoSolvableSubsets) <->
   forall idxs, In idxs combos ->
                exists e, subst_attempt points k idxs = Err e).
Proof.
  intros Hc.
  destruct (solveBySubstitution_vote points k combos Hc) as [Ec Es].
  rewrite Es. clear Es. rewrite <- subst_results_nil, <- tally_nil_iff, <- Ec.
  set (votes := fold_left (subst_vote_step points k) combos []).
  destruct (subst_pick_best votes) as [[key best]|] eqn:Eb.
  - split; [discriminate|]. intros E.
    assert (votes = []) by (destruct votes; [reflexivity | discriminate E]).
    apply subst_pick_best_none in H. congruence.
  - split; [|reflexivity]. intros _.
    apply subst_pick_best_none in Eb. rewrite Eb. reflexivity.
Qed.

(** ** The direct path of the substitution solver *)

Lemma collectConsistent_spec (points : list Point.t) (k : nat)
  (targets : list Z) :
  forall idxs,
    (length idxs < k)%nat ->
    collectConsistent points k targets idxs =
    let all := idxs ++ presentIndices points targets in
    if Nat.ltb (length all) k then all else firstn k all.
Proof.
  induction targets as [|t rest IH]; intros idxs Hl; cbn zeta.
  - cbn [collectConsistent presentIndices flat_map]. rewrite app_nil_r.
    replace (Nat.ltb (length idxs) k) with true
      by (symmetry; apply Nat.ltb_lt; exact Hl).
    reflexivity.
  - cbn [collectConsistent presentIndices flat_map].
    fold (presentIndices points rest).
    set (found := findIndex (fun p => Point.x p =? t) points).
    set (idxs' := match found with Some idx => idxs ++ [idx] | None => idxs end).
    assert (E : idxs ++ match found with Some idx => [idx] | None => [] end
                     ++ presentIndices points rest
                = idxs' ++ presentIndices points rest).
    { unfold idxs'. destruct found; [rewrite <- app_assoc | ]; reflexivity. }
    rewrite E.
    assert (Hl' : (length idxs' <= k)%nat).
    { unfold idxs'. destruct found; [rewrite length_app; simpl|]; lia. }
    destruct (Nat.eqb_spec (length idxs') k) as [Hk|Hk].
    + rewrite length_app.
      replace (Nat.ltb (length idxs' + length (presentIndices points rest)) k)
        with false by (symmetry; apply Nat.ltb_ge; lia).
      rewrite <- Hk, firstn_app, Nat.sub_diag, firstn_all. cbn [firstn].
      rewrite app_nil_r. reflexivity.
    + rewrite IH by lia. reflexivity.
Qed.

Lemma presentIndices_length (points : list Point.t) (targets : list Z) :
  length (presentIndices points targets) =
  length (filter (fun t => existsb (fun p => Point.x p =? t) points) targets).
Proof.
  assert (F : forall t,
             existsb (fun p => Point.x p =? t) points =
             match findIndex (fun p => Point.x p =? t) points with
             | Some _ => true
             | None => false
             end).
  { intros t. induction points as [|p ps IH]; [reflexivity|].
    cbn [existsb findIndex]. destruct (Point.x p =? t); [reflexivity|].
    cbn [orb]. rewrite IH.
    destruct (findIndex (fun p0 => Point.x p0 =? t) ps); reflexivity. }
  unfold presentIndices. induction targets as [|t rest IH]; [reflexivity|].
  cbn [flat_map filter]. rewrite length_app, IH, F.
  destruct (findIndex (fun p => Point.x p =? t) points); reflexivity.
Qed.

Lemma findIndex_spec {A : Type} (f : A -> bool) (l : list A) (i : nat) :
  findIndex f l = Some i ->
  exists a, nth_error l i = Some a /\ f a = true /\
            forall j b, (j < i)%nat -> nth_error l j = Some b -> f b = false.
Proof.
  revert i. induction l as [|x l IH]; intros i H; cbn [findIndex] in H;
    [discriminate|].
  destruct (f x) eqn:E.
  - injection H as <-. exists x. split; [reflexivity|]. split; [exact E|].
    intros j b Hj. lia.
  - destruct (findIndex f l) as [i'|]; [|discriminate]. injection H as <-.
    destruct (IH i' eq_refl) as (a & Ha & Fa & Hmin).
    exists a. split; [exact Ha|]. split; [exact Fa|].
    intros [|j] b Hj Hb; cbn [nth_error] in Hb.
    + injection Hb as <-. exact E.
    + apply (Hmin j b); [lia | exact Hb].
Qed.

(** C9.  With a threshold [k >= 1], the direct path of the substitution
    solver looks up the hard-wired abscissas 1, 3, 4, 5, 6, 7, 9, 10 among
    the points.  When fewer than [k] of them occur it solves on the indices
    [0 .. k-1] without raising any error of its own; otherwise it solves
    on the first [k] matching indices (each the first point with that
    abscissa, in the order of the hard-wired list). *)
Theorem C9_direct_path (points : list Point.t) (k : nat) (Hk : (1 <= k)%nat) :
  let present := presentIndices points consistentXValues in
  let used := if Nat.ltb (length present) k then seq 0 k else firstn k present in
  solveBySubstitution points k false =
  Some (cs <- solveForIndices points k used ;; Ok (mkSolution cs used None)) /\
  length present =
  length (filter (fun t => existsb (fun p => Point.x p =? t) points)
                 [1; 3; 4; 5; 6; 7; 9; 10]) /\
  (forall idx, In idx present ->
     exists t p, In t [1; 3; 4; 5; 6; 7; 9; 10] /\
                 nth_error points idx = Some p /\ Point.x p = t /\
                 forall j q, (j < idx)%nat -> nth_error points j = Some q ->
                             Point.x q <> t).
Proof.
  intros present used. split; [|split].
  - unfold solveBySubstitution. cbn [negb].
    rewrite collectConsistent_spec by (cbn [length]; lia).
    cbn [app]. fold present. cbn zeta. unfold used.
    destruct (Nat.ltb_spec (length present) k) as [Hlt|Hge].
    + replace (Nat.ltb (length present) k) with true
        by (symmetry; apply Nat.ltb_lt; exact Hlt).
      reflexivity.
    + replace (Nat.ltb (length (firstn k present)) k) with false
        by (symmetry; apply Nat.ltb_ge; rewrite length_firstn; lia).
      reflexivity.
  - apply presentIndices_length.
  - intros idx Hin. unfold present, presentIndices in Hin.
    apply in_flat_map in Hin. destruct Hin as (t & Ht & Hin).
    destruct (findIndex (fun p => Point.x p =? t) points) as [i|] eqn:E;
      [|destruct Hin].
    destruct Hin as [<-|[]].
    destruct (findIndex_spec _ _ _ E) as (p & Hp & Fp & Hmin).
    exists t, p. split; [exact Ht|]. split; [exact Hp|].
    split; [apply Z.eqb_eq; exact Fp|].
    intros j q Hj Hq. apply Z.eqb_neq. exact (Hmin j q Hj Hq).
Qed.

Lemma C9_direct_path_witness :
  let pts := [Point.mk 2 0; Point.mk 3 1; Point.mk 5 2] in
  solveBySubstitution pts 2 false =
  Some (cs <- solveForIndices pts 2 [1; 2]%nat ;;
        Ok (mkSolution cs [1; 2]%nat None)) /\
  solveBySubstitution pts 3 false =
  Some (cs <- solveForIndices pts 3 [0; 1; 2]%nat ;;
        Ok (mkSolution cs [0; 1; 2]%nat None)).
Proof.
  split.
  - apply (C9_direct_path [Point.mk 2 0; Point.mk 3 1; Point.mk 5 2] 2). lia.
  - apply (C9_direct_path [Point.mk 2 0; Point.mk 3 1; Point.mk 5 2] 3). lia.
Defined.

(** ** The [--pick] keys *)

Lemma filter_filter_and {A : Type} (f g : A -> bool) (l : list A) :
  filter f (filter g l) = filter (fun a => (f a && g a)%bool) l.
Proof.
  induction l as [|a l IH]; [reflexivity|].
  cbn [filter]. destruct (g a); cbn [filter]; rewrite ?andb_true_r, ?andb_false_r.
  - destruct (f a); rewrite IH; reflexivity.
  - exact IH.
Qed.

Lemma filter_true {A : Type} (l : list A) : filter (fun _ => true) l = l.
Proof. induction l as [|a l IH]; [reflexivity|]. cbn. rewrite IH. reflexivity. Qed.

Lemma existsb_Zeqb (v : Z) (l : list Z) :
  existsb (Z.eqb v) l = true <-> In v l.
Proof.
  rewrite existsb_exists. split.
  - intros (a & Ha & E). apply Z.eqb_eq in E. subst a. exact Ha.
  - intros H. exists v. split; [exact H | apply Z.eqb_refl].
Qed.

Lemma existsb_seen (seen : list string) (acc : list Z) (v : Z) :
  (forall s, In s seen <-> In s (map toStringBI acc)) ->
  existsb (String.eqb (toStringBI v)) seen = existsb (Z.eqb v) acc.
Proof.
  intros Inv. apply eq_true_iff_eq. rewrite existsb_Zeqb, existsb_exists. split.
  - intros (s & Hs & E). apply String.eqb_eq in E. subst s.
    apply Inv in Hs. apply in_map_iff in Hs. destruct Hs as (a & E & Ha).
    apply toStringBI_inj in E. subst a. exact Ha.
  - intros H. exists (toStringBI v). split; [|apply String.eqb_refl].
    apply Inv. apply in_map. exact H.
Qed.

(** The loop with the [seen] set keeps the first occurrence of each key. *)
Lemma dedupe_fold (keys : list Z) :
  forall seen acc,
    (forall s, In s seen <-> In s (map toStringBI acc)) ->
    snd (fold_left dedupe_step keys (seen, acc))
    = acc ++ filter (fun v => negb (existsb (Z.eqb v) acc)) (firstOcc keys).
Proof.
  induction keys as [|x keys IH]; intros seen acc Inv.
  - cbn. rewrite app_nil_r. reflexivity.
  - cbn [fold_left firstOcc filter]. unfold dedupe_step at 2. cbn [fst snd].
    rewrite (existsb_seen seen acc x Inv).
    destruct (existsb (Z.eqb x) acc) eqn:E; cbn [negb].
    + rewrite (IH seen acc Inv). f_equal.
      rewrite filter_filter_and. apply filter_ext. intros v.
      destruct (Z.eqb_spec v x) as [->|Hne]; cbn [negb].
      * rewrite E. reflexivity.
      * rewrite andb_true_r. reflexivity.
    + rewrite IH.
      * rewrite <- app_assoc. cbn [app]. do 2 f_equal.
        rewrite filter_filter_and. apply filter_ext. intros v.
        rewrite existsb_app. cbn [existsb]. rewrite orb_false_r, negb_orb.
        reflexivity.
      * intros s. rewrite map_app, in_app_iff. cbn [In map].
        rewrite <- Inv. tauto.
Qed.

Lemma dedupe_firstOcc (keys : list Z) : dedupe keys = firstOcc keys.
Proof.
  unfold dedupe. rewrite dedupe_fold by (intros s; reflexivity).
  cbn [app existsb negb]. apply filter_true.
Qed.

Lemma firstOcc_In (l : list Z) (v : Z) : In v (firstOcc l) <-> In v l.
Proof.
  induction l as [|a l IH]; [reflexivity|].
  cbn [firstOcc In]. rewrite filter_In, IH.
  destruct (Z.eqb_spec v a) as [->|Hne]; cbn [negb].
  - split; auto.
  - split; [intros [E|[H _]]; auto | intros [E|H]; auto].
Qed.

Lemma firstOcc_NoDup (l : list Z) : NoDup (firstOcc l).
Proof.
  induction l as [|a l IH]; cbn [firstOcc]; constructor.
  - intros H. apply filter_In in H. destruct H as [_ H].
    rewrite Z.eqb_refl in H. discriminate.
  - apply NoDup_filter. exact IH.
Qed.

Lemma filter_length_lt {A : Type} (f : A -> bool) (l : list A) (a : A) :
  In a l -> f a = false -> (length (filter f l) < length l)%nat.
Proof.
  induction l as [|x l IH]; intros Hin Hf; [destruct Hin|].
  cbn [filter length]. pose proof (filter_length_le f l).
  destruct Hin as [->|Hin].
  - rewrite Hf. lia.
  - specialize (IH Hin Hf). destruct (f x); cbn [length]; lia.
Qed.

Lemma firstOcc_length (l : list Z) :
  (length (firstOcc l) <= length l)%nat /\
  (~ NoDup l -> (length (firstOcc l) < length l)%nat).
Proof.
  induction l as [|a l [IH1 IH2]]; cbn [firstOcc length].
  - split; [lia|]. intros H. exfalso. apply H. constructor.
  - pose proof (filter_length_le (fun b => negb (b =? a)) (firstOcc l)) as F.
    split; [lia|]. intros H.
    destruct (in_dec Z.eq_dec a l) as [Hin|Hnin].
    + assert (L : (length (filter (fun b => negb (b =? a)%Z) (firstOcc l))
                   < length (firstOcc l))%nat).
      { apply (filter_length_lt _ _ a); [apply firstOcc_In; exact Hin|].
        rewrite Z.eqb_refl. reflexivity. }
      lia.
    + assert (~ NoDup l) by (intros ND; apply H; constructor; assumption).
      specialize (IH2 H0). lia.
Qed.

Lemma mapM_Forall2 {A B : Type} (f : A -> result B) (l : list A) :
  forall out, mapM f l = Ok out -> Forall2 (fun a b => f a = Ok b) l out.
Proof.
  induction l as [|a l IH]; intros out H; cbn [mapM] in H.
  - injection H as <-. constructor.
  - apply bind_Ok in H. destruct H as (b & Eb & H).
    apply bind_Ok in H. destruct H as (bs & Ebs & H).
    injection H as <-. constructor; [exact Eb | exact (IH bs Ebs)].
Qed.

Lemma map_of_get_In {V : Type} (entries : list (string * V)) :
  forall (m : jsmap V) (key : string) (v : V),
    map_get (fold_left (fun m kv => map_set m (fst kv) (snd kv)) entries m) key
    = Some v ->
    In (key, v) entries \/ map_get m key = Some v.
Proof.
  induction entries as [|[k0 v0] entries IH]; intros m key v H;
    cbn [fold_left fst snd] in H; [right; exact H|].
  apply IH in H. destruct H as [H|H]; [left; right; exact H|].
  destruct (string_dec k0 key) as [->|Hne].
  - rewrite map_get_set_same in H. injection H as ->. left. left. reflexivity.
  - rewrite map_get_set_other in H by exact Hne. right. exact H.
Qed.

Lemma In_combine_index {A : Type} (f : A -> string) (l : list A) :
  forall (s idx : nat) (key : string),
    In (key, idx) (combine (map f l) (seq s (length l))) ->
    exists a, nth_error l (idx - s) = Some a /\ key = f a /\ (s <= idx)%nat.
Proof.
  induction l as [|x l IH]; intros s idx key H; cbn in H; [destruct H|].
  destruct H as [E|H].
  - injection E as <- <-. exists x. rewrite Nat.sub_diag. auto.
  - destruct (IH (S s) idx key H) as (a & Ha & Ek & Hs).
    exists a. replace (idx - s)%nat with (S (idx - S s)) by lia.
    cbn [nth_error]. split; [exact Ha|]. split; [exact Ek | lia].
Qed.

(** The points selected by [--pick] carry exactly the chosen abscissas. *)
Lemma pickSubset_xs (points : list Point.t) (chosenXs : list Z)
  (subset : list Point.t) :
  pickSubset points chosenXs = Ok subset -> map Point.x subset = chosenXs.
Proof.
  unfold pickSubset. intros H. apply mapM_Forall2 in H.
  induction H as [|xv p xs ps Hp _ IH]; [reflexivity|].
  cbn [map]. f_equal; [|exact IH].
  destruct (map_get _ (toStringBI xv)) as [idx|] eqn:Eg; [|discriminate].
  destruct (nth_error points idx) as [p'|] eqn:En; [|discriminate].
  injection Hp as ->.
  unfold map_of in Eg. apply map_of_get_In in Eg.
  destruct Eg as [Eg|Eg]; [|discriminate].
  apply In_combine_index in Eg. destruct Eg as (a & Ha & Ek & _).
  rewrite Nat.sub_0_r in Ha. rewrite En in Ha. injection Ha as <-.
  symmetry. apply toStringBI_inj. exact Ek.
Qed.

(** C10.  [parsePickArg] returns the list of keys without the later
    repetitions, so it has no repeated key.  A list of exactly [k] keys with
    a repetition is cut to fewer than [k] keys and the main program stops
    with the wrong-size error (no interpolation is run); and the points
    selected from any [--pick] list have pairwise distinct abscissas. *)
Theorem C10_pick_dedupe (k n : nat) (points : list Point.t)
  (argv : list string) (keys : list Z)
  (Hkeys : pickKeys argv = Ok (Some keys)) :
  parsePickArg argv = Ok (Some (firstOcc keys)) /\
  NoDup (firstOcc keys) /\
  (length keys = k -> ~ NoDup keys -> (k <= length points)%nat ->
   (length (firstOcc keys) < k)%nat /\
   main k n points argv = Some (Err PickWrongSize)) /\
  (forall subset,
      pickSubset points (firstOcc keys) = Ok subset ->
      main k n points argv = Some (Err NotEnoughPoints) \/
      main k n points argv = Some (Err PickWrongSize) \/
      (main k n points argv =
       Some (c <- constantViaLagrange subset ;; Ok (toStringBI c)) /\
       NoDup (map Point.x subset))).
Proof.
  assert (Ep : parsePickArg argv = Ok (Some (firstOcc keys))).
  { unfold parsePickArg. rewrite Hkeys. cbn [bind]. rewrite dedupe_firstOcc.
    reflexivity. }
  split; [exact Ep|]. split; [apply firstOcc_NoDup|]. split.
  - intros Hl Hdup Hn.
    destruct (firstOcc_length keys) as [_ L]. specialize (L Hdup).
    split; [lia|]. unfold main.
    replace (Nat.ltb (length points) k) with false
      by (symmetry; apply Nat.ltb_ge; exact Hn).
    rewrite Ep.
    replace (Nat.eqb (length (firstOcc keys)) k) with false
      by (symmetry; apply Nat.eqb_neq; lia).
    reflexivity.
  - intros subset Hs. unfold main. rewrite Ep.
    destruct (Nat.ltb (length points) k); [left; reflexivity|].
    destruct (Nat.eqb (length (firstOcc keys)) k); cbn [negb];
      [|right; left; reflexivity].
    right. right. rewrite Hs. cbn [bind]. split; [reflexivity|].
    rewrite (pickSubset_xs _ _ _ Hs). apply firstOcc_NoDup.
Qed.

Lemma C10_pick_dedupe_witness :
  let pts := [Point.mk 1 10; Point.mk 2 21; Point.mk 3 38; Point.mk 4 61] in
  parsePickArg ["--pick=1,2,2"%string] = Ok (Some [1; 2]) /\
  main 3 4 pts ["--pick=1,2,2"%string] = Some (Err PickWrongSize).
Proof.
  destruct (C10_pick_dedupe 3 4
              [Point.mk 1 10; Point.mk 2 21; Point.mk 3 38; Point.mk 4 61]
              ["--pick=1,2,2"%string] [1; 2; 2] eq_refl)
    as (A & _ & B & _).
  split; [exact A|].
  apply B.
  - reflexivity.
  - intros ND. inversion ND as [|? ? _ ND']; subst.
    inversion ND' as [|? ? Hnin _]; subst. apply Hnin. left. reflexivity.
  - simpl. lia.
Defined.

(** ** The vote does not depend on the order of the points *)

Lemma interp_fun_point (points : list Point.t) (p : Point.t) :
  NoDup (map Point.x points) -> In p points ->
  interp_fun points (inj (Point.x p)) = inj (Point.y p).
Proof.
  unfold interp_fun. induction points as [|a rest IH]; intros ND Hin;
    [destruct Hin|].
  cbn [map] in ND. inversion ND as [|? ? Hnin ND']; subst.
  cbn [find]. destruct (Qc_eq_dec (inj (Point.x a)) (inj (Point.x p))) as [E|N].
  - apply inj_inj in E. destruct Hin as [->|Hin]; [reflexivity|].
    exfalso. apply Hnin. rewrite E. apply in_map. exact Hin.
  - destruct Hin as [->|Hin]; [contradiction|]. exact (IH ND' Hin).
Qed.

Lemma lagQ_ext (F G : Qc -> Qc) (xs : list Qc) (t : Qc) :
  (forall x, In x xs -> F x = G x) -> lagQ F xs t = lagQ G xs t.
Proof.
  intros H. unfold lagQ. f_equal. apply map_ext_in. intros i Hi.
  apply in_seq in Hi. unfold lag_term.
  rewrite (H (nth i xs 0%Qc)) by (apply nth_In; lia). reflexivity.
Qed.

Lemma lagZ_interp (points : list Point.t) :
  NoDup (map Point.x points) ->
  forall F, (forall p, In p points -> F (inj (Point.x p)) = inj (Point.y p)) ->
  lagZ (map Point.x points) (map Point.y points)
  = lagQ F (map inj (map Point.x points)) 0%Qc.
Proof.
  intros ND F HF. apply lagZ_lagQ. intros i Hi. rewrite length_map in Hi.
  destruct (nth_map_point Point.x points i) as [Ex|]; [|lia].
  destruct (nth_map_point Point.y points i) as [Ey|]; [|lia].
  rewrite Ex, Ey. symmetry. apply HF. apply nth_In. exact Hi.
Qed.

(** The interpolated value at [0] only depends on the set of points. *)
Lemma lagZ_perm (points points' : list Point.t) :
  Permutation points points' ->
  NoDup (map Point.x points) ->
  lagZ (map Point.x points) (map Point.y points)
  = lagZ (map Point.x points') (map Point.y points').
Proof.
  intros HP ND.
  assert (ND' : NoDup (map Point.x points'))
    by (eapply Permutation_NoDup; [apply Permutation_map; exact HP | exact ND]).
  set (F := interp_fun points).
  assert (HF : forall p, In p points -> F (inj (Point.x p)) = inj (Point.y p))
    by (intros p Hp; apply interp_fun_point; assumption).
  assert (HF' : forall p, In p points' -> F (inj (Point.x p)) = inj (Point.y p)).
  { intros p Hp. apply HF. eapply Permutation_in; [symmetry; exact HP | exact Hp]. }
  rewrite (lagZ_interp points ND F HF), (lagZ_interp points' ND' F HF').
  set (xs := map inj (map Point.x points)).
  set (xs' := map inj (map Point.x points')).
  set (P := lag_poly F xs).
  assert (NDq : NoDup xs) by (apply NoDup_map_inj; exact ND).
  assert (NDq' : NoDup xs') by (apply NoDup_map_inj; exact ND').
  assert (Hxs : forall x, In x xs' -> In x xs).
  { intros x Hx. eapply Permutation_in; [|exact Hx].
    unfold xs, xs'. symmetry. do 2 apply Permutation_map. exact HP. }
  rewrite <- (lag_poly_eval F xs 0%Qc). fold P.
  rewrite <- (lagQ_exact P xs' 0%Qc); [|exact NDq'|].
  - apply lagQ_ext. intros x Hx. unfold P. rewrite lag_poly_eval.
    destruct (In_nth xs x 0%Qc (Hxs x Hx)) as (m & Hm & <-).
    apply lagQ_node; assumption.
  - pose proof (lag_poly_length F xs) as L. fold P in L.
    unfold xs, xs' in *. rewrite !length_map in *.
    rewrite <- (Permutation_length HP). exact L.
Qed.

Lemma constantViaLagrange_perm (s s' : list Point.t) :
  Permutation s s' -> constantViaLagrange s = constantViaLagrange s'.
Proof.
  intros HP.
  destruct (ListDec.NoDup_dec Z.eq_dec (map Point.x s)) as [ND|D].
  - assert (ND' : NoDup (map Point.x s'))
      by (eapply Permutation_NoDup; [apply Permutation_map; exact HP | exact ND]).
    destruct (constantViaLagrange_nodup s ND) as (a & W & V & E).
    destruct (constantViaLagrange_nodup s' ND') as (a' & W' & V' & E').
    rewrite E, E'.
    replace a' with a; [reflexivity|].
    apply Fval_canon; [exact W | exact W'|].
    rewrite V, V'. apply lagZ_perm; assumption.
  - rewrite (constantViaLagrange_dup s D).
    rewrite (constantViaLagrange_dup s'); [reflexivity|].
    intros ND'. apply D.
    eapply Permutation_NoDup; [apply Permutation_map; symmetry; exact HP | exact ND'].
Qed.



Lemma flat_map_map {A B C : Type} (f : A -> B) (g : B -> list C) (l : list A) :
  flat_map g (map f l) = flat_map (fun a => g (f a)) l.
Proof.
  induction l as [|a l IH]; [reflexivity|]. cbn [map flat_map]. rewrite IH.
  reflexivity.
Qed.

Lemma subseqs_0 {A : Type} (l : list A) : subseqs 0 l = [[]].
Proof. destruct l; reflexivity. Qed.


Lemma map_bind_cons {A : Type} (f : list nat -> result (list A)) (x : A) :
  forall (C : list (list nat)) (S' : list (list A)),
    map f C = map Ok S' ->
    map (fun c => r <- f c ;; Ok (x :: r)) C = map Ok (map (cons x) S').
Proof.
  induction C as [|c C IH]; intros [|s S'] H; cbn [map] in *;
    try discriminate; [reflexivity|].
  injection H as E1 E2. rewrite E1. cbn [bind]. f_equal. exact (IH S' E2).
Qed.

(** On the index subsets of [combs] the selection [combo.map(i => points[i])]
    gives the sublists of the points, in the same order. *)
Lemma subsetAt_combs (l : list Point.t) :
  forall (pre : list Point.t) (k : nat),
    map (subsetAt (pre ++ l)) (combs (length pre) (length l) k)
    = map Ok (subseqs k l).
Proof.
  induction l as [|x l IH]; intros pre k'.
  - destruct k'; reflexivity.
  - destruct k' as [|k']; [reflexivity|].
    cbn [length combs subseqs]. rewrite !map_app, map_map. f_equal.
    + assert (E : forall c, subsetAt (pre ++ x :: l) (length pre :: c)
                          = (r <- subsetAt (pre ++ x :: l) c ;; Ok (x :: r))).
      { intros c. unfold subsetAt. cbn [mapM].
        rewrite nth_error_app2, Nat.sub_diag by lia. reflexivity. }
      rewrite (map_ext _ _ E). apply map_bind_cons.
      specialize (IH (pre ++ [x]) k').
      rewrite <- app_assoc, length_app in IH. cbn [app length] in IH.
      rewrite Nat.add_1_r in IH. exact IH.
    + specialize (IH (pre ++ [x]) (S k')).
      rewrite <- app_assoc, length_app in IH. cbn [app length] in IH.
      rewrite Nat.add_1_r in IH. exact IH.
Qed.

Lemma vote_values_subseqs (points : list Point.t) (k : nat) :
  vote_values points (combs 0 (length points) k)
  = flat_map lag_vote (subseqs k points).
Proof.
  unfold vote_values, lagrangeOn.
  pose proof (subsetAt_combs points [] k) as H. cbn [app length] in H.
  transitivity
    (flat_map (fun r : result (list Point.t) =>
                 match (subset <- r ;; constantViaLagrange subset) with
                 | Ok c => [c]
                 | Err _ => []
                 end)
              (map (subsetAt points) (combs 0 (length points) k))).
  - rewrite flat_map_map. reflexivity.
  - rewrite H, flat_map_map. reflexivity.
Qed.


Lemma main_voting_result (k n : nat) (points : list Point.t)
  (argv : list string) :
  parsePickArg argv = Ok None -> n <> k -> (k < length points)%nat ->
  let vs := vote_values points (combs 0 (length points) k) in
  (vs = [] /\ main k n points argv = Some (Err NoConsistentSubsets)) \/
  (exists c, main k n points argv = Some (Ok (toStringBI c)) /\
             first_max_winner Z.eq_dec vs c).
Proof.
  intros Hargv Hn Hk vs.
  rewrite (main_voting_mode k n points argv Hargv Hn Hk).
  destruct vs as [|v vs'] eqn:E.
  - left. split; [reflexivity|]. f_equal. apply voting_fails_iff. exact E.
  - right. destruct (voting_nonempty points (combs 0 (length points) k))
      as (w & Ew & W).
    { unfold vote_results. fold vs. rewrite E. discriminate. }
    apply (first_max_winner_map toStringBI) in W; [|exact toStringBI_inj].
    destruct W as (c & -> & W). exists c. rewrite Ew. fold vs in W.
    rewrite E in W. auto.
Qed.








Lemma sortPoints_sorted (points : list Point.t) :
  ascending points -> sortPoints points = points.
Proof.
  intros S. induction points as [|p l IH]; [reflexivity|].
  unfold ascending in S. inversion S as [|? ? S' F]; subst.
  cbn [sortPoints fold_right]. fold (sortPoints l). rewrite (IH S').
  destruct l as [|q l]; [reflexivity|]. cbn [insertPoint].
  inversion F as [|? ? Lt _]; subst.
  replace (Point.x p <=? Point.x q) with true
    by (symmetry; apply Z.leb_le; lia).
  reflexivity.
Qed.



(** What the sort is for: the voting loop alone breaks a tie by position.
    On two points and threshold [1], one vote each, it returns the candidate
    of the point that comes first; the sort puts both orders of the file
    into the first one. *)
Lemma voting_tie_order :
  let pts := [Point.mk 1 5; Point.mk 2 7] in
  let pts' := [Point.mk 2 7; Point.mk 1 5] in
  voting pts [[0]; [1]]%nat = Ok "5"%string /\
  voting pts' [[0]; [1]]%nat = Ok "7"%string /\
  sortPoints pts' = pts /\
  main 1 2 (sortPoints pts) [] = Some (Ok "5"%string) /\
  main 1 2 (sortPoints pts') [] = Some (Ok "5"%string).
Proof. repeat split. Qed.

(** ** Gaussian elimination: the matrix as an array of rows *)

Lemma Forall_upd {A : Type} (P : A -> Prop) (l : list A) (i : nat) (v : A) :
  Forall P l -> P v -> Forall P (upd l i v).
Proof.
  intros H Hv. revert i. induction H as [|x l Hx Hl IH]; intros [|i];
    cbn [upd]; constructor; auto.
Qed.

Lemma wfM_row (k : nat) (M : matrix) (r : nat) :
  wfM k M -> (r < k)%nat ->
  exists row, nth_error M r = Some row /\ length row = S k /\
              Forall Frac.wf row.
Proof.
  intros [L F] Hr.
  destruct (nth_error M r) as [row|] eqn:E.
  - exists row. split; [reflexivity|].
    rewrite Forall_forall in F. apply F. eapply nth_error_In. exact E.
  - apply nth_error_None in E. lia.
Qed.

Lemma getM_ok (k : nat) (M : matrix) (r c : nat) :
  wfM k M -> (r < k)%nat -> (c <= k)%nat ->
  exists e, getM M r c = Ok e /\ Frac.wf e /\ Fval e = den M r c.
Proof.
  intros W Hr Hc. destruct (wfM_row k M r W Hr) as (row & E & L & F).
  unfold den, getM. rewrite E.
  destruct (nth_error row c) as [e|] eqn:Ee.
  - exists e. split; [reflexivity|]. split; [|reflexivity].
    rewrite Forall_forall in F. apply F. eapply nth_error_In. exact Ee.
  - apply nth_error_None in Ee. lia.
Qed.

Lemma setM_wf (k : nat) (M : matrix) (r c : nat) (v : Frac.t) :
  wfM k M -> Frac.wf v -> wfM k (setM M r c v).
Proof.
  intros [L F] Wv. unfold setM.
  destruct (nth_error M r) as [row|] eqn:E; [|split; assumption].
  split; [rewrite upd_length; exact L|].
  apply Forall_upd; [exact F|].
  assert (H : length row = S k /\ Forall Frac.wf row).
  { rewrite Forall_forall in F. apply F. eapply nth_error_In. exact E. }
  destruct H as [Lr Fr]. split; [rewrite upd_length; exact Lr|].
  apply Forall_upd; assumption.
Qed.

Lemma den_setM (k : nat) (M : matrix) (r c : nat) (v : Frac.t) :
  wfM k M -> (r < k)%nat -> (c <= k)%nat ->
  forall r' c',
    den (setM M r c v) r' c' =
    if (Nat.eqb r' r && Nat.eqb c' c)%bool then Fval v else den M r' c'.
Proof.
  intros W Hr Hc r' c'.
  destruct (wfM_row k M r W Hr) as (row & E & L & F).
  destruct W as [LM _].
  unfold den, getM, setM. rewrite E.
  destruct (Nat.eqb_spec r' r) as [->|Hne]; cbn [andb].
  - rewrite nth_error_upd_same by lia. rewrite E.
    destruct (Nat.eqb_spec c' c) as [->|Hnc].
    + rewrite nth_error_upd_same by lia. reflexivity.
    + rewrite nth_error_upd_other by congruence. reflexivity.
  - rewrite nth_error_upd_other by congruence. reflexivity.
Qed.

Lemma swap_rows_wf (k : nat) (M : matrix) (a b : nat) :
  wfM k M -> wfM k (swap_rows M a b).
Proof.
  intros [L F]. unfold swap_rows.
  destruct (nth_error M a) as [ra|] eqn:Ea; [|split; assumption].
  destruct (nth_error M b) as [rb|] eqn:Eb; [|split; assumption].
  rewrite Forall_forall in F.
  split; [rewrite !upd_length; exact L|].
  apply Forall_upd; [apply Forall_upd|].
  - apply Forall_forall. exact F.
  - apply F. eapply nth_error_In. exact Eb.
  - apply F. eapply nth_error_In. exact Ea.
Qed.

Lemma den_swap_rows (k : nat) (M : matrix) (a b : nat) :
  wfM k M -> (a < k)%nat -> (b < k)%nat ->
  forall r c, den (swap_rows M a b) r c = swapD a b (den M) r c.
Proof.
  intros W Ha Hb r c.
  destruct (wfM_row k M a W Ha) as (ra & Ea & _).
  destruct (wfM_row k M b W Hb) as (rb & Eb & _).
  destruct W as [LM _].
  unfold swapD, swapi, den, getM, swap_rows. rewrite Ea, Eb.
  destruct (Nat.eqb_spec r b) as [->|Hrb].
  - rewrite nth_error_upd_same by (rewrite upd_length; lia).
    destruct (Nat.eqb_spec b a) as [->|Hba].
    + rewrite Eb. rewrite Ea in Eb. injection Eb as ->. reflexivity.
    + rewrite Ea. reflexivity.
  - rewrite nth_error_upd_other by congruence.
    destruct (Nat.eqb_spec r a) as [->|Hra].
    + rewrite nth_error_upd_same by lia. rewrite Eb. reflexivity.
    + rewrite nth_error_upd_other by congruence. reflexivity.
Qed.

Lemma find_pivot_spec (k : nat) (M : matrix) (col : nat) (rs : list nat) :
  wfM k M -> (col <= k)%nat -> (forall r, In r rs -> (r < k)%nat) ->
  exists res, find_pivot M col rs = Ok res /\
    match res with
    | Some r => In r rs /\ den M r col <> 0%Qc
    | None => forall r, In r rs -> den M r col = 0%Qc
    end.
Proof.
  intros W Hc. induction rs as [|r rs IH]; intros Hrs.
  - exists None. split; [reflexivity | intros r []].
  - cbn [find_pivot].
    destruct (getM_ok k M r col W (Hrs r (or_introl eq_refl)) Hc)
      as (e & E & We & Ve).
    rewrite E. cbn [bind].
    destruct (Z.eqb_spec (Frac.n e) 0) as [Z0|NZ].
    + destruct IH as (res & Er & Hres).
      { intros r' Hr'. apply Hrs. right. exact Hr'. }
      exists res. split; [exact Er|].
      destruct res as [r'|].
      * destruct Hres as [Hin Hne]. split; [right; exact Hin | exact Hne].
      * intros r' [<-|Hr']; [|exact (Hres r' Hr')].
        rewrite <- Ve. apply Fval_zero_iff; assumption.
    + exists (Some r). split; [reflexivity|]. split; [left; reflexivity|].
      rewrite <- Ve. intros Z0. apply NZ. apply Fval_zero_iff; assumption.
Qed.

(** The loop that divides the pivot row. *)
Lemma normalize_loop (k col : nat) (p : Frac.t) (cs : list nat) :
  Frac.wf p -> Fval p <> 0%Qc -> (col < k)%nat ->
  forall M,
    wfM k M -> NoDup cs -> (forall c, In c cs -> (c <= k)%nat) ->
    exists M',
      foldM (fun (M : matrix) (c : nat) =>
               e <- getM M col c ;;
               q <- Frac.div e p ;;
               Ok (setM M col c q)) cs M = Ok M' /\
      wfM k M' /\
      forall r c,
        den M' r c =
        if (Nat.eqb r col && existsb (Nat.eqb c) cs)%bool
        then (den M r c / Fval p)%Qc else den M r c.
Proof.
  intros Wp Hp Hcol. induction cs as [|c cs IH]; intros M W ND Hcs.
  - exists M. split; [reflexivity|]. split; [exact W|].
    intros r c. cbn [existsb]. rewrite andb_false_r. reflexivity.
  - inversion ND as [|? ? Hnin ND']; subst.
    cbn [foldM].
    destruct (getM_ok k M col c W Hcol (Hcs c (or_introl eq_refl)))
      as (e & E & We & Ve).
    rewrite E. cbn [bind].
    assert (Np : Frac.n p <> 0)
      by (intros Z0; apply Hp; apply Fval_zero_iff; assumption).
    destruct (Fval_div e p We Wp Np) as (q & Eq & Wq & Vq).
    rewrite Eq. cbn [bind].
    destruct (IH (setM M col c q)) as (M' & EM & WM & DM).
    { apply setM_wf; assumption. }
    { exact ND'. }
    { intros c' Hc'. apply Hcs. right. exact Hc'. }
    exists M'. split; [exact EM|]. split; [exact WM|].
    intros r c'. rewrite DM.
    rewrite !(den_setM k M col c q W Hcol (Hcs c (or_introl eq_refl))).
    cbn [existsb].
    destruct (Nat.eqb_spec r col) as [->|Hr]; cbn [andb]; [|reflexivity].
    destruct (Nat.eqb_spec c' c) as [->|Hc'].
    + cbn [orb].
      replace (existsb (Nat.eqb c) cs) with false.
      * rewrite Vq, Ve. reflexivity.
      * symmetry. apply not_true_is_false. intros H.
        apply existsb_exists in H. destruct H as (x & Hx & Exc).
        apply Nat.eqb_eq in Exc. subst x. exact (Hnin Hx).
    + cbn [orb]. reflexivity.
Qed.

(** The inner loop of the elimination of one row. *)
Lemma eliminate_loop (k col r : nat) (factor : Frac.t) (cs : list nat) :
  Frac.wf factor -> (col < k)%nat -> (r < k)%nat -> r <> col ->
  forall M,
    wfM k M -> NoDup cs -> (forall c, In c cs -> (c <= k)%nat) ->
    exists M',
      foldM (fun (M : matrix) (c : nat) =>
               a <- getM M r c ;;
               p <- getM M col c ;;
               t <- Frac.mul factor p ;;
               a' <- Frac.sub a t ;;
               Ok (setM M r c a')) cs M = Ok M' /\
      wfM k M' /\
      forall r' c,
        den M' r' c =
        if (Nat.eqb r' r && existsb (Nat.eqb c) cs)%bool
        then (den M r c - Fval factor * den M col c)%Qc else den M r' c.
Proof.
  intros Wf Hcol Hr Hne. induction cs as [|c cs IH]; intros M W ND Hcs.
  - exists M. split; [reflexivity|]. split; [exact W|].
    intros r' c. cbn [existsb]. rewrite andb_false_r. reflexivity.
  - inversion ND as [|? ? Hnin ND']; subst.
    cbn [foldM].
    pose proof (Hcs c (or_introl eq_refl)) as Hc.
    destruct (getM_ok k M r c W Hr Hc) as (a & Ea & Wa & Va).
    destruct (getM_ok k M col c W Hcol Hc) as (p & Ep & Wp & Vp).
    rewrite Ea. cbn [bind]. rewrite Ep. cbn [bind].
    destruct (Fval_mul factor p Wf Wp) as (t & Et & Wt & Vt).
    rewrite Et. cbn [bind].
    destruct (Fval_sub a t Wa Wt) as (a' & Ea' & Wa' & Va').
    rewrite Ea'. cbn [bind].
    destruct (IH (setM M r c a')) as (M' & EM & WM & DM).
    { apply setM_wf; assumption. }
    { exact ND'. }
    { intros c' Hc'. apply Hcs. right. exact Hc'. }
    exists M'. split; [exact EM|]. split; [exact WM|].
    intros r' c'. rewrite DM.
    rewrite !(den_setM k M r c a' W Hr Hc).
    cbn [existsb].
    replace (Nat.eqb col r) with false
      by (symmetry; apply Nat.eqb_neq; congruence).
    cbn [andb].
    destruct (Nat.eqb_spec r' r) as [->|Hr']; cbn [andb]; [|reflexivity].
    rewrite Nat.eqb_refl. cbn [andb].
    destruct (Nat.eqb_spec c' c) as [->|Hc'].
    + cbn [orb].
      replace (existsb (Nat.eqb c) cs) with false.
      * rewrite Va', Vt, Va, Vp. reflexivity.
      * symmetry. apply not_true_is_false. intros H.
        apply existsb_exists in H. destruct H as (x & Hx & Exc).
        apply Nat.eqb_eq in Exc. subst x. exact (Hnin Hx).
    + cbn [orb]. reflexivity.
Qed.

Lemma existsb_seq (c a n : nat) :
  existsb (Nat.eqb c) (seq a n) = (Nat.leb a c && Nat.ltb c (a + n))%bool.
Proof.
  apply eq_true_iff_eq. rewrite existsb_exists, andb_true_iff.
  rewrite Nat.leb_le, Nat.ltb_lt. split.
  - intros (x & Hx & E). apply Nat.eqb_eq in E. subst x.
    apply in_seq in Hx. lia.
  - intros H. exists c. split; [apply in_seq; lia | apply Nat.eqb_refl].
Qed.

Lemma eliminate_row_spec (k col : nat) (M : matrix) (r : nat) :
  wfM k M -> (col < r)%nat -> (r < k)%nat ->
  exists M', eliminate_row k col M r = Ok M' /\ wfM k M' /\
             agree k (den M') (elimRowD col r (den M)).
Proof.
  intros W Hcr Hr. unfold eliminate_row.
  destruct (getM_ok k M r col W Hr ltac:(lia)) as (f & Ef & Wf & Vf).
  rewrite Ef. cbn [bind].
  destruct (Z.eqb_spec (Frac.n f) 0) as [Z0|NZ].
  - exists M. split; [reflexivity|]. split; [exact W|].
    intros r' c Hr' Hc. unfold elimRowD.
    destruct (Nat.eqb_spec r' r) as [->|Hne]; cbn [andb]; [|reflexivity].
    destruct (Nat.leb col c); [|reflexivity].
    rewrite <- Vf. apply Fval_zero_iff in Z0; [|exact Wf]. rewrite Z0. ring.
  - destruct (eliminate_loop k col r f (seq col (k + 1 - col)) Wf
                ltac:(lia) Hr ltac:(lia) M W (seq_NoDup _ _))
      as (M' & EM & WM & DM).
    { intros c Hc. apply in_seq in Hc. lia. }
    exists M'. split; [exact EM|]. split; [exact WM|].
    intros r' c Hr' Hc. rewrite DM, existsb_seq. unfold elimRowD.
    replace (Nat.ltb c (col + (k + 1 - col))) with true
      by (symmetry; apply Nat.ltb_lt; lia).
    rewrite andb_true_r, Vf. reflexivity.
Qed.

Lemma agree_refl (k : nat) (D : nat -> nat -> Qc) : agree k D D.
Proof. intros r c _ _. reflexivity. Qed.

Lemma agree_trans (k : nat) (D1 D2 D3 : nat -> nat -> Qc) :
  agree k D1 D2 -> agree k D2 D3 -> agree k D1 D3.
Proof. intros H1 H2 r c Hr Hc. rewrite (H1 r c Hr Hc). exact (H2 r c Hr Hc). Qed.

Lemma agree_sym (k : nat) (D1 D2 : nat -> nat -> Qc) :
  agree k D1 D2 -> agree k D2 D1.
Proof. intros H r c Hr Hc. symmetry. exact (H r c Hr Hc). Qed.

Lemma normD_agree (k col : nat) (D D' : nat -> nat -> Qc) :
  (col < k)%nat -> agree k D D' -> agree k (normD col D) (normD col D').
Proof.
  intros Hcol H r c Hr Hc. unfold normD.
  rewrite (H r c Hr Hc), (H col col Hcol ltac:(lia)). reflexivity.
Qed.

Lemma elimD_agree (k col : nat) (D D' : nat -> nat -> Qc) :
  (col < k)%nat -> agree k D D' -> agree k (elimD col D) (elimD col D').
Proof.
  intros Hcol H r c Hr Hc. unfold elimD.
  rewrite (H r c Hr Hc), (H r col Hr ltac:(lia)), (H col c Hcol Hc).
  reflexivity.
Qed.

(** The loop over the rows below the pivot. *)
Lemma eliminate_rows_loop (k col : nat) (rs : list nat) :
  (col < k)%nat ->
  forall M,
    wfM k M -> NoDup rs ->
    (forall r, In r rs -> (col < r)%nat /\ (r < k)%nat) ->
    exists M',
      foldM (eliminate_row k col) rs M = Ok M' /\ wfM k M' /\
      agree k (den M')
        (fun r c => if (existsb (Nat.eqb r) rs && Nat.leb col c)%bool
                    then (den M r c - den M r col * den M col c)%Qc
                    else den M r c).
Proof.
  intros Hcol. induction rs as [|r rs IH]; intros M W ND Hrs.
  - exists M. split; [reflexivity|]. split; [exact W|].
    intros r c _ _. reflexivity.
  - inversion ND as [|? ? Hnin ND']; subst.
    destruct (Hrs r (or_introl eq_refl)) as [Hr1 Hr2].
    cbn [foldM].
    destruct (eliminate_row_spec k col M r W Hr1 Hr2) as (M1 & E1 & W1 & A1).
    rewrite E1. cbn [bind].
    destruct (IH M1 W1 ND') as (M' & EM & WM & AM).
    { intros r' Hr'. apply Hrs. right. exact Hr'. }
    exists M'. split; [exact EM|]. split; [exact WM|].
    intros r' c Hr' Hc. rewrite (AM r' c Hr' Hc).
    rewrite (A1 r' c Hr' Hc), (A1 r' col Hr' ltac:(lia)), (A1 col c Hcol Hc).
    unfold elimRowD. cbn [existsb].
    replace (Nat.eqb col r) with false
      by (symmetry; apply Nat.eqb_neq; lia).
    cbn [andb].
    destruct (Nat.eqb_spec r' r) as [->|Hne]; cbn [andb orb].
    + replace (existsb (Nat.eqb r) rs) with false.
      * cbn [andb]. reflexivity.
      * symmetry. apply not_true_is_false. intros H.
        apply existsb_exists in H. destruct H as (x & Hx & Exc).
        apply Nat.eqb_eq in Exc. subst x. exact (Hnin Hx).
    + replace (Nat.leb col col) with true
        by (symmetry; apply Nat.leb_le; lia).
      cbn [andb]. reflexivity.
Qed.

(** One round of the forward elimination: either the column holds no
    pivot, or the round performs a swap, a division and the eliminations. *)
Lemma gauss_col_spec (k : nat) (M : matrix) (col : nat) :
  wfM k M -> (col < k)%nat ->
  (forall r, (col <= r)%nat -> (r < k)%nat -> den M r col = 0%Qc) \/
  (exists piv M',
      gauss_col k M col = Ok M' /\ wfM k M' /\
      (col <= piv)%nat /\ (piv < k)%nat /\ den M piv col <> 0%Qc /\
      agree k (den M') (gstepD col piv (den M))).
Proof.
  intros W Hcol.
  destruct (find_pivot_spec k M col (seq col (k - col)) W ltac:(lia))
    as (res & Ef & Hres).
  { intros r Hr. apply in_seq in Hr. lia. }
  destruct res as [piv|].
  2:{ left. intros r H1 H2. apply Hres. apply in_seq. lia. }
  right. destruct Hres as [Hin Hne]. apply in_seq in Hin.
  exists piv. unfold gauss_col. rewrite Ef. cbn [bind].
  destruct (getM_ok k M piv col W ltac:(lia) ltac:(lia)) as (e & Ee & We & Ve).
  rewrite Ee. cbn [bind].
  destruct (Z.eqb_spec (Frac.n e) 0) as [Z0|NZ].
  { exfalso. apply Hne. rewrite <- Ve. apply Fval_zero_iff; assumption. }
  set (M1 := if Nat.eqb piv col then M else swap_rows M col piv).
  assert (W1 : wfM k M1).
  { unfold M1. destruct (Nat.eqb piv col); [exact W | apply swap_rows_wf; exact W]. }
  assert (A1 : agree k (den M1) (swapD col piv (den M))).
  { intros r c _ _. unfold M1.
    destruct (Nat.eqb_spec piv col) as [->|Hpc].
    - unfold swapD, swapi. destruct (Nat.eqb_spec r col) as [->|]; reflexivity.
    - apply (den_swap_rows k M col piv W); lia. }
  destruct (getM_ok k M1 col col W1 Hcol ltac:(lia)) as (pv & Ep & Wp & Vp).
  rewrite Ep. cbn [bind].
  assert (Hpv : Fval pv <> 0%Qc).
  { rewrite Vp, (A1 col col Hcol ltac:(lia)). unfold swapD, swapi.
    rewrite Nat.eqb_refl. exact Hne. }
  unfold normalize_row.
  destruct (normalize_loop k col pv (seq col (k + 1 - col)) Wp Hpv Hcol M1 W1
              (seq_NoDup _ _)) as (M2 & E2 & W2 & D2).
  { intros c Hc. apply in_seq in Hc. lia. }
  rewrite E2. cbn [bind].
  assert (A2 : agree k (den M2) (normD col (den M1))).
  { intros r c Hr Hc. rewrite D2, existsb_seq. unfold normD.
    replace (Nat.ltb c (col + (k + 1 - col))) with true
      by (symmetry; apply Nat.ltb_lt; lia).
    rewrite andb_true_r, Vp. reflexivity. }
  destruct (eliminate_rows_loop k col (seq (S col) (k - S col)) Hcol M2 W2
              (seq_NoDup _ _)) as (M3 & E3 & W3 & A3).
  { intros r Hr. apply in_seq in Hr. lia. }
  exists M3. split; [exact E3|]. split; [exact W3|].
  split; [lia|]. split; [lia|]. split; [exact Hne|].
  unfold gstepD.
  apply (agree_trans k _ (elimD col (den M2))).
  - intros r c Hr Hc. rewrite (A3 r c Hr Hc). unfold elimD.
    rewrite existsb_seq.
    replace (Nat.ltb r (S col + (k - S col))) with true
      by (symmetry; apply Nat.ltb_lt; lia).
    rewrite andb_true_r.
    replace (Nat.leb (S col) r) with (Nat.ltb col r) by reflexivity.
    reflexivity.
  - apply elimD_agree; [exact Hcol|].
    apply (agree_trans k _ (normD col (den M1))); [exact A2|].
    apply normD_agree; [exact Hcol | exact A1].
Qed.

(** ** Gaussian elimination: the row operations on values *)

Ltac bool_cases :=
  repeat match goal with
         | |- context [Nat.eqb ?a ?b] => destruct (Nat.eqb_spec a b)
         | |- context [Nat.leb ?a ?b] => destruct (Nat.leb_spec a b)
         | |- context [Nat.ltb ?a ?b] => destruct (Nat.ltb_spec a b)
         end;
  cbn [andb orb]; subst; try lia.

Lemma qsum_nil : qsum [] = 0%Qc.
Proof. reflexivity. Qed.

Lemma qsum_cons (a : Qc) (l : list Qc) : qsum (a :: l) = (a + qsum l)%Qc.
Proof. reflexivity. Qed.

Lemma qsum_app (l1 l2 : list Qc) : qsum (l1 ++ l2) = (qsum l1 + qsum l2)%Qc.
Proof.
  induction l1 as [|a l1 IH]; cbn [app].
  - rewrite qsum_nil. ring.
  - rewrite !qsum_cons, IH. ring.
Qed.

Lemma qsum_map_add {A : Type} (f g : A -> Qc) (l : list A) :
  qsum (map (fun c => (f c + g c)%Qc) l)
  = (qsum (map f l) + qsum (map g l))%Qc.
Proof.
  induction l as [|a l IH]; cbn [map].
  - rewrite qsum_nil. ring.
  - rewrite !qsum_cons, IH. ring.
Qed.

Lemma qsum_map_scale {A : Type} (a : Qc) (f : A -> Qc) (l : list A) :
  qsum (map (fun c => (a * f c)%Qc) l) = (a * qsum (map f l))%Qc.
Proof.
  induction l as [|x l IH]; cbn [map].
  - rewrite qsum_nil. ring.
  - rewrite !qsum_cons, IH. ring.
Qed.

Lemma qsum_map_zero {A : Type} (f : A -> Qc) (l : list A) :
  (forall c, In c l -> f c = 0%Qc) -> qsum (map f l) = 0%Qc.
Proof.
  induction l as [|x l IH]; intros H; [reflexivity|].
  cbn [map]. rewrite qsum_cons.
  rewrite (H x (or_introl eq_refl)), IH; [ring|].
  intros c Hc. apply H. right. exact Hc.
Qed.

Lemma qsum_map_ext {A : Type} (f g : A -> Qc) (l : list A) :
  (forall c, In c l -> f c = g c) -> qsum (map f l) = qsum (map g l).
Proof. intros H. f_equal. apply map_ext_in. exact H. Qed.

Lemma rowsum_agree (k : nat) (D D' : nat -> nat -> Qc) (v : nat -> Qc) (r : nat) :
  agree k D D' -> (r < k)%nat -> rowsum k D v r = rowsum k D' v r.
Proof.
  intros H Hr. unfold rowsum. apply qsum_map_ext. intros c Hc.
  apply in_seq in Hc. rewrite (H r c Hr ltac:(lia)). reflexivity.
Qed.

Lemma rowsum_lin (k : nat) (D D' : nat -> nat -> Qc) (v : nat -> Qc)
  (r r1 r2 : nat) (a b : Qc) :
  (forall c, (c <= k)%nat -> D' r c = (a * D r1 c + b * D r2 c)%Qc) ->
  rowsum k D' v r = (a * rowsum k D v r1 + b * rowsum k D v r2)%Qc.
Proof.
  intros H. unfold rowsum.
  rewrite <- !qsum_map_scale, <- qsum_map_add.
  apply qsum_map_ext. intros c Hc. apply in_seq in Hc.
  rewrite (H c ltac:(lia)). ring.
Qed.

Lemma swapi_lt (k a b r : nat) :
  (a < k)%nat -> (b < k)%nat -> (r < k)%nat -> (swapi a b r < k)%nat.
Proof. intros. unfold swapi. bool_cases. Qed.

Lemma swapi_invol (a b r : nat) : swapi a b (swapi a b r) = r.
Proof.
  unfold swapi.
  destruct (Nat.eqb_spec r a) as [->|Ha].
  - destruct (Nat.eqb_spec b a) as [->|Hba]; [reflexivity|].
    rewrite Nat.eqb_refl. reflexivity.
  - destruct (Nat.eqb_spec r b) as [->|Hb].
    + rewrite Nat.eqb_refl. reflexivity.
    + destruct (Nat.eqb_spec r a); [contradiction|].
      destruct (Nat.eqb_spec r b); [contradiction|]. reflexivity.
Qed.

Lemma Ech_agree (k col : nat) (D D' : nat -> nat -> Qc) :
  agree k D D' -> Ech k col D -> Ech k col D'.
Proof.
  intros A [E1 E2]. split.
  - intros i Hi Hk. rewrite <- (A i i Hk ltac:(lia)). exact (E1 i Hi Hk).
  - intros c r Hc Hr Hk. rewrite <- (A r c Hk ltac:(lia)). exact (E2 c r Hc Hr Hk).
Qed.

Lemma SolImp_refl (k : nat) (D : nat -> nat -> Qc) : SolImp k D D.
Proof. intros v H. exact H. Qed.

Lemma SolImp_trans (k : nat) (D1 D2 D3 : nat -> nat -> Qc) :
  SolImp k D1 D2 -> SolImp k D2 D3 -> SolImp k D1 D3.
Proof. intros H1 H2 v H. apply H1. apply H2. exact H. Qed.

Lemma SolImp_agree_r (k : nat) (D1 D2 D2' : nat -> nat -> Qc) :
  agree k D2 D2' -> SolImp k D1 D2 -> SolImp k D1 D2'.
Proof.
  intros A H v Hv. apply H. intros r Hr.
  rewrite (rowsum_agree k D2 D2' v r A Hr). exact (Hv r Hr).
Qed.

(** The round keeps the echelon form and extends it by one column. *)
Lemma Ech_step (k col piv : nat) (D : nat -> nat -> Qc) :
  Ech k col D -> (col <= piv)%nat -> (piv < k)%nat -> D piv col <> 0%Qc ->
  Ech k (S col) (gstepD col piv D).
Proof.
  intros [E1 E2] Hp1 Hp2 Hne.
  assert (Hcc : normD col (swapD col piv D) col col = 1%Qc).
  { unfold normD, swapD, swapi. rewrite !Nat.eqb_refl.
    replace (Nat.leb col col) with true by (symmetry; apply Nat.leb_le; lia).
    cbn [andb]. field. exact Hne. }
  split.
  - intros i Hi Hk. unfold gstepD, elimD.
    replace (Nat.ltb col i) with false by (symmetry; apply Nat.ltb_ge; lia).
    cbn [andb].
    destruct (Nat.eq_dec i col) as [->|Hic]; [exact Hcc|].
    unfold normD, swapD, swapi.
    replace (Nat.eqb i col) with false by (symmetry; apply Nat.eqb_neq; lia).
    replace (Nat.eqb i piv) with false by (symmetry; apply Nat.eqb_neq; lia).
    cbn [andb]. apply E1; lia.
  - intros c r Hc Hr Hk.
    assert (Z1 : forall r', (r' < k)%nat -> forall c', (c' < col)%nat ->
                 (c' < r')%nat ->
                 normD col (swapD col piv D) r' c' = 0%Qc).
    { intros r' Hr' c' Hc' Hcr. unfold normD.
      replace (Nat.leb col c') with false by (symmetry; apply Nat.leb_gt; lia).
      rewrite andb_false_r. unfold swapD. apply E2; [lia | | ].
      - unfold swapi. bool_cases.
      - apply swapi_lt; lia. }
    unfold gstepD, elimD.
    destruct (Nat.eq_dec c col) as [->|Hcc'].
    + replace (Nat.ltb col r) with true by (symmetry; apply Nat.ltb_lt; lia).
      replace (Nat.leb col col) with true by (symmetry; apply Nat.leb_le; lia).
      cbn [andb]. rewrite Hcc. ring.
    + replace (Nat.leb col c) with false by (symmetry; apply Nat.leb_gt; lia).
      rewrite andb_false_r. apply Z1; lia.
Qed.

(** Every solution of the system after the round solves the system before
    it. *)
Lemma SolImp_step (k col piv : nat) (D : nat -> nat -> Qc) :
  Ech k col D -> (col <= piv)%nat -> (piv < k)%nat -> D piv col <> 0%Qc ->
  SolImp k D (gstepD col piv D).
Proof.
  intros [E1 E2] Hp1 Hp2 Hne v Hv.
  set (D1 := swapD col piv D). set (D2 := normD col D1).
  assert (Hcol : (col < k)%nat) by lia.
  assert (P : D1 col col <> 0%Qc).
  { unfold D1, swapD, swapi. rewrite Nat.eqb_refl. exact Hne. }
  assert (Z1 : forall c, (c < col)%nat -> D1 col c = 0%Qc).
  { intros c Hc. unfold D1, swapD, swapi. rewrite Nat.eqb_refl.
    apply E2; lia. }
  assert (Z2 : forall c, (c < col)%nat -> D2 col c = 0%Qc).
  { intros c Hc. unfold D2, normD.
    replace (Nat.leb col c) with false by (symmetry; apply Nat.leb_gt; lia).
    rewrite andb_false_r. apply Z1. exact Hc. }
  (* rows of D2 *)
  assert (S2 : forall r, (r < k)%nat -> rowsum k D2 v r = 0%Qc).
  { assert (Sc : rowsum k D2 v col = 0%Qc).
    { rewrite <- (Hv col Hcol).
      rewrite (rowsum_lin k D2 (gstepD col piv D) v col col col 1%Qc 0%Qc);
        [ring|].
      intros c Hc. unfold gstepD, elimD. fold D1. fold D2.
      rewrite Nat.ltb_irrefl. cbn [andb]. ring. }
    intros r Hr.
    destruct (Nat.ltb_spec col r) as [Hlt|Hge].
    - pose proof (Hv r Hr) as H.
      rewrite (rowsum_lin k D2 (gstepD col piv D) v r r col 1%Qc
                 (- D2 r col)%Qc) in H.
      + rewrite Sc in H. rewrite <- H. ring.
      + intros c Hc. unfold gstepD, elimD. fold D1. fold D2.
        replace (Nat.ltb col r) with true by (symmetry; apply Nat.ltb_lt; lia).
        cbn [andb].
        destruct (Nat.leb_spec col c) as [Hle|Hgt]; [ring|].
        rewrite (Z2 c Hgt). ring.
    - rewrite <- (Hv r Hr).
      rewrite (rowsum_lin k D2 (gstepD col piv D) v r r r 1%Qc 0%Qc); [ring|].
      intros c Hc. unfold gstepD, elimD. fold D1. fold D2.
      replace (Nat.ltb col r) with false by (symmetry; apply Nat.ltb_ge; lia).
      cbn [andb]. ring. }
  (* rows of D1 *)
  assert (S1 : forall r, (r < k)%nat -> rowsum k D1 v r = 0%Qc).
  { intros r Hr. destruct (Nat.eq_dec r col) as [->|Hrc].
    - pose proof (S2 col Hcol) as H.
      rewrite (rowsum_lin k D1 D2 v col col col (/ D1 col col)%Qc 0%Qc) in H.
      + transitivity (D1 col col * (/ D1 col col * rowsum k D1 v col
                                    + 0 * rowsum k D1 v col))%Qc;
          [field; exact P | rewrite H; ring].
      + intros c Hc. unfold D2, normD. rewrite Nat.eqb_refl. cbn [andb].
        destruct (Nat.leb_spec col c) as [Hle|Hgt].
        * unfold Qcdiv. ring.
        * rewrite (Z1 c Hgt). ring.
    - rewrite <- (S2 r Hr).
      rewrite (rowsum_lin k D1 D2 v r r r 1%Qc 0%Qc); [ring|].
      intros c Hc. unfold D2, normD.
      replace (Nat.eqb r col) with false by (symmetry; apply Nat.eqb_neq; lia).
      cbn [andb]. ring. }
  intros r Hr.
  pose proof (S1 (swapi col piv r) (swapi_lt k col piv r Hcol Hp2 Hr)) as H.
  rewrite <- H. unfold rowsum, D1, swapD. rewrite swapi_invol. reflexivity.
Qed.

(** ** Gaussian elimination: a pivot exists *)

Lemma Ech_weaken (k col : nat) (D : nat -> nat -> Qc) :
  Ech k (S col) D -> Ech k col D.
Proof.
  intros [E1 E2]. split.
  - intros i Hi Hk. apply E1; lia.
  - intros c r Hc Hr Hk. apply E2; lia.
Qed.

Lemma qsum_single (k m : nat) (a : Qc) :
  (m <= k)%nat ->
  qsum (map (fun c => if Nat.eqb c m then a else 0%Qc) (seq 0 (S k))) = a.
Proof.
  intros H. apply qsum_delta; [apply seq_NoDup | apply in_seq; lia].
Qed.

(** Above an echelon block the unknowns of the block can be chosen so that
    its rows are annihilated, whatever the other unknowns are. *)
Lemma tri_solve (k : nat) (D : nat -> nat -> Qc) (col : nat) :
  (col <= k)%nat -> Ech k col D ->
  forall w0 : nat -> Qc,
  exists w : nat -> Qc,
    (forall c, (col <= c)%nat -> w c = w0 c) /\
    (forall i, (i < col)%nat -> rowsum k D w i = 0%Qc).
Proof.
  induction col as [|col IH]; intros Hcol E w0.
  - exists w0. split; [reflexivity | intros i Hi; lia].
  - pose proof E as [E1 E2].
    set (s := qsum (map (fun c => if Nat.ltb col c then (D col c * w0 c)%Qc
                                  else 0%Qc) (seq 0 (S k)))).
    set (w1 := fun c => if Nat.eqb c col then (- s)%Qc else w0 c).
    destruct (IH ltac:(lia) (Ech_weaken k col D E) w1) as (w & Hw & Hr).
    exists w. split.
    + intros c Hc. rewrite Hw by lia. unfold w1.
      replace (Nat.eqb c col) with false by (symmetry; apply Nat.eqb_neq; lia).
      reflexivity.
    + intros i Hi. destruct (Nat.eq_dec i col) as [->|Hne]; [|apply Hr; lia].
      unfold rowsum.
      rewrite (qsum_map_ext _
                 (fun c => ((if Nat.eqb c col then (- s)%Qc else 0%Qc)
                            + (if Nat.ltb col c then (D col c * w0 c)%Qc
                               else 0%Qc))%Qc)).
      * rewrite qsum_map_add, qsum_single by lia. fold s. ring.
      * intros c Hc. apply in_seq in Hc.
        destruct (Nat.lt_trichotomy c col) as [Hlt|[->|Hgt]].
        -- rewrite (E2 c col) by lia.
           replace (Nat.eqb c col) with false
             by (symmetry; apply Nat.eqb_neq; lia).
           replace (Nat.ltb col c) with false
             by (symmetry; apply Nat.ltb_ge; lia).
           ring.
        -- rewrite (E1 col) by lia. rewrite Hw by lia. unfold w1.
           rewrite Nat.eqb_refl, Nat.ltb_irrefl. ring.
        -- rewrite Hw by lia. unfold w1.
           replace (Nat.eqb c col) with false
             by (symmetry; apply Nat.eqb_neq; lia).
           replace (Nat.ltb col c) with true
             by (symmetry; apply Nat.ltb_lt; lia).
           ring.
Qed.

(** A column without pivot gives a non-zero solution of the homogeneous
    system. *)
Lemma no_pivot_kernel (k col : nat) (D : nat -> nat -> Qc) :
  (col < k)%nat -> Ech k col D ->
  (forall r, (col <= r)%nat -> (r < k)%nat -> D r col = 0%Qc) ->
  exists w : nat -> Qc,
    w col = 1%Qc /\ w k = 0%Qc /\
    forall r, (r < k)%nat -> rowsum k D w r = 0%Qc.
Proof.
  intros Hcol E Hz.
  set (w0 := fun c => if Nat.eqb c col then 1%Qc else 0%Qc).
  destruct (tri_solve k D col ltac:(lia) E w0) as (w & Hw & Hr).
  exists w. split; [|split].
  - rewrite Hw by lia. unfold w0. rewrite Nat.eqb_refl. reflexivity.
  - rewrite Hw by lia. unfold w0.
    replace (Nat.eqb k col) with false by (symmetry; apply Nat.eqb_neq; lia).
    reflexivity.
  - intros r Hr'. destruct (Nat.lt_ge_cases r col) as [Hlt|Hge];
      [apply Hr; exact Hlt|].
    unfold rowsum. apply qsum_map_zero. intros c Hc. apply in_seq in Hc.
    destruct E as [_ E2].
    destruct (Nat.lt_trichotomy c col) as [Hc1|[->|Hc2]].
    + rewrite (E2 c r) by lia. ring.
    + rewrite (Hz r) by lia. ring.
    + rewrite Hw by lia. unfold w0.
      replace (Nat.eqb c col) with false by (symmetry; apply Nat.eqb_neq; lia).
      ring.
Qed.

(** The forward elimination of a non-singular system runs through and
    ends in echelon form; every solution of the final system solves the
    initial one. *)
Lemma gauss_loop (k : nat) (M0 : matrix) :
  NonSing k (den M0) ->
  forall n col M,
    (col + n = k)%nat -> wfM k M -> Ech k col (den M) ->
    SolImp k (den M0) (den M) ->
    exists M',
      foldM (gauss_col k) (seq col n) M = Ok M' /\ wfM k M' /\
      Ech k k (den M') /\ SolImp k (den M0) (den M').
Proof.
  intros NS. induction n as [|n IH]; intros col M Hn W E S0.
  - exists M. replace col with k in E by lia. auto.
  - cbn [seq foldM].
    destruct (gauss_col_spec k M col W ltac:(lia))
      as [Hz|(piv & M1 & E1 & W1 & Hp1 & Hp2 & Hne & A1)].
    + exfalso.
      destruct (no_pivot_kernel k col (den M) ltac:(lia) E Hz)
        as (w & Hw1 & Hw2 & Hw3).
      pose proof (NS w Hw2 (S0 w Hw3) col ltac:(lia)) as Z0.
      rewrite Hw1 in Z0. exact (Q_apart_0_1 Z0).
    + rewrite E1. cbn [bind]. apply IH; [lia | exact W1 | |].
      * apply (Ech_agree k (S col) (gstepD col piv (den M)));
          [apply agree_sym; exact A1|].
        apply Ech_step; assumption.
      * apply (SolImp_agree_r k _ (gstepD col piv (den M)));
          [apply agree_sym; exact A1|].
        apply (SolImp_trans k _ (den M)); [exact S0|].
        apply SolImp_step; assumption.
Qed.

(** ** Gaussian elimination: back substitution *)

Lemma wfX_entry (k : nat) (xv : list Frac.t) (c : nat) :
  wfX k xv -> (c < k)%nat ->
  exists e, nth_error xv c = Some e /\ Frac.wf e /\ Fval e = denX xv c.
Proof.
  intros [L F] Hc. unfold denX.
  destruct (nth_error xv c) as [e|] eqn:E.
  - exists e. split; [reflexivity|]. split; [|reflexivity].
    rewrite Forall_forall in F. apply F. eapply nth_error_In. exact E.
  - apply nth_error_None in E. lia.
Qed.

Lemma back_sum_loop (k : nat) (M : matrix) (xv : list Frac.t) (r : nat)
  (cs : list nat) :
  wfM k M -> wfX k xv -> (r < k)%nat ->
  forall sum,
    Frac.wf sum -> (forall c, In c cs -> (c < k)%nat) ->
    exists s',
      foldM (fun (sum : Frac.t) (c : nat) =>
               e <- getM M r c ;;
               xc <- match nth_error xv c with
                     | Some v => Ok v
                     | None => Err TypeError
                     end ;;
               t <- Frac.mul e xc ;;
               Frac.add sum t) cs sum = Ok s' /\
      Frac.wf s' /\
      Fval s' = (Fval sum
                 + qsum (map (fun c => den M r c * denX xv c) cs))%Qc.
Proof.
  intros W WX Hr. induction cs as [|c cs IH]; intros sum Ws Hcs.
  - exists sum. split; [reflexivity|]. split; [exact Ws|].
    cbn [map]. rewrite qsum_nil. ring.
  - pose proof (Hcs c (or_introl eq_refl)) as Hc.
    cbn [foldM].
    destruct (getM_ok k M r c W Hr ltac:(lia)) as (e & Ee & We & Ve).
    destruct (wfX_entry k xv c WX Hc) as (xc & Ex & Wx & Vx).
    rewrite Ee. cbn [bind]. rewrite Ex. cbn [bind].
    destruct (Fval_mul e xc We Wx) as (t & Et & Wt & Vt).
    rewrite Et. cbn [bind].
    destruct (Fval_add sum t Ws Wt) as (s1 & E1 & W1 & V1).
    rewrite E1. cbn [bind].
    destruct (IH s1 W1 (fun c' Hc' => Hcs c' (or_intror Hc')))
      as (s' & Es & Ws' & Vs).
    exists s'. split; [exact Es|]. split; [exact Ws'|].
    rewrite Vs, V1, Vt, Ve, Vx. cbn [map]. rewrite qsum_cons. ring.
Qed.

Lemma denX_upd (k : nat) (xv : list Frac.t) (r : nat) (v : Frac.t) :
  wfX k xv -> (r < k)%nat ->
  forall c, denX (upd xv r v) c = if Nat.eqb c r then Fval v else denX xv c.
Proof.
  intros [L F] Hr c. unfold denX.
  destruct (Nat.eqb_spec c r) as [->|Hne].
  - rewrite nth_error_upd_same by lia. reflexivity.
  - rewrite nth_error_upd_other by congruence. reflexivity.
Qed.

Lemma back_row_spec (k : nat) (M : matrix) (xv : list Frac.t) (r : nat) :
  wfM k M -> wfX k xv -> (r < k)%nat ->
  exists xv',
    back_row k M xv r = Ok xv' /\ wfX k xv' /\
    denX xv' r = (den M r k
                  - qsum (map (fun c => den M r c * denX xv c)
                              (seq (S r) (k - S r))))%Qc /\
    (forall c, c <> r -> denX xv' c = denX xv c).
Proof.
  intros W WX Hr. unfold back_row. rewrite fromBI_ok. cbn [bind].
  destruct (back_sum_loop k M xv r (seq (S r) (k - S r)) W WX Hr _ wf_zero)
    as (s & Es & Ws & Vs).
  { intros c Hc. apply in_seq in Hc. lia. }
  rewrite Es. cbn [bind].
  destruct (getM_ok k M r k W Hr ltac:(lia)) as (e & Ee & We & Ve).
  rewrite Ee. cbn [bind].
  destruct (Fval_sub e s We Ws) as (v & Ev & Wv & Vv).
  rewrite Ev. cbn [bind].
  exists (upd xv r v). split; [reflexivity|]. split.
  - destruct WX as [L F]. split; [rewrite upd_length; exact L|].
    apply Forall_upd; assumption.
  - split.
    + rewrite (denX_upd k xv r v WX Hr), Nat.eqb_refl.
      rewrite Vv, Ve, Vs, Fval_mk_int, inj_0. ring.
    + intros c Hc. rewrite (denX_upd k xv r v WX Hr).
      replace (Nat.eqb c r) with false by (symmetry; apply Nat.eqb_neq; exact Hc).
      reflexivity.
Qed.

Lemma BackEq_ext (k : nat) (D : nat -> nat -> Qc) (X X' : nat -> Qc) (r : nat) :
  (forall c, (r <= c)%nat -> X' c = X c) ->
  BackEq k D X r -> BackEq k D X' r.
Proof.
  intros H B. unfold BackEq in *. rewrite <- B, (H r) by lia. f_equal.
  apply qsum_map_ext. intros c Hc. apply in_seq in Hc.
  rewrite (H c) by lia. reflexivity.
Qed.

(** The back substitution, from the last row up. *)
Lemma back_loop (k : nat) (M : matrix) :
  wfM k M ->
  forall j xv,
    (j <= k)%nat -> wfX k xv ->
    (forall r, (j <= r)%nat -> (r < k)%nat -> BackEq k (den M) (denX xv) r) ->
    exists xv',
      foldM (back_row k M) (rev (seq 0 j)) xv = Ok xv' /\ wfX k xv' /\
      forall r, (r < k)%nat -> BackEq k (den M) (denX xv') r.
Proof.
  intros W. induction j as [|j IH]; intros xv Hj WX HB.
  - exists xv. split; [reflexivity|]. split; [exact WX|].
    intros r Hr. apply HB; lia.
  - rewrite seq_S, rev_app_distr. cbn [rev app Nat.add foldM].
    destruct (back_row_spec k M xv j W WX ltac:(lia)) as (x1 & E1 & W1 & V1 & U1).
    rewrite E1. cbn [bind]. apply IH; [lia | exact W1|].
    intros r Hr1 Hr2. destruct (Nat.eq_dec r j) as [->|Hne].
    + unfold BackEq. rewrite V1.
      rewrite (qsum_map_ext (fun c => (den M j c * denX x1 c)%Qc)
                            (fun c => (den M j c * denX xv c)%Qc)).
      * ring.
      * intros c Hc. apply in_seq in Hc. rewrite U1 by lia. reflexivity.
    + apply (BackEq_ext k (den M) (denX xv)); [|apply HB; lia].
      intros c Hc. apply U1. lia.
Qed.

Lemma seq_split_at (k r : nat) :
  (r < k)%nat -> seq 0 k = seq 0 r ++ r :: seq (S r) (k - S r).
Proof.
  intros H. replace k with (r + S (k - S r))%nat at 1 by lia.
  rewrite seq_app. reflexivity.
Qed.

(** The vector computed by the back substitution, completed by [-1] for
    the right-hand side column, is annihilated by every row. *)
Lemma back_solution (k : nat) (D : nat -> nat -> Qc) (X : nat -> Qc) :
  Ech k k D ->
  (forall r, (r < k)%nat -> BackEq k D X r) ->
  forall r, (r < k)%nat ->
    rowsum k D (fun c => if Nat.ltb c k then X c else (- (1))%Qc) r = 0%Qc.
Proof.
  intros [E1 E2] HB r Hr. unfold rowsum.
  rewrite seq_S, map_app, qsum_app. cbn [Nat.add map].
  rewrite qsum_cons, qsum_nil, Nat.ltb_irrefl.
  rewrite (seq_split_at k r Hr), map_app, qsum_app. cbn [map].
  rewrite qsum_cons.
  rewrite (qsum_map_zero _ (seq 0 r)).
  2:{ intros c Hc. apply in_seq in Hc. rewrite (E2 c r) by lia. ring. }
  replace (Nat.ltb r k) with true by (symmetry; apply Nat.ltb_lt; exact Hr).
  rewrite (E1 r) by lia.
  rewrite (qsum_map_ext _ (fun c => (D r c * X c)%Qc) (seq (S r) (k - S r))).
  2:{ intros c Hc. apply in_seq in Hc.
      replace (Nat.ltb c k) with true by (symmetry; apply Nat.ltb_lt; lia).
      reflexivity. }
  pose proof (HB r Hr) as B. unfold BackEq in B. rewrite <- B. ring.
Qed.

Lemma zero_vector (k : nat) :
  mapM (fun _ : nat => Frac.fromBI 0) (seq 0 k)
  = Ok (map (fun _ => Frac.mk 0 1) (seq 0 k)).
Proof.
  generalize 0%nat. induction k as [|k IH]; intros a; [reflexivity|].
  cbn [seq mapM map]. rewrite fromBI_ok. cbn [bind]. rewrite IH. reflexivity.
Qed.

(** ** The Vandermonde system *)

Lemma pow_loop_spec (e : positive) :
  forall r b, pow_loop e r b = r * b ^ Zpos e.
Proof.
  induction e as [e IH|e IH|]; intros r b; cbn [pow_loop].
  - rewrite IH, Pos2Z.inj_xI, Z.pow_add_r, Z.pow_mul_r, Z.pow_2_r, Z.pow_1_r
      by lia. ring.
  - rewrite IH, Pos2Z.inj_xO, Z.pow_mul_r, Z.pow_2_r by lia. reflexivity.
  - rewrite Z.pow_1_r. reflexivity.
Qed.

Lemma powBI_spec (x : Z) (e : nat) : powBI x (Z.of_nat e) = x ^ Z.of_nat e.
Proof.
  destruct e as [|e]; [reflexivity|].
  unfold powBI. cbn [Z.of_nat]. rewrite pow_loop_spec. ring.
Qed.

Lemma inj_pow (z : Z) (e : nat) : inj (z ^ Z.of_nat e) = (inj z ^ e)%Qc.
Proof.
  induction e as [|e IH]; [exact inj_1|].
  rewrite Nat2Z.inj_succ, Z.pow_succ_r by lia.
  rewrite inj_mul, IH. reflexivity.
Qed.

Lemma mapM_fromBI {A : Type} (g : A -> Z) (l : list A) :
  mapM (fun e => Frac.fromBI (g e)) l = Ok (map (fun e => Frac.mk (g e) 1) l).
Proof.
  induction l as [|a l IH]; [reflexivity|].
  cbn [mapM map]. rewrite fromBI_ok. cbn [bind]. rewrite IH. reflexivity.
Qed.

Lemma vandermondeRow_spec (x : Z) (k : nat) :
  (1 <= k)%nat ->
  vandermondeRow x (Z.of_nat k - 1) = Ok (map (fun z => Frac.mk z 1) (vrowZ x k)).
Proof.
  intros Hk. unfold vandermondeRow, vrowZ.
  replace (Z.to_nat (Z.of_nat k - 1)) with (k - 1)%nat by lia.
  rewrite (mapM_fromBI (fun e => powBI x (Z.of_nat e))). cbn [bind].
  rewrite fromBI_ok. cbn [bind]. f_equal.
  destruct k as [|m]; [lia|]. rewrite Nat.sub_succ, Nat.sub_0_r.
  cbn [seq rev]. rewrite !map_app, map_map. cbn [map]. f_equal.
  apply map_ext. intros e. rewrite powBI_spec. reflexivity.
Qed.

Lemma solveForIndices_subset (points : list Point.t) (k : nat)
  (idxs : list nat) (subset : list Point.t) :
  (1 <= k)%nat -> subsetAt points idxs = Ok subset ->
  solveForIndices points k idxs
  = solveFracSystem (map (vrowF k) subset) (map rhsF subset).
Proof.
  intros Hk Hs. unfold solveForIndices.
  assert (E : mapM (fun ii =>
                      match nth_error points ii with
                      | Some p =>
                          row <- vandermondeRow (Point.x p) (Z.of_nat k - 1) ;;
                          bi <- Frac.fromBI (Point.y p) ;;
                          Ok (row, bi)
                      | None => Err TypeError
                      end) idxs
              = Ok (map (fun p => (vrowF k p, rhsF p)) subset)).
  { revert subset Hs. unfold subsetAt.
    induction idxs as [|ii idxs IH]; intros subset Hs; cbn [mapM] in *.
    - injection Hs as <-. reflexivity.
    - apply bind_Ok in Hs. destruct Hs as (p & Ep & Hs).
      apply bind_Ok in Hs. destruct Hs as (ps & Eps & Hs).
      injection Hs as <-.
      destruct (nth_error points ii) as [p'|]; [|discriminate].
      injection Ep as ->.
      rewrite vandermondeRow_spec by exact Hk. cbn [bind].
      rewrite fromBI_ok. cbn [bind]. rewrite (IH ps Eps). reflexivity. }
  rewrite E. cbn [bind]. rewrite !map_map. cbn [fst snd]. reflexivity.
Qed.

Lemma augment_map_gen (k : nat) (l : list Point.t) :
  forall pre : list Point.t,
    map (fun ri : list Frac.t * nat =>
           fst ri ++ match nth_error (map rhsF (pre ++ l)) (snd ri) with
                     | Some v => [v]
                     | None => []
                     end)
        (combine (map (vrowF k) l) (seq (length pre) (length l)))
    = map (fun p => vrowF k p ++ [rhsF p]) l.
Proof.
  induction l as [|x l IH]; intros pre; [reflexivity|].
  cbn [map length seq combine fst snd]. f_equal.
  - rewrite nth_error_map, nth_error_app2, Nat.sub_diag by lia. reflexivity.
  - specialize (IH (pre ++ [x])). rewrite <- app_assoc, length_app in IH.
    cbn [app length] in IH. rewrite Nat.add_1_r in IH. exact IH.
Qed.

Lemma augment_map (k : nat) (subset : list Point.t) :
  augment (map (vrowF k) subset) (map rhsF subset)
  = map (fun p => vrowF k p ++ [rhsF p]) subset.
Proof.
  unfold augment. rewrite length_map. exact (augment_map_gen k subset []).
Qed.

Lemma vrowF_length (k : nat) (p : Point.t) : length (vrowF k p) = k.
Proof.
  unfold vrowF, vrowZ. rewrite !length_map, length_rev, length_seq.
  reflexivity.
Qed.

Lemma vander_wfM (subset : list Point.t) :
  wfM (length subset)
      (map (fun p => vrowF (length subset) p ++ [rhsF p]) subset).
Proof.
  split; [apply length_map|].
  apply Forall_forall. intros row Hrow. apply in_map_iff in Hrow.
  destruct Hrow as (p & <- & _). split.
  - rewrite length_app, vrowF_length. cbn [length]. lia.
  - apply Forall_app. split.
    + unfold vrowF. apply Forall_forall. intros e He.
      apply in_map_iff in He. destruct He as (z & <- & _). apply wf_int.
    + constructor; [apply wf_int | constructor].
Qed.

Lemma vander_den (subset : list Point.t) :
  agree (length subset)
        (den (map (fun p => vrowF (length subset) p ++ [rhsF p]) subset))
        (vanderD (length subset) (map Point.x subset) (map Point.y subset)).
Proof.
  set (k := length subset). intros r c Hr Hc.
  unfold den, getM, vanderD.
  rewrite nth_error_map.
  rewrite (nth_error_nth' subset (Point.mk 0 0)) by exact Hr.
  cbn [option_map]. set (p := nth r subset (Point.mk 0 0)).
  rewrite <- nth_map_x, <- nth_map_y. fold p.
  destruct (Nat.ltb_spec c k) as [Hlt|Hge].
  - rewrite nth_error_app1 by (rewrite vrowF_length; exact Hlt).
    unfold vrowF, vrowZ. rewrite !nth_error_map.
    rewrite (nth_error_nth' (rev (seq 0 k)) 0%nat)
      by (rewrite length_rev, length_seq; exact Hlt).
    cbn [option_map].
    rewrite rev_nth by (rewrite length_seq; exact Hlt).
    rewrite length_seq, seq_nth by lia. cbn [Nat.add].
    rewrite Fval_mk_int, inj_pow.
    replace (k - S c)%nat with (k - 1 - c)%nat by lia. reflexivity.
  - assert (c = k) by lia. subst c.
    rewrite nth_error_app2 by (rewrite vrowF_length; lia).
    rewrite vrowF_length, Nat.sub_diag. cbn [nth_error].
    unfold rhsF. apply Fval_mk_int.
Qed.

(** The sum over a Vandermonde row is the value of the polynomial whose
    coefficients are the unknowns, highest degree first. *)
Lemma vander_sum (q : Qc) (v : nat -> Qc) (k : nat) :
  qsum (map (fun c => (q ^ (k - 1 - c) * v c)%Qc) (seq 0 k))
  = peval (map v (rev (seq 0 k))) q.
Proof.
  induction k as [|k IH]; [reflexivity|].
  rewrite seq_S at 2. rewrite rev_app_distr. cbn [Nat.add rev app map].
  rewrite peval_cons, <- IH.
  rewrite seq_S, map_app, qsum_app. cbn [Nat.add map].
  rewrite qsum_cons, qsum_nil, <- qsum_map_scale.
  replace (S k - 1 - k)%nat with 0%nat by lia.
  rewrite (qsum_map_ext (fun c => (q ^ (S k - 1 - c) * v c)%Qc)
                        (fun c => (q * (q ^ (k - 1 - c) * v c))%Qc)).
  - cbn [Qcpower]. ring.
  - intros c Hc. apply in_seq in Hc.
    replace (S k - 1 - c)%nat with (S (k - 1 - c)) by lia.
    cbn [Qcpower]. ring.
Qed.

Lemma vander_rowsum (k : nat) (xs ys : list Z) (v : nat -> Qc) (r : nat) :
  rowsum k (vanderD k xs ys) v r
  = (peval (map v (rev (seq 0 k))) (inj (nth r xs 0%Z))
     + inj (nth r ys 0%Z) * v k)%Qc.
Proof.
  unfold rowsum. rewrite seq_S, map_app, qsum_app. cbn [Nat.add map].
  rewrite qsum_cons, qsum_nil, <- vander_sum. unfold vanderD.
  rewrite Nat.ltb_irrefl.
  rewrite (qsum_map_ext _ (fun c => (inj (nth r xs 0%Z) ^ (k - 1 - c) * v c)%Qc)
             (seq 0 k)).
  - ring.
  - intros c Hc. apply in_seq in Hc.
    replace (Nat.ltb c k) with true by (symmetry; apply Nat.ltb_lt; lia).
    reflexivity.
Qed.

(** With distinct abscissas the Vandermonde system is non-singular. *)
Lemma vander_NonSing (xs ys : list Z) :
  NoDup xs -> NonSing (length xs) (vanderD (length xs) xs ys).
Proof.
  intros ND v Hv H c Hc. set (k := length xs) in *.
  assert (Z0 : all0 (map v (rev (seq 0 k)))).
  { apply (roots_all0 (map inj xs)).
    - apply NoDup_map_inj. exact ND.
    - rewrite !length_map, length_rev, length_seq. fold k. lia.
    - intros x Hx. apply in_map_iff in Hx. destruct Hx as (z & <- & Hz).
      destruct (In_nth xs z 0 Hz) as (r & Hr & <-).
      pose proof (H r Hr) as E. rewrite vander_rowsum, Hv in E.
      rewrite <- E. ring. }
  unfold all0 in Z0. rewrite Forall_forall in Z0. apply Z0.
  apply in_map. apply in_rev. rewrite rev_involutive. apply in_seq. lia.
Qed.

(** The solver on the system of a subset with distinct abscissas: it
    returns [k] fractions in lowest terms, the last of which is the Lagrange
    value at [0]. *)
Lemma gauss_vandermonde (subset : list Point.t) :
  (1 <= length subset)%nat -> NoDup (map Point.x subset) ->
  exists cs,
    solveFracSystem (map (vrowF (length subset)) subset) (map rhsF subset)
    = Ok cs /\
    wfX (length subset) cs /\
    denX cs (length subset - 1)
    = lagZ (map Point.x subset) (map Point.y subset).
Proof.
  intros Hk ND. set (k := length subset) in *.
  set (xs := map Point.x subset). set (ys := map Point.y subset).
  assert (Lx : length xs = k) by apply length_map.
  unfold solveFracSystem. rewrite length_map. fold k.
  rewrite augment_map.
  set (M0 := map (fun p => vrowF k p ++ [rhsF p]) subset).
  pose proof (vander_wfM subset) as W0. fold k in W0. fold M0 in W0.
  pose proof (vander_den subset) as A0. fold k in A0. fold M0 in A0.
  fold xs ys in A0.
  assert (NS : NonSing k (den M0)).
  { pose proof (vander_NonSing xs ys ND) as NS. rewrite Lx in NS.
    intros v Hv H. apply (NS v Hv). intros r Hr.
    rewrite <- (rowsum_agree k _ _ v r A0 Hr). exact (H r Hr). }
  destruct (gauss_loop k M0 NS k 0%nat M0 ltac:(lia) W0) as (M' & EM & WM & EchM & SM).
  { split; intros; lia. }
  { apply SolImp_refl. }
  rewrite EM. cbn [bind]. rewrite zero_vector. cbn [bind].
  destruct (back_loop k M' WM k (map (fun _ => Frac.mk 0 1) (seq 0 k)))
    as (cs & Ec & Wc & Bc).
  { lia. }
  { split; [rewrite length_map, length_seq; reflexivity|].
    apply Forall_forall. intros e He. apply in_map_iff in He.
    destruct He as (? & <- & _). exact wf_zero. }
  { intros r H1 H2. lia. }
  exists cs. split; [exact Ec|]. split; [exact Wc|].
  set (v := fun c => if Nat.ltb c k then denX cs c else (- (1))%Qc).
  assert (R0 : forall r, (r < k)%nat -> rowsum k (vanderD k xs ys) v r = 0%Qc).
  { intros r Hr. rewrite <- (rowsum_agree k _ _ v r A0 Hr).
    apply SM; [|exact Hr]. apply back_solution; assumption. }
  set (P := map v (rev (seq 0 k))).
  assert (HP : forall r, (r < k)%nat ->
               inj (nth r ys 0) = peval P (inj (nth r xs 0))).
  { intros r Hr. pose proof (R0 r Hr) as E. rewrite vander_rowsum in E.
    fold P in E.
    assert (Vk : v k = (- (1))%Qc)
      by (unfold v; rewrite Nat.ltb_irrefl; reflexivity).
    rewrite Vk in E. symmetry. apply Qc_sub_zero. rewrite <- E. ring. }
  rewrite (lagZ_lagQ (peval P) xs ys) by (rewrite Lx; exact HP).
  rewrite lagQ_exact.
  - unfold P. destruct k as [|m] eqn:Ek; [lia|].
    rewrite seq_S, rev_app_distr. cbn [Nat.add rev app map].
    rewrite peval_cons. unfold v at 1.
    replace (Nat.ltb m (S m)) with true by (symmetry; apply Nat.ltb_lt; lia).
    rewrite Nat.sub_succ, Nat.sub_0_r. ring.
  - apply NoDup_map_inj. exact ND.
  - unfold P. rewrite !length_map, length_rev, length_seq. fold xs. lia.
Qed.

Lemma subsetAt_length (points : list Point.t) (idxs : list nat)
  (subset : list Point.t) :
  subsetAt points idxs = Ok subset -> length subset = length idxs.
Proof.
  intros H. apply mapM_Forall2 in H. symmetry.
  exact (Forall2_length H).
Qed.

Lemma constantViaLagrange_value (subset : list Point.t) (c : Z) :
  NoDup (map Point.x subset) -> constantViaLagrange subset = Ok c ->
  lagZ (map Point.x subset) (map Point.y subset) = inj c.
Proof.
  intros ND H.
  destruct (constantViaLagrange_nodup subset ND) as (acc & W & V & E).
  rewrite E in H. unfold Frac.isInt in H.
  destruct (Z.eqb_spec (Frac.d acc) 1) as [D1|]; [|discriminate].
  injection H as <-. rewrite <- V. unfold Fval. rewrite D1, inj_1.
  field. exact Q_apart_0_1.
Qed.

(** C2.  A subset of [k >= 1] points with pairwise distinct abscissas on
    which the Lagrange computation returns an integer [c]: the elimination
    on its Vandermonde system returns [k] coefficients, the last of which is
    the fraction [c/1], printed like [c]. *)
Theorem C2_lagrange_gauss_agree (points : list Point.t) (k : nat)
  (idxs : list nat) (subset : list Point.t) (c : Z)
  (Hk : (1 <= k)%nat)
  (Hlen : length idxs = k)
  (Hsub : subsetAt points idxs = Ok subset)
  (Hdist : NoDup (map Point.x subset))
  (Hint : constantViaLagrange subset = Ok c) :
  lagrangeOn points idxs = Ok c /\
  exists cs,
    solveForIndices points k idxs = Ok cs /\
    length cs = k /\
    nth_error cs (k - 1) = Some (Frac.mk c 1) /\
    lastKey cs = Ok (toStringBI c) /\
    subst_attempt points k idxs = Ok (cs, toStringBI c).
Proof.
  split; [unfold lagrangeOn; rewrite Hsub; exact Hint|].
  pose proof (subsetAt_length points idxs subset Hsub) as Ls.
  rewrite Hlen in Ls.
  rewrite (solveForIndices_subset points k idxs subset Hk Hsub).
  destruct (gauss_vandermonde subset ltac:(lia) Hdist) as (cs & Ec & Wc & Vc).
  rewrite Ls in Ec, Wc, Vc.
  exists cs. split; [exact Ec|].
  destruct Wc as [Lc Fc]. split; [exact Lc|].
  rewrite (constantViaLagrange_value subset c Hdist Hint) in Vc.
  unfold denX in Vc.
  destruct (nth_error cs (k - 1)) as [e|] eqn:Ee.
  2:{ apply nth_error_None in Ee. lia. }
  assert (He : e = Frac.mk c 1).
  { apply Fval_int; [|exact Vc].
    rewrite Forall_forall in Fc. apply Fc. eapply nth_error_In. exact Ee. }
  subst e. split; [reflexivity|].
  assert (Lk : lastKey cs = Ok (toStringBI c)).
  { unfold lastKey. rewrite Lc, Ee. reflexivity. }
  split; [exact Lk|].
  unfold subst_attempt.
  rewrite (solveForIndices_subset points k idxs subset Hk Hsub), Ec.
  cbn [bind]. rewrite Lk. reflexivity.
Qed.

Lemma C2_lagrange_gauss_agree_witness :
  let pts := [Point.mk 1 10; Point.mk 2 21; Point.mk 3 38; Point.mk 4 0] in
  lagrangeOn pts [0; 1; 2]%nat = Ok 5 /\
  exists cs,
    solveForIndices pts 3 [0; 1; 2]%nat = Ok cs /\
    length cs = 3%nat /\
    nth_error cs 2 = Some (Frac.mk 5 1) /\
    lastKey cs = Ok "5"%string /\
    subst_attempt pts 3 [0; 1; 2]%nat = Ok (cs, "5"%string).
Proof.
  apply (C2_lagrange_gauss_agree
           [Point.mk 1 10; Point.mk 2 21; Point.mk 3 38; Point.mk 4 0] 3
           [0; 1; 2]%nat [Point.mk 1 10; Point.mk 2 21; Point.mk 3 38] 5).
  - lia.
  - reflexivity.
  - reflexivity.
  - repeat constructor; simpl; intuition lia.
  - reflexivity.
Defined.

(* ================================================================== *)
(** * Part IV.  Further properties of the programs *)
(* ================================================================== *)

(** ** Base decoding *)

(** X1.  The digit table, for a character of code below 256 (the
    characters of a share here): [0-9] count 0 to 9, the letters [a-z] and
    [A-Z] count 10 to 35, and on every other character of that range the
    decoder throws its invalid-digit error.  (Beyond that range the lower
    case of the runtime sends two more characters onto letters, the Kelvin
    sign onto [k] and the dotted capital I onto [i].) *)
Theorem charToVal_table (ch : ascii) (v : Z) :
  let m := Z.of_nat (nat_of_ascii ch) in
  0 <= m < 256 /\
  (charToVal ch = Decoded v <->
   (48 <= m <= 57 /\ v = m - 48) \/
   (97 <= m <= 122 /\ v = m - 87) \/
   (65 <= m <= 90 /\ v = m - 55)) /\
  (charToVal ch = DecodeErr InvalidDigit <->
   ~ (48 <= m <= 57 \/ 97 <= m <= 122 \/ 65 <= m <= 90)) /\
  (forall e, charToVal ch = DecodeErr e -> e = InvalidDigit).
Proof.
  destruct ch as [b0 b1 b2 b3 b4 b5 b6 b7].
  destruct b0, b1, b2, b3, b4, b5, b6, b7; cbv zeta;
    (split; [vm_compute; split; [discriminate | reflexivity]|]);
    (split;
     [ split;
       [ intros H; vm_compute in H; try discriminate H; injection H as <-;
         vm_compute; intuition (try discriminate; try lia; auto)
       | intros H; vm_compute in H; vm_compute;
         intuition (try discriminate; try lia; try congruence) ]
     | split;
       [ split;
         [ intros H; vm_compute in H; try discriminate H; vm_compute;
           intuition (try discriminate; try lia; auto)
         | intros H; vm_compute in H; vm_compute; try reflexivity;
           exfalso; apply H;
           intuition (try discriminate; try lia; try congruence) ]
       | intros e H; vm_compute in H; try discriminate H;
         injection H as <-; reflexivity ] ]).
Qed.

Lemma charToVal_table_witness :
  charToVal "f" = Decoded 15 /\ charToVal "F" = Decoded 15 /\
  charToVal "7" = Decoded 7 /\ charToVal "-" = DecodeErr InvalidDigit.
Proof.
  split; [|split; [|split]].
  - apply (proj1 (proj2 (charToVal_table "f" 15))). cbn. lia.
  - apply (proj1 (proj2 (charToVal_table "F" 15))). cbn. lia.
  - apply (proj1 (proj2 (charToVal_table "7" 7))). cbn. lia.
  - apply (proj1 (proj2 (proj2 (charToVal_table "-" 0)))). cbn. lia.
Defined.

Lemma charToVal_range (ch : ascii) (v : Z) :
  charToVal ch = Decoded v -> 0 <= v < 36.
Proof.
  intros H.
  destruct ch as [b0 b1 b2 b3 b4 b5 b6 b7].
  destruct b0, b1, b2, b3, b4, b5, b6, b7;
    vm_compute in H; try discriminate H; injection H as <-; lia.
Qed.

Lemma parseDigits_acc (b : Z) (s : string) :
  forall acc,
    parseDigits b s acc =
    match parseDigits b s 0 with
    | Decoded v0 => Decoded (acc * b ^ Z.of_nat (String.length s) + v0)
    | DecodeErr e => DecodeErr e
    end.
Proof.
  induction s as [|ch s IH]; intros acc.
  - cbn. f_equal. ring.
  - cbn [parseDigits String.length].
    destruct (charToVal ch) as [v|e]; [|reflexivity].
    destruct (b <=? v); [reflexivity|].
    rewrite (IH (acc * b + v)), (IH (0 * b + v)).
    destruct (parseDigits b s 0) as [v0|e]; [|reflexivity].
    f_equal. rewrite Nat2Z.inj_succ, Z.pow_succ_r by lia. ring.
Qed.

Lemma parseDigits_app (b : Z) (s1 s2 : string) :
  forall acc,
    parseDigits b (s1 ++ s2) acc =
    match parseDigits b s1 acc with
    | Decoded v1 => parseDigits b s2 v1
    | DecodeErr e => DecodeErr e
    end.
Proof.
  induction s1 as [|ch s1 IH]; intros acc; [reflexivity|].
  cbn [parseDigits String.append].
  destruct (charToVal ch) as [v|e]; [|reflexivity].
  destruct (b <=? v); [reflexivity|]. apply IH.
Qed.

Lemma parseDigits_positional (b : Z) (s : string) :
  forall ds,
    Forall2 (fun ch d => charToVal ch = Decoded d /\ d < b)
            (list_ascii_of_string s) ds ->
    parseDigits b s 0 = Decoded (positional b ds) /\
    length ds = String.length s.
Proof.
  induction s as [|ch s IH]; intros ds F; inversion F; subst.
  - split; reflexivity.
  - destruct H1 as [E L]. destruct (IH _ H3) as [IH1 IH2].
    cbn [parseDigits positional length String.length]. rewrite E.
    destruct (Z.leb_spec b y); [lia|].
    rewrite parseDigits_acc, IH1, IH2. split; [|reflexivity]. f_equal; ring.
Qed.

Lemma parseDigits_ok_digits (b : Z) (s : string) :
  forall acc v,
    parseDigits b s acc = Decoded v ->
    exists ds, Forall2 (fun ch d => charToVal ch = Decoded d /\ d < b)
                       (list_ascii_of_string s) ds.
Proof.
  induction s as [|ch s IH]; intros acc v H.
  - exists []. constructor.
  - cbn [parseDigits] in H.
    destruct (charToVal ch) as [d|e] eqn:E; [|discriminate].
    destruct (Z.leb_spec b d); [discriminate|].
    destruct (IH _ _ H) as (ds & F). exists (d :: ds). cbn. constructor; auto.
Qed.

Lemma positional_bounds (b : Z) (ds : list Z) :
  0 < b -> Forall (fun d => 0 <= d < b) ds ->
  0 <= positional b ds < b ^ Z.of_nat (length ds).
Proof.
  intros Hb. induction 1 as [|d ds Hd _ IH]; cbn [positional length].
  - cbn. lia.
  - rewrite Nat2Z.inj_succ, Z.pow_succ_r by lia.
    assert (0 < b ^ Z.of_nat (length ds)) by (apply Z.pow_pos_nonneg; lia).
    nia.
Qed.

Lemma base_in_range (b : Z) :
  2 <= b <= 36 -> ((2 <=? b) && (b <=? 36))%bool = true.
Proof.
  intros Hb. apply andb_true_intro. split; apply Z.leb_le; lia.
Qed.

(** X2.  In a base from 2 to 36 the decoder accepts exactly the strings
    whose characters are all digits below the base, and reads them as a
    numeral, most significant digit first; the value of [m] characters is
    below [base ^ m]. *)
Theorem parseBaseToBigInt_numeral (str : string) (b : Z)
  (Hb : 2 <= b <= 36) :
  (forall ds,
      Forall2 (fun ch d => charToVal ch = Decoded d /\ d < b)
              (list_ascii_of_string str) ds ->
      parseBaseToBigInt str (Some b) = Decoded (positional b ds)) /\
  (forall v,
      parseBaseToBigInt str (Some b) = Decoded v ->
      0 <= v < b ^ Z.of_nat (String.length str) /\
      exists ds,
        Forall2 (fun ch d => charToVal ch = Decoded d /\ d < b)
                (list_ascii_of_string str) ds /\
        v = positional b ds).
Proof.
  unfold parseBaseToBigInt. rewrite (base_in_range b Hb). split.
  - intros ds F. apply parseDigits_positional. exact F.
  - intros v H. destruct (parseDigits_ok_digits _ _ _ _ H) as (ds & F).
    destruct (parseDigits_positional _ _ _ F) as [E L].
    rewrite E in H. injection H as <-.
    split; [|exists ds; split; [exact F | reflexivity]].
    rewrite <- L. apply positional_bounds; [lia|].
    clear - F. induction F as [|ch d l ds [E Hd] _ IH]; constructor; [|exact IH].
    apply charToVal_range in E. lia.
Qed.

Lemma parseBaseToBigInt_numeral_witness :
  parseBaseToBigInt "fF" (Some 16) = Decoded (positional 16 [15; 15]) /\
  positional 16 [15; 15] = 255.
Proof.
  split; [|reflexivity].
  apply (proj1 (parseBaseToBigInt_numeral "fF" 16 ltac:(lia))).
  repeat constructor.
Defined.

(** X3.  The value of a concatenation: the digits of the first string are
    shifted by the length of the second.  A string that the decoder rejects
    makes it reject every string that starts with it. *)
Theorem parseBaseToBigInt_app (s1 s2 : string) (b v1 v2 : Z) (e : decode_error)
  (Hb : 2 <= b <= 36) :
  (parseBaseToBigInt s1 (Some b) = Decoded v1 ->
   parseBaseToBigInt s2 (Some b) = Decoded v2 ->
   parseBaseToBigInt (s1 ++ s2) (Some b)
   = Decoded (v1 * b ^ Z.of_nat (String.length s2) + v2)) /\
  (parseBaseToBigInt s1 (Some b) = DecodeErr e ->
   parseBaseToBigInt (s1 ++ s2) (Some b) = DecodeErr e).
Proof.
  unfold parseBaseToBigInt. rewrite (base_in_range b Hb). split.
  - intros E1 E2. rewrite parseDigits_app, E1, parseDigits_acc, E2. reflexivity.
  - intros E1. rewrite parseDigits_app, E1. reflexivity.
Qed.

Lemma parseBaseToBigInt_app_witness :
  parseBaseToBigInt ("1z" ++ "00") (Some 36)
  = Decoded (71 * 36 ^ Z.of_nat (String.length "00") + 0) /\
  parseBaseToBigInt ("12" ++ "0") (Some 2) = DecodeErr DigitNotValid.
Proof.
  split.
  - apply (proj1 (parseBaseToBigInt_app "1z" "00" 36 71 0 InvalidDigit
                    ltac:(lia))); reflexivity.
  - apply (proj2 (parseBaseToBigInt_app "12" "0" 2 0 0 DigitNotValid
                    ltac:(lia))); reflexivity.
Defined.

Lemma parseDigits_uint_acc (u : uint) :
  forall acc : positive,
    parseDigits 10 (NilEmpty.string_of_uint u) (Zpos acc) =
    Decoded (Zpos (Pos.of_uint_acc u acc)).
Proof.
  induction u; intros acc; cbn [NilEmpty.string_of_uint Pos.of_uint_acc];
    [reflexivity | ..];
    cbn [parseDigits];
    match goal with
    | |- context [charToVal ?c] =>
        let v := eval vm_compute in (charToVal c) in
        change (charToVal c) with v; cbv iota
    end;
    match goal with
    | |- context [10 <=? ?d] =>
        let v := eval vm_compute in (10 <=? d) in
        change (10 <=? d) with v; cbv iota
    end;
    match goal with
    | |- parseDigits 10 _ ?a = Decoded (Zpos (Pos.of_uint_acc _ ?p)) =>
        replace a with (Zpos p) by lia
    end; apply IHu.
Qed.

Lemma parseDigits_uint (u : uint) :
  parseDigits 10 (NilEmpty.string_of_uint u) 0 =
  Decoded (Z.of_N (Pos.of_uint u)).
Proof.
  induction u; cbn [NilEmpty.string_of_uint Pos.of_uint];
    [reflexivity | ..];
    cbn [parseDigits];
    match goal with
    | |- context [charToVal ?c] =>
        let v := eval vm_compute in (charToVal c) in
        change (charToVal c) with v; cbv iota
    end;
    match goal with
    | |- context [10 <=? ?d] =>
        let v := eval vm_compute in (10 <=? d) in
        change (10 <=? d) with v; cbv iota
    end;
    [exact IHu | ..]; cbn [Z.of_N];
    match goal with
    | |- parseDigits 10 _ ?a = Decoded (Zpos (Pos.of_uint_acc _ ?p)) =>
        change a with (Zpos p)
    end; apply parseDigits_uint_acc.
Qed.

Lemma toStringBI_nonneg (n : Z) :
  0 <= n ->
  exists u, toStringBI n = NilEmpty.string_of_uint u /\ Z.of_uint u = n /\
            u <> Nil.
Proof.
  intros Hn. unfold toStringBI. destruct n as [|p|p]; [| |lia].
  - exists (D0 Nil). repeat split; discriminate.
  - exists (Pos.to_uint p). cbn [Z.to_int NilZero.string_of_int].
    split; [|split].
    + unfold NilZero.string_of_uint.
      destruct (Pos.to_uint p) eqn:E; try reflexivity.
      exfalso. exact (Unsigned.to_uint_nonnil p E).
    + unfold Z.of_uint. rewrite Unsigned.of_to. reflexivity.
    + apply Unsigned.to_uint_nonnil.
Qed.

Lemma toStringBI_neg (p : positive) :
  toStringBI (Zneg p) = String "-" (toStringBI (Zpos p)).
Proof.
  unfold toStringBI. cbn [Z.to_int NilZero.string_of_int]. reflexivity.
Qed.

(** X4.  Decimal round trip: the decoder in base 10 reads back what
    [toString] prints for a non-negative integer; the sign of a negative one
    is not a digit. *)
Theorem parseBaseToBigInt_decimal (n : Z) :
  (0 <= n -> parseBaseToBigInt (toStringBI n) (Some 10) = Decoded n) /\
  (n < 0 ->
   parseBaseToBigInt (toStringBI n) (Some 10) = DecodeErr InvalidDigit).
Proof.
  split.
  - intros Hn. destruct (toStringBI_nonneg n Hn) as (u & E & V & _).
    rewrite E. unfold parseBaseToBigInt.
    change ((2 <=? 10) && (10 <=? 36))%bool with true. cbv iota.
    rewrite parseDigits_uint. f_equal. exact V.
  - intros Hn. destruct n as [|p|p]; try lia.
    rewrite toStringBI_neg. reflexivity.
Qed.

Lemma parseBaseToBigInt_decimal_witness :
  parseBaseToBigInt (toStringBI 79836264049851) (Some 10)
  = Decoded 79836264049851 /\
  parseBaseToBigInt (toStringBI (-3)) (Some 10) = DecodeErr InvalidDigit.
Proof.
  split.
  - apply (proj1 (parseBaseToBigInt_decimal 79836264049851)). lia.
  - apply (proj2 (parseBaseToBigInt_decimal (-3))). lia.
Defined.

(** X5.  The two decoders agree on the bases from 2 to 36.  Outside that
    range the decoder of [Problem.js] rejects every string, the empty one
    included; the solver's decoder has no range test: it reads the empty
    string as 0 in every base, rejects every other string in a base below 1,
    and in a base above 36 accepts whatever is made of digits and letters. *)
Theorem parseBaseToBigInt_bases (str : string) (b : Z) :
  (2 <= b <= 36 ->
   Subst.parseBaseToBigInt str (Some b) = parseBaseToBigInt str (Some b)) /\
  (~ 2 <= b <= 36 ->
   parseBaseToBigInt str (Some b) = DecodeErr UnsupportedBase) /\
  Subst.parseBaseToBigInt EmptyString (Some b) = Decoded 0 /\
  (b <= 0 -> str <> EmptyString ->
   exists e, Subst.parseBaseToBigInt str (Some b) = DecodeErr e) /\
  (36 <= b ->
   Forall (fun ch => exists d, charToVal ch = Decoded d)
          (list_ascii_of_string str) ->
   exists v, Subst.parseBaseToBigInt str (Some b) = Decoded v).
Proof.
  split; [|split; [|split; [|split]]].
  - intros Hb. unfold parseBaseToBigInt. rewrite (base_in_range b Hb).
    reflexivity.
  - intros Hb. unfold parseBaseToBigInt.
    destruct (Z.leb_spec 2 b); [|reflexivity].
    destruct (Z.leb_spec b 36); [lia | reflexivity].
  - reflexivity.
  - intros Hb Hs. destruct str as [|ch s]; [congruence|].
    unfold Subst.parseBaseToBigInt. cbn [parseDigits].
    destruct (charToVal ch) as [v|e] eqn:E; [|eauto].
    apply charToVal_range in E.
    destruct (Z.leb_spec b v); [eauto | lia].
  - intros Hb. unfold Subst.parseBaseToBigInt. generalize 0.
    induction str as [|ch s IH]; intros acc F; [cbn; eauto|].
    cbn [list_ascii_of_string] in F. inversion F as [|? ? [d E] F']; subst.
    cbn [parseDigits]. rewrite E.
    pose proof (charToVal_range _ _ E).
    destruct (Z.leb_spec b d); [lia|]. apply IH. exact F'.
Qed.

Lemma parseBaseToBigInt_bases_witness :
  Subst.parseBaseToBigInt "zz" (Some 36) = parseBaseToBigInt "zz" (Some 36) /\
  parseBaseToBigInt "0" (Some 1) = DecodeErr UnsupportedBase /\
  (exists e, Subst.parseBaseToBigInt "0" (Some 0) = DecodeErr e) /\
  (exists v, Subst.parseBaseToBigInt "zz" (Some 100) = Decoded v).
Proof.
  pose proof (parseBaseToBigInt_bases "zz" 36) as (A & _).
  pose proof (parseBaseToBigInt_bases "0" 1) as (_ & B & _).
  pose proof (parseBaseToBigInt_bases "0" 0) as (_ & _ & _ & C & _).
  pose proof (parseBaseToBigInt_bases "zz" 100) as (_ & _ & _ & _ & D).
  split; [apply A; lia|]. split; [apply B; lia|].
  split; [apply C; [lia | discriminate]|].
  apply D; [lia|]. repeat constructor; eexists; reflexivity.
Defined.

(** ** Exact fractions *)

(** X6.  [gcdBI] is the greatest common divisor of its arguments, whatever
    their signs: non-negative, a divisor of both, a multiple of every common
    divisor; [gcdBI a 0] is [|a|], so [gcdBI 0 0] is [0]. *)
Theorem gcdBI_greatest (a b : Z) :
  0 <= gcdBI a b /\
  (gcdBI a b | a) /\ (gcdBI a b | b) /\
  (forall c, (c | a) -> (c | b) -> (c | gcdBI a b)) /\
  gcdBI a b = gcdBI b a /\
  gcdBI a 0 = Z.abs a.
Proof.
  rewrite !gcdBI_spec. repeat split.
  - apply Z.gcd_nonneg.
  - apply Z.gcd_divide_l.
  - apply Z.gcd_divide_r.
  - intros c. apply Z.gcd_greatest.
  - apply Z.gcd_comm.
  - apply Z.gcd_0_r.
Qed.

Lemma gcdBI_greatest_witness :
  (6 | gcdBI (-12) 18) /\ (gcdBI (-12) 18 | 18).
Proof.
  pose proof (gcdBI_greatest (-12) 18) as (_ & _ & D & G & _).
  split; [|exact D].
  apply G; [exists (-2) | exists 3]; reflexivity.
Defined.

(** X7.  The four operations are exact: on fractions in lowest terms they
    return the fraction, again in lowest terms, whose value is the sum, the
    difference, the product or the quotient of the values; the quotient
    exists exactly when the divisor is not zero.  An integer becomes the
    fraction of that value. *)
Theorem Frac_arith_exact (a b : Frac.t) (z : Z)
  (Ha : Frac.wf a) (Hb : Frac.wf b) :
  (exists r, Frac.add a b = Ok r /\ Frac.wf r /\
             Fval r = (Fval a + Fval b)%Qc) /\
  (exists r, Frac.sub a b = Ok r /\ Frac.wf r /\
             Fval r = (Fval a - Fval b)%Qc) /\
  (exists r, Frac.mul a b = Ok r /\ Frac.wf r /\
             Fval r = (Fval a * Fval b)%Qc) /\
  (Fval b <> 0%Qc ->
   exists r, Frac.div a b = Ok r /\ Frac.wf r /\
             Fval r = (Fval a / Fval b)%Qc) /\
  (Fval b = 0%Qc -> Frac.div a b = Err DivisionByZero) /\
  Frac.fromBI z = Ok (Frac.mk z 1) /\ Fval (Frac.mk z 1) = inj z.
Proof.
  split; [apply Fval_add; assumption|].
  split; [apply Fval_sub; assumption|].
  split; [apply Fval_mul; assumption|].
  split; [|split; [|split]].
  - intros Hn. apply Fval_div; try assumption.
    intros E. apply Hn. apply Fval_zero_iff; assumption.
  - intros E. apply Frac_div_zero. apply Fval_zero_iff; assumption.
  - apply fromBI_ok.
  - apply Fval_mk_int.
Qed.

Lemma Frac_arith_exact_witness :
  exists r, Frac.div (Frac.mk 1 2) (Frac.mk (-2) 3) = Ok r /\ Frac.wf r /\
            Fval r = (Fval (Frac.mk 1 2) / Fval (Frac.mk (-2) 3))%Qc.
Proof.
  assert (W1 : Frac.wf (Frac.mk 1 2)) by (split; [cbn; lia | reflexivity]).
  assert (W2 : Frac.wf (Frac.mk (-2) 3)) by (split; [cbn; lia | reflexivity]).
  destruct (Frac_arith_exact (Frac.mk 1 2) (Frac.mk (-2) 3) 0 W1 W2)
    as (_ & _ & _ & D & _).
  apply D. intros E. apply (Fval_zero_iff _ W2) in E. discriminate E.
Defined.

Lemma Frac_new_wf_id (a : Frac.t) :
  Frac.wf a -> Frac.new (Frac.n a) (Frac.d a) = Ok a.
Proof.
  intros W. pose proof W as [Hd _].
  destruct (Frac_new_spec (Frac.n a) (Frac.d a) ltac:(lia)) as (f & E & Wf & _).
  rewrite E. f_equal. apply Fval_canon; [exact Wf | exact W |].
  destruct (Fval_new (Frac.n a) (Frac.d a) f ltac:(lia) E) as [_ V]. exact V.
Qed.

(** X8.  Lowest terms are a normal form: two constructions give the same
    object exactly when the two quotients are the same rational number, and
    the constructor changes nothing in a fraction that is already in lowest
    terms. *)
Theorem Frac_new_canonical (n1 d1 n2 d2 : Z) (a : Frac.t)
  (H1 : d1 <> 0) (H2 : d2 <> 0) :
  (Frac.new n1 d1 = Frac.new n2 d2 <-> n1 * d2 = n2 * d1) /\
  (Frac.wf a -> Frac.new (Frac.n a) (Frac.d a) = Ok a).
Proof.
  split; [|apply Frac_new_wf_id].
  destruct (Frac_new_spec n1 d1 H1) as (f1 & E1 & W1 & _).
  destruct (Frac_new_spec n2 d2 H2) as (f2 & E2 & W2 & _).
  destruct (Fval_new _ _ _ H1 E1) as [_ V1].
  destruct (Fval_new _ _ _ H2 E2) as [_ V2].
  rewrite E1, E2. split.
  - intros E. injection E as ->. rewrite V1 in V2.
    apply inj_cross_inv in V2; [exact V2 | exact H1 | exact H2].
  - intros E. f_equal. apply Fval_canon; [exact W1 | exact W2 |].
    rewrite V1, V2. apply inj_cross; assumption.
Qed.

Lemma Frac_new_canonical_witness :
  Frac.new 6 (-4) = Frac.new (-3) 2 /\
  Frac.new (-3) 2 = Ok (Frac.mk (-3) 2).
Proof.
  assert (W : Frac.wf (Frac.mk (-3) 2)) by (split; [cbn; lia | reflexivity]).
  destruct (Frac_new_canonical 6 (-4) (-3) 2 (Frac.mk (-3) 2)
              ltac:(lia) ltac:(lia)) as [A B].
  split; [apply A; reflexivity | exact (B W)].
Defined.

(** X9.  A copy of a matrix of fractions in lowest terms is the matrix
    itself: rebuilding every entry from its numerator and denominator
    changes nothing and cannot fail. *)
Theorem deepCopyMatrix_id (A : matrix)
  (HA : Forall (Forall Frac.wf) A) :
  deepCopyMatrix A = Ok A.
Proof.
  unfold deepCopyMatrix. induction HA as [|row A Hrow _ IH]; [reflexivity|].
  cbn [mapM].
  assert (R : mapM (fun el => Frac.new (Frac.n el) (Frac.d el)) row = Ok row).
  { induction Hrow as [|e row He _ IHr]; [reflexivity|].
    cbn [mapM]. rewrite (Frac_new_wf_id e He). cbn [bind].
    rewrite IHr. reflexivity. }
  rewrite R. cbn [bind]. rewrite IH. reflexivity.
Qed.

Lemma deepCopyMatrix_id_witness :
  deepCopyMatrix [[Frac.mk 1 2; Frac.mk 0 1]; [Frac.mk (-3) 1; Frac.mk 5 7]]
  = Ok [[Frac.mk 1 2; Frac.mk 0 1]; [Frac.mk (-3) 1; Frac.mk 5 7]].
Proof.
  apply deepCopyMatrix_id.
  repeat (apply Forall_cons || apply Forall_nil);
    (split; [cbn; lia | reflexivity]).
Defined.

Lemma uint_chars_digits (u : uint) (c : ascii) :
  In c (list_ascii_of_string (NilEmpty.string_of_uint u)) -> isDigit c = true.
Proof.
  induction u; cbn [NilEmpty.string_of_uint list_ascii_of_string In];
    [intros [] | ..]; (intros [<-|H]; [reflexivity | exact (IHu H)]).
Qed.

Lemma toStringBI_pos_digits (z : Z) (c : ascii) :
  0 <= z -> In c (list_ascii_of_string (toStringBI z)) -> isDigit c = true.
Proof.
  intros Hz H. destruct (toStringBI_nonneg z Hz) as (u & E & _).
  rewrite E in H. exact (uint_chars_digits u c H).
Qed.

Lemma toStringBI_chars (z : Z) (c : ascii) :
  In c (list_ascii_of_string (toStringBI z)) ->
  isDigit c = true \/ c = "-"%char.
Proof.
  destruct z as [|p|p]; intros H.
  - left. apply (toStringBI_pos_digits 0); [lia | exact H].
  - left. apply (toStringBI_pos_digits (Zpos p)); [lia | exact H].
  - rewrite toStringBI_neg in H. cbn [list_ascii_of_string In] in H.
    destruct H as [<-|H]; [right; reflexivity|].
    left. apply (toStringBI_pos_digits (Zpos p)); [lia | exact H].
Qed.

Lemma toStringBI_no_char (z : Z) (c : ascii) :
  isDigit c = false -> c <> "-"%char ->
  ~ In c (list_ascii_of_string (toStringBI z)).
Proof.
  intros Hd Hm H. destruct (toStringBI_chars z c H); congruence.
Qed.

Lemma list_ascii_app (s1 s2 : string) :
  list_ascii_of_string (s1 ++ s2)
  = (list_ascii_of_string s1 ++ list_ascii_of_string s2)%list.
Proof.
  induction s1 as [|c s1 IH]; [reflexivity|]. cbn. rewrite IH. reflexivity.
Qed.

Lemma split_at_char (c : ascii) (s1 : string) :
  forall s1' s2 s2',
    ~ In c (list_ascii_of_string s1) -> ~ In c (list_ascii_of_string s1') ->
    (s1 ++ String c s2 = s1' ++ String c s2')%string ->
    s1 = s1' /\ s2 = s2'.
Proof.
  induction s1 as [|a s1 IH]; intros [|a' s1'] s2 s2' N1 N2 E; cbn in *.
  - injection E as E. auto.
  - injection E as <- E. exfalso. apply N2. left. reflexivity.
  - injection E as -> E. exfalso. apply N1. left. reflexivity.
  - injection E as -> E.
    destruct (IH s1' s2 s2') as [-> ->]; auto.
Qed.

(** X10.  The text of a fraction determines it: two fractions in lowest
    terms with the same [toString] are the same fraction, so the votes of
    the solver, which are counted by that text, are counted by value.
    [isInt] holds exactly for the fractions whose value is an integer. *)
Theorem Frac_toString_inj (a b : Frac.t)
  (Ha : Frac.wf a) (Hb : Frac.wf b) :
  (Frac.toString a = Frac.toString b -> a = b) /\
  (Frac.isInt a = true <-> exists z, Fval a = inj z).
Proof.
  assert (NS : forall z, ~ In "/"%char (list_ascii_of_string (toStringBI z))).
  { intros z. apply toStringBI_no_char; [reflexivity | discriminate]. }
  split.
  - unfold Frac.toString, Frac.isInt.
    destruct a as [na da], b as [nb db]. cbn [Frac.n Frac.d].
    destruct (Z.eqb_spec da 1) as [->|Da], (Z.eqb_spec db 1) as [->|Db];
      intros E.
    + apply toStringBI_inj in E. subst. reflexivity.
    + exfalso. apply (NS na). rewrite E, list_ascii_app. apply in_or_app.
      right. left. reflexivity.
    + exfalso. apply (NS nb). rewrite <- E, list_ascii_app. apply in_or_app.
      right. left. reflexivity.
    + apply split_at_char in E; [|apply NS|apply NS].
      destruct E as [E1 E2]. apply toStringBI_inj in E1, E2. subst.
      reflexivity.
  - unfold Frac.isInt. split.
    + intros E. apply Z.eqb_eq in E. exists (Frac.n a).
      destruct a as [na da]. cbn [Frac.n Frac.d] in *. subst da.
      apply Fval_mk_int.
    + intros [z E]. apply (Fval_int a z Ha) in E. subst a. reflexivity.
Qed.

Lemma Frac_toString_inj_witness :
  Frac.toString (Frac.mk 1 2) = "1/2"%string /\
  Frac.isInt (Frac.mk 4 1) = true.
Proof.
  assert (W1 : Frac.wf (Frac.mk 1 2)) by (split; [cbn; lia | reflexivity]).
  assert (W2 : Frac.wf (Frac.mk 4 1)) by (split; [cbn; lia | reflexivity]).
  split; [reflexivity|].
  apply (proj2 (Frac_toString_inj (Frac.mk 4 1) (Frac.mk 1 2) W2 W1)).
  exists 4. apply Fval_mk_int.
Defined.

(** ** The Vandermonde rows *)

(** X11.  [powBI] is the power for a non-negative exponent, and [1] for an
    exponent that is zero or negative. *)
Theorem powBI_pow (x e : Z) :
  (0 <= e -> powBI x e = x ^ e) /\ (e <= 0 -> powBI x e = 1).
Proof.
  split; intros He.
  - rewrite <- (Z2Nat.id e He). apply powBI_spec.
  - destruct e as [|p|p]; [reflexivity | lia | reflexivity].
Qed.

Lemma powBI_pow_witness : powBI (-3) 5 = (-3) ^ 5 /\ powBI 7 (-2) = 1.
Proof.
  split.
  - apply (proj1 (powBI_pow (-3) 5)). lia.
  - apply (proj2 (powBI_pow 7 (-2))). lia.
Defined.

(** X12.  The row built for [x] and the degree [m] has [m + 1] entries, the
    integer fractions [x^m, ..., x, 1] in that order; for a degree below 1
    it is the single entry [1]. *)
Theorem vandermondeRow_powers (x m : Z) :
  exists row,
    vandermondeRow x m = Ok row /\
    length row = S (Z.to_nat m) /\
    forall i, (i <= Z.to_nat m)%nat ->
              nth_error row i
              = Some (Frac.mk (x ^ Z.of_nat (Z.to_nat m - i)) 1).
Proof.
  pose proof (vandermondeRow_spec x (S (Z.to_nat m)) ltac:(lia)) as E.
  assert (Em : vandermondeRow x m
               = vandermondeRow x (Z.of_nat (S (Z.to_nat m)) - 1)).
  { unfold vandermondeRow.
    replace (Z.to_nat (Z.of_nat (S (Z.to_nat m)) - 1)) with (Z.to_nat m)
      by lia.
    reflexivity. }
  rewrite Em, E. eexists. split; [reflexivity|]. unfold vrowZ. split.
  - rewrite !length_map, length_rev, length_seq. reflexivity.
  - intros i Hi. rewrite nth_error_map, nth_error_map.
    set (n := Z.to_nat m) in *.
    assert (R : nth_error (rev (seq 0 (S n))) i = Some (n - i)%nat).
    { rewrite nth_error_rev, length_seq.
      replace (Nat.ltb i (S n)) with true
        by (symmetry; apply Nat.ltb_lt; lia).
      rewrite nth_error_seq.
      replace (Nat.ltb (S n - S i) (S n)) with true
        by (symmetry; apply Nat.ltb_lt; lia).
      f_equal; lia. }
    rewrite R. reflexivity.
Qed.

Lemma vandermondeRow_powers_witness :
  exists row,
    vandermondeRow 2 3 = Ok row /\
    nth_error row 1 = Some (Frac.mk (2 ^ Z.of_nat (Z.to_nat 3 - 1)) 1).
Proof.
  destruct (vandermondeRow_powers 2 3) as (row & E & _ & H).
  exists row. split; [exact E|]. apply (H 1%nat). cbn. lia.
Defined.

(** ** Termination *)

Lemma kc_next_last (n k' m : nat) :
  (n <= k')%nat -> (k' <= m)%nat ->
  kc_next n (S k') (seq 0 k' ++ [m]) = Some (seq 0 k' ++ [S m]).
Proof.
  intros Hn Hm. unfold kc_next. cbn [kc_scan].
  assert (Nth : nth k' (seq 0 k' ++ [m]) 0%nat = m).
  { rewrite app_nth2 by (rewrite length_seq; lia).
    rewrite length_seq, Nat.sub_diag. reflexivity. }
  rewrite Nth.
  destruct (Z.eqb_spec (Z.of_nat m)
              (Z.of_nat k' + Z.of_nat n - Z.of_nat (S k'))) as [E|_]; [lia|].
  f_equal.
  pose proof (kc_advance_split (S k') (seq 0 k') [] m) as A.
  rewrite length_seq in A. cbn [length] in A. rewrite A by lia.
  cbn [seq]. rewrite Nat.add_1_r. reflexivity.
Qed.

Lemma kc_run_last (n k' : nat) :
  (n <= k')%nat ->
  forall fuel m, (k' <= m)%nat ->
                 kc_run fuel n (S k') (seq 0 k' ++ [m]) = None.
Proof.
  intros Hn. induction fuel as [|f IH]; intros m Hm; [reflexivity|].
  cbn [kc_run]. rewrite (kc_next_last n k' m Hn Hm).
  rewrite (IH (S m)) by lia. reflexivity.
Qed.



(** ** The [--pick] option *)

Lemma prefix_app (p s : string) : String.prefix p (p ++ s) = true.
Proof.
  induction p as [|c p IH]; [destruct s; reflexivity|].
  cbn. destruct (ascii_dec c c); [exact IH | congruence].
Qed.

Lemma substring_all (s : string) : substring 0 (String.length s) s = s.
Proof.
  induction s as [|c s IH]; [reflexivity|]. cbn. rewrite IH. reflexivity.
Qed.

Lemma substring_app_drop (p s : string) :
  substring (String.length p)
            (String.length (p ++ s) - String.length p) (p ++ s) = s.
Proof.
  induction p as [|c p IH].
  - cbn [String.length String.append]. rewrite Nat.sub_0_r.
    apply substring_all.
  - cbn [String.length String.append substring]. exact IH.
Qed.

Lemma trimStart_id (l : list ascii) :
  (forall c, In c l -> isSpace c = false) -> trimStart l = l.
Proof.
  destruct l as [|c l]; [reflexivity|]. intros H. cbn [trimStart].
  rewrite (H c (or_introl eq_refl)). reflexivity.
Qed.

Lemma trim_id (s : string) :
  (forall c, In c (list_ascii_of_string s) -> isSpace c = false) ->
  trim s = s.
Proof.
  intros H. unfold trim. rewrite (trimStart_id _ H).
  rewrite trimStart_id.
  - rewrite rev_involutive. apply string_of_list_ascii_of_string.
  - intros c Hc. apply H. apply in_rev. exact Hc.
Qed.

Lemma splitComma_nocomma (s : string) :
  ~ In ","%char (list_ascii_of_string s) -> splitComma s = [s].
Proof.
  induction s as [|c s IH]; [reflexivity|]. intros H.
  cbn [splitComma]. cbn [list_ascii_of_string In] in H.
  destruct (Ascii.eqb_spec c ","%char) as [->|_]; [tauto|].
  rewrite IH by tauto. reflexivity.
Qed.

Lemma splitComma_cons (s t : string) :
  ~ In ","%char (list_ascii_of_string s) ->
  splitComma (s ++ String "," t) = s :: splitComma t.
Proof.
  induction s as [|c s IH]; intros H.
  - reflexivity.
  - cbn [String.append splitComma]. cbn [list_ascii_of_string In] in H.
    destruct (Ascii.eqb_spec c ","%char) as [->|_]; [tauto|].
    rewrite IH by tauto. reflexivity.
Qed.

Lemma splitComma_join (ss : list string) :
  ss <> [] ->
  Forall (fun s => ~ In ","%char (list_ascii_of_string s)) ss ->
  splitComma (joinComma ss) = ss.
Proof.
  induction ss as [|s ss IH]; [congruence|]. intros _ F.
  inversion F as [|? ? Hs F']; subst.
  destruct ss as [|s' ss].
  - cbn [joinComma]. apply splitComma_nocomma. exact Hs.
  - change (joinComma (s :: s' :: ss))
      with (s ++ String "," (joinComma (s' :: ss)))%string.
    rewrite splitComma_cons by exact Hs.
    rewrite IH; [reflexivity | discriminate | exact F'].
Qed.

Lemma joinComma_chars (ss : list string) (c : ascii) :
  In c (list_ascii_of_string (joinComma ss)) ->
  c = ","%char \/ exists s, In s ss /\ In c (list_ascii_of_string s).
Proof.
  induction ss as [|s ss IH]; [intros []|].
  destruct ss as [|s' ss].
  - cbn [joinComma]. intros H. right. exists s. split; [left; reflexivity|].
    exact H.
  - change (joinComma (s :: s' :: ss))
      with (s ++ String "," (joinComma (s' :: ss)))%string.
    rewrite list_ascii_app. cbn [list_ascii_of_string].
    intros H. apply in_app_or in H. destruct H as [H|[<-|H]].
    + right. exists s. split; [left; reflexivity | exact H].
    + left. reflexivity.
    + destruct (IH H) as [->|(t & Ht & Hc)]; [left; reflexivity|].
      right. exists t. split; [right; exact Ht | exact Hc].
Qed.

Lemma isDigit_not_space (c : ascii) : isDigit c = true -> isSpace c = false.
Proof.
  unfold isDigit, isSpace. intros H. apply andb_prop in H.
  destruct H as [H1 H2]. apply Nat.leb_le in H1, H2.
  apply orb_false_intro; [apply orb_false_intro|].
  - apply Nat.eqb_neq. lia.
  - apply Nat.eqb_neq. lia.
  - apply andb_false_intro2. apply Nat.leb_gt. lia.
Qed.

Lemma toStringBI_nonEmpty (z : Z) : nonEmpty (toStringBI z) = true.
Proof.
  destruct z as [|p|p].
  - reflexivity.
  - destruct (toStringBI_nonneg (Zpos p) ltac:(lia)) as (u & E & _ & N).
    rewrite E. destruct u; try reflexivity. congruence.
  - rewrite toStringBI_neg. reflexivity.
Qed.

Lemma digitsToZ_uint_acc (u : uint) :
  forall acc : positive,
    fold_left (fun acc c => acc * 10 + Z.of_nat (nat_of_ascii c - 48))
              (list_ascii_of_string (NilEmpty.string_of_uint u)) (Zpos acc)
    = Zpos (Pos.of_uint_acc u acc).
Proof.
  induction u; intros acc;
    cbn [NilEmpty.string_of_uint Pos.of_uint_acc list_ascii_of_string
         fold_left];
    [reflexivity | ..];
    match goal with
    | |- context [Z.of_nat ?t] =>
        let v := eval vm_compute in (Z.of_nat t) in
        change (Z.of_nat t) with v
    end;
    match goal with
    | |- fold_left _ _ ?a = Zpos (Pos.of_uint_acc _ ?p) =>
        replace a with (Zpos p) by lia
    end; apply IHu.
Qed.

Lemma digitsToZ_uint (u : uint) :
  digitsToZ (NilEmpty.string_of_uint u) = Z.of_N (Pos.of_uint u).
Proof.
  unfold digitsToZ.
  induction u;
    cbn [NilEmpty.string_of_uint Pos.of_uint list_ascii_of_string fold_left];
    [reflexivity | exact IHu | ..]; cbn [Z.of_N];
    match goal with
    | |- fold_left _ _ ?a = Zpos (Pos.of_uint_acc _ ?p) =>
        change a with (Zpos p)
    end; apply digitsToZ_uint_acc.
Qed.

Lemma allDigits_uint (u : uint) :
  u <> Nil -> allDigits (NilEmpty.string_of_uint u) = true.
Proof.
  intros N. unfold allDigits.
  assert (F : forallb isDigit
                (list_ascii_of_string (NilEmpty.string_of_uint u)) = true).
  { apply forallb_forall. intros c. apply uint_chars_digits. }
  destruct u; try congruence; exact F.
Qed.

Lemma uint_head_not_minus (u : uint) :
  u <> Nil ->
  exists c s, NilEmpty.string_of_uint u = String c s /\
              Ascii.eqb c "-"%char = false.
Proof.
  intros N. destruct u; try congruence; eexists; eexists;
    (split; [reflexivity | reflexivity]).
Qed.

(** The option reads back what [toString] prints. *)
Lemma pick_literal (z : Z) :
  isIntLiteral (toStringBI z) = true /\ parseBigInt (toStringBI z) = z.
Proof.
  destruct z as [|p|p].
  - split; reflexivity.
  - destruct (toStringBI_nonneg (Zpos p) ltac:(lia)) as (u & E & V & N).
    destruct (uint_head_not_minus u N) as (c & s & Es & Ec).
    rewrite E. unfold isIntLiteral, parseBigInt. rewrite Es, Ec, <- Es.
    split; [apply allDigits_uint; exact N|].
    rewrite digitsToZ_uint. exact V.
  - rewrite toStringBI_neg. unfold isIntLiteral, parseBigInt.
    change (Ascii.eqb "-" "-") with true. cbv iota.
    destruct (toStringBI_nonneg (Zpos p) ltac:(lia)) as (u & E & V & N).
    rewrite E. split; [apply allDigits_uint; exact N|].
    rewrite digitsToZ_uint. unfold Z.of_uint in V. rewrite V. reflexivity.
Qed.

Lemma toStringBI_plain (z : Z) (c : ascii) :
  In c (list_ascii_of_string (toStringBI z)) ->
  isSpace c = false /\ c <> ","%char.
Proof.
  intros H. destruct (toStringBI_chars z c H) as [D| ->].
  - split; [apply isDigit_not_space; exact D|].
    intros ->. discriminate D.
  - split; [reflexivity | discriminate].
Qed.

Lemma find_skip {A : Type} (f : A -> bool) (pre : list A) (a : A)
  (post : list A) :
  (forall b, In b pre -> f b = false) -> f a = true ->
  find f (pre ++ a :: post) = Some a.
Proof.
  induction pre as [|b pre IH]; intros Hpre Ha; cbn [app find].
  - rewrite Ha. reflexivity.
  - rewrite (Hpre b (or_introl eq_refl)). apply IH; [|exact Ha].
    intros b' Hb'. apply Hpre. right. exact Hb'.
Qed.

Lemma find_none_all {A : Type} (f : A -> bool) (l : list A) :
  (forall b, In b l -> f b = false) -> find f l = None.
Proof.
  induction l as [|b l IH]; intros H; [reflexivity|]. cbn [find].
  rewrite (H b (or_introl eq_refl)). apply IH.
  intros b' Hb'. apply H. right. exact Hb'.
Qed.

Lemma mapM_literals (zs : list Z) :
  mapM (fun s => if isIntLiteral s then Ok (parseBigInt s)
                 else Err PickNonInteger)
       (map toStringBI zs) = Ok zs.
Proof.
  induction zs as [|z zs IH]; [reflexivity|]. cbn [map mapM].
  destruct (pick_literal z) as [L P]. rewrite L, P. cbn [bind].
  rewrite IH. reflexivity.
Qed.

(** X14.  Round trip of the option: the argument [--pick=] followed by the
    decimal texts of a non-empty list of integers, joined by commas, is read
    back as that list without its later repetitions, wherever the argument
    stands after arguments that do not start with [--pick=]; without such an
    argument the result is [null]. *)
Theorem parsePickArg_roundtrip (zs : list Z) (pre post argv : list string) :
  ((forall a, In a pre -> String.prefix pickPrefix a = false) ->
   zs <> [] ->
   parsePickArg
     (pre ++ (pickPrefix ++ joinComma (map toStringBI zs))%string :: post)
   = Ok (Some (firstOcc zs))) /\
  ((forall a, In a argv -> String.prefix pickPrefix a = false) ->
   parsePickArg argv = Ok None).
Proof.
  split.
  - intros Hpre Hzs. unfold parsePickArg, pickKeys.
    rewrite (find_skip (fun a => String.prefix pickPrefix a) pre _ post Hpre
               (prefix_app _ _)).
    rewrite substring_app_drop.
    set (ss := map toStringBI zs).
    assert (Hss : ss <> []) by (unfold ss; destruct zs; [congruence | discriminate]).
    assert (Pl : forall s c, In s ss -> In c (list_ascii_of_string s) ->
                             isSpace c = false /\ c <> ","%char).
    { intros s c Hs Hc. unfold ss in Hs. apply in_map_iff in Hs.
      destruct Hs as (z & <- & _). exact (toStringBI_plain z c Hc). }
    assert (T : trim (joinComma ss) = joinComma ss).
    { apply trim_id. intros c Hc.
      destruct (joinComma_chars ss c Hc) as [->|(s & Hs & Hcs)];
        [reflexivity | exact (proj1 (Pl s c Hs Hcs))]. }
    rewrite T.
    assert (NE : nonEmpty (joinComma ss) = true).
    { unfold ss. destruct zs as [|z zs]; [congruence|].
      cbn [map]. pose proof (toStringBI_nonEmpty z) as Hz.
      destruct (map toStringBI zs).
      - exact Hz.
      - change (joinComma (toStringBI z :: s :: l))
          with (toStringBI z ++ String "," (joinComma (s :: l)))%string.
        destruct (toStringBI z); [discriminate Hz | reflexivity]. }
    rewrite NE. cbn [negb].
    rewrite splitComma_join; [|exact Hss|].
    2:{ apply Forall_forall. intros s Hs Hc. exact (proj2 (Pl s _ Hs Hc) eq_refl). }
    assert (P : filter nonEmpty (map trim ss) = ss).
    { assert (G : forall l, (forall s, In s l -> In s ss) ->
                            filter nonEmpty (map trim l) = l).
      { induction l as [|s l IH]; intros Hl; [reflexivity|].
        cbn [map filter].
        assert (Ts : trim s = s).
        { apply trim_id. intros c Hc.
          exact (proj1 (Pl s c (Hl s (or_introl eq_refl)) Hc)). }
        rewrite Ts.
        assert (Ns : nonEmpty s = true).
        { specialize (Hl s (or_introl eq_refl)). unfold ss in Hl.
          apply in_map_iff in Hl. destruct Hl as (z & <- & _).
          apply toStringBI_nonEmpty. }
        rewrite Ns, IH; [reflexivity|].
        intros s' Hs'. apply Hl. right. exact Hs'. }
      apply G. auto. }
    rewrite P. unfold ss at 2. rewrite mapM_literals.
    destruct ss eqn:Ess; [congruence|]. cbn [bind].
    rewrite dedupe_firstOcc. reflexivity.
  - intros H. unfold parsePickArg, pickKeys.
    rewrite (find_none_all (fun a => String.prefix pickPrefix a) argv H).
    reflexivity.
Qed.

Lemma parsePickArg_roundtrip_witness :
  parsePickArg
    ([EmptyString] ++
     (pickPrefix ++ joinComma (map toStringBI [3; -1; 3]))%string :: [])
  = Ok (Some (firstOcc [3; -1; 3])) /\
  parsePickArg ["node"%string; "sample.json"%string] = Ok None.
Proof.
  split.
  - apply (proj1 (parsePickArg_roundtrip [3; -1; 3] [EmptyString] [] [])).
    + intros a [<-|[]]. reflexivity.
    + discriminate.
  - apply (proj2 (parsePickArg_roundtrip [] [] []
                    ["node"%string; "sample.json"%string])).
    intros a [<-|[<-|[]]]; reflexivity.
Defined.

Lemma mapM_Err_In {A B : Type} (f : A -> result B) (l : list A) (e : error) :
  mapM f l = Err e -> exists a, In a l /\ f a = Err e.
Proof.
  induction l as [|a l IH]; cbn [mapM]; [discriminate|].
  destruct (f a) as [b|e'] eqn:E; cbn [bind].
  - destruct (mapM f l) as [bs|e'']; cbn [bind]; [discriminate|].
    intros H. injection H as ->. destruct (IH eq_refl) as (a' & Ha & Hf).
    exists a'. split; [right; exact Ha | exact Hf].
  - intros H. injection H as ->. exists a. split; [left; reflexivity | exact E].
Qed.

Lemma mapM_all_ok {A B : Type} (f : A -> result B) (l : list A) :
  (forall a, In a l -> exists b, f a = Ok b) -> exists out, mapM f l = Ok out.
Proof.
  induction l as [|a l IH]; intros H; [exists []; reflexivity|].
  destruct (H a (or_introl eq_refl)) as (b & Eb).
  destruct IH as (out & Eo).
  { intros a' Ha'. apply H. right. exact Ha'. }
  exists (b :: out). cbn [mapM]. rewrite Eb. cbn [bind]. rewrite Eo.
  reflexivity.
Qed.

Lemma mapM_as_map {A B : Type} (f : A -> result B) (dflt : B) (l : list A) :
  forall out, mapM f l = Ok out ->
              out = map (fun a => match f a with Ok b => b | Err _ => dflt end) l.
Proof.
  induction l as [|a l IH]; cbn [mapM map]; intros out H.
  - injection H as <-. reflexivity.
  - destruct (f a) as [b|e]; cbn [bind] in H; [|discriminate].
    destruct (mapM f l) as [bs|e]; cbn [bind] in H; [|discriminate].
    injection H as <-. f_equal. apply IH. reflexivity.
Qed.

Lemma map_of_keeps {V : Type} (entries : list (string * V)) :
  forall (m : jsmap V) (key : string) (v : V),
    map_get m key = Some v ->
    exists v', map_get (fold_left (fun m kv => map_set m (fst kv) (snd kv))
                                  entries m) key = Some v'.
Proof.
  induction entries as [|[k0 v0] entries IH]; intros m key v H.
  - exists v. exact H.
  - cbn [fold_left fst snd].
    destruct (String.eqb_spec k0 key) as [->|Hne].
    + apply (IH _ key v0). apply map_get_set_same.
    + apply (IH _ key v). rewrite map_get_set_other by exact Hne. exact H.
Qed.

Lemma map_of_has {V : Type} (entries : list (string * V)) :
  forall (m : jsmap V) (key : string),
    In key (map fst entries) ->
    exists v, map_get (fold_left (fun m kv => map_set m (fst kv) (snd kv))
                                 entries m) key = Some v.
Proof.
  induction entries as [|[k0 v0] entries IH]; intros m key H; [destruct H|].
  cbn [map fst In] in H. cbn [fold_left fst snd].
  destruct H as [->|H].
  - apply (map_of_keeps entries _ key v0). apply map_get_set_same.
  - apply IH. exact H.
Qed.

Lemma map_fst_combine_eq {A B : Type} (l : list A) :
  forall l' : list B, length l = length l' -> map fst (combine l l') = l.
Proof.
  induction l as [|a l IH]; intros [|b l'] H; try discriminate;
    [reflexivity|].
  cbn [combine map fst]. f_equal. apply IH. injection H as H. exact H.
Qed.

(** One key of the [--pick] list, looked up among the points. *)
Lemma pick_one (points : list Point.t) (xv : Z) :
  let f := fun xv =>
    match map_get (map_of (combine (map (fun p => toStringBI (Point.x p)) points)
                                   (seq 0 (length points))))
                  (toStringBI xv) with
    | None => Err PickMissingKey
    | Some idx => match nth_error points idx with
                  | Some p => Ok p
                  | None => Err TypeError
                  end
    end in
  (forall p, f xv = Ok p -> In p points /\ Point.x p = xv) /\
  (forall e, f xv = Err e ->
             e = PickMissingKey /\ forall p, In p points -> Point.x p <> xv) /\
  ((exists p, In p points /\ Point.x p = xv) -> exists q, f xv = Ok q).
Proof.
  cbv zeta.
  set (entries := combine (map (fun p => toStringBI (Point.x p)) points)
                          (seq 0 (length points))).
  assert (Hfst : map fst entries = map (fun p => toStringBI (Point.x p)) points).
  { unfold entries. rewrite map_fst_combine_eq; [reflexivity|].
    rewrite length_map, length_seq. reflexivity. }
  assert (Hget : forall idx, map_get (map_of entries) (toStringBI xv) = Some idx ->
                 exists a, nth_error points idx = Some a /\ Point.x a = xv).
  { intros idx Eg. unfold map_of in Eg. apply map_of_get_In in Eg.
    destruct Eg as [Eg|Eg]; [|discriminate].
    apply In_combine_index in Eg. destruct Eg as (a & Ha & Ek & _).
    rewrite Nat.sub_0_r in Ha. exists a. split; [exact Ha|].
    symmetry. apply toStringBI_inj. exact Ek. }
  split; [|split].
  - intros p H.
    destruct (map_get (map_of entries) (toStringBI xv)) as [idx|] eqn:Eg;
      [|discriminate].
    destruct (Hget idx eq_refl) as (a & Ha & Hx). rewrite Ha in H.
    injection H as <-. split; [exact (nth_error_In _ _ Ha) | exact Hx].
  - intros e H.
    destruct (map_get (map_of entries) (toStringBI xv)) as [idx|] eqn:Eg.
    + destruct (Hget idx eq_refl) as (a & Ha & _). rewrite Ha in H.
      discriminate.
    + injection H as <-. split; [reflexivity|]. intros p Hp Hx.
      destruct (map_of_has entries [] (toStringBI xv)) as (v & Ev).
      { rewrite Hfst. apply in_map_iff. exists p. split; [|exact Hp].
        rewrite Hx. reflexivity. }
      unfold map_of in Eg. congruence.
  - intros (p & Hp & Hx).
    destruct (map_of_has entries [] (toStringBI xv)) as (idx & Ev).
    { rewrite Hfst. apply in_map_iff. exists p. split; [|exact Hp].
      rewrite Hx. reflexivity. }
    fold (map_of entries) in Ev. rewrite Ev.
    destruct (Hget idx Ev) as (a & Ha & _). rewrite Ha. eauto.
Qed.

Lemma pickSubset_sound (points : list Point.t) (chosenXs : list Z)
  (subset : list Point.t) :
  pickSubset points chosenXs = Ok subset ->
  length subset = length chosenXs /\ incl subset points.
Proof.
  unfold pickSubset. intros H. apply mapM_Forall2 in H.
  induction H as [|xv p xs ps Hp _ [IH1 IH2]].
  - split; [reflexivity | intros p []].
  - split; [cbn [length]; rewrite IH1; reflexivity|].
    intros q [<-|Hq]; [|exact (IH2 q Hq)].
    exact (proj1 (proj1 (pick_one points xv) p Hp)).
Qed.

Lemma pickSubset_present (points : list Point.t) (chosenXs : list Z) :
  (forall x, In x chosenXs -> exists p, In p points /\ Point.x p = x) ->
  exists subset, pickSubset points chosenXs = Ok subset.
Proof.
  intros H. unfold pickSubset. apply mapM_all_ok. intros x Hx.
  exact (proj2 (proj2 (pick_one points x)) (H x Hx)).
Qed.

Lemma pickSubset_missing (points : list Point.t) (chosenXs : list Z) :
  (exists x, In x chosenXs /\ forall p, In p points -> Point.x p <> x) ->
  pickSubset points chosenXs = Err PickMissingKey.
Proof.
  intros (x & Hx & Hmiss).
  destruct (pickSubset points chosenXs) as [subset|e] eqn:E.
  - exfalso. unfold pickSubset in E. apply mapM_Forall2 in E.
    clear - E Hx Hmiss. induction E as [|xv p xs ps Hp _ IH]; [destruct Hx|].
    destruct Hx as [->|Hx]; [|exact (IH Hx)].
    destruct (proj1 (pick_one points x) p Hp) as [Hin Hxp].
    exact (Hmiss p Hin Hxp).
  - f_equal. unfold pickSubset in E. apply mapM_Err_In in E.
    destruct E as (a & _ & Ea).
    exact (proj1 (proj1 (proj2 (pick_one points a)) e Ea)).
Qed.

Lemma main_pick (k n : nat) (points : list Point.t) (argv : list string)
  (xs : list Z) :
  parsePickArg argv = Ok (Some xs) -> length xs = k ->
  (k <= length points)%nat ->
  main k n points argv =
  Some (subset <- pickSubset points xs ;;
        c <- constantViaLagrange subset ;; Ok (toStringBI c)).
Proof.
  intros Hp Hl Hk. unfold main.
  replace (Nat.ltb (length points) k) with false
    by (symmetry; apply Nat.ltb_ge; lia).
  rewrite Hp, Hl, Nat.eqb_refl. reflexivity.
Qed.

Lemma parsePickArg_NoDup (argv : list string) (xs : list Z) :
  parsePickArg argv = Ok (Some xs) -> NoDup xs.
Proof.
  unfold parsePickArg. destruct (pickKeys argv) as [[keys|]|e]; cbn [bind];
    try discriminate.
  intros H. injection H as <-. rewrite dedupe_firstOcc. apply firstOcc_NoDup.
Qed.

(** X15.  The [--pick] branch is exact: when the picked keys are [k] in
    number, each is the abscissa of a given point, and the points at the
    picked abscissas lie on an integer polynomial with at most [k]
    coefficients, the program prints the constant term of that polynomial,
    whatever the other points are. *)
Theorem main_pick_exact (k n : nat) (points : list Point.t)
  (argv : list string) (xs cs : list Z)
  (Hpick : parsePickArg argv = Ok (Some xs))
  (Hlen : length xs = k)
  (Hk : (k <= length points)%nat)
  (Hpresent : forall x, In x xs -> exists p, In p points /\ Point.x p = x)
  (Hdeg : (length cs <= k)%nat)
  (Hon : forall p, In p points -> In (Point.x p) xs ->
                   Point.y p = pevalZ cs (Point.x p)) :
  main k n points argv = Some (Ok (toStringBI (pevalZ cs 0))).
Proof.
  rewrite (main_pick k n points argv xs Hpick Hlen Hk).
  destruct (pickSubset_present points xs Hpresent) as (subset & Es).
  rewrite Es. cbn [bind].
  destruct (pickSubset_sound points xs subset Es) as [Ls Is].
  pose proof (pickSubset_xs points xs subset Es) as Xs.
  rewrite (constantViaLagrange_exact subset cs).
  - reflexivity.
  - rewrite Xs. exact (parsePickArg_NoDup argv xs Hpick).
  - lia.
  - intros p Hp. apply Hon; [exact (Is p Hp)|].
    rewrite <- Xs. apply in_map. exact Hp.
Qed.

Lemma main_pick_exact_witness :
  main 2 4 [Point.mk 1 7; Point.mk 2 100; Point.mk 3 11; Point.mk 4 0]
       ["--pick=3,1"%string]
  = Some (Ok (toStringBI (pevalZ [5; 2] 0))).
Proof.
  apply (main_pick_exact 2 4
           [Point.mk 1 7; Point.mk 2 100; Point.mk 3 11; Point.mk 4 0]
           ["--pick=3,1"%string] [3; 1] [5; 2]).
  - reflexivity.
  - reflexivity.
  - cbn. lia.
  - intros x [<-|[<-|[]]];
      [exists (Point.mk 3 11) | exists (Point.mk 1 7)];
      (split; [cbn; tauto | reflexivity]).
  - cbn. lia.
  - intros p [<-|[<-|[<-|[<-|[]]]]]; cbn; intros H; try reflexivity;
      exfalso; lia.
Defined.

Lemma mapM_ok_each {A B : Type} (f : A -> result B) (l : list A) :
  forall out, mapM f l = Ok out ->
              forall a, In a l -> exists b, f a = Ok b.
Proof.
  intros out H. apply mapM_Forall2 in H.
  induction H as [|a b l out' Hab _ IH]; intros a' []; subst; eauto.
Qed.

Lemma pickKeys_error (argv : list string) (e : error) :
  pickKeys argv = Err e -> e = PickNonInteger.
Proof.
  unfold pickKeys.
  destruct (find _ argv) as [pickArg|]; [|discriminate].
  destruct (negb _); [discriminate|].
  destruct (filter nonEmpty _) as [|s parts]; [discriminate|].
  destruct (mapM _ (s :: parts)) as [keys|e'] eqn:E; cbn [bind];
    [discriminate|].
  intros H. injection H as ->. apply mapM_Err_In in E.
  destruct E as (a & _ & Ea). destruct (isIntLiteral a); congruence.
Qed.

Lemma mapM_first_err {A B : Type} (f : A -> result B) (l : list A)
  (e : error) :
  (exists a, In a l /\ f a = Err e) ->
  (forall a e', In a l -> f a = Err e' -> e' = e) ->
  mapM f l = Err e.
Proof.
  induction l as [|a l IH]; intros (a0 & Hin & Ea) Hall; [destruct Hin|].
  cbn [mapM]. destruct (f a) as [b|e'] eqn:E; cbn [bind].
  - destruct Hin as [->|Hin]; [congruence|].
    rewrite IH; [reflexivity | eauto |].
    intros a' e'' Ha'. apply Hall. right. exact Ha'.
  - rewrite (Hall a e' (or_introl eq_refl) E). reflexivity.
Qed.

(** The parser in terms of the parts of the option. *)
Lemma pickKeys_parts (argv : list string) :
  pickKeys argv =
  match pickParts argv with
  | None | Some [] => Ok None
  | Some parts =>
      keys <- mapM (fun s => if isIntLiteral s then Ok (parseBigInt s)
                             else Err PickNonInteger) parts ;;
      Ok (Some keys)
  end.
Proof.
  unfold pickKeys, pickParts.
  destruct (find _ argv) as [pickArg|]; [|reflexivity].
  set (raw := trim _).
  destruct raw as [|c raw']; [reflexivity|]. cbn [nonEmpty negb].
  destruct (filter nonEmpty _) as [|s parts]; reflexivity.
Qed.

(** X16.  The errors of the [--pick] branch, in the order they are checked:
    too few points for the threshold; a part of the option that is not an
    integer literal, which is the only error of the option's parser and its
    only cause; a number of distinct keys other than [k]; a key that is the
    abscissa of no point.  (The option is a string of characters of code
    below 256; an error is given by its kind, the text of its message
    apart.) *)
Theorem main_pick_errors (k n : nat) (points : list Point.t)
  (argv : list string) (parts : list string) (xs : list Z) :
  ((length points < k)%nat ->
   main k n points argv = Some (Err NotEnoughPoints)) /\
  ((k <= length points)%nat -> pickParts argv = Some parts ->
   (exists s, In s parts /\ isIntLiteral s = false) ->
   parsePickArg argv = Err PickNonInteger /\
   main k n points argv = Some (Err PickNonInteger)) /\
  (forall e, parsePickArg argv = Err e ->
             e = PickNonInteger /\
             exists ps s, pickParts argv = Some ps /\ In s ps /\
                          isIntLiteral s = false) /\
  (pickParts argv = Some parts -> parts <> [] ->
   (forall s, In s parts -> isIntLiteral s = true) ->
   parsePickArg argv = Ok (Some (dedupe (map parseBigInt parts)))) /\
  ((k <= length points)%nat -> parsePickArg argv = Ok (Some xs) ->
   length xs <> k ->
   main k n points argv = Some (Err PickWrongSize)) /\
  ((k <= length points)%nat -> parsePickArg argv = Ok (Some xs) ->
   length xs = k ->
   (exists x, In x xs /\ forall p, In p points -> Point.x p <> x) ->
   main k n points argv = Some (Err PickMissingKey)).
Proof.
  set (f := fun s => if isIntLiteral s then Ok (parseBigInt s)
                     else Err PickNonInteger).
  assert (Ferr : forall a e', f a = Err e' ->
                              e' = PickNonInteger /\ isIntLiteral a = false).
  { intros a e' H. unfold f in H.
    destruct (isIntLiteral a); [discriminate|]. injection H as <-. auto. }
  split; [|split; [|split; [|split; [|split]]]].
  - intros Hk. unfold main.
    replace (Nat.ltb (length points) k) with true
      by (symmetry; apply Nat.ltb_lt; lia).
    reflexivity.
  - intros Hk Hparts (s & Hin & Hs).
    assert (Hp : parsePickArg argv = Err PickNonInteger).
    { unfold parsePickArg. rewrite pickKeys_parts, Hparts.
      destruct parts as [|s0 parts0]; [destruct Hin|]. fold f.
      rewrite (mapM_first_err f (s0 :: parts0) PickNonInteger).
      - reflexivity.
      - exists s. split; [exact Hin|]. unfold f. rewrite Hs. reflexivity.
      - intros a e' _ H. exact (proj1 (Ferr a e' H)). }
    split; [exact Hp|]. unfold main.
    replace (Nat.ltb (length points) k) with false
      by (symmetry; apply Nat.ltb_ge; lia).
    rewrite Hp. reflexivity.
  - intros e Hp. unfold parsePickArg in Hp. rewrite pickKeys_parts in Hp.
    destruct (pickParts argv) as [[|s0 parts0]|]; try discriminate Hp.
    fold f in Hp.
    destruct (mapM f (s0 :: parts0)) as [keys|e'] eqn:E; cbn [bind] in Hp;
      [discriminate Hp|].
    injection Hp as <-. apply mapM_Err_In in E. destruct E as (a & Ha & Ea).
    destruct (Ferr a e' Ea) as [-> Hl].
    split; [reflexivity|]. exists (s0 :: parts0), a. auto.
  - intros Hparts Hne Hall. unfold parsePickArg.
    rewrite pickKeys_parts, Hparts.
    destruct parts as [|s0 parts0]; [congruence|]. fold f.
    destruct (mapM f (s0 :: parts0)) as [keys|e'] eqn:E; cbn [bind].
    + rewrite (mapM_as_map f 0 (s0 :: parts0) keys E).
      do 3 f_equal. apply map_ext_in. intros a Ha. unfold f.
      rewrite (Hall a Ha). reflexivity.
    + exfalso. apply mapM_Err_In in E. destruct E as (a & Ha & Ea).
      destruct (Ferr a e' Ea) as [_ Hl]. rewrite (Hall a Ha) in Hl.
      discriminate Hl.
  - intros Hk Hp Hl. unfold main.
    replace (Nat.ltb (length points) k) with false
      by (symmetry; apply Nat.ltb_ge; lia).
    rewrite Hp.
    replace (Nat.eqb (length xs) k) with false
      by (symmetry; apply Nat.eqb_neq; exact Hl).
    reflexivity.
  - intros Hk Hp Hl Hmiss.
    rewrite (main_pick k n points argv xs Hp Hl Hk).
    rewrite (pickSubset_missing points xs Hmiss). reflexivity.
Qed.

Lemma main_pick_errors_witness :
  let pts := [Point.mk 1 7; Point.mk 2 9; Point.mk 3 11] in
  main 4 4 pts ["--pick=1,2"%string] = Some (Err NotEnoughPoints) /\
  main 2 3 pts ["--pick=1, x2 ,3"%string] = Some (Err PickNonInteger) /\
  parsePickArg ["--pick= 3,,1 ,3"%string] = Ok (Some [3; 1]) /\
  parsePickArg [("--pick=1," ++ String (ascii_of_nat 160) "2")%string]
  = Ok (Some [1; 2]) /\
  main 2 3 pts ["--pick=1,2,3"%string] = Some (Err PickWrongSize) /\
  main 2 3 pts ["--pick=1,5"%string] = Some (Err PickMissingKey).
Proof.
  cbv zeta.
  split; [|split; [|split; [|split; [|split]]]].
  - apply (proj1 (main_pick_errors 4 4 _ _ [] [])). cbn. lia.
  - apply (proj1 (proj2 (main_pick_errors 2 3 _ ["--pick=1, x2 ,3"%string]
                           ["1"; "x2"; "3"]%string [])));
      [cbn; lia | reflexivity |].
    exists "x2"%string. split; [cbn; tauto | reflexivity].
  - apply (proj1 (proj2 (proj2 (proj2
             (main_pick_errors 2 3 [] ["--pick= 3,,1 ,3"%string]
                ["3"; "1"; "3"]%string []))))).
    + reflexivity.
    + discriminate.
    + intros s [<-|[<-|[<-|[]]]]; reflexivity.
  - apply (proj1 (proj2 (proj2 (proj2
             (main_pick_errors 2 3 []
                [("--pick=1," ++ String (ascii_of_nat 160) "2")%string]
                ["1"; "2"]%string []))))).
    + reflexivity.
    + discriminate.
    + intros s [<-|[<-|[]]]; reflexivity.
  - apply (proj1 (proj2 (proj2 (proj2 (proj2
             (main_pick_errors 2 3 _ ["--pick=1,2,3"%string] []
                [1; 2; 3]))))));
      [cbn; lia | reflexivity | cbn; lia].
  - apply (proj2 (proj2 (proj2 (proj2 (proj2
             (main_pick_errors 2 3 _ ["--pick=1,5"%string] [] [1; 5]))))));
      [cbn; lia | reflexivity | reflexivity |].
    exists 5. split; [cbn; tauto|].
    intros p [<-|[<-|[<-|[]]]]; cbn; lia.
Defined.

(** X17.  The order of the keys of [--pick] does not change the constant:
    of two options that list the same keys in different orders, one prints a
    constant exactly when the other does, and it is the same constant; one
    fails exactly when the other does, with an error of the same kind.  (The
    kind leaves the text of the message out: the missing-key message names
    the first missing key of its own list.) *)
Theorem main_pick_order (k n : nat) (points : list Point.t)
  (argv argv' : list string) (xs xs' : list Z)
  (Hp : parsePickArg argv = Ok (Some xs))
  (Hp' : parsePickArg argv' = Ok (Some xs'))
  (HP : Permutation xs xs') :
  (forall w, main k n points argv = Some (Ok w) <->
             main k n points argv' = Some (Ok w)) /\
  (forall e, main k n points argv = Some (Err e) <->
             main k n points argv' = Some (Err e)) /\
  (exists r, main k n points argv = Some r).
Proof.
  enough (E : main k n points argv = main k n points argv'
              /\ exists r, main k n points argv = Some r).
  { destruct E as [E R]. rewrite E. repeat split; auto. rewrite <- E. exact R. }
  split; [|unfold main; destruct (Nat.ltb (length points) k); [eauto|];
           rewrite Hp; destruct (negb (Nat.eqb (length xs) k)); eauto].
  unfold main. destruct (Nat.ltb (length points) k); [reflexivity|].
  rewrite Hp, Hp', (Permutation_length HP).
  destruct (negb (Nat.eqb (length xs') k)); [reflexivity|]. f_equal.
  unfold pickSubset.
  set (f := fun xv : Z => match map_get _ (toStringBI xv) with
                          | Some idx => _
                          | None => _
                          end).
  assert (Ferr : forall a e, f a = Err e -> e = PickMissingKey).
  { intros a e E. exact (proj1 (proj1 (proj2 (pick_one points a)) e E)). }
  destruct (mapM f xs) as [s|e] eqn:E, (mapM f xs') as [s'|e'] eqn:E';
    cbn [bind].
  - rewrite (mapM_as_map f (Point.mk 0 0) xs s E).
    rewrite (mapM_as_map f (Point.mk 0 0) xs' s' E').
    rewrite (constantViaLagrange_perm _ _ (Permutation_map _ HP)).
    reflexivity.
  - exfalso. apply mapM_Err_In in E'. destruct E' as (a & Ha & Ea).
    destruct (mapM_ok_each f xs s E a) as (b & Eb); [|congruence].
    apply (Permutation_in a (Permutation_sym HP)). exact Ha.
  - exfalso. apply mapM_Err_In in E. destruct E as (a & Ha & Ea).
    destruct (mapM_ok_each f xs' s' E' a) as (b & Eb); [|congruence].
    apply (Permutation_in a HP). exact Ha.
  - apply mapM_Err_In in E, E'.
    destruct E as (a & _ & Ea), E' as (a' & _ & Ea').
    rewrite (Ferr a e Ea), (Ferr a' e' Ea'). reflexivity.
Qed.

Lemma main_pick_order_witness :
  let pts := [Point.mk 1 7; Point.mk 2 100; Point.mk 3 11] in
  main 2 3 pts ["--pick= 1 , 3"%string] = Some (Ok "5"%string) /\
  main 2 3 pts ["--pick=7,5"%string] = Some (Err PickMissingKey).
Proof.
  cbv zeta. split.
  - apply (proj1 (main_pick_order 2 3
                    [Point.mk 1 7; Point.mk 2 100; Point.mk 3 11]
                    ["--pick=3,1"%string] ["--pick= 1 , 3"%string]
                    [3; 1] [1; 3] eq_refl eq_refl (perm_swap _ _ _))).
    reflexivity.
  - apply (proj1 (proj2 (main_pick_order 2 3
                           [Point.mk 1 7; Point.mk 2 100; Point.mk 3 11]
                           ["--pick=5,7"%string] ["--pick=7,5"%string]
                           [5; 7] [7; 5] eq_refl eq_refl (perm_swap _ _ _)))).
    reflexivity.
Defined.

(** ** The whole run of [Problem.js] *)

Lemma kCombinations_short {A : Type} (arr : list A) (k : nat) :
  (length arr < k)%nat -> kCombinations arr k = None.
Proof.
  intros Hk. destruct k as [|k']; [lia|].
  unfold kCombinations, kc_init. rewrite seq_S. apply kc_run_last; lia.
Qed.

Lemma subseqs_props {A B : Type} (f : A -> B) (l : list A) :
  forall k s, In s (subseqs k l) ->
              length s = k /\ incl s l /\
              (NoDup (map f l) -> NoDup (map f s)).
Proof.
  induction l as [|a l IH]; intros [|k] s H; cbn [subseqs] in H.
  - destruct H as [<-|[]]. repeat split; [intros x [] | constructor].
  - destruct H.
  - destruct H as [<-|[]]. repeat split; [intros x [] | constructor].
  - apply in_app_or in H. destruct H as [H|H].
    + apply in_map_iff in H. destruct H as (s' & <- & Hs').
      destruct (IH k s' Hs') as (L & I & N). split; [|split].
      * cbn [length]. rewrite L. reflexivity.
      * intros x [<-|Hx]; [left; reflexivity | right; exact (I x Hx)].
      * cbn [map]. intros ND. inversion ND as [|? ? Hnin ND']; subst.
        constructor; [|exact (N ND')].
        intros Hin. apply Hnin. apply in_map_iff in Hin.
        destruct Hin as (x & Ex & Hx). apply in_map_iff.
        exists x. split; [exact Ex | exact (I x Hx)].
    + destruct (IH (S k) s H) as (L & I & N). split; [exact L|]. split.
      * intros x Hx. right. exact (I x Hx).
      * cbn [map]. intros ND. inversion ND; subst. auto.
Qed.

Lemma subseqs_nonempty {A : Type} (l : list A) :
  forall k, (k <= length l)%nat -> subseqs k l <> [].
Proof.
  induction l as [|a l IH]; intros [|k] Hk; cbn [subseqs]; try discriminate.
  - cbn in Hk. lia.
  - cbn [length] in Hk. intros E. apply app_eq_nil in E. destruct E as [E _].
    apply map_eq_nil in E. revert E. apply IH. lia.
Qed.

Lemma first_max_winner_In {A : Type}
  (eq_dec : forall a b : A, {a = b} + {a <> b}) (rs : list A) (w : A) :
  first_max_winner eq_dec rs w -> In w rs.
Proof.
  intros (r1 & r2 & E & _). rewrite E. apply in_or_app. right. left.
  reflexivity.
Qed.

Lemma main_mode (k n : nat) (points : list Point.t) (argv : list string) :
  parsePickArg argv = Ok None -> (k <= length points)%nat ->
  (n = k \/ length points = k ->
   main k n points argv
   = Some (c <- constantViaLagrange (firstn k points) ;; Ok (toStringBI c))) /\
  (n <> k -> length points <> k ->
   main k n points argv = Some (voting points (combs 0 (length points) k))).
Proof.
  intros Hp Hk. split.
  - intros H. unfold main.
    replace (Nat.ltb (length points) k) with false
      by (symmetry; apply Nat.ltb_ge; lia).
    rewrite Hp.
    replace (Nat.eqb n k || Nat.eqb (length points) k)%bool with true;
      [reflexivity|].
    symmetry. apply orb_true_iff. destruct H as [H|H]; [left|right];
      apply Nat.eqb_eq; exact H.
  - intros H1 H2. apply main_voting_mode; [exact Hp | exact H1 | lia].
Qed.

(** X18.  For a threshold [keys.k] that is a natural number, the run of
    [Problem.js] ends, and what it prints is sound: the decimal text of an
    integer that is the interpolated constant of [k] of the given points
    (never the text of a fraction, never [null]).  (The loader takes any
    number for [keys.k]; a threshold that is not a natural number is outside
    this statement.) *)
Theorem main_output_sound (k n : nat) (points : list Point.t)
  (argv : list string) :
  (exists r, main k n points argv = Some r) /\
  (forall w, main k n points argv = Some (Ok w) ->
             exists subset c,
               w = toStringBI c /\ length subset = k /\
               incl subset points /\ constantViaLagrange subset = Ok c).
Proof.
  split.
  - unfold main. destruct (Nat.ltb_spec (length points) k); [eauto|].
    destruct (parsePickArg argv) as [[xs|]|e]; [| |eauto].
    + destruct (negb (Nat.eqb (length xs) k)); eauto.
    + destruct (Nat.eqb n k || Nat.eqb (length points) k)%bool; [eauto|].
      rewrite kCombinations_combs by (rewrite length_seq; lia). eauto.
  - intros w H.
    destruct (Nat.ltb_spec (length points) k) as [Hlt|Hk].
    { unfold main in H.
      replace (Nat.ltb (length points) k) with true in H
        by (symmetry; apply Nat.ltb_lt; lia).
      discriminate. }
    destruct (parsePickArg argv) as [[xs|]|e] eqn:Hp.
    + destruct (Nat.eq_dec (length xs) k) as [Hl|Hl].
      * rewrite (main_pick k n points argv xs Hp Hl Hk) in H.
        destruct (pickSubset points xs) as [subset|e] eqn:Es; cbn [bind] in H;
          [|discriminate].
        destruct (constantViaLagrange subset) as [c|e] eqn:Ec;
          cbn [bind] in H; [|discriminate].
        injection H as <-. exists subset, c.
        destruct (pickSubset_sound points xs subset Es) as [Ls Is].
        repeat split; [lia | exact Is | exact Ec].
      * unfold main in H.
        replace (Nat.ltb (length points) k) with false in H
          by (symmetry; apply Nat.ltb_ge; lia).
        rewrite Hp in H.
        replace (Nat.eqb (length xs) k) with false in H
          by (symmetry; apply Nat.eqb_neq; exact Hl).
        discriminate.
    + destruct (main_mode k n points argv Hp Hk) as [Hd Hv].
      destruct (Nat.eq_dec n k) as [E1|N1];
        [|destruct (Nat.eq_dec (length points) k) as [E2|N2]].
      * rewrite (Hd (or_introl E1)) in H.
        destruct (constantViaLagrange (firstn k points)) as [c|e] eqn:Ec;
          cbn [bind] in H; [|discriminate].
        injection H as <-. exists (firstn k points), c.
        repeat split; [apply firstn_length_le; exact Hk | | exact Ec].
        intros p Hp'. rewrite <- (firstn_skipn k points).
        apply in_or_app. left. exact Hp'.
      * rewrite (Hd (or_intror E2)) in H.
        destruct (constantViaLagrange (firstn k points)) as [c|e] eqn:Ec;
          cbn [bind] in H; [|discriminate].
        injection H as <-. exists (firstn k points), c.
        repeat split; [apply firstn_length_le; exact Hk | | exact Ec].
        intros p Hp'. rewrite <- (firstn_skipn k points).
        apply in_or_app. left. exact Hp'.
      * destruct (main_voting_result k n points argv Hp N1 ltac:(lia))
          as [[_ E]|(c & E & W)]; [congruence|].
        rewrite E in H. injection H as <-.
        apply first_max_winner_In in W. rewrite vote_values_subseqs in W.
        apply in_flat_map in W. destruct W as (subset & Hs & Hc).
        exists subset, c.
        destruct (subseqs_props Point.x points k subset Hs) as (L & I & _).
        repeat split; [exact L | exact I |].
        unfold lag_vote in Hc.
        destruct (constantViaLagrange subset) as [c'|e]; [|destruct Hc].
        destruct Hc as [<-|[]]. reflexivity.
    + unfold main in H.
      replace (Nat.ltb (length points) k) with false in H
        by (symmetry; apply Nat.ltb_ge; lia).
      rewrite Hp in H. discriminate.
Qed.

Lemma main_output_sound_witness :
  exists subset c,
    "5"%string = toStringBI c /\ length subset = 2%nat /\
    incl subset [Point.mk 1 7; Point.mk 2 9; Point.mk 3 11] /\
    constantViaLagrange subset = Ok c.
Proof.
  apply (proj2 (main_output_sound 2 3
                  [Point.mk 1 7; Point.mk 2 9; Point.mk 3 11] [])).
  reflexivity.
Defined.

(** X19.  A unanimous vote: when all the points have distinct abscissas and
    lie on an integer polynomial with at most [k] coefficients, every subset
    votes for its constant term, which the voting branch prints. *)
Theorem main_vote_unanimous (k n : nat) (points : list Point.t)
  (argv : list string) (cs : list Z)
  (Hargv : parsePickArg argv = Ok None)
  (Hn : n <> k) (Hk : (k < length points)%nat)
  (Hdist : NoDup (map Point.x points))
  (Hdeg : (length cs <= k)%nat)
  (Hon : forall p, In p points -> Point.y p = pevalZ cs (Point.x p)) :
  vote_values points (combs 0 (length points) k)
  = repeat (pevalZ cs 0) (binom (length points) k) /\
  main k n points argv = Some (Ok (toStringBI (pevalZ cs 0))).
Proof.
  assert (V : forall s, In s (subseqs k points) ->
                        lag_vote s = [pevalZ cs 0]).
  { intros s Hs.
    destruct (subseqs_props Point.x points k s Hs) as (L & I & N).
    unfold lag_vote. rewrite (constantViaLagrange_exact s cs).
    - reflexivity.
    - exact (N Hdist).
    - lia.
    - intros p Hp. apply Hon. exact (I p Hp). }
  assert (E : vote_values points (combs 0 (length points) k)
              = repeat (pevalZ cs 0) (binom (length points) k)).
  { pose proof (subsetAt_combs points [] k) as HC. cbn [app length] in HC.
    assert (Lc : length (subseqs k points) = binom (length points) k).
    { rewrite <- (combs_length (length points) 0 k).
      rewrite <- (length_map (subsetAt points)), HC, length_map.
      reflexivity. }
    rewrite vote_values_subseqs, <- Lc. clear Lc HC.
    induction (subseqs k points) as [|s l IH]; [reflexivity|].
    cbn [flat_map length repeat]. rewrite (V s (or_introl eq_refl)).
    cbn [app]. f_equal. apply IH. intros s' Hs'. apply V. right. exact Hs'. }
  split; [exact E|].
  destruct (main_voting_result k n points argv Hargv Hn Hk)
    as [[E0 _]|(c & Em & W)].
  - exfalso. rewrite vote_values_subseqs in E0.
    pose proof (subseqs_nonempty points k ltac:(lia)) as NE.
    destruct (subseqs k points) as [|s l]; [congruence|].
    cbn [flat_map] in E0. rewrite (V s (or_introl eq_refl)) in E0.
    discriminate.
  - apply first_max_winner_In in W. rewrite E in W.
    apply repeat_spec in W. subst c. exact Em.
Qed.

Lemma main_vote_unanimous_witness :
  main 2 4 [Point.mk 1 7; Point.mk 2 9; Point.mk 3 11; Point.mk 4 13] []
  = Some (Ok (toStringBI (pevalZ [5; 2] 0))).
Proof.
  apply (main_vote_unanimous 2 4
           [Point.mk 1 7; Point.mk 2 9; Point.mk 3 11; Point.mk 4 13] []
           [5; 2]).
  - reflexivity.
  - lia.
  - cbn. lia.
  - repeat constructor; cbn; intuition lia.
  - cbn. lia.
  - intros p [<-|[<-|[<-|[<-|[]]]]]; reflexivity.
Defined.

(** ** The vote of [Problem.js] with outliers *)

Lemma subseqs_filter {A : Type} (good : A -> bool) (l : list A) :
  forall k, filter (forallb good) (subseqs k l) = subseqs k (filter good l).
Proof.
  induction l as [|a l IH]; intros [|k];
    try (rewrite !subseqs_0; reflexivity); [reflexivity|].
  cbn [subseqs filter].
  - rewrite filter_app, IH.
    assert (E : filter (forallb good) (map (cons a) (subseqs k l))
                = if good a then map (cons a) (subseqs k (filter good l))
                  else []).
    { rewrite <- IH. induction (subseqs k l) as [|s L IHL].
      - destruct (good a); reflexivity.
      - cbn [map filter forallb]. rewrite IHL.
        destruct (good a); cbn [andb]; [|reflexivity].
        destruct (forallb good s); reflexivity. }
    rewrite E. destruct (good a); reflexivity.
Qed.

Lemma subseqs_length (l : list Point.t) (k : nat) :
  length (subseqs k l) = binom (length l) k.
Proof.
  pose proof (subsetAt_combs l [] k) as HC. cbn [app length] in HC.
  rewrite <- (combs_length (length l) 0 k).
  rewrite <- (length_map (subsetAt l)), HC, length_map. reflexivity.
Qed.

Lemma count_two {A : Type} (eq_dec : forall a b : A, {a = b} + {a <> b})
  (l : list A) (w c : A) :
  w <> c -> (count_occ eq_dec l w + count_occ eq_dec l c <= length l)%nat.
Proof.
  intros Hne. induction l as [|a l IH]; [cbn; lia|].
  cbn [count_occ length].
  destruct (eq_dec a w), (eq_dec a c); subst; try lia. congruence.
Qed.

Lemma votes_count (L : list (list Point.t)) (c : Z)
  (good : list Point.t -> bool) :
  (forall s, In s L -> good s = true -> lag_vote s = [c]) ->
  (length (filter good L) <= count_occ Z.eq_dec (flat_map lag_vote L) c)%nat /\
  (length (flat_map lag_vote L) <= length L)%nat.
Proof.
  induction L as [|s L IH]; intros H; [cbn; lia|].
  destruct IH as [I1 I2]; [intros s' Hs'; apply H; right; exact Hs'|].
  cbn [flat_map filter]. rewrite count_occ_app, length_app. cbn [length].
  split.
  - destruct (good s) eqn:G; [|lia].
    rewrite (H s (or_introl eq_refl) G). cbn [count_occ length].
    destruct (Z.eq_dec c c); [lia | congruence].
  - unfold lag_vote at 1. destruct (constantViaLagrange s); cbn [length]; lia.
Qed.

(** X20.  The vote tolerates outliers: when the abscissas are distinct and
    more than half of the [k]-subsets consist only of points of an integer
    polynomial with at most [k] coefficients, the program prints the
    constant term of that polynomial, whatever the other points are. *)
Theorem main_vote_majority (k n : nat) (points : list Point.t)
  (argv : list string) (cs : list Z)
  (Hargv : parsePickArg argv = Ok None)
  (Hn : n <> k) (Hk : (k < length points)%nat)
  (Hdist : NoDup (map Point.x points))
  (Hdeg : (length cs <= k)%nat) :
  let good := fun p => Point.y p =? pevalZ cs (Point.x p) in
  (binom (length points) k < 2 * binom (length (filter good points)) k)%nat ->
  main k n points argv = Some (Ok (toStringBI (pevalZ cs 0))).
Proof.
  intros good Hmaj.
  set (c := pevalZ cs 0).
  set (L := subseqs k points).
  assert (V : forall s, In s L -> forallb good s = true -> lag_vote s = [c]).
  { intros s Hs G.
    destruct (subseqs_props Point.x points k s Hs) as (Ls & I & N).
    unfold lag_vote. rewrite (constantViaLagrange_exact s cs).
    - reflexivity.
    - exact (N Hdist).
    - lia.
    - intros p Hp. rewrite forallb_forall in G. apply Z.eqb_eq.
      exact (G p Hp). }
  destruct (votes_count L c (forallb good) V) as [C1 C2].
  unfold L in C1 at 1. rewrite subseqs_filter, subseqs_length in C1.
  unfold L in C2 at 2. rewrite subseqs_length in C2.
  fold L in C1.
  destruct (main_voting_result k n points argv Hargv Hn Hk)
    as [[E0 _]|(w & Em & W)].
  - exfalso. rewrite vote_values_subseqs in E0. fold L in E0.
    rewrite E0 in C1. cbn [count_occ] in C1. lia.
  - rewrite vote_values_subseqs in W. fold L in W.
    destruct (Z.eq_dec w c) as [->|Hne]; [exact Em|].
    exfalso. destruct W as (r1 & r2 & _ & _ & _ & Wmax).
    pose proof (Wmax c) as Hc.
    pose proof (count_two Z.eq_dec (flat_map lag_vote L) w c Hne). lia.
Qed.

Lemma main_vote_majority_witness :
  main 2 5 [Point.mk 1 7; Point.mk 2 9; Point.mk 3 11; Point.mk 4 13;
            Point.mk 5 100] []
  = Some (Ok (toStringBI (pevalZ [5; 2] 0))).
Proof.
  apply (main_vote_majority 2 5
           [Point.mk 1 7; Point.mk 2 9; Point.mk 3 11; Point.mk 4 13;
            Point.mk 5 100] [] [5; 2]).
  - reflexivity.
  - lia.
  - cbn. lia.
  - repeat constructor; cbn; intuition lia.
  - cbn. lia.
  - cbn. lia.
Defined.

(** ** The Java program against [Problem.js] *)

Lemma java_term_step_zero (subset : list Point.t) (c : Frac.t) (i : nat) :
  lag_den (map Point.x subset) i = 0 ->
  Java.term_step subset c i = Err ZeroDenominator.
Proof.
  intros E. unfold Java.term_step. rewrite java_basis_spec, java_of.
  cbn [bind fst snd]. unfold Java.div. cbn [Frac.n Frac.d].
  rewrite E, Z.mul_0_r. reflexivity.
Qed.

Lemma java_loop_zero (subset : list Point.t) (idxs : list nat) :
  forall c,
    Frac.wf c ->
    (exists i, In i idxs /\ lag_den (map Point.x subset) i = 0) ->
    foldM (Java.term_step subset) idxs c = Err ZeroDenominator.
Proof.
  induction idxs as [|i idxs IH]; intros c W (j & Hj & E).
  - destruct Hj.
  - cbn [foldM].
    destruct (Z.eq_dec (lag_den (map Point.x subset) i) 0) as [Ei|Ni].
    + rewrite java_term_step_zero by exact Ei. reflexivity.
    + destruct (java_term_step_ok subset c i W Ni) as (a1 & E1 & W1 & _).
      rewrite E1. cbn [bind]. apply IH; [exact W1|].
      exists j. split; [|exact E].
      destruct Hj as [->|Hj]; [contradiction | exact Hj].
Qed.

(** X21.  The Java program computes what [Problem.js] computes on the first
    [k] points: the same integer when there is one, the zero-denominator
    exception where the script reports a division by zero (a repeated
    abscissa), the non-integer exception where the script reports a
    non-integer constant; the script has no other outcome.  With fewer than
    [k] points the Java program stops on the sublist bounds. *)
Theorem java_agrees_with_js (points : list Point.t) (k : nat) :
  ((length points < k)%nat ->
   Java.constantTermAtZero points k = Err IndexOutOfBounds) /\
  ((k <= length points)%nat ->
   match constantViaLagrange (firstn k points) with
   | Ok c => Java.constantTermAtZero points k = Ok c
   | Err DivisionByZero =>
       Java.constantTermAtZero points k = Err ZeroDenominator
   | Err NonIntegerConstant =>
       Java.constantTermAtZero points k = Err NonIntegerResult
   | Err _ => False
   end).
Proof.
  split.
  - intros Hk. unfold Java.constantTermAtZero.
    replace (Nat.ltb (length points) k) with true
      by (symmetry; apply Nat.ltb_lt; lia).
    reflexivity.
  - intros Hk. unfold Java.constantTermAtZero.
    replace (Nat.ltb (length points) k) with false
      by (symmetry; apply Nat.ltb_ge; lia).
    set (subset := firstn k points). rewrite java_of. cbn [bind].
    destruct (ListDec.NoDup_dec Z.eq_dec (map Point.x subset)) as [ND|D].
    + destruct (constantViaLagrange_nodup subset ND) as (acc & Wa & Va & Ea).
      destruct (java_loop_ok subset (seq 0 (length subset)) _ wf_zero)
        as (c' & E & W & V).
      { intros i Hi. apply in_seq in Hi.
        apply NoDup_lag_den; [exact ND | rewrite length_map; lia]. }
      rewrite E. cbn [bind].
      assert (Hc : c' = acc).
      { apply Fval_canon; [exact W | exact Wa |].
        rewrite V, Va. unfold lagZ. rewrite length_map.
        unfold Fval. cbn [Frac.n Frac.d]. rewrite inj_0, inj_1.
        field. exact Q_apart_0_1. }
      subst c'. rewrite Ea. unfold Java.toBigIntExact, Frac.isInt.
      destruct (Frac.d acc =? 1); reflexivity.
    + rewrite (constantViaLagrange_dup subset D).
      rewrite java_loop_zero; [reflexivity | exact wf_zero |].
      destruct (dup_lag_den _ D) as (i & Hi & E).
      exists i. split; [|exact E].
      apply in_seq. rewrite length_map in Hi. lia.
Qed.

Lemma java_agrees_with_js_witness :
  Java.constantTermAtZero [Point.mk 1 7; Point.mk 1 9] 3
  = Err IndexOutOfBounds /\
  match constantViaLagrange (firstn 2 [Point.mk 1 7; Point.mk 1 9]) with
  | Ok c => Java.constantTermAtZero [Point.mk 1 7; Point.mk 1 9] 2 = Ok c
  | Err DivisionByZero =>
      Java.constantTermAtZero [Point.mk 1 7; Point.mk 1 9] 2
      = Err ZeroDenominator
  | Err NonIntegerConstant =>
      Java.constantTermAtZero [Point.mk 1 7; Point.mk 1 9] 2
      = Err NonIntegerResult
  | Err _ => False
  end.
Proof.
  destruct (java_agrees_with_js [Point.mk 1 7; Point.mk 1 9] 3) as [A _].
  destruct (java_agrees_with_js [Point.mk 1 7; Point.mk 1 9] 2) as [_ B].
  split; [apply A; cbn; lia | apply B; cbn; lia].
Defined.

(** ** The linear solver *)

Lemma gauss_col_singular (k : nat) (M : matrix) (col : nat) :
  wfM k M -> (col < k)%nat ->
  (forall r, (col <= r)%nat -> (r < k)%nat -> den M r col = 0%Qc) ->
  gauss_col k M col = Err SingularMatrix.
Proof.
  intros W Hcol Hz. unfold gauss_col.
  destruct (find_pivot_spec k M col (seq col (k - col)) W ltac:(lia))
    as (res & Ef & Hres).
  { intros r Hr. apply in_seq in Hr. lia. }
  rewrite Ef. cbn [bind].
  destruct res as [piv|].
  - destruct Hres as [Hin Hne]. apply in_seq in Hin. exfalso. apply Hne.
    apply Hz; lia.
  - destruct (getM_ok k M col col W Hcol ltac:(lia)) as (e & Ee & We & Ve).
    rewrite Ee. cbn [bind].
    assert (Z0 : Frac.n e = 0).
    { apply Fval_zero_iff; [exact We|]. rewrite Ve. apply Hz; lia. }
    rewrite Z0. reflexivity.
Qed.

(** Every solution of the system before the round solves the system after
    it. *)
Lemma SolImp_step_rev (k col piv : nat) (D : nat -> nat -> Qc) :
  Ech k col D -> (col <= piv)%nat -> (piv < k)%nat ->
  SolImp k (gstepD col piv D) D.
Proof.
  intros [E1 E2] Hp1 Hp2 v Hv.
  set (D1 := swapD col piv D). set (D2 := normD col D1).
  assert (Hcol : (col < k)%nat) by lia.
  assert (S1 : forall r, (r < k)%nat -> rowsum k D1 v r = 0%Qc).
  { intros r Hr.
    change (rowsum k D v (swapi col piv r) = 0%Qc).
    apply Hv. apply swapi_lt; lia. }
  assert (Z1 : forall c, (c < col)%nat -> D1 col c = 0%Qc).
  { intros c Hc. unfold D1, swapD, swapi. rewrite Nat.eqb_refl.
    apply E2; lia. }
  assert (S2 : forall r, (r < k)%nat -> rowsum k D2 v r = 0%Qc).
  { intros r Hr. destruct (Nat.eq_dec r col) as [->|Hrc].
    - rewrite (rowsum_lin k D1 D2 v col col col (/ D1 col col)%Qc 0%Qc).
      + rewrite S1 by exact Hcol. ring.
      + intros c Hc. unfold D2, normD. rewrite Nat.eqb_refl. cbn [andb].
        destruct (Nat.leb_spec col c) as [Hle|Hgt].
        * unfold Qcdiv. ring.
        * rewrite (Z1 c Hgt). ring.
    - rewrite (rowsum_lin k D1 D2 v r r r 1%Qc 0%Qc).
      + rewrite S1 by exact Hr. ring.
      + intros c Hc. unfold D2, normD.
        replace (Nat.eqb r col) with false
          by (symmetry; apply Nat.eqb_neq; lia).
        cbn [andb]. ring. }
  assert (Z2 : forall c, (c < col)%nat -> D2 col c = 0%Qc).
  { intros c Hc. unfold D2, normD.
    replace (Nat.leb col c) with false by (symmetry; apply Nat.leb_gt; lia).
    rewrite andb_false_r. apply Z1. exact Hc. }
  intros r Hr. unfold gstepD. fold D1. fold D2.
  destruct (Nat.ltb_spec col r) as [Hlt|Hge].
  - rewrite (rowsum_lin k D2 (elimD col D2) v r r col 1%Qc (- D2 r col)%Qc).
    + rewrite !S2 by lia. ring.
    + intros c Hc. unfold elimD.
      replace (Nat.ltb col r) with true by (symmetry; apply Nat.ltb_lt; lia).
      cbn [andb].
      destruct (Nat.leb_spec col c) as [Hle|Hgt]; [ring|].
      rewrite (Z2 c Hgt). ring.
  - rewrite (rowsum_lin k D2 (elimD col D2) v r r r 1%Qc 0%Qc).
    + rewrite S2 by exact Hr. ring.
    + intros c Hc. unfold elimD.
      replace (Nat.ltb col r) with false by (symmetry; apply Nat.ltb_ge; lia).
      cbn [andb]. ring.
Qed.

Lemma SolImp_agree_l (k : nat) (D1 D1' D2 : nat -> nat -> Qc) :
  agree k D1 D1' -> SolImp k D1 D2 -> SolImp k D1' D2.
Proof.
  intros A H v Hv r Hr.
  rewrite <- (rowsum_agree k D1 D1' v r A Hr). exact (H v Hv r Hr).
Qed.

(** A system in echelon form has only the zero solution. *)
Lemma Ech_NonSing (k : nat) (D : nat -> nat -> Qc) : Ech k k D -> NonSing k D.
Proof.
  intros [E1 E2] v Hv H.
  assert (G : forall j c, (k - j <= c)%nat -> (c < k)%nat -> v c = 0%Qc).
  { induction j as [|j IH]; intros c H1 H2; [lia|].
    destruct (Nat.eq_dec c (k - S j)) as [Ec|Nc]; [|apply IH; lia].
    pose proof (H c H2) as R. unfold rowsum in R.
    rewrite (qsum_map_ext _ (fun c' => if Nat.eqb c' c then v c else 0%Qc))
      in R.
    - rewrite qsum_single in R by lia. exact R.
    - intros c' Hc'. apply in_seq in Hc'.
      destruct (Nat.lt_trichotomy c' c) as [Hlt|[->|Hgt]].
      + rewrite (E2 c' c) by lia.
        replace (Nat.eqb c' c) with false
          by (symmetry; apply Nat.eqb_neq; lia).
        ring.
      + rewrite Nat.eqb_refl, (E1 c) by lia. ring.
      + replace (Nat.eqb c' c) with false
          by (symmetry; apply Nat.eqb_neq; lia).
        destruct (Nat.eq_dec c' k) as [->|Nk]; [rewrite Hv; ring|].
        rewrite (IH c') by lia. ring. }
  intros c Hc. apply (G k c); lia.
Qed.

(** The forward elimination on any well-formed system: it ends in echelon
    form on a system with the same solutions, or it stops on a column
    without pivot, and then the homogeneous system has a non-zero
    solution. *)
Lemma gauss_loop_gen (k : nat) (M0 : matrix) :
  forall n col M,
    (col + n = k)%nat -> wfM k M -> Ech k col (den M) ->
    SolImp k (den M0) (den M) -> SolImp k (den M) (den M0) ->
    (exists M',
        foldM (gauss_col k) (seq col n) M = Ok M' /\ wfM k M' /\
        Ech k k (den M') /\
        SolImp k (den M0) (den M') /\ SolImp k (den M') (den M0)) \/
    (foldM (gauss_col k) (seq col n) M = Err SingularMatrix /\
     exists w : nat -> Qc,
       w k = 0%Qc /\ (exists c, (c < k)%nat /\ w c <> 0%Qc) /\
       forall r, (r < k)%nat -> rowsum k (den M0) w r = 0%Qc).
Proof.
  induction n as [|n IH]; intros col M Hn W E S0 S1.
  - left. exists M. replace col with k in E by lia. auto.
  - cbn [seq foldM].
    destruct (gauss_col_spec k M col W ltac:(lia))
      as [Hz|(piv & M1 & E1 & W1 & Hp1 & Hp2 & Hne & A1)].
    + right. rewrite (gauss_col_singular k M col W ltac:(lia) Hz).
      split; [reflexivity|].
      destruct (no_pivot_kernel k col (den M) ltac:(lia) E Hz)
        as (w & Hw1 & Hw2 & Hw3).
      exists w. split; [exact Hw2|]. split; [|exact (S0 w Hw3)].
      exists col. split; [lia|]. rewrite Hw1. intros Z0.
      exact (Q_apart_0_1 Z0).
    + rewrite E1. cbn [bind]. apply IH; [lia | exact W1 | | |].
      * apply (Ech_agree k (S col) (gstepD col piv (den M)));
          [apply agree_sym; exact A1|].
        apply Ech_step; assumption.
      * apply (SolImp_agree_r k _ (gstepD col piv (den M)));
          [apply agree_sym; exact A1|].
        apply (SolImp_trans k _ (den M)); [exact S0|].
        apply SolImp_step; assumption.
      * apply (SolImp_trans k _ (den M)); [|exact S1].
        apply (SolImp_agree_l k (gstepD col piv (den M)));
          [apply agree_sym; exact A1|].
        apply SolImp_step_rev; assumption.
Qed.

(** The solver on a well-formed augmented system: a solution, of a system
    that has no other, or the singular-matrix error, on a system whose
    homogeneous part has a non-zero solution. *)
Lemma solveFracSystem_gen (A : matrix) (b : list Frac.t) :
  wfM (length A) (augment A b) ->
  let k := length A in
  let D0 := den (augment A b) in
  (exists x,
      solveFracSystem A b = Ok x /\ wfX k x /\
      (forall r, (r < k)%nat ->
                 rowsum k D0 (fun c => if Nat.ltb c k then denX x c
                                       else (- (1))%Qc) r = 0%Qc) /\
      NonSing k D0) \/
  (solveFracSystem A b = Err SingularMatrix /\
   exists w : nat -> Qc,
     w k = 0%Qc /\ (exists c, (c < k)%nat /\ w c <> 0%Qc) /\
     forall r, (r < k)%nat -> rowsum k D0 w r = 0%Qc).
Proof.
  intros W0 k D0. unfold solveFracSystem. fold k.
  set (M0 := augment A b) in *.
  destruct (gauss_loop_gen k M0 k 0%nat M0 ltac:(lia) W0)
    as [(M' & EM & WM & EchM & SM & SM')|(EM & Hker)].
  { split; intros; lia. }
  { apply SolImp_refl. }
  { apply SolImp_refl. }
  - left. rewrite EM. cbn [bind]. rewrite zero_vector. cbn [bind].
    destruct (back_loop k M' WM k (map (fun _ => Frac.mk 0 1) (seq 0 k)))
      as (x & Ex & Wx & Bx).
    { lia. }
    { split; [rewrite length_map, length_seq; reflexivity|].
      apply Forall_forall. intros e He. apply in_map_iff in He.
      destruct He as (? & <- & _). exact wf_zero. }
    { intros r H1 H2. lia. }
    exists x. split; [exact Ex|]. split; [exact Wx|]. split.
    + intros r Hr. apply SM; [|exact Hr]. apply back_solution; assumption.
    + intros v Hv H. apply (Ech_NonSing k (den M') EchM v Hv).
      apply SM'. exact H.
  - right. rewrite EM. split; [reflexivity | exact Hker].
Qed.

Lemma nth_error_combine_seq {T : Type} (A : list T) :
  forall s r row,
    nth_error A r = Some row ->
    nth_error (combine A (seq s (length A))) r = Some (row, (s + r)%nat).
Proof.
  induction A as [|a A IH]; intros s [|r] row H; cbn in H; try discriminate.
  - injection H as <-. cbn. rewrite Nat.add_0_r. reflexivity.
  - cbn [length seq combine nth_error]. rewrite (IH (S s) r row H).
    f_equal. f_equal. lia.
Qed.

Lemma augment_row (A : matrix) (b : list Frac.t) (r : nat)
  (row : list Frac.t) (v : Frac.t) :
  nth_error A r = Some row -> nth_error b r = Some v ->
  nth_error (augment A b) r = Some (row ++ [v]).
Proof.
  intros Ha Hb. unfold augment.
  rewrite nth_error_map, (nth_error_combine_seq A 0 r row Ha).
  cbn [option_map fst snd Nat.add]. rewrite Hb. reflexivity.
Qed.

Lemma augment_wf (A : matrix) (b : list Frac.t) :
  Forall (fun row => length row = length A /\ Forall Frac.wf row) A ->
  length b = length A -> Forall Frac.wf b ->
  wfM (length A) (augment A b) /\
  (forall r c, (r < length A)%nat -> (c < length A)%nat ->
               den (augment A b) r c = den A r c) /\
  (forall r, (r < length A)%nat ->
             den (augment A b) r (length A) = denX b r).
Proof.
  intros FA Lb Fb. set (k := length A) in *.
  assert (Row : forall r, (r < k)%nat ->
            exists row v, nth_error A r = Some row /\ nth_error b r = Some v /\
                          length row = k /\ Forall Frac.wf row /\ Frac.wf v /\
                          nth_error (augment A b) r = Some (row ++ [v])).
  { intros r Hr.
    destruct (nth_error A r) as [row|] eqn:Ea;
      [|apply nth_error_None in Ea; fold k in Ea; lia].
    destruct (nth_error b r) as [v|] eqn:Eb;
      [|apply nth_error_None in Eb; lia].
    exists row, v. rewrite Forall_forall in FA, Fb.
    destruct (FA row (nth_error_In _ _ Ea)) as [L F].
    split; [reflexivity|]. split; [reflexivity|]. split; [exact L|].
    split; [exact F|]. split.
    - apply Fb. exact (nth_error_In _ _ Eb).
    - apply augment_row; assumption. }
  assert (La : length (augment A b) = k).
  { unfold augment. rewrite length_map, length_combine, length_seq.
    fold k. lia. }
  split; [|split].
  - split; [exact La|]. apply Forall_forall. intros row' Hin.
    apply In_nth_error in Hin. destruct Hin as (r & Er).
    assert (Hr : (r < k)%nat).
    { rewrite <- La. apply nth_error_Some. congruence. }
    destruct (Row r Hr) as (row & v & _ & _ & L & F & Wv & E).
    rewrite E in Er. injection Er as <-. split.
    + rewrite length_app. cbn [length]. lia.
    + apply Forall_app. split; [exact F | constructor; [exact Wv | constructor]].
  - intros r c Hr Hc.
    destruct (Row r Hr) as (row & v & Ea & _ & L & _ & _ & E).
    unfold den, getM. rewrite E, Ea.
    rewrite nth_error_app1 by lia. reflexivity.
  - intros r Hr.
    destruct (Row r Hr) as (row & v & _ & Eb & L & _ & _ & E).
    unfold den, denX, getM. rewrite E, Eb.
    rewrite nth_error_app2 by lia. rewrite L, Nat.sub_diag. reflexivity.
Qed.

Lemma rowsum_dotrow (A : matrix) (b : list Frac.t) (w : nat -> Qc) (r : nat) :
  Forall (fun row => length row = length A /\ Forall Frac.wf row) A ->
  length b = length A -> Forall Frac.wf b -> (r < length A)%nat ->
  rowsum (length A) (den (augment A b)) w r
  = (dotrow (length A) A w r + denX b r * w (length A))%Qc.
Proof.
  intros FA Lb Fb Hr.
  destruct (augment_wf A b FA Lb Fb) as (_ & D1 & D2).
  unfold rowsum, dotrow. rewrite seq_S, map_app, qsum_app. cbn [Nat.add map].
  rewrite qsum_cons, qsum_nil, (D2 r Hr).
  rewrite (qsum_map_ext _ (fun c => (den A r c * w c)%Qc) (seq 0 (length A))).
  - ring.
  - intros c Hc. apply in_seq in Hc. rewrite D1 by lia. reflexivity.
Qed.

(** X22.  The solver is correct and complete on every square system of
    fractions in lowest terms [A x = b]: either it returns a vector [x] of
    fractions in lowest terms with [A x = b], and the system has no other
    solution; or it stops with the singular-matrix error, and then [A v = 0]
    has a non-zero solution [v].  It raises no other error. *)
Theorem solveFracSystem_correct (A : matrix) (b : list Frac.t)
  (HA : Forall (fun row => length row = length A /\ Forall Frac.wf row) A)
  (Hb : length b = length A) (Hwf : Forall Frac.wf b) :
  let k := length A in
  (exists x,
      solveFracSystem A b = Ok x /\ length x = k /\ Forall Frac.wf x /\
      (forall r, (r < k)%nat -> dotrow k A (denX x) r = denX b r) /\
      (forall v : nat -> Qc,
          (forall r, (r < k)%nat -> dotrow k A v r = 0%Qc) ->
          forall c, (c < k)%nat -> v c = 0%Qc)) \/
  (solveFracSystem A b = Err SingularMatrix /\
   exists v : nat -> Qc,
     (exists c, (c < k)%nat /\ v c <> 0%Qc) /\
     forall r, (r < k)%nat -> dotrow k A v r = 0%Qc).
Proof.
  intros k. rename HA into FA, Hb into Lb, Hwf into Fb.
  destruct (augment_wf A b FA Lb Fb) as (W0 & _ & _).
  destruct (solveFracSystem_gen A b W0)
    as [(x & Ex & [Lx Fx] & Sx & NS)|(E & w & Hw & Hc & Hr)].
  - left. exists x. split; [exact Ex|]. split; [exact Lx|].
    split; [exact Fx|]. split.
    + intros r Hr. pose proof (Sx r Hr) as R.
      rewrite (rowsum_dotrow A b _ r FA Lb Fb Hr), Nat.ltb_irrefl in R.
      assert (Ed : dotrow (length A) A
                     (fun c => if Nat.ltb c (length A) then denX x c
                               else (- (1))%Qc) r
                   = dotrow k A (denX x) r).
      { unfold dotrow. apply qsum_map_ext. intros c Hc. apply in_seq in Hc.
        replace (Nat.ltb c (length A)) with true
          by (symmetry; apply Nat.ltb_lt; lia).
        reflexivity. }
      rewrite Ed in R. apply Qc_sub_zero. rewrite <- R. ring.
    + intros v Hv c Hc.
      set (w := fun c => if Nat.ltb c k then v c else 0%Qc).
      assert (Wk : w k = 0%Qc) by (unfold w; rewrite Nat.ltb_irrefl; reflexivity).
      assert (Ec : w c = v c).
      { unfold w. replace (Nat.ltb c k) with true
          by (symmetry; apply Nat.ltb_lt; lia). reflexivity. }
      rewrite <- Ec. apply (NS w Wk); [|exact Hc].
      intros r Hr. rewrite (rowsum_dotrow A b _ r FA Lb Fb Hr). fold k.
      assert (Ed : dotrow k A w r = dotrow k A v r).
      { unfold dotrow. apply qsum_map_ext. intros c' Hc'.
        apply in_seq in Hc'. unfold w.
        replace (Nat.ltb c' k) with true
          by (symmetry; apply Nat.ltb_lt; lia).
        reflexivity. }
      rewrite Ed, (Hv r Hr), Wk. ring.
  - right. split; [exact E|]. exists w. split; [exact Hc|].
    intros r Hr'. pose proof (Hr r Hr') as R.
    rewrite (rowsum_dotrow A b _ r FA Lb Fb Hr'), Hw in R.
    rewrite Qcmult_0_r, Qcplus_0_r in R. exact R.
Qed.

Lemma solveFracSystem_correct_witness :
  let A := [[Frac.mk 1 1; Frac.mk 1 1]; [Frac.mk 1 1; Frac.mk 2 1]] in
  let b := [Frac.mk 3 1; Frac.mk 5 1] in
  (exists x,
      solveFracSystem A b = Ok x /\ length x = 2%nat /\ Forall Frac.wf x /\
      (forall r, (r < 2)%nat -> dotrow 2 A (denX x) r = denX b r) /\
      (forall v : nat -> Qc,
          (forall r, (r < 2)%nat -> dotrow 2 A v r = 0%Qc) ->
          forall c, (c < 2)%nat -> v c = 0%Qc)) \/
  (solveFracSystem A b = Err SingularMatrix /\
   exists v : nat -> Qc,
     (exists c, (c < 2)%nat /\ v c <> 0%Qc) /\
     forall r, (r < 2)%nat -> dotrow 2 A v r = 0%Qc).
Proof.
  apply (solveFracSystem_correct
           [[Frac.mk 1 1; Frac.mk 1 1]; [Frac.mk 1 1; Frac.mk 2 1]]
           [Frac.mk 3 1; Frac.mk 5 1]).
  - repeat (apply Forall_cons || apply Forall_nil);
      (split; [reflexivity|]);
      repeat (apply Forall_cons || apply Forall_nil); apply wf_int.
  - reflexivity.
  - repeat (apply Forall_cons || apply Forall_nil); apply wf_int.
Defined.

(** ** The solver on Vandermonde systems *)

Lemma padd_nth (p : list Qc) :
  forall q i, nth i (padd p q) 0%Qc = (nth i p 0 + nth i q 0)%Qc.
Proof.
  induction p as [|a p IH]; intros [|b q] [|i]; cbn [padd nth];
    try ring; apply IH.
Qed.

Lemma plin_prod_monic (l : list Qc) : nth (length l) (plin_prod l) 0%Qc = 1%Qc.
Proof.
  induction l as [|a l IH]; [reflexivity|].
  cbn [plin_prod fold_right length]. fold (plin_prod l). unfold pmul_lin.
  rewrite padd_nth. cbn [nth]. rewrite IH.
  rewrite (nth_overflow (pscale (- a) (plin_prod l)))
    by (rewrite pscale_length, plin_prod_length; lia).
  ring.
Qed.

Lemma map_rev_seq (w : nat -> Qc) (q : list Qc) (k : nat) :
  length q = k ->
  (forall i, (i < k)%nat -> w (k - 1 - i)%nat = nth i q 0%Qc) ->
  map w (rev (seq 0 k)) = q.
Proof.
  intros L H. apply nth_error_ext. intros n.
  rewrite nth_error_map, nth_error_rev, length_seq.
  destruct (Nat.ltb_spec n k) as [Hlt|Hge].
  - rewrite nth_error_seq.
    replace (Nat.ltb (k - S n) k) with true
      by (symmetry; apply Nat.ltb_lt; lia).
    cbn [option_map Nat.add].
    replace (k - S n)%nat with (k - 1 - n)%nat by lia.
    rewrite (H n Hlt). symmetry. apply nth_error_nth'. lia.
  - cbn [option_map]. symmetry. apply nth_error_None. lia.
Qed.

(** With a repeated abscissa the Vandermonde system has a non-zero
    solution of its homogeneous part: the coefficients of the product of
    the [X - x_r] over all rows but one of the repeated ones. *)
Lemma vander_dup_kernel (xs ys : list Z) :
  ~ NoDup xs ->
  exists w : nat -> Qc,
    w (length xs) = 0%Qc /\ (0 < length xs)%nat /\ w 0%nat <> 0%Qc /\
    forall r, (r < length xs)%nat ->
              rowsum (length xs) (vanderD (length xs) xs ys) w r = 0%Qc.
Proof.
  intros D. destruct (dup_lag_den xs D) as (j & Hj & Ej).
  apply lag_den_zero_iff in Ej.
  set (k := length xs) in *.
  set (l := map inj (remove_at j xs)).
  assert (Ll : length l = (k - 1)%nat).
  { unfold l. rewrite length_map. apply remove_at_length. exact Hj. }
  set (q := plin_prod l).
  assert (Lq : length q = k).
  { unfold q. rewrite plin_prod_length, Ll. lia. }
  set (w := fun c => if Nat.ltb c k then nth (k - 1 - c) q 0%Qc else 0%Qc).
  exists w. split; [|split; [|split]].
  - unfold w. rewrite Nat.ltb_irrefl. reflexivity.
  - lia.
  - unfold w. replace (Nat.ltb 0 k) with true
      by (symmetry; apply Nat.ltb_lt; lia).
    rewrite Nat.sub_0_r, <- Ll. unfold q. rewrite plin_prod_monic.
    intros Z0. symmetry in Z0. exact (Q_apart_0_1 (eq_sym Z0)).
  - intros r Hr. rewrite vander_rowsum.
    rewrite (map_rev_seq w q k Lq).
    + unfold w at 1. rewrite Nat.ltb_irrefl.
      unfold q. rewrite plin_prod_eval.
      rewrite qprod_zero; [ring|].
      apply in_map_iff. exists (inj (nth r xs 0)). split; [ring|].
      unfold l. apply in_map.
      destruct (Nat.eq_dec r j) as [->|Hne]; [exact Ej|].
      apply In_remove_at; assumption.
    + intros i Hi. unfold w.
      replace (Nat.ltb (k - 1 - i) k) with true
        by (symmetry; apply Nat.ltb_lt; lia).
      f_equal. lia.
Qed.

Lemma vander_system (subset : list Point.t) :
  let k := length subset in
  let D0 := den (augment (map (vrowF k) subset) (map rhsF subset)) in
  wfM (length (map (vrowF k) subset))
      (augment (map (vrowF k) subset) (map rhsF subset)) /\
  agree k D0 (vanderD k (map Point.x subset) (map Point.y subset)).
Proof.
  cbv zeta. rewrite augment_map, length_map. split.
  - apply vander_wfM.
  - apply vander_den.
Qed.

Lemma solveFracSystem_vander_dup (subset : list Point.t) :
  ~ NoDup (map Point.x subset) ->
  solveFracSystem (map (vrowF (length subset)) subset) (map rhsF subset)
  = Err SingularMatrix.
Proof.
  intros D. set (k := length subset).
  destruct (vander_system subset) as [W0 A0]. fold k in W0, A0.
  destruct (solveFracSystem_gen _ _ W0)
    as [(x & _ & _ & _ & NS)|(E & _)]; [|exact E].
  exfalso. rewrite length_map in NS. fold k in NS.
  destruct (vander_dup_kernel (map Point.x subset) (map Point.y subset) D)
    as (w & Hw & Hpos & Hw0 & Hr).
  rewrite length_map in Hw, Hpos, Hr. fold k in Hw, Hpos, Hr.
  apply Hw0. apply (NS w Hw); [|exact Hpos].
  intros r Hr'. rewrite (rowsum_agree k _ _ w r A0 Hr'). exact (Hr r Hr').
Qed.

(** X23.  The analogue for the solver of the division by zero of the
    Lagrange computation: on [k >= 1] points with a repeated abscissa the
    system is singular, the attempt throws the singular-matrix error, and
    the vote skips the subset. *)
Theorem solveForIndices_repeated_x (points : list Point.t) (k : nat)
  (idxs : list nat) (subset : list Point.t) (votes : jsmap vote_entry)
  (Hk : (1 <= k)%nat)
  (Hlen : length idxs = k)
  (Hsub : subsetAt points idxs = Ok subset)
  (Hdup : ~ NoDup (map Point.x subset)) :
  solveForIndices points k idxs = Err SingularMatrix /\
  subst_attempt points k idxs = Err SingularMatrix /\
  subst_vote_step points k votes idxs = votes.
Proof.
  assert (Ls : length subset = k).
  { rewrite (subsetAt_length points idxs subset Hsub). exact Hlen. }
  assert (E : solveForIndices points k idxs = Err SingularMatrix).
  { rewrite (solveForIndices_subset points k idxs subset Hk Hsub).
    rewrite <- Ls. apply solveFracSystem_vander_dup. exact Hdup. }
  split; [exact E|].
  assert (E' : subst_attempt points k idxs = Err SingularMatrix).
  { unfold subst_attempt. rewrite E. reflexivity. }
  split; [exact E'|]. unfold subst_vote_step. rewrite E'. reflexivity.
Qed.

Lemma solveForIndices_repeated_x_witness :
  solveForIndices [Point.mk 1 7; Point.mk 2 9; Point.mk 1 8] 2 [0; 2]%nat
  = Err SingularMatrix.
Proof.
  apply (solveForIndices_repeated_x
           [Point.mk 1 7; Point.mk 2 9; Point.mk 1 8] 2 [0; 2]%nat
           [Point.mk 1 7; Point.mk 1 8] []).
  - lia.
  - reflexivity.
  - reflexivity.
  - cbn [map Point.x]. intros ND. inversion ND as [|? ? Hnin _]; subst.
    apply Hnin. left. reflexivity.
Defined.

Lemma rowsum_sub (k : nat) (D : nat -> nat -> Qc) (a b : nat -> Qc) (r : nat) :
  rowsum k D (fun c => (a c - b c)%Qc) r
  = (rowsum k D a r - rowsum k D b r)%Qc.
Proof.
  unfold rowsum.
  rewrite (qsum_map_ext _ (fun c => (D r c * a c
                                     + (- (1)) * (D r c * b c))%Qc)).
  - rewrite qsum_map_add, qsum_map_scale. ring.
  - intros c _. ring.
Qed.

Lemma peval_pad (cs : list Z) (t : Qc) :
  forall k, (length cs <= k)%nat ->
            peval (map (fun i => inj (nth i cs 0)) (seq 0 k)) t
            = peval (map inj cs) t.
Proof.
  induction cs as [|c cs IH]; intros k Hk.
  - cbn [map peval fold_right]. apply all0_eval. apply Forall_forall.
    intros q Hq. apply in_map_iff in Hq. destruct Hq as (i & <- & _).
    destruct i; exact inj_0.
  - destruct k as [|k]; [cbn in Hk; lia|].
    cbn [seq map nth]. rewrite <- seq_shift, map_map. cbn [nth].
    rewrite !peval_cons, (IH k) by (cbn in Hk; lia). reflexivity.
Qed.

(** On points with distinct abscissas that lie on an integer polynomial
    with at most [k] coefficients the solver returns those coefficients. *)
Lemma solveFracSystem_vander_coeffs (subset : list Point.t) (cs : list Z) :
  NoDup (map Point.x subset) ->
  (length cs <= length subset)%nat ->
  (forall p, In p subset -> Point.y p = pevalZ cs (Point.x p)) ->
  solveFracSystem (map (vrowF (length subset)) subset) (map rhsF subset)
  = Ok (map (fun c => Frac.mk (coeffAt cs (length subset) c) 1)
            (seq 0 (length subset))).
Proof.
  intros ND Hdeg Hon. set (k := length subset) in *.
  set (xs := map Point.x subset). set (ys := map Point.y subset).
  assert (Lx : length xs = k) by apply length_map.
  destruct (vander_system subset) as [W0 A0]. fold k xs ys in W0, A0.
  pose proof (vander_NonSing xs ys ND) as NS. rewrite Lx in NS.
  destruct (solveFracSystem_gen _ _ W0)
    as [(x & Ex & Wx & Sx & _)|(_ & w & Hw & (c & Hc & Hne) & Hr)].
  2:{ exfalso. rewrite length_map in Hw, Hc, Hr. fold k in Hw, Hc, Hr.
      apply Hne. apply (NS w Hw); [|exact Hc].
      intros r Hr'. rewrite <- (rowsum_agree k _ _ w r A0 Hr').
      exact (Hr r Hr'). }
  rewrite length_map in Wx, Sx. fold k in Wx, Sx.
  rewrite Ex. f_equal.
  set (vx := fun c => if Nat.ltb c k then denX x c else (- (1))%Qc) in *.
  set (u := fun c => if Nat.ltb c k then inj (coeffAt cs k c)
                     else (- (1))%Qc).
  assert (Ru : forall r, (r < k)%nat ->
                         rowsum k (vanderD k xs ys) u r = 0%Qc).
  { intros r Hr. rewrite vander_rowsum.
    rewrite (map_rev_seq u (map (fun i => inj (nth i cs 0)) (seq 0 k)) k).
    - rewrite (peval_pad cs _ k Hdeg). unfold u at 1.
      rewrite Nat.ltb_irrefl, <- inj_pevalZ.
      unfold xs, ys.
      destruct (nth_map_point Point.x subset r) as [Ex'|]; [|lia].
      destruct (nth_map_point Point.y subset r) as [Ey'|]; [|lia].
      rewrite Ex', Ey', (Hon (nth r subset (Point.mk 0 0)))
        by (apply nth_In; exact Hr).
      ring.
    - rewrite length_map, length_seq. reflexivity.
    - intros i Hi. unfold u, coeffAt.
      replace (Nat.ltb (k - 1 - i) k) with true
        by (symmetry; apply Nat.ltb_lt; lia).
      replace (k - 1 - (k - 1 - i))%nat with i by lia.
      rewrite (nth_indep _ 0%Qc (inj (nth 0 cs 0)))
        by (rewrite length_map, length_seq; exact Hi).
      rewrite (map_nth (fun i => inj (nth i cs 0)) (seq 0 k) 0%nat i).
      rewrite seq_nth by exact Hi. reflexivity. }
  assert (Rx : forall r, (r < k)%nat ->
                         rowsum k (vanderD k xs ys) vx r = 0%Qc).
  { intros r Hr. rewrite <- (rowsum_agree k _ _ vx r A0 Hr).
    exact (Sx r Hr). }
  assert (V : forall c, (c < k)%nat -> denX x c = inj (coeffAt cs k c)).
  { intros c Hc.
    assert (Z0 : (vx c - u c = 0)%Qc).
    { apply (NS (fun c => (vx c - u c)%Qc)); [| |exact Hc].
      - unfold vx, u. rewrite Nat.ltb_irrefl. ring.
      - intros r Hr. rewrite rowsum_sub, (Rx r Hr), (Ru r Hr). ring. }
    apply Qc_sub_zero in Z0. unfold vx, u in Z0.
    replace (Nat.ltb c k) with true in Z0
      by (symmetry; apply Nat.ltb_lt; exact Hc).
    exact Z0. }
  apply nth_error_ext. intros n.
  rewrite nth_error_map, nth_error_seq.
  destruct (Nat.ltb_spec n k) as [Hlt|Hge].
  - cbn [option_map Nat.add].
    destruct (wfX_entry k x n Wx Hlt) as (e & Ee & We & Ve).
    rewrite Ee. f_equal. apply Fval_int; [exact We|].
    rewrite Ve. apply V. exact Hlt.
  - cbn [option_map]. apply nth_error_None. destruct Wx as [L _]. lia.
Qed.

(** X24.  The solver recovers the polynomial: on [k >= 1] points with
    distinct abscissas that lie on an integer polynomial with at most [k]
    coefficients, it returns exactly those coefficients, as integer
    fractions, highest degree first and padded with zeros; the last one is
    the constant term. *)
Theorem solveForIndices_coefficients (points : list Point.t) (k : nat)
  (idxs : list nat) (subset : list Point.t) (cs : list Z)
  (Hk : (1 <= k)%nat)
  (Hlen : length idxs = k)
  (Hsub : subsetAt points idxs = Ok subset)
  (Hdist : NoDup (map Point.x subset))
  (Hdeg : (length cs <= k)%nat)
  (Hon : forall p, In p subset -> Point.y p = pevalZ cs (Point.x p)) :
  solveForIndices points k idxs
  = Ok (map (fun c => Frac.mk (coeffAt cs k c) 1) (seq 0 k)) /\
  coeffAt cs k (k - 1) = pevalZ cs 0.
Proof.
  assert (Ls : length subset = k).
  { rewrite (subsetAt_length points idxs subset Hsub). exact Hlen. }
  split.
  - rewrite (solveForIndices_subset points k idxs subset Hk Hsub).
    rewrite <- Ls. apply solveFracSystem_vander_coeffs; [exact Hdist | lia |].
    exact Hon.
  - unfold coeffAt. rewrite pevalZ_0. f_equal. lia.
Qed.

Lemma solveForIndices_coefficients_witness :
  solveForIndices [Point.mk 1 10; Point.mk 2 21; Point.mk 3 38] 3
                  [0; 1; 2]%nat
  = Ok (map (fun c => Frac.mk (coeffAt [5; 2; 3] 3 c) 1) (seq 0 3)) /\
  map (fun c => Frac.mk (coeffAt [5; 2; 3] 3 c) 1) (seq 0 3)
  = [Frac.mk 3 1; Frac.mk 2 1; Frac.mk 5 1].
Proof.
  split; [|reflexivity].
  apply (proj1 (solveForIndices_coefficients
                  [Point.mk 1 10; Point.mk 2 21; Point.mk 3 38] 3
                  [0; 1; 2]%nat
                  [Point.mk 1 10; Point.mk 2 21; Point.mk 3 38] [5; 2; 3]
                  ltac:(lia) eq_refl eq_refl
                  ltac:(repeat constructor; cbn; intuition lia)
                  ltac:(cbn; lia)
                  ltac:(intros p [<-|[<-|[<-|[]]]]; reflexivity))).
Defined.

(** ** The whole run of the substitution solver *)

Lemma direct_path_used (points : list Point.t) (k : nat) :
  (1 <= k)%nat ->
  let present := presentIndices points consistentXValues in
  let used := if Nat.ltb (length present) k then seq 0 k
              else firstn k present in
  solveBySubstitution points k false =
  Some (cs <- solveForIndices points k used ;; Ok (mkSolution cs used None)) /\
  length used = k.
Proof.
  intros Hk present used. unfold solveBySubstitution. cbn [negb].
  rewrite collectConsistent_spec by (cbn [length]; lia).
  cbn [app]. fold present. cbn zeta. unfold used.
  destruct (Nat.ltb_spec (length present) k) as [Hlt|Hge].
  - replace (Nat.ltb (length present) k) with true
      by (symmetry; apply Nat.ltb_lt; exact Hlt).
    split; [reflexivity | apply length_seq].
  - replace (Nat.ltb (length (firstn k present)) k) with false
      by (symmetry; apply Nat.ltb_ge; rewrite length_firstn; lia).
    split; [reflexivity | rewrite length_firstn; lia].
Qed.

Lemma toString_int_key (a0 : Frac.t) (c : Z) :
  Frac.toString a0 = toStringBI c -> Frac.n a0 = c.
Proof.
  unfold Frac.toString. destruct (Frac.isInt a0).
  - apply toStringBI_inj.
  - intros E. exfalso.
    apply (toStringBI_no_char c "/"%char); [reflexivity | discriminate|].
    rewrite <- E, list_ascii_app. apply in_or_app. right. left. reflexivity.
Qed.

(** X25.  What the solver prints on its direct path.  On the [k >= 1] points
    it selects, when their abscissas are distinct, it prints the numerator
    of the interpolated constant term in lowest terms: the constant term
    itself when that is an integer, which is then also the result of the
    Lagrange computation of [Problem.js] on the same points; and still the
    numerator alone when it is not, where the Lagrange computation stops on
    the non-integer error. *)
Theorem Subst_main_numerator (points : list Point.t) (k : nat)
  (argv : list string) (subset : list Point.t)
  (Hk : (1 <= k)%nat)
  (Hflag : existsb (String.eqb "--find-consistent") argv = false) :
  let present := presentIndices points consistentXValues in
  let used := if Nat.ltb (length present) k then seq 0 k
              else firstn k present in
  subsetAt points used = Ok subset ->
  NoDup (map Point.x subset) ->
  exists a0,
    Frac.wf a0 /\
    Fval a0 = lagZ (map Point.x subset) (map Point.y subset) /\
    Subst.main k points argv = Some (Ok (toStringBI (Frac.n a0))) /\
    lagrangeOn points used =
    (if Frac.isInt a0 then Ok (Frac.n a0) else Err NonIntegerConstant).
Proof.
  intros present used Hsub ND.
  destruct (direct_path_used points k Hk) as [Ed Lu].
  fold present in Ed, Lu. fold used in Ed, Lu.
  assert (Ls : length subset = k).
  { rewrite (subsetAt_length points used subset Hsub). exact Lu. }
  destruct (gauss_vandermonde subset ltac:(lia) ND) as (cs & E & Wc & V).
  rewrite Ls in E, Wc, V.
  destruct (wfX_entry k cs (k - 1) Wc ltac:(lia)) as (a0 & Ea & Wa & Va).
  exists a0. split; [exact Wa|]. split; [rewrite Va; exact V|]. split.
  - unfold Subst.main. rewrite Hflag, Ed.
    rewrite (solveForIndices_subset points k used subset Hk Hsub), E.
    cbn [bind coeffs]. destruct Wc as [Lc _]. rewrite Lc, Ea. reflexivity.
  - unfold lagrangeOn. rewrite Hsub. cbn [bind].
    destruct (constantViaLagrange_nodup subset ND) as (acc & Wacc & Vacc & Eacc).
    rewrite Eacc.
    assert (Hacc : acc = a0).
    { apply Fval_canon; [exact Wacc | exact Wa |]. rewrite Vacc, Va, V.
      reflexivity. }
    rewrite Hacc. reflexivity.
Qed.

Lemma Subst_main_numerator_witness :
  exists a0,
    Frac.wf a0 /\
    Fval a0 = lagZ (map Point.x [Point.mk 1 0; Point.mk 3 1])
                   (map Point.y [Point.mk 1 0; Point.mk 3 1]) /\
    Subst.main 2 [Point.mk 1 0; Point.mk 3 1] [] =
    Some (Ok (toStringBI (Frac.n a0))) /\
    lagrangeOn [Point.mk 1 0; Point.mk 3 1]
               (if Nat.ltb
                     (length (presentIndices [Point.mk 1 0; Point.mk 3 1]
                                             consistentXValues)) 2
                then seq 0 2
                else firstn 2 (presentIndices [Point.mk 1 0; Point.mk 3 1]
                                              consistentXValues)) =
    (if Frac.isInt a0 then Ok (Frac.n a0) else Err NonIntegerConstant).
Proof.
  apply (Subst_main_numerator [Point.mk 1 0; Point.mk 3 1] 2 []
           [Point.mk 1 0; Point.mk 3 1]).
  - lia.
  - reflexivity.
  - reflexivity.
  - cbn [map Point.x]. repeat constructor; cbn; intuition lia.
Defined.

Lemma presentIndices_In (points : list Point.t) (targets : list Z)
  (idx : nat) :
  In idx (presentIndices points targets) ->
  exists t p, In t targets /\ nth_error points idx = Some p /\ Point.x p = t.
Proof.
  unfold presentIndices. intros Hin. apply in_flat_map in Hin.
  destruct Hin as (t & Ht & Hin).
  destruct (findIndex (fun p => Point.x p =? t) points) as [i|] eqn:E;
    [|destruct Hin].
  destruct Hin as [<-|[]].
  destruct (findIndex_spec _ _ _ E) as (p & Hp & Fp & _).
  exists t, p. split; [exact Ht|]. split; [exact Hp|].
  apply Z.eqb_eq. exact Fp.
Qed.

Lemma presentIndices_NoDup (points : list Point.t) (targets : list Z) :
  NoDup targets -> NoDup (presentIndices points targets).
Proof.
  induction 1 as [|t rest Hnin _ IH]; [constructor|].
  change (presentIndices points (t :: rest))
    with (match findIndex (fun p => Point.x p =? t) points with
          | Some idx => [idx]
          | None => []
          end ++ presentIndices points rest).
  destruct (findIndex (fun p => Point.x p =? t) points) as [i|] eqn:E;
    [|exact IH].
  cbn [app]. constructor; [|exact IH].
  intros Hin. destruct (presentIndices_In points rest i Hin)
    as (t' & p' & Ht' & Hp' & Hx').
  destruct (findIndex_spec _ _ _ E) as (p & Hp & Fp & _).
  apply Z.eqb_eq in Fp. rewrite Hp in Hp'. injection Hp' as <-.
  apply Hnin. rewrite <- Fp, Hx'. exact Ht'.
Qed.

Lemma NoDup_firstn {A : Type} (n : nat) (l : list A) :
  NoDup l -> NoDup (firstn n l).
Proof.
  intros H. rewrite <- (firstn_skipn n l) in H.
  exact (NoDup_app_remove_r _ _ H).
Qed.

Lemma In_firstn {A : Type} (n : nat) (l : list A) (a : A) :
  In a (firstn n l) -> In a l.
Proof.
  intros H. rewrite <- (firstn_skipn n l). apply in_or_app. left. exact H.
Qed.

Lemma subsetAt_ok (points : list Point.t) (idxs : list nat) :
  (forall i, In i idxs -> (i < length points)%nat) ->
  exists subset, subsetAt points idxs = Ok subset.
Proof.
  intros H. unfold subsetAt. apply mapM_all_ok. intros i Hi.
  destruct (nth_error points i) as [p|] eqn:E; [eauto|].
  apply nth_error_None in E. specialize (H i Hi). lia.
Qed.

Lemma subsetAt_props (points : list Point.t) (idxs : list nat) :
  forall subset,
    subsetAt points idxs = Ok subset ->
    incl subset points /\
    (NoDup idxs -> NoDup (map Point.x points) -> NoDup (map Point.x subset)) /\
    (forall p, In p subset -> exists i, In i idxs /\ nth_error points i = Some p).
Proof.
  unfold subsetAt. intros subset H. apply mapM_Forall2 in H.
  induction H as [|i p idxs subset Hp _ (I & N & R)].
  - split; [intros p []|]. split; [constructor | intros p []].
  - destruct (nth_error points i) as [p'|] eqn:E; [|discriminate].
    injection Hp as ->.
    split; [|split].
    + intros q [<-|Hq]; [exact (nth_error_In _ _ E) | exact (I q Hq)].
    + intros NDi NDx. inversion NDi as [|? ? Hnin NDi']; subst.
      cbn [map]. constructor; [|exact (N NDi' NDx)].
      intros Hin. apply in_map_iff in Hin. destruct Hin as (q & Exq & Hq).
      destruct (R q Hq) as (j & Hj & Ej).
      apply Hnin.
      assert (Eij : i = j).
      { apply (proj1 (NoDup_nth_error (map Point.x points)) NDx).
        - rewrite length_map. apply nth_error_Some. congruence.
        - rewrite !nth_error_map, E, Ej. cbn [option_map]. congruence. }
      subst j. exact Hj.
    + intros q [<-|Hq].
      * exists i. split; [left; reflexivity | exact E].
      * destruct (R q Hq) as (j & Hj & Ej). exists j.
        split; [right; exact Hj | exact Ej].
Qed.

Lemma consistentXValues_NoDup : NoDup consistentXValues.
Proof.
  unfold consistentXValues.
  repeat (constructor; [cbn [In]; intuition lia|]). constructor.
Qed.

(** X26.  On points with distinct abscissas that all lie on an integer
    polynomial with at most [k] coefficients, [1 <= k <= n], the solver
    prints the constant term of the polynomial, on its direct path and in
    its vote over all subsets alike. *)
Theorem Subst_main_exact (points : list Point.t) (k : nat)
  (argv : list string) (cs : list Z)
  (Hk : (1 <= k <= length points)%nat)
  (Hdist : NoDup (map Point.x points))
  (Hdeg : (length cs <= k)%nat)
  (Hon : forall p, In p points -> Point.y p = pevalZ cs (Point.x p)) :
  Subst.main k points argv = Some (Ok (toStringBI (pevalZ cs 0))).
Proof.
  assert (Att : forall idxs subset,
            length idxs = k -> subsetAt points idxs = Ok subset ->
            NoDup (map Point.x subset) -> incl subset points ->
            solveForIndices points k idxs
            = Ok (map (fun c => Frac.mk (coeffAt cs k c) 1) (seq 0 k))).
  { intros idxs subset Li Hs ND I.
    assert (Ls : length subset = k).
    { rewrite (subsetAt_length points idxs subset Hs). exact Li. }
    rewrite (solveForIndices_subset points k idxs subset ltac:(lia) Hs).
    rewrite <- Ls. apply solveFracSystem_vander_coeffs; [exact ND | lia |].
    intros p Hp. apply Hon. exact (I p Hp). }
  set (res := map (fun c => Frac.mk (coeffAt cs k c) 1) (seq 0 k)) in *.
  assert (Lres : length res = k)
    by (unfold res; rewrite length_map, length_seq; reflexivity).
  assert (Last : nth_error res (k - 1) = Some (Frac.mk (pevalZ cs 0) 1)).
  { unfold res. rewrite nth_error_map, nth_error_seq.
    replace (Nat.ltb (k - 1) k) with true
      by (symmetry; apply Nat.ltb_lt; lia).
    cbn [option_map Nat.add]. unfold coeffAt. rewrite pevalZ_0.
    do 3 f_equal. lia. }
  unfold Subst.main.
  destruct (existsb (String.eqb "--find-consistent") argv).
  - (* the vote *)
    pose proof (kCombinations_combs points k ltac:(lia)) as Hc.
    set (combos := combs 0 (length points) k) in *.
    assert (Hatt : forall idxs, In idxs combos ->
                     subst_attempt points k idxs
                     = Ok (res, toStringBI (pevalZ cs 0))).
    { intros idxs Hin.
      pose proof (subsetAt_combs points [] k) as HC.
      cbn [app length] in HC. fold combos in HC.
      assert (Hs : In (subsetAt points idxs) (map Ok (subseqs k points))).
      { rewrite <- HC. apply in_map. exact Hin. }
      apply in_map_iff in Hs. destruct Hs as (subset & Es & Hsub).
      destruct (subseqs_props Point.x points k subset Hsub) as (L & I & N).
      destruct (combs_valid (length points) 0 k idxs Hin) as (Li & _ & _).
      unfold subst_attempt.
      rewrite (Att idxs subset Li (eq_sym Es) (N Hdist) I). cbn [bind].
      unfold lastKey. rewrite Lres, Last. reflexivity. }
    assert (Hne : combos <> []).
    { intros E0. pose proof (combs_length (length points) 0 k) as Lc.
      fold combos in Lc. rewrite E0 in Lc. cbn [length] in Lc.
      pose proof (subseqs_nonempty points k ltac:(lia)) as NE.
      pose proof (subsetAt_combs points [] k) as HC.
      cbn [app length] in HC. fold combos in HC. rewrite E0 in HC.
      cbn [map] in HC. symmetry in HC. apply map_eq_nil in HC.
      exact (NE HC). }
    destruct (solveBySubstitution points k true) as [[sol|e]|] eqn:Es.
    + destruct (subst_winner points k combos sol Hc Es) as (w & Ew & W).
      apply first_max_winner_In in W. unfold subst_results in W.
      apply in_flat_map in W. destruct W as (idxs & Hin & Hw).
      rewrite (Hatt idxs Hin) in Hw. destruct Hw as [<-|[]].
      cbn [bind]. unfold lastKey in Ew.
      destruct (nth_error (coeffs sol) (length (coeffs sol) - 1)) as [a0|];
        [|discriminate].
      injection Ew as Ew. rewrite (toString_int_key a0 _ Ew). reflexivity.
    + exfalso.
      destruct (solveBySubstitution_vote points k combos Hc) as [_ Ev].
      pose proof Es as Ef. rewrite Ev in Es.
      destruct (subst_pick_best _) as [[? best]|]; [discriminate|].
      injection Es as <-.
      pose proof (proj1 (subst_fails_iff points k combos Hc) Ef) as Ef'.
      destruct combos as [|c0 rest]; [congruence|].
      destruct (Ef' c0 (or_introl eq_refl)) as (e' & Ee').
      rewrite (Hatt c0 (or_introl eq_refl)) in Ee'. discriminate.
    + exfalso.
      destruct (solveBySubstitution_vote points k combos Hc) as [_ Ev].
      rewrite Ev in Es. destruct (subst_pick_best _) as [[? ?]|]; discriminate.
  - (* the direct path *)
    destruct (direct_path_used points k ltac:(lia)) as [Ed Lu].
    set (present := presentIndices points consistentXValues) in *.
    set (used := if Nat.ltb (length present) k then seq 0 k
                 else firstn k present) in *.
    assert (Vu : forall i, In i used -> (i < length points)%nat).
    { intros i Hi. unfold used in Hi.
      destruct (Nat.ltb (length present) k).
      - apply in_seq in Hi. lia.
      - apply In_firstn in Hi.
        destruct (presentIndices_In points _ i Hi) as (t & p & _ & Hp & _).
        apply nth_error_Some. congruence. }
    assert (Nu : NoDup used).
    { unfold used. destruct (Nat.ltb (length present) k).
      - apply seq_NoDup.
      - apply NoDup_firstn. apply presentIndices_NoDup.
        exact consistentXValues_NoDup. }
    destruct (subsetAt_ok points used Vu) as (subset & Hs).
    destruct (subsetAt_props points used subset Hs) as (I & N & _).
    rewrite Ed, (Att used subset Lu Hs (N Nu Hdist) I).
    cbn [bind coeffs]. rewrite Lres, Last. reflexivity.
Qed.

Lemma Subst_main_exact_witness :
  Subst.main 2 [Point.mk 1 7; Point.mk 2 9; Point.mk 3 11]
             ["--find-consistent"%string]
  = Some (Ok (toStringBI (pevalZ [5; 2] 0))).
Proof.
  apply (Subst_main_exact [Point.mk 1 7; Point.mk 2 9; Point.mk 3 11] 2
           ["--find-consistent"%string] [5; 2]).
  - cbn. lia.
  - repeat constructor; cbn; intuition lia.
  - cbn. lia.
  - intros p [<-|[<-|[<-|[]]]]; reflexivity.
Defined.



Lemma map_has_set {V : Type} (m : jsmap V) (k k' : string) (v : V) :
  map_has m k' = true -> map_has (map_set m k v) k' = true.
Proof.
  unfold map_has. destruct (String.eqb_spec k k') as [->|Hne].
  - rewrite map_get_set_same. reflexivity.
  - rewrite map_get_set_other by exact Hne. auto.
Qed.

(** Every entry of the solver's tally keeps the first subset, in the order
    of the enumeration, that voted for its key, with the coefficients
    computed from that subset. *)
Lemma subst_votes_first (points : list Point.t) (k : nat)
  (combos : list (list nat)) :
  forall (done : list (list nat)) (votes : jsmap vote_entry),
    (forall key e, In (key, e) votes ->
       exists c1 c2,
         done = c1 ++ example_idxs e :: c2 /\
         subst_attempt points k (example_idxs e) = Ok (example_coeffs e, key) /\
         forall idxs cs', In idxs c1 ->
                          subst_attempt points k idxs <> Ok (cs', key)) ->
    (forall idxs cs' key, In idxs done ->
       subst_attempt points k idxs = Ok (cs', key) ->
       map_has votes key = true) ->
    forall key e,
      In (key, e) (fold_left (subst_vote_step points k) combos votes) ->
      exists c1 c2,
        done ++ combos = c1 ++ example_idxs e :: c2 /\
        subst_attempt points k (example_idxs e) = Ok (example_coeffs e, key) /\
        forall idxs cs', In idxs c1 ->
                         subst_attempt points k idxs <> Ok (cs', key).
Proof.
  induction combos as [|idxs combos IH]; intros done votes Inv Cpl key e Hin.
  - rewrite app_nil_r. exact (Inv key e Hin).
  - cbn [fold_left] in Hin.
    replace (done ++ idxs :: combos) with ((done ++ [idxs]) ++ combos)
      by (rewrite <- app_assoc; reflexivity).
    apply (IH (done ++ [idxs]) (subst_vote_step points k votes idxs));
      [| |exact Hin]; clear Hin key e.
    + intros key e Hin. unfold subst_vote_step in Hin.
      destruct (subst_attempt points k idxs) as [[cs a0]|err] eqn:Ea.
      * apply In_map_set in Hin. destruct Hin as [[-> ->]|Hin].
        -- cbn [example_idxs example_coeffs].
           destruct (map_get votes a0) as [e0|] eqn:Eg.
           ++ destruct (Inv a0 e0 (map_get_In _ _ _ Eg)) as (c1 & c2 & E & A & F).
              exists c1, (c2 ++ [idxs]). rewrite E, <- app_assoc.
              split; [reflexivity|]. split; [exact A | exact F].
           ++ cbn [example_idxs example_coeffs].
              exists done, []. split; [reflexivity|]. split; [exact Ea|].
              intros idxs' cs' Hi Hatt.
              pose proof (Cpl idxs' cs' a0 Hi Hatt) as Hh.
              unfold map_has in Hh. rewrite Eg in Hh. discriminate.
        -- destruct (Inv key e Hin) as (c1 & c2 & E & A & F).
           exists c1, (c2 ++ [idxs]). rewrite E, <- app_assoc.
           split; [reflexivity|]. split; [exact A | exact F].
      * destruct (Inv key e Hin) as (c1 & c2 & E & A & F).
        exists c1, (c2 ++ [idxs]). rewrite E, <- app_assoc.
        split; [reflexivity|]. split; [exact A | exact F].
    + intros idxs' cs' key Hi Hatt. apply in_app_or in Hi.
      unfold subst_vote_step.
      destruct Hi as [Hi|[<-|[]]].
      * pose proof (Cpl idxs' cs' key Hi Hatt) as Hh.
        destruct (subst_attempt points k idxs) as [[cs a0]|err];
          [apply map_has_set; exact Hh | exact Hh].
      * rewrite Hatt. unfold map_has. rewrite map_get_set_same. reflexivity.
Qed.

(** X28.  What the vote of the solver returns: the indices of the first
    subset, in the order of the enumeration, whose constant term has the
    winning text, the coefficients computed from that subset, and as summary
    the tally of the texts in the order of their first votes. *)
Theorem solveBySubstitution_example (points : list Point.t) (k : nat)
  (combos : list (list nat)) (sol : solution)
  (Hc : kCombinations points k = Some combos)
  (Hs : solveBySubstitution points k true = Some (Ok sol)) :
  exists w c1 c2,
    combos = c1 ++ used_indices sol :: c2 /\
    subst_attempt points k (used_indices sol) = Ok (coeffs sol, w) /\
    (forall idxs cs', In idxs c1 ->
                      subst_attempt points k idxs <> Ok (cs', w)) /\
    votes_summary sol = Some (tally (subst_results points k combos)).
Proof.
  destruct (solveBySubstitution_vote points k combos Hc) as [Ec Es].
  rewrite Es in Hs. clear Es.
  set (votes := fold_left (subst_vote_step points k) combos []) in *.
  destruct (subst_pick_best votes) as [[key best]|] eqn:Eb; [|discriminate].
  injection Hs as <-. cbn [used_indices coeffs votes_summary].
  unfold subst_pick_best in Eb. apply subst_pick_best_In in Eb.
  destruct Eb as [Eb|Eb]; [discriminate|].
  destruct (subst_votes_first points k combos [] []) with (key := key) (e := best)
    as (c1 & c2 & E & A & F).
  - intros ? ? [].
  - intros ? ? ? [].
  - exact Eb.
  - exists key, c1, c2. cbn [app] in E. rewrite Ec. auto.
Qed.

Lemma solveBySubstitution_example_witness :
  exists w c1 c2,
    [[0]; [1]; [2]]%nat
    = c1 ++ used_indices (mkSolution [Frac.mk 7 1] [1]%nat
                            (Some [("5"%string, 1%nat); ("7"%string, 2%nat)]))
         :: c2 /\
    subst_attempt [Point.mk 1 5; Point.mk 2 7; Point.mk 3 7] 1
                  (used_indices (mkSolution [Frac.mk 7 1] [1]%nat
                     (Some [("5"%string, 1%nat); ("7"%string, 2%nat)])))
    = Ok (coeffs (mkSolution [Frac.mk 7 1] [1]%nat
                    (Some [("5"%string, 1%nat); ("7"%string, 2%nat)])), w) /\
    (forall idxs cs', In idxs c1 ->
       subst_attempt [Point.mk 1 5; Point.mk 2 7; Point.mk 3 7] 1 idxs
       <> Ok (cs', w)) /\
    votes_summary (mkSolution [Frac.mk 7 1] [1]%nat
                     (Some [("5"%string, 1%nat); ("7"%string, 2%nat)]))
    = Some (tally (subst_results [Point.mk 1 5; Point.mk 2 7; Point.mk 3 7] 1
                                 [[0]; [1]; [2]]%nat)).
Proof.
  apply (solveBySubstitution_example
           [Point.mk 1 5; Point.mk 2 7; Point.mk 3 7] 1
           [[0]; [1]; [2]]%nat).
  - reflexivity.
  - reflexivity.
Defined.

(** ** Array comparison *)

Lemma arrayEq_loop (a b : list nat) :
  forall s pa pb,
    length pa = s -> length pb = s -> length a = length b ->
    (forallb (fun i => match nth_error (pa ++ a) i, nth_error (pb ++ b) i with
                       | Some u, Some v => Nat.eqb u v
                       | None, None => true
                       | _, _ => false
                       end)
             (seq s (length a)) = true <-> a = b).
Proof.
  revert b. induction a as [|x a IH]; intros [|y b] s pa pb La Lb L;
    try discriminate.
  - split; reflexivity.
  - cbn [length seq forallb].
    rewrite !nth_error_app2 by lia. rewrite La, Lb, Nat.sub_diag.
    cbn [nth_error].
    specialize (IH b (S s) (pa ++ [x]) (pb ++ [y])).
    rewrite <- !app_assoc in IH. cbn [app] in IH.
    rewrite andb_true_iff, IH, Nat.eqb_eq.
    + split; [intros [-> ->]; reflexivity | intros E; injection E; auto].
    + rewrite length_app. cbn [length]. lia.
    + rewrite length_app. cbn [length]. lia.
    + cbn [length] in L. lia.
Qed.

(** X29.  [arrayEq] decides the equality of two index arrays: same length
    and same entries. *)
Theorem arrayEq_spec (a b : list nat) :
  arrayEq a b = true <-> a = b.
Proof.
  unfold arrayEq. destruct (Nat.eqb_spec (length a) (length b)) as [L|L];
    cbn [negb].
  - exact (arrayEq_loop a b 0%nat [] [] eq_refl eq_refl L).
  - split; [discriminate | intros ->; congruence].
Qed.

Lemma arrayEq_spec_witness :
  arrayEq [0; 2; 5]%nat [0; 2; 5]%nat = true /\
  [0; 2]%nat <> [0; 3]%nat.
Proof.
  split.
  - apply (proj2 (arrayEq_spec [0; 2; 5]%nat [0; 2; 5]%nat)). reflexivity.
  - intros E. apply (proj2 (arrayEq_spec [0; 2]%nat [0; 3]%nat)) in E.
    discriminate E.
Defined.

(** ** Failed attempts: when an attempt throws *)

Lemma isInt_value (a : Frac.t) :
  Frac.wf a -> (Frac.isInt a = true <-> exists c, Fval a = inj c).
Proof.
  intros W. split.
  - intros H. unfold Frac.isInt in H. apply Z.eqb_eq in H.
    exists (Frac.n a). destruct a as [na da]. cbn [Frac.d Frac.n] in *.
    subst da. apply Fval_mk_int.
  - intros (c & E). rewrite (Fval_int a c W E). reflexivity.
Qed.

(** [constantViaLagrange] throws on a repeated abscissa (a denominator is
    zero) and on a sum that is not an integer, and in no other case. *)
Lemma constantViaLagrange_cases (subset : list Point.t) :
  let v := lagZ (map Point.x subset) (map Point.y subset) in
  (constantViaLagrange subset = Err DivisionByZero <->
   ~ NoDup (map Point.x subset)) /\
  (constantViaLagrange subset = Err NonIntegerConstant <->
   NoDup (map Point.x subset) /\ forall c, v <> inj c) /\
  (forall c, constantViaLagrange subset = Ok c <->
             NoDup (map Point.x subset) /\ v = inj c).
Proof.
  intros v.
  destruct (ListDec.NoDup_dec Z.eq_dec (map Point.x subset)) as [ND|D].
  - destruct (constantViaLagrange_nodup subset ND) as (acc & W & V & E).
    fold v in V. rewrite E.
    pose proof (isInt_value acc W) as I. rewrite V in I.
    destruct (Frac.isInt acc) eqn:Ei.
    + destruct (proj1 I eq_refl) as (c0 & Ec0).
      assert (En : Frac.n acc = c0).
      { rewrite <- V in Ec0. rewrite (Fval_int acc c0 W Ec0). reflexivity. }
      split; [|split].
      * split; [discriminate | contradiction].
      * split; [discriminate|]. intros [_ H]. exfalso. exact (H c0 Ec0).
      * intros c. split.
        -- intros H. injection H as <-. split; [exact ND|]. rewrite En. exact Ec0.
        -- intros [_ H]. rewrite En. f_equal. apply inj_inj.
           rewrite <- H. symmetry. exact Ec0.
    + split; [|split].
      * split; [discriminate | contradiction].
      * split; [|reflexivity]. intros _. split; [exact ND|].
        intros c H. assert (T : false = true) by (apply I; exists c; exact H).
        discriminate T.
      * intros c. split; [discriminate|]. intros [_ H].
        assert (T : false = true) by (apply I; exists c; exact H).
        discriminate T.
  - rewrite (constantViaLagrange_dup subset D). split; [|split].
    + split; [intros _; exact D | reflexivity].
    + split; [discriminate | intros [ND _]; contradiction].
    + intros c. split; [discriminate | intros [ND _]; contradiction].
Qed.

(** The index subsets of the enumeration select the [k]-element sublists of
    the points. *)
Lemma combs_subsets (points : list Point.t) (k : nat) :
  (forall idxs, In idxs (combs 0 (length points) k) ->
                length idxs = k /\
                exists subset, In subset (subseqs k points) /\
                               subsetAt points idxs = Ok subset) /\
  (forall subset, In subset (subseqs k points) ->
                  exists idxs, In idxs (combs 0 (length points) k) /\
                               length idxs = k /\
                               subsetAt points idxs = Ok subset).
Proof.
  pose proof (subsetAt_combs points [] k) as H. cbn [app length] in H.
  split.
  - intros idxs Hi. split; [exact (proj1 (combs_valid _ _ _ _ Hi))|].
    apply (in_map (subsetAt points)) in Hi. rewrite H in Hi.
    apply in_map_iff in Hi. destruct Hi as (s & E & Hs).
    exists s. split; [exact Hs | symmetry; exact E].
  - intros subset Hs. apply (in_map Ok) in Hs. rewrite <- H in Hs.
    apply in_map_iff in Hs. destruct Hs as (idxs & E & Hi).
    exists idxs. split; [exact Hi|].
    split; [exact (proj1 (combs_valid _ _ _ _ Hi)) | exact E].
Qed.

(** An attempt of the solver throws on a repeated abscissa (the system is
    singular) and in no other case: on distinct abscissas it produces the
    interpolated constant, integral or not, under its printed text. *)
Lemma subst_attempt_cases (points : list Point.t) (k : nat)
  (idxs : list nat) (subset : list Point.t) :
  (1 <= k)%nat -> length idxs = k -> subsetAt points idxs = Ok subset ->
  let v := lagZ (map Point.x subset) (map Point.y subset) in
  (~ NoDup (map Point.x subset) ->
   subst_attempt points k idxs = Err SingularMatrix) /\
  (NoDup (map Point.x subset) ->
   exists cs a0,
     subst_attempt points k idxs = Ok (cs, Frac.toString a0) /\
     Frac.wf a0 /\ Fval a0 = v /\
     (Frac.isInt a0 = true <-> exists c, v = inj c)).
Proof.
  intros Hk L Hs v.
  pose proof (subsetAt_length points idxs subset Hs) as Ls.
  assert (Lk : length subset = k) by lia.
  unfold subst_attempt.
  rewrite (solveForIndices_subset points k idxs subset Hk Hs).
  rewrite <- Lk. split.
  - intros D. rewrite (solveFracSystem_vander_dup subset D). reflexivity.
  - intros ND.
    destruct (gauss_vandermonde subset ltac:(lia) ND) as (cs & E & WX & V).
    rewrite E. cbn [bind].
    destruct (wfX_entry (length subset) cs (length subset - 1) WX ltac:(lia))
      as (a0 & En & W & Ea).
    exists cs, a0. unfold lastKey. rewrite (proj1 WX), En. cbn [bind].
    split; [reflexivity|]. split; [exact W|].
    assert (Ev : Fval a0 = v) by (rewrite Ea; exact V).
    split; [exact Ev|]. rewrite <- Ev. apply isInt_value. exact W.
Qed.

(** C7.  A subset whose attempt throws is skipped: the round leaves the
    tally unchanged and the loop goes on over the remaining subsets.  In
    [Problem.js] an attempt throws exactly when the subset has a repeated
    abscissa (a denominator is zero) or its interpolated constant is not an
    integer, and the run fails with the no-consistent-subset error exactly
    when no subset has distinct abscissas and an integral constant.  The
    substitution solver has no integrality test: for a threshold of at least
    one an attempt throws exactly when the subset has a repeated abscissa
    (the system is singular), a constant that is not an integer is tallied
    under its text [n/d], and the run fails with the no-solvable-subset
    error exactly when every subset has a repeated abscissa. *)
Theorem C7_failed_subsets (k n : nat) (points : list Point.t)
  (argv : list string) (combos : list (list nat)) :
  (forall combo subset,
      subsetAt points combo = Ok subset ->
      let v := lagZ (map Point.x subset) (map Point.y subset) in
      (lagrangeOn points combo = Err DivisionByZero <->
       ~ NoDup (map Point.x subset)) /\
      (lagrangeOn points combo = Err NonIntegerConstant <->
       NoDup (map Point.x subset) /\ forall c, v <> inj c) /\
      (forall c, lagrangeOn points combo = Ok c <->
                 NoDup (map Point.x subset) /\ v = inj c)) /\
  (forall st c1 c2 combo e,
      lagrangeOn points combo = Err e ->
      vote_step points st combo = st /\
      fold_left (vote_step points) (c1 ++ combo :: c2) st =
      fold_left (vote_step points) (c1 ++ c2) st) /\
  (parsePickArg argv = Ok None -> n <> k -> (k < length points)%nat ->
   (main k n points argv = Some (Err NoConsistentSubsets) <->
    forall combo, In combo (combs 0 (length points) k) ->
                  exists e, lagrangeOn points combo = Err e) /\
   (main k n points argv = Some (Err NoConsistentSubsets) <->
    forall subset, In subset (subseqs k points) ->
      ~ (NoDup (map Point.x subset) /\
         exists c, lagZ (map Point.x subset) (map Point.y subset) = inj c))) /\
  ((1 <= k)%nat ->
   forall idxs subset,
     length idxs = k -> subsetAt points idxs = Ok subset ->
     let v := lagZ (map Point.x subset) (map Point.y subset) in
     (subst_attempt points k idxs = Err SingularMatrix <->
      ~ NoDup (map Point.x subset)) /\
     ((exists e, subst_attempt points k idxs = Err e) <->
      ~ NoDup (map Point.x subset)) /\
     (NoDup (map Point.x subset) ->
      exists cs a0,
        subst_attempt points k idxs = Ok (cs, Frac.toString a0) /\
        Frac.wf a0 /\ Fval a0 = v /\
        (Frac.isInt a0 = true <-> exists c, v = inj c))) /\
  (forall votes c1 c2 idxs e,
      subst_attempt points k idxs = Err e ->
      subst_vote_step points k votes idxs = votes /\
      fold_left (subst_vote_step points k) (c1 ++ idxs :: c2) votes =
      fold_left (subst_vote_step points k) (c1 ++ c2) votes) /\
  (kCombinations points k = Some combos ->
   (solveBySubstitution points k true = Some (Err NoSolvableSubsets) <->
    forall idxs, In idxs combos ->
                 exists e, subst_attempt points k idxs = Err e) /\
   ((1 <= k)%nat ->
    (solveBySubstitution points k true = Some (Err NoSolvableSubsets) <->
     forall subset, In subset (subseqs k points) ->
                    ~ NoDup (map Point.x subset)))).
Proof.
  split; [|split; [|split; [|split; [|split]]]].
  - intros combo subset Hs v. unfold lagrangeOn. rewrite Hs. cbn [bind].
    exact (constantViaLagrange_cases subset).
  - intros st c1 c2 combo e E.
    pose proof (vote_step_failed points) as F.
    split; [exact (F st combo e E)|].
    rewrite !fold_left_app. cbn [fold_left]. rewrite (F _ combo e E). reflexivity.
  - intros Hargv Hn Hk.
    assert (A : main k n points argv = Some (Err NoConsistentSubsets) <->
                forall combo, In combo (combs 0 (length points) k) ->
                              exists e, lagrangeOn points combo = Err e).
    { rewrite (main_voting_mode k n points argv Hargv Hn Hk).
      rewrite <- vote_values_nil, <- voting_fails_iff.
      split; [intros H; injection H as H; exact H | intros ->; reflexivity]. }
    split; [exact A|]. rewrite A.
    destruct (combs_subsets points k) as [CS SC]. split.
    + intros H subset Hin [ND (c & Ec)].
      destruct (SC subset Hin) as (idxs & Hi & _ & Hs).
      destruct (H idxs Hi) as (e & He).
      unfold lagrangeOn in He. rewrite Hs in He. cbn [bind] in He.
      destruct (constantViaLagrange_cases subset) as (_ & _ & C).
      rewrite (proj2 (C c) (conj ND Ec)) in He. discriminate He.
    + intros H combo Hi.
      destruct (CS combo Hi) as (_ & subset & Hin & Hs).
      unfold lagrangeOn. rewrite Hs. cbn [bind].
      destruct (constantViaLagrange subset) as [c|e] eqn:Ec; [|eauto].
      exfalso. apply (H subset Hin).
      destruct (constantViaLagrange_cases subset) as (_ & _ & C).
      destruct (proj1 (C c) Ec) as [ND Ev]. split; [exact ND | eauto].
  - intros Hk idxs subset L Hs v.
    destruct (subst_attempt_cases points k idxs subset Hk L Hs) as [D N].
    fold v in N.
    assert (X : (exists e, subst_attempt points k idxs = Err e) ->
                ~ NoDup (map Point.x subset)).
    { intros (e & He) ND. destruct (N ND) as (cs & a0 & E & _).
      rewrite E in He. discriminate He. }
    split; [|split].
    + split; [intros E; apply X; eauto | exact D].
    + split; [exact X | intros E; eauto].
    + exact N.
  - intros votes c1 c2 idxs e E.
    assert (F : forall v, subst_vote_step points k v idxs = v)
      by (intros v; unfold subst_vote_step; rewrite E; reflexivity).
    split; [apply F|].
    rewrite !fold_left_app. cbn [fold_left]. rewrite F. reflexivity.
  - intros Hc. pose proof (subst_fails_iff points k combos Hc) as A.
    split; [exact A|]. intros Hk. rewrite A.
    assert (Hle : (k <= length points)%nat).
    { destruct (Nat.le_gt_cases k (length points)) as [H|H]; [exact H|].
      rewrite (kCombinations_short points k H) in Hc. discriminate Hc. }
    rewrite (kCombinations_combs points k Hle) in Hc. injection Hc as <-.
    destruct (combs_subsets points k) as [CS SC]. split.
    + intros H subset Hin ND.
      destruct (SC subset Hin) as (idxs & Hi & L & Hs).
      destruct (H idxs Hi) as (e & He).
      destruct (subst_attempt_cases points k idxs subset Hk L Hs) as [_ N].
      destruct (N ND) as (cs & a0 & E & _). rewrite E in He. discriminate He.
    + intros H idxs Hi.
      destruct (CS idxs Hi) as (L & subset & Hin & Hs).
      destruct (subst_attempt_cases points k idxs subset Hk L Hs) as [D _].
      exists SingularMatrix. apply D. apply H. exact Hin.
Qed.

Lemma C7_failed_subsets_witness :
  let pts := [Point.mk 1 0; Point.mk 3 1; Point.mk 5 2] in
  (main 2 3 pts [] = Some (Err NoConsistentSubsets) <->
   forall subset, In subset (subseqs 2 pts) ->
     ~ (NoDup (map Point.x subset) /\
        exists c, lagZ (map Point.x subset) (map Point.y subset) = inj c)) /\
  (solveBySubstitution pts 2 true = Some (Err NoSolvableSubsets) <->
   forall subset, In subset (subseqs 2 pts) ->
                  ~ NoDup (map Point.x subset)) /\
  (subst_attempt pts 2 [0; 1]%nat = Err SingularMatrix <->
   ~ NoDup (map Point.x [Point.mk 1 0; Point.mk 3 1])).
Proof.
  destruct (C7_failed_subsets 2 3
              [Point.mk 1 0; Point.mk 3 1; Point.mk 5 2] []
              [[0; 1]; [0; 2]; [1; 2]]%nat) as (_ & _ & A & S & _ & B).
  split; [|split].
  - apply A; [reflexivity | lia | simpl; lia].
  - apply B; [reflexivity | lia].
  - apply (S ltac:(lia) [0; 1]%nat [Point.mk 1 0; Point.mk 3 1]);
      reflexivity.
Defined.

(** C7, the substitution solver has no integrality test: on three
    points of the line [y = (x - 1) / 2] no pair gives an integral constant
    term, yet the vote does not fail. *)
Lemma C7_counterexample :
  let pts := [Point.mk 1 0; Point.mk 3 1; Point.mk 5 2] in
  kCombinations pts 2 = Some [[0; 1]; [0; 2]; [1; 2]]%nat /\
  (forall idxs, In idxs [[0; 1]; [0; 2]; [1; 2]]%nat ->
                subst_integral pts 2 idxs = false) /\
  solveBySubstitution pts 2 true <> Some (Err NoSolvableSubsets) /\
  (exists sol, solveBySubstitution pts 2 true = Some (Ok sol) /\
               lastKey (coeffs sol) = Ok "-1/2"%string) /\
  ~ (solveBySubstitution pts 2 true = Some (Err NoSolvableSubsets) <->
     forall idxs, In idxs [[0; 1]; [0; 2]; [1; 2]]%nat ->
                  subst_integral pts 2 idxs = false).
Proof.
  cbv zeta.
  assert (I : forall idxs, In idxs [[0; 1]; [0; 2]; [1; 2]]%nat ->
                subst_integral [Point.mk 1 0; Point.mk 3 1; Point.mk 5 2] 2 idxs
                = false)
    by (intros idxs [<-|[<-|[<-|[]]]]; reflexivity).
  split; [reflexivity|]. split; [exact I|].
  split; [vm_compute; discriminate|].
  split; [eexists; split; [vm_compute; reflexivity | reflexivity]|].
  intros [_ H]. specialize (H I). vm_compute in H. discriminate H.
Qed.
